(** * The IR node factory of IRNode.cpp: a shallow embedding.

    [IRNode.cpp] builds a hash-consed expression DAG.  Every node lives on the
    C++ heap and is registered in the static vector [allNodes]; three static
    maps unique float constants, int constants and the four implicit
    variables.  The embedding threads that global state explicitly:

    - a pointer [IRNode *] is the position of the node in [allNodes] (every
      constructor starts with [allNodes.push_back(this)], and nothing modelled
      here removes a node);
    - [int] is [Z] with 32-bit wrap-around written out, [float] is an IEEE
      binary32 value of the Standard Library's [SpecFloat];
    - a call returns ([Ok]), exits through [panic]/[assert] ([Fatal]),
      dereferences a missing vector element or node ([Undef]), or is cut off
      by the recursion bound of the model ([Timeout]).

    What [printf] writes is not part of the model. *)

From Stdlib Require Import ZArith Bool List Lia.
From Stdlib Require Import Floats.SpecFloat.
From stdpp Require Import base option list gmap relations.

Open Scope Z_scope.

(** ** Types, opcodes and dependency flags (IRNode.h) *)

(** Modelled from the spec: the two enumerations, which IRNode.h declares
    and src/ does not contain.  The constructors are the names that
    IRNode.cpp uses; their numbering only serves the equality test. *)
Inductive IRType := Int | Float | Bool.

Inductive OpCode :=
  | Const | NoOp | VarX | VarY | VarT | VarC | UnboundVar
  | Plus | Minus | Times | Divide | Power | Mod
  | Sin | Cos | Tan | ASin | ACos | ATan | ATan2
  | Abs | Floor | Ceil | Round | Exp | Log
  | LT | GT | LTE | GTE | EQ | NEQ
  | And | Nand | Or
  | IntToFloat | FloatToInt
  | PlusImm | TimesImm | LoadImm | Load.

Definition type_eqb (a b : IRType) : bool :=
  match a, b with
  | Int, Int | Float, Float | Bool, Bool => true
  | _, _ => false
  end.

Definition op_index (o : OpCode) : Z :=
  match o with
  | Const => 0 | NoOp => 1 | VarX => 2 | VarY => 3 | VarT => 4 | VarC => 5
  | UnboundVar => 6 | Plus => 7 | Minus => 8 | Times => 9 | Divide => 10
  | Power => 11 | Mod => 12 | Sin => 13 | Cos => 14 | Tan => 15 | ASin => 16
  | ACos => 17 | ATan => 18 | ATan2 => 19 | Abs => 20 | Floor => 21
  | Ceil => 22 | Round => 23 | Exp => 24 | Log => 25 | LT => 26 | GT => 27
  | LTE => 28 | GTE => 29 | EQ => 30 | NEQ => 31 | And => 32 | Nand => 33
  | Or => 34 | IntToFloat => 35 | FloatToInt => 36 | PlusImm => 37
  | TimesImm => 38 | LoadImm => 39 | Load => 40
  end.

Definition op_eqb (a b : OpCode) : bool := op_index a =? op_index b.

(** Modelled from the spec: the values of the dependency flags, which
    IRNode.h declares and src/ does not contain.  The spec only says that
    they are six flags of one bitmask; they are taken as six distinct bits. *)
Definition DepT : Z := 1.
Definition DepY : Z := 2.
Definition DepX : Z := 4.
Definition DepC : Z := 8.
Definition DepMem : Z := 16.
Definition DepUnbound : Z := 32.

(** ** Machine numbers *)

(** [int]: 32 bits, two's complement; arithmetic wraps. *)
Definition wrap (z : Z) : Z := (z + 2147483648) mod 4294967296 - 2147483648.

Definition int_add (a b : Z) : Z := wrap (a + b).
Definition int_sub (a b : Z) : Z := wrap (a - b).
Definition int_mul (a b : Z) : Z := wrap (a * b).
Definition int_neg (a : Z) : Z := wrap (- a).
Definition int_or (a b : Z) : Z := Z.lor a b.

(** [float]: IEEE binary32. *)
Definition float := spec_float.
Definition prec : Z := 24.
Definition emax : Z := 128.

Definition fadd : float -> float -> float := SFadd prec emax.
Definition fsub : float -> float -> float := SFsub prec emax.
Definition fmul : float -> float -> float := SFmul prec emax.
Definition fdiv : float -> float -> float := SFdiv prec emax.
Definition feqb : float -> float -> bool := SFeqb.
Definition fltb : float -> float -> bool := SFltb.
Definition fzero : float := S754_zero false.
Definition fone : float := SFone prec emax.

(** [(float)i] rounds to nearest. *)
Definition float_of_int (i : Z) : float := binary_normalize prec emax i 0 false.

(** [(int)f] truncates toward zero; outside the range of [int] the C++
    conversion is undefined and the x86 instruction returns [INT_MIN]. *)
Definition int_of_float (f : float) : Z :=
  match f with
  | S754_zero _ => 0
  | S754_finite s m e =>
      let a := match e with
               | Zneg k => Z.shiftr (Zpos m) (Zpos k)
               | _ => Z.shiftl (Zpos m) e
               end in
      let v := if s then - a else a in
      if (-2147483648 <=? v) && (v <=? 2147483647) then v else -2147483648
  | _ => -2147483648
  end.

(** ** Nodes and the global store *)

(** [IRNode *] *)
Abbreviation ptr := nat (only parsing).

(** The fields that the constructors of IRNode.cpp set; the class itself
    is declared in IRNode.h. *)
Record IRNode := mkNode {
  type : IRType;
  op : OpCode;
  inputs : list ptr;
  outputs : list ptr;
  ival : Z;
  fval : float;
  deps : Z;
  level : Z;
  reg : Z;
  width : Z;
  marked : bool
}.

Record Store := mkStore {
  allNodes : list IRNode;
  floatInstances : list (float * ptr);
  intInstances : gmap Z ptr;
  varInstances : list (OpCode * ptr)
}.

Definition empty_store : Store := mkStore [] [] ∅ [].

(** [std::map<float, IRNode *>]: the entries in key order; [operator[]]
    searches the first entry whose key is not below [k] and takes it when
    [k] is not below that key either. *)
Fixpoint fmap_find (k : float) (m : list (float * ptr)) : option ptr :=
  match m with
  | [] => None
  | (k', v) :: m' =>
      if fltb k' k then fmap_find k m'
      else if fltb k k' then None else Some v
  end.

Fixpoint fmap_insert (k : float) (v : ptr) (m : list (float * ptr))
  : list (float * ptr) :=
  match m with
  | [] => [(k, v)]
  | (k', v') :: m' =>
      if fltb k' k then (k', v') :: fmap_insert k v m'
      else if fltb k k' then (k, v) :: m else (k', v) :: m'
  end.

(** [std::map<OpCode, IRNode *>], keyed by an enumeration. *)
Fixpoint vmap_find (k : OpCode) (m : list (OpCode * ptr)) : option ptr :=
  match m with
  | [] => None
  | (k', v) :: m' => if op_eqb k' k then Some v else vmap_find k m'
  end.

Definition vmap_insert (k : OpCode) (v : ptr) (m : list (OpCode * ptr))
  : list (OpCode * ptr) := m ++ [(k, v)].

(** ** Outcomes and the state monad *)

Inductive outcome (A : Type) :=
  | Ok (a : A) (s : Store)
  | Fatal
  | Undef
  | Timeout.
Arguments Ok {A} a s.
Arguments Fatal {A}.
Arguments Undef {A}.
Arguments Timeout {A}.

Definition M (A : Type) : Type := Store -> outcome A.

Definition pure {A} (a : A) : M A := fun s => Ok a s.
Definition fatal {A} : M A := fun _ => Fatal.
Definition undef {A} : M A := fun _ => Undef.
Definition timeout {A} : M A := fun _ => Timeout.

Definition and_then {A B} (m : M A) (k : A -> M B) : M B :=
  fun s => match m s with
           | Ok a s' => k a s'
           | Fatal => Fatal
           | Undef => Undef
           | Timeout => Timeout
           end.

Notation "'let*' x ':=' m 'in' k" := (and_then m (fun x => k))
  (at level 10, x pattern, m at level 100, k at level 200,
   format "'[v' 'let*'  x  ':='  m  'in' '/' k ']'").

(** [assert(cond, ...)] *)
Definition assert (c : bool) : M unit := if c then pure tt else fatal.

(** [*p] *)
Definition get (p : ptr) : M IRNode :=
  fun s => match allNodes s !! p with
           | Some n => Ok n s
           | None => Undef
           end.

(** [v[i]] on a vector *)
Definition at_ {A} (i : nat) (v : list A) : M A :=
  match v !! i with
  | Some a => pure a
  | None => undef
  end.

(** ** Constructors *)

Definition const_float (v : float) : IRNode :=
  mkNode Float Const [] [] 0 v 0 0 (-1) 1 false.

Definition const_int (v : Z) : IRNode :=
  mkNode Int Const [] [] v fzero 0 0 (-1) 1 false.

Definition has (d flag : Z) : bool := negb (Z.land d flag =? 0).

Definition self_dep (o : OpCode) : Z :=
  match o with
  | VarX => DepX
  | VarY => DepY
  | VarT => DepT
  | VarC => DepC
  | Load => DepMem
  | UnboundVar => DepUnbound
  | _ => 0
  end.

Definition level_of_deps (d : Z) : Z :=
  if has d DepUnbound then 99
  else if has d DepC || has d DepMem then 4
  else if has d DepX then 3
  else if has d DepY then 2
  else if has d DepT then 1
  else 0.

Definition add_output (this : ptr) (n : IRNode) : IRNode :=
  mkNode (type n) (op n) (inputs n) (outputs n ++ [this]) (ival n) (fval n)
         (deps n) (level n) (reg n) (width n) (marked n).

(** The loop [deps |= inputs[i]->deps; inputs[i]->outputs.push_back(this)]
    over the nodes already in the store. *)
Fixpoint link_inputs (this : ptr) (ins : list ptr) (d : Z) (ns : list IRNode)
  : option (Z * list IRNode) :=
  match ins with
  | [] => Some (d, ns)
  | i :: rest =>
      match ns !! i with
      | Some n => link_inputs this rest (Z.lor d (deps n))
                              (<[i := add_output this n]> ns)
      | None => None
      end
  end.

(** [IRNode::IRNode(Type, OpCode, vector<IRNode *>, int, float)] *)
Definition new_node (t : IRType) (opcode : OpCode) (input : list ptr)
    (iv : Z) (fv : float) : M ptr :=
  fun s =>
    let this := length (allNodes s) in
    match link_inputs this input (self_dep opcode) (allNodes s) with
    | Some (d, ns) =>
        Ok this
           (mkStore (ns ++ [mkNode t opcode input [] iv fv d (level_of_deps d)
                                   (-1) 1 false])
                    (floatInstances s) (intInstances s) (varInstances s))
    | None => Undef
    end.

(** [IRNode::make(float)] *)
Definition make_float (v : float) : M ptr :=
  fun s =>
    match fmap_find v (floatInstances s) with
    | Some p => Ok p s
    | None =>
        let this := length (allNodes s) in
        Ok this (mkStore (allNodes s ++ [const_float v])
                         (fmap_insert v this (floatInstances s))
                         (intInstances s) (varInstances s))
    end.

(** [IRNode::make(int)] *)
Definition make_int (v : Z) : M ptr :=
  fun s =>
    match intInstances s !! v with
    | Some p => Ok p s
    | None =>
        let this := length (allNodes s) in
        Ok this (mkStore (allNodes s ++ [const_int v])
                         (floatInstances s)
                         (<[v := this]> (intInstances s)) (varInstances s))
    end.

(** ** The factory *)

(** What a stage of [make] hands on: [return p;] or fall through. *)
Inductive flow (A : Type) :=
  | Return (p : ptr)
  | Continue (a : A).
Arguments Return {A} p.
Arguments Continue {A} a.

Notation "'try*' x ':=' m 'in' k" :=
  (and_then m (fun r => match r with
                        | Return p => pure p
                        | Continue x => k
                        end))
  (at level 10, x pattern, m at level 100, k at level 200,
   format "'[v' 'try*'  x  ':='  m  'in' '/' k ']'").

Definition chain {A B} (m : M (flow A)) (k : A -> M (flow B)) : M (flow B) :=
  let* r := m in
  match r with
  | Return p => pure (Return p)
  | Continue a => k a
  end.

Definition is_sum (o : OpCode) : bool :=
  match o with
  | Plus | Minus | PlusImm => true
  | _ => false
  end.

Definition is_var (o : OpCode) : bool :=
  match o with
  | VarX | VarY | VarT | VarC => true
  | _ => false
  end.

Definition ptrs_eqb (a b : list ptr) : bool :=
  (length a =? length b)%nat && forallb (fun '(x, y) => (x =? y)%nat) (combine a b).

Definition node_at (i : nat) (ins : list ptr) : M IRNode :=
  let* p := at_ i ins in get p.

Definition type_of (p : ptr) : M IRType :=
  let* n := get p in pure (type n).

Definition arity (n : nat) (ins : list ptr) : M unit :=
  assert (length ins =? n)%nat.

(** [inputs[0]->type == Float || inputs[1]->type == Float] *)
Definition either_float (ins : list ptr) : M bool :=
  let* n0 := node_at 0 ins in
  if type_eqb (type n0) Float then pure true
  else let* n1 := node_at 1 ins in pure (type_eqb (type n1) Float).

Section Factory.

(** The recursive calls of [make], and the bound handed to the
    traversals of the graph. *)
Variable mk : OpCode -> list ptr -> Z -> float -> M ptr.
Variable fuel : nat.

(** [IRNode::as] *)
Definition as_body (t : IRType) (this : ptr) : M ptr :=
  let* n := get this in
  if type_eqb t (type n) then pure this
  else match type n, t with
       | Int, Float => mk IntToFloat [this] 0 fzero
       | Int, Bool => let* z := make_int 0 in mk NEQ [this; z] 0 fzero
       | Bool, Float => let* o := make_float fone in mk And [this; o] 0 fzero
       | Bool, Int => let* o := make_int 1 in mk And [this; o] 0 fzero
       | Float, Bool => let* z := make_float fzero in mk NEQ [this; z] 0 fzero
       | Float, Int => mk FloatToInt [this] 0 fzero
       | _, _ => fatal
       end.

(** [inputs[i] = inputs[i]->as(t)] *)
Definition coerce (t : IRType) (i : nat) (ins : list ptr) : M (list ptr) :=
  let* p := at_ i ins in
  let* p' := as_body t p in
  pure (<[i := p']> ins).

(** Stage 1 of [make]: the [switch] that infers the type and coerces. *)
Definition infer (opcode : OpCode) (ins : list ptr)
  : M (flow (IRType * list ptr)) :=
  match opcode with
  | Const => fatal
  | NoOp =>
      let* _ := arity 1 ins in
      let* n := node_at 0 ins in
      pure (Continue (type n, ins))
  | VarX | VarY | VarT | VarC | UnboundVar =>
      let* _ := arity 0 ins in
      pure (Continue (Int, ins))
  | Plus | Minus | Times | Power | Mod =>
      let* _ := arity 2 ins in
      let* f := either_float ins in
      let t := if f then Float else Int in
      let* ins := coerce t 0 ins in
      let* ins := coerce t 1 ins in
      pure (Continue (t, ins))
  | Divide | ATan2 =>
      let* ins := coerce Float 0 ins in
      let* ins := coerce Float 1 ins in
      pure (Continue (Float, ins))
  | Sin | Cos | Tan | ASin | ACos | ATan | Exp | Log =>
      let* _ := arity 1 ins in
      let* ins := coerce Float 0 ins in
      pure (Continue (Float, ins))
  | Abs =>
      let* _ := arity 1 ins in
      let* p := at_ 0 ins in
      let* n := get p in
      if type_eqb (type n) Bool then pure (Return p)
      else pure (Continue (type n, ins))
  | Floor | Ceil | Round =>
      let* _ := arity 1 ins in
      let* p := at_ 0 ins in
      let* n := get p in
      if negb (type_eqb (type n) Float) then pure (Return p)
      else pure (Continue (Float, ins))
  | LT | GT | LTE | GTE | EQ | NEQ =>
      let* _ := arity 2 ins in
      let* f := either_float ins in
      let t := if f then Float else Bool in
      let* ins := coerce t 0 ins in
      let* ins := coerce t 1 ins in
      pure (Continue (Bool, ins))
  | And | Nand =>
      let* _ := arity 2 ins in
      let* ins := coerce Bool 0 ins in
      let* n := node_at 1 ins in
      pure (Continue (type n, ins))
  | Or =>
      let* _ := arity 2 ins in
      let* f := either_float ins in
      let* t := (if f then pure Float
                 else let* n0 := node_at 0 ins in
                      if type_eqb (type n0) Int || type_eqb (type n0) Int
                      then pure Int else pure Bool) in
      let* ins := coerce t 0 ins in
      let* ins := coerce t 1 ins in
      pure (Continue (t, ins))
  | IntToFloat =>
      let* _ := arity 1 ins in
      let* n := node_at 0 ins in
      let* _ := assert (type_eqb (type n) Int) in
      pure (Continue (Float, ins))
  | FloatToInt =>
      let* _ := arity 1 ins in
      let* n := node_at 0 ins in
      let* _ := assert (type_eqb (type n) Float) in
      pure (Continue (Int, ins))
  | PlusImm | TimesImm =>
      let* _ := arity 1 ins in
      pure (Continue (Int, ins))
  | LoadImm | Load =>
      let* _ := arity 1 ins in
      let* ins := coerce Int 0 ins in
      pure (Continue (Float, ins))
  end.

(** Stage 2: constant folding. *)
Fixpoint all_const (ins : list ptr) : M bool :=
  match ins with
  | [] => pure true
  | p :: rest =>
      let* n := get p in
      if deps n =? 0 then all_const rest else pure false
  end.

Definition ret_float (v : float) : M (flow unit) :=
  let* r := make_float v in pure (Return r).

Definition ret_int (v : Z) : M (flow unit) :=
  let* r := make_int v in pure (Return r).

Definition fold (opcode : OpCode) (t : IRType) (ins : list ptr) (iv : Z)
  : M (flow unit) :=
  let* c := all_const ins in
  if c && negb (length ins =? 0)%nat then
    match opcode with
    | Plus =>
        let* a := node_at 0 ins in
        let* b := node_at 1 ins in
        if type_eqb t Float then ret_float (fadd (fval a) (fval b))
        else ret_int (int_add (ival a) (ival b))
    | Minus =>
        let* a := node_at 0 ins in
        let* b := node_at 1 ins in
        if type_eqb t Float then ret_float (fsub (fval a) (fval b))
        else ret_int (int_sub (ival a) (ival b))
    | Times =>
        let* a := node_at 0 ins in
        let* b := node_at 1 ins in
        if type_eqb t Float then ret_float (fmul (fval a) (fval b))
        else ret_int (int_mul (ival a) (ival b))
    | PlusImm =>
        let* a := node_at 0 ins in
        ret_int (int_add (ival a) iv)
    | TimesImm =>
        let* a := node_at 0 ins in
        ret_int (int_mul (ival a) iv)
    | Divide =>
        let* a := node_at 0 ins in
        let* b := node_at 1 ins in
        ret_float (fdiv (fval a) (fval b))
    | And =>
        let* a := node_at 0 ins in
        let* b := node_at 1 ins in
        if type_eqb t Float
        then ret_float (if negb (ival a =? 0) then fval b else fzero)
        else ret_int (if negb (ival a =? 0) then ival b else 0)
    | Or =>
        let* a := node_at 0 ins in
        let* b := node_at 1 ins in
        if type_eqb t Float then ret_float (fadd (fval a) (fval b))
        else ret_int (int_or (ival a) (ival b))
    | Nand =>
        let* a := node_at 0 ins in
        let* b := node_at 1 ins in
        if type_eqb t Float
        then ret_float (if ival a =? 0 then fval b else fzero)
        else ret_int (if ival a =? 0 then ival b else 0)
    | IntToFloat =>
        let* a := node_at 0 ins in
        ret_float (float_of_int (ival a))
    | FloatToInt =>
        let* a := node_at 0 ins in
        ret_int (int_of_float (fval a))
    | _ => pure (Continue tt)
    end
  else pure (Continue tt).

(** Stage 3: strength reduction.  The two argument calls of a nested
    [make(.., make(..), make(..))] are taken from left to right. *)
Definition hoist_divide (ins : list ptr) : M (flow unit) :=
  let* p0 := at_ 0 ins in
  let* p1 := at_ 1 ins in
  let* n1 := get p1 in
  let* n0 := get p0 in
  if level n1 <? level n0 then
    let* one := make_float fone in
    let* inv := mk Divide [one; p1] 0 fzero in
    let* r := mk Times [p0; inv] 0 fzero in
    pure (Return r)
  else pure (Continue tt).

(** The operands [x], [a], [b] that both [Times] rules pick: [x] and [a]
    from the input with opcode [inner], [b] the other input. *)
Definition pick (inner : OpCode) (first second : nat) (ins : list ptr)
  : M (option (ptr * ptr * ptr)) :=
  let* p0 := at_ 0 ins in
  let* n0 := get p0 in
  if op_eqb (op n0) inner then
    let* b := at_ 1 ins in
    let* x := at_ first (inputs n0) in
    let* a := at_ second (inputs n0) in
    pure (Some (x, a, b))
  else
    let* p1 := at_ 1 ins in
    let* n1 := get p1 in
    if op_eqb (op n1) inner then
      let* x := at_ first (inputs n1) in
      let* a := at_ second (inputs n1) in
      pure (Some (x, a, p0))
    else pure None.

(** [x] is the higher level of [x] and [a]; the rewrite is worth it when
    [a] and [b] are both lower level than [x]. *)
Definition worth (xab : ptr * ptr * ptr) : M (option (ptr * ptr * ptr)) :=
  let '(x, a, b) := xab in
  let* nx := get x in
  let* na := get a in
  let '(x, nx, a, na) :=
    if level nx <? level na then (a, na, x, nx) else (x, nx, a, na) in
  if level na <? level nx then
    let* nb := get b in
    if level nb <? level nx then pure (Some (x, a, b)) else pure None
  else pure None.

Definition distribute (ins : list ptr) : M (flow unit) :=
  let* xab := pick Plus 1%nat 0%nat ins in
  match xab with
  | Some xab =>
      let* w := worth xab in
      match w with
      | Some (x, a, b) =>
          let* l := mk Times [x; b] 0 fzero in
          let* r := mk Times [a; b] 0 fzero in
          let* s := mk Plus [l; r] 0 fzero in
          pure (Return s)
      | None => pure (Continue tt)
      end
  | None => pure (Continue tt)
  end.

Definition times_plusimm (ins : list ptr) : M (flow unit) :=
  let* p0 := at_ 0 ins in
  let* n0 := get p0 in
  if op_eqb (op n0) PlusImm then
    let* y := at_ 0 (inputs n0) in
    let* p1 := at_ 1 ins in
    let* l := mk Times [y; p1] 0 fzero in
    let* k := make_int (ival n0) in
    let* r := mk Times [p1; k] 0 fzero in
    let* s := mk Plus [l; r] 0 fzero in
    pure (Return s)
  else pure (Continue tt).

Definition reassociate (ins : list ptr) : M (flow unit) :=
  let* xab := pick Times 0%nat 1%nat ins in
  match xab with
  | Some xab =>
      let* w := worth xab in
      match w with
      | Some (x, a, b) =>
          let* r := mk Times [a; b] 0 fzero in
          let* s := mk Times [x; r] 0 fzero in
          pure (Return s)
      | None => pure (Continue tt)
      end
  | None => pure (Continue tt)
  end.

Definition reduce (opcode : OpCode) (ins : list ptr) : M (flow unit) :=
  match opcode with
  | NoOp => let* p := at_ 0 ins in pure (Return p)
  | Divide => hoist_divide ins
  | Times =>
      chain (distribute ins) (fun _ =>
      chain (times_plusimm ins) (fun _ =>
      reassociate ins))
  | _ => pure (Continue tt)
  end.

End Factory.

(** ** Sums *)

Definition term : Type := ptr * bool.

(** [IRNode::collectSum]: the terms of a chain of [Plus], [Minus] and
    [PlusImm], each with its sign, appended to [terms]. *)
Fixpoint collectSum (fuel : nat) (this : ptr) (positive : bool)
    (terms : list term) : M (list term) :=
  match fuel with
  | O => timeout
  | S fuel =>
      let* n := get this in
      match op n with
      | Plus =>
          let* i0 := at_ 0 (inputs n) in
          let* terms := collectSum fuel i0 positive terms in
          let* i1 := at_ 1 (inputs n) in
          collectSum fuel i1 positive terms
      | Minus =>
          let* i0 := at_ 0 (inputs n) in
          let* terms := collectSum fuel i0 positive terms in
          let* i1 := at_ 1 (inputs n) in
          collectSum fuel i1 (negb positive) terms
      | PlusImm =>
          let* i0 := at_ 0 (inputs n) in
          let* terms := collectSum fuel i0 positive terms in
          let* c := make_int (ival n) in
          pure (terms ++ [(c, true)])
      | _ => pure (terms ++ [(this, positive)])
      end
  end.

(** The split of the terms into constant and non-constant ones. *)
Fixpoint split_terms (terms : list term) : M (list term * list term) :=
  match terms with
  | [] => pure ([], [])
  | tm :: rest =>
      let* n := get (fst tm) in
      let* cn := split_terms rest in
      if op_eqb (op n) Const then pure (tm :: fst cn, snd cn)
      else pure (fst cn, tm :: snd cn)
  end.

(** Each term with the level of its node. *)
Fixpoint with_levels (terms : list term) : M (list (Z * term)) :=
  match terms with
  | [] => pure []
  | tm :: rest =>
      let* n := get (fst tm) in
      let* r := with_levels rest in
      pure ((level n, tm) :: r)
  end.

(** The inner loop of the sort, for one [i]: [x] is [nonConstTerms[i]] and
    [rest] the elements behind it. *)
Fixpoint sift (x : Z * term) (rest : list (Z * term))
  : (Z * term) * list (Z * term) :=
  match rest with
  | [] => (x, [])
  | y :: r =>
      if fst y <? fst x
      then let '(m, r') := sift y r in (m, x :: r')
      else let '(m, r') := sift x r in (m, y :: r')
  end.

Fixpoint swap_sort (n : nat) (l : list (Z * term)) : list (Z * term) :=
  match n, l with
  | S n, x :: rest => let '(m, rest') := sift x rest in m :: swap_sort n rest'
  | _, _ => l
  end.

(** The signed sums of the constant terms. *)
Fixpoint float_sum (consts : list term) (c : float) : M float :=
  match consts with
  | [] => pure c
  | tm :: rest =>
      let* n := get (fst tm) in
      float_sum rest (if snd tm then fadd c (fval n) else fsub c (fval n))
  end.

Fixpoint int_sum (consts : list term) (c : Z) : M Z :=
  match consts with
  | [] => pure c
  | tm :: rest =>
      let* n := get (fst tm) in
      int_sum rest (if snd tm then int_add c (ival n) else int_sub c (ival n))
  end.

Fixpoint mapM {A B} (f : A -> M B) (l : list A) : M (list B) :=
  match l with
  | [] => pure []
  | a :: rest =>
      let* b := f a in
      let* bs := mapM f rest in
      pure (b :: bs)
  end.

Section Rebalance.

Variable mk : OpCode -> list ptr -> Z -> float -> M ptr.
Variable fuel : nat.

(** The loop that remakes the summation from the sorted terms. *)
Fixpoint rebuild (rest : list term) (t : ptr) (tPos : bool)
  : M (ptr * bool) :=
  match rest with
  | [] => pure (t, tPos)
  | (next, nextPos) :: rest =>
      if eqb tPos nextPos then
        let* t := mk Plus [t; next] 0 fzero in rebuild rest t tPos
      else if tPos then
        let* t := mk Minus [t; next] 0 fzero in rebuild rest t tPos
      else
        let* t := mk Minus [next; t] 0 fzero in rebuild rest t true
  end.

(** The first half of [IRNode::rebalanceSum]: the constant terms, and
    the other terms sorted by level. *)
Definition sum_terms (this : ptr) : M (list term * list term) :=
  let* terms := collectSum fuel this true [] in
  let* cn := split_terms terms in
  let* leveled := with_levels (snd cn) in
  pure (fst cn, map snd (swap_sort (length leveled) leveled)).

(** [IRNode::rebalanceSum] *)
Definition rebalanceSum_body (this : ptr) : M ptr :=
  let* n := get this in
  if negb (is_sum (op n)) then pure this
  else
    let* ct := sum_terms this in
    let constTerms := fst ct in
    let nonConstTerms := snd ct in
    let* first := at_ 0 nonConstTerms in
    let t := fst first in
    let tPos := snd first in
    let* t :=
      (if type_eqb (type n) Float then
         let* c := float_sum constTerms fzero in
         if negb (feqb c fzero) then
           let* k := make_float c in
           if tPos then mk Plus [k; t] 0 fzero else mk Minus [k; t] 0 fzero
         else pure t
       else pure t) in
    let* acc := rebuild (tail nonConstTerms) t tPos in
    let t := fst acc in
    let tPos := snd acc in
    if type_eqb (type n) Int then
      let* c := int_sum constTerms 0 in
      if negb (c =? 0) then
        if tPos then mk PlusImm [t] c fzero
        else let* k := make_int c in mk Minus [k; t] 0 fzero
      else pure t
    else pure t.

(** Stage 4: the rebalancing of the children of a node that is no sum. *)
Definition rebalance_inputs (opcode : OpCode) (ins : list ptr)
  : M (list ptr) :=
  if negb (is_sum opcode) then mapM rebalanceSum_body ins else pure ins.

(** Stage 5: one instance of each variable, a new node for each
    unbound variable. *)
Definition register_var (opcode : OpCode) (p : ptr) : M unit :=
  fun s => Ok tt (mkStore (allNodes s) (floatInstances s) (intInstances s)
                          (vmap_insert opcode p (varInstances s))).

Definition find_var (opcode : OpCode) : M (option ptr) :=
  fun s => Ok (vmap_find opcode (varInstances s)) s.

Definition variables (opcode : OpCode) (t : IRType) : M (flow unit) :=
  if is_var opcode then
    let* v := find_var opcode in
    match v with
    | Some p => pure (Return p)
    | None =>
        let* p := new_node t opcode [] 0 fzero in
        let* _ := register_var opcode p in
        pure (Return p)
    end
  else if op_eqb opcode UnboundVar then
    let* p := new_node t opcode [] 0 fzero in pure (Return p)
  else pure (Continue tt).

(** Stage 6: instruction fusion. *)
Definition fuse_load (opcode : OpCode) (ins : list ptr) (iv : Z)
  : M (flow unit) :=
  if op_eqb opcode Load || op_eqb opcode LoadImm then
    let* p0 := at_ 0 ins in
    let* n0 := get p0 in
    if op_eqb (op n0) Plus then
      let* lhs := at_ 0 (inputs n0) in
      let* rhs := at_ 1 (inputs n0) in
      let* nl := get lhs in
      if op_eqb (op nl) Const then
        let* r := mk LoadImm [rhs] (int_add (ival nl) iv) fzero in
        pure (Return r)
      else
        let* nr := get rhs in
        if op_eqb (op nr) Const then
          let* r := mk LoadImm [lhs] (int_add (ival nr) iv) fzero in
          pure (Return r)
        else pure (Continue tt)
    else if op_eqb (op n0) Minus then
      let* n01 := node_at 1 (inputs n0) in
      if op_eqb (op n01) Const then
        let* a := at_ 0 (inputs n0) in
        let* r := mk LoadImm [a] (int_add (int_neg (ival n01)) iv) fzero in
        pure (Return r)
      else pure (Continue tt)
    else if op_eqb (op n0) PlusImm then
      let* a := at_ 0 (inputs n0) in
      let* r := mk LoadImm [a] (int_add (ival n0) iv) fzero in
      pure (Return r)
    else pure (Continue tt)
  else pure (Continue tt).

Definition fuse_times (opcode : OpCode) (t : IRType) (ins : list ptr)
  : M (flow unit) :=
  if op_eqb opcode Times && type_eqb t Int then
    let* lhs := at_ 0 ins in
    let* rhs := at_ 1 ins in
    let* nl := get lhs in
    if op_eqb (op nl) Const then
      let* r := mk TimesImm [rhs] (ival nl) fzero in pure (Return r)
    else
      let* nr := get rhs in
      if op_eqb (op nr) Const then
        let* r := mk TimesImm [lhs] (ival nr) fzero in pure (Return r)
      else pure (Continue tt)
  else pure (Continue tt).

(** Stage 7: common subexpression elimination over [inputs[0]->outputs]. *)
Definition same_node (c : IRNode) (opcode : OpCode) (t : IRType)
    (ins : list ptr) (iv : Z) (fv : float) : bool :=
  (ival c =? iv) && feqb (fval c) fv && op_eqb (op c) opcode
  && type_eqb (type c) t && ptrs_eqb (inputs c) ins.

Fixpoint scan (cands : list ptr) (opcode : OpCode) (t : IRType)
    (ins : list ptr) (iv : Z) (fv : float) : M (option ptr) :=
  match cands with
  | [] => pure None
  | c :: rest =>
      let* n := get c in
      if same_node n opcode t ins iv fv then pure (Some c)
      else scan rest opcode t ins iv fv
  end.

Definition cse (opcode : OpCode) (t : IRType) (ins : list ptr) (iv : Z)
    (fv : float) : M (option ptr) :=
  match ins with
  | [] => pure None
  | p0 :: _ =>
      let* n0 := get p0 in
      scan (outputs n0) opcode t ins iv fv
  end.

(** [IRNode::make(OpCode, vector<IRNode *>, int, float)] *)
Definition make_body (opcode : OpCode) (ins : list ptr) (iv : Z)
    (fv : float) : M ptr :=
  try* ti := infer mk opcode ins in
  let t := fst ti in
  let ins := snd ti in
  try* _ := fold opcode t ins iv in
  try* _ := reduce mk opcode ins in
  let* ins := rebalance_inputs opcode ins in
  try* _ := variables opcode t in
  try* _ := fuse_load opcode ins iv in
  try* _ := fuse_times opcode t ins in
  let* c := cse opcode t ins iv fv in
  match c with
  | Some p => pure p
  | None => new_node t opcode ins iv fv
  end.

End Rebalance.

Fixpoint make (fuel : nat) (opcode : OpCode) (ins : list ptr) (iv : Z)
    (fv : float) : M ptr :=
  match fuel with
  | O => timeout
  | S fuel => make_body (make fuel) fuel opcode ins iv fv
  end.

Definition as_ (fuel : nat) (t : IRType) (this : ptr) : M ptr :=
  as_body (make fuel) t this.

Definition rebalanceSum (fuel : nat) (this : ptr) : M ptr :=
  rebalanceSum_body (make fuel) fuel this.

(** [IRNode::make(OpCode, IRNode *, IRNode *, IRNode *, IRNode *, int, float)];
    [None] is the null pointer. *)
Definition make4 (fuel : nat) (opcode : OpCode) (input1 input2 input3
    input4 : option ptr) (iv : Z) (fv : float) : M ptr :=
  make fuel opcode
       (option_list input1 ++ option_list input2 ++ option_list input3
        ++ option_list input4) iv fv.

(** [IRNode::optimize] *)
Definition optimize (fuel : nat) (this : ptr) : M ptr := rebalanceSum fuel this.

(** [IRNode::substitute] *)
Definition var_dep (var : OpCode) : option Z :=
  match var with
  | VarC => Some DepC
  | VarX => Some DepX
  | VarY => Some DepY
  | VarT => Some DepT
  | _ => None
  end.

Fixpoint substitute (fuel : nat) (this : ptr) (var : OpCode) (val : Z)
  : M ptr :=
  match fuel with
  | O => timeout
  | S fuel =>
      let* n := get this in
      if op_eqb (op n) var then make_int val
      else match var_dep var with
           | None => fatal
           | Some dep =>
               if has (deps n) dep then
                 let* newInputs :=
                   mapM (fun i => substitute fuel i var val) (inputs n) in
                 make fuel (op n) newInputs (ival n) (fval n)
               else pure this
           end
  end.

(** [IRNode::bind]; the four arguments may be null. *)
Definition is_ptr (this : ptr) (x : option ptr) : bool :=
  match x with
  | Some p => (this =? p)%nat
  | None => false
  end.

Fixpoint bind (fuel : nat) (this : ptr) (x y t c : option ptr) : M ptr :=
  match fuel with
  | O => timeout
  | S fuel =>
      let* n := get this in
      if negb (has (deps n) DepUnbound) then pure this
      else if is_ptr this x then make fuel VarX [] 0 fzero
      else if is_ptr this y then make fuel VarY [] 0 fzero
      else if is_ptr this c then make fuel VarC [] 0 fzero
      else if is_ptr this t then make fuel VarT [] 0 fzero
      else
        let* newInputs := mapM (fun i => bind fuel i x y t c) (inputs n) in
        make fuel (op n) newInputs (ival n) (fval n)
  end.

(** ** What the proofs speak about *)

Definition is_nan (f : float) : bool :=
  match f with
  | S754_nan => true
  | _ => false
  end.

Definition is_cmp (o : OpCode) : bool :=
  match o with
  | LT | GT | LTE | GTE | EQ | NEQ => true
  | _ => false
  end.

(** A node without the fields that change after its construction
    ([outputs], [reg], [marked]). *)
Definition strip (n : IRNode) : IRNode :=
  mkNode (type n) (op n) (inputs n) [] (ival n) (fval n) (deps n) (level n)
         0 0 false.

Definition cores (s : Store) : list IRNode := strip <$> allNodes s.

Definition valid (s : Store) (p : ptr) : Prop := (p < length (allNodes s))%nat.

Definition deps_at (s : Store) (p : ptr) : Z :=
  match allNodes s !! p with
  | Some n => deps n
  | None => 0
  end.

Definition sum_arity (o : OpCode) : nat :=
  match o with
  | PlusImm => 1
  | _ => 2
  end.

(** [s'] is a later store than [s]: the nodes of [s] are still there,
    unchanged but for their outputs, and the uniquing tables still answer
    what they answered. *)
Record ext (s s' : Store) : Prop := mkExt {
  ext_nodes : cores s `prefix_of` cores s';
  ext_float : forall k p, is_nan k = false ->
    fmap_find k (floatInstances s) = Some p ->
    fmap_find k (floatInstances s') = Some p;
  ext_int : forall k p,
    intInstances s !! k = Some p -> intInstances s' !! k = Some p;
  ext_var : forall k p,
    vmap_find k (varInstances s) = Some p ->
    vmap_find k (varInstances s') = Some p
}.

(** The invariant of the stores the factory builds. *)
Record wf (s : Store) : Prop := mkWf {
  wf_inputs : forall p n, allNodes s !! p = Some n ->
    Forall (fun i => (i < p)%nat) (inputs n);
  wf_const : forall p n, allNodes s !! p = Some n ->
    op n = Const -> deps n = 0;
  wf_sum : forall p n, allNodes s !! p = Some n -> is_sum (op n) = true ->
    length (inputs n) = sum_arity (op n)
    /\ Exists (fun i => deps_at s i <> 0) (inputs n);
  wf_float : forall k p, (k, p) ∈ floatInstances s ->
    exists n, allNodes s !! p = Some n /\ type n = Float /\ op n = Const;
  wf_int : forall k p, intInstances s !! k = Some p ->
    exists n, allNodes s !! p = Some n /\ type n = Int /\ op n = Const
              /\ ival n = k;
  wf_int_all : forall p n, allNodes s !! p = Some n ->
    op n = Const -> type n = Int -> intInstances s !! ival n = Some p;
  wf_var : forall k p, (k, p) ∈ varInstances s ->
    exists n, allNodes s !! p = Some n /\ op n = k /\ type n = Int;
  wf_float_all : forall p n, allNodes s !! p = Some n ->
    op n = Const -> type n = Float -> is_nan (fval n) = false ->
    fmap_find (fval n) (floatInstances s) = Some p
}.

Definition type_at (s : Store) (p : ptr) : option IRType :=
  type <$> allNodes s !! p.

Definition op_at (s : Store) (p : ptr) : option OpCode :=
  op <$> allNodes s !! p.

Definition inputs_at (s : Store) (p : ptr) : option (list ptr) :=
  inputs <$> allNodes s !! p.

Definition ival_at (s : Store) (p : ptr) : option Z :=
  ival <$> allNodes s !! p.

Definition level_at (s : Store) (p : ptr) : option Z :=
  level <$> allNodes s !! p.

(** The opcodes for which [make] only infers the type, folds, looks for a
    common subexpression and builds the node. *)
Definition plain (o : OpCode) : bool :=
  match o with
  | Const | NoOp | VarX | VarY | VarT | VarC | UnboundVar | Times | Divide
  | Abs | Floor | Ceil | Round | LoadImm | Load => false
  | _ => true
  end.

(** The type of the constant that the folding of [opcode] at the inferred
    type [t] returns. *)
Definition fold_type (opcode : OpCode) (t : IRType) : IRType :=
  match opcode with
  | Plus | Minus | Times | And | Nand | Or =>
      if type_eqb t Float then Float else Int
  | PlusImm | TimesImm | FloatToInt => Int
  | Divide | IntToFloat => Float
  | _ => t
  end.

(** The type to which a comparison coerces its operands. *)
Definition cmp_operand_type (ta tb : IRType) : IRType :=
  if type_eqb ta Float || type_eqb tb Float then Float else Bool.

(** A client is a sequence of calls; the pointers it passes are the nodes
    that earlier calls returned. *)
Inductive call :=
  | call_make_float (v : float)
  | call_make_int (v : Z)
  | call_make (fuel : nat) (opcode : OpCode) (ins : list ptr) (iv : Z)
      (fv : float)
  | call_as (fuel : nat) (t : IRType) (p : ptr)
  | call_rebalanceSum (fuel : nat) (p : ptr)
  | call_substitute (fuel : nat) (p : ptr) (var : OpCode) (val : Z)
  | call_bind (fuel : nat) (p : ptr) (x y t c : option ptr).

Definition run_call (c : call) : M ptr :=
  match c with
  | call_make_float v => make_float v
  | call_make_int v => make_int v
  | call_make fuel opcode ins iv fv => make fuel opcode ins iv fv
  | call_as fuel t p => as_ fuel t p
  | call_rebalanceSum fuel p => rebalanceSum fuel p
  | call_substitute fuel p var val => substitute fuel p var val
  | call_bind fuel p x y t c => bind fuel p x y t c
  end.

(** The store after the calls [cs], from the empty store. *)
Definition store_after (cs : list call) : Store :=
  match mapM run_call cs empty_store with
  | Ok _ s => s
  | _ => empty_store
  end.

(** The worked examples.  In each, the comment gives the node that each call
    returns. *)

(** [0: 1.0f], [1: 2.0f], [2: LT(1.0f, 2.0f)], a node of type [Bool]. *)
Definition bool_node : list call :=
  [call_make_float fone; call_make_float (fadd fone fone);
   call_make 1 LT [0; 1]%nat 0 fzero].

(** [bool_node], then [3: VarX], a node of type [Int]. *)
Definition bool_and_int : list call :=
  bool_node ++ [call_make 1 VarX [] 0 fzero].

(** [0: VarX], [1: VarY], [2: Plus(VarX, VarY)], [3: 3]. *)
Definition sum_and_const : list call :=
  [call_make 1 VarX [] 0 fzero; call_make 1 VarY [] 0 fzero;
   call_make 1 Plus [0; 1]%nat 0 fzero; call_make_int 3].

(** ... and then [6: make(Times, Plus(VarX, VarY), 3)], which builds
    [4] and [5] on the way. *)
Definition times_of_sum : list call :=
  sum_and_const ++ [call_make 3 Times [2; 3]%nat 0 fzero].

(** [0: 7] *)
Definition const_seven : list call := [call_make_int 7].

(** [0: VarX], [1: 2], [2: Plus(VarX, 2)], [3: 1], [4: Plus(1, Plus(VarX, 2))] *)
Definition nested_sum : list call :=
  [call_make 1 VarX [] 0 fzero; call_make_int 2;
   call_make 1 Plus [0; 1]%nat 0 fzero; call_make_int 1;
   call_make 1 Plus [3; 2]%nat 0 fzero].

(** [0: VarX], [1: IntToFloat(VarX)], [2: 1.0f], [3: LT(1, 2)],
    [4: And(3, 3)], [5: LT(4, 4)]: nodes 3, 4 and 5 have type [Bool] and
    depend on [VarX]. *)
Definition bool_of_x : list call :=
  [call_make 1 VarX [] 0 fzero; call_make 1 IntToFloat [0%nat] 0 fzero;
   call_make_float fone; call_make 1 LT [1; 2]%nat 0 fzero;
   call_make 1 And [3; 3]%nat 0 fzero; call_make 1 LT [4; 4]%nat 0 fzero].

Definition is_logical (o : OpCode) : bool :=
  match o with
  | And | Nand | Or => true
  | _ => false
  end.

(** What the folding of a logical opcode returns, in the words of the
    spec: [a] and [b] are the two inputs after the coercion, [t] is the
    inferred type. *)
Definition folded_logical (opcode : OpCode) (t : IRType) (a b : IRNode)
  : M ptr :=
  let truthy := negb (ival a =? 0) in
  match opcode with
  | And =>
      if type_eqb t Float then make_float (if truthy then fval b else fzero)
      else make_int (if truthy then ival b else 0)
  | Nand =>
      if type_eqb t Float then make_float (if truthy then fzero else fval b)
      else make_int (if truthy then 0 else ival b)
  | _ =>
      if type_eqb t Float then make_float (fadd (fval a) (fval b))
      else make_int (int_or (ival a) (ival b))
  end.

(** [0: VarX], [1: 0], [2: Minus(0, VarX)], [3: Minus(2, VarX)],
    [4: Plus(3, VarX)]: the sum [- x - x + x]. *)
Definition three_terms : list call :=
  [call_make 1 VarX [] 0 fzero; call_make_int 0;
   call_make 1 Minus [1; 0]%nat 0 fzero; call_make 1 Minus [2; 0]%nat 0 fzero;
   call_make 1 Plus [3; 0]%nat 0 fzero].

(** The sum of the constant terms, each with its sign, as an integer. *)
Fixpoint signed_total (consts : list term) (s : Store) : Z :=
  match consts with
  | [] => 0
  | tm :: rest =>
      let v := match allNodes s !! fst tm with
               | Some n => ival n
               | None => 0
               end in
      (if snd tm then v else - v) + signed_total rest s
  end.

(** A larger recursion bound changes no result: where the smaller one is
    not cut off, both give the same outcome. *)
Definition le_out {A} (o o' : outcome A) : Prop := o = Timeout \/ o = o'.

Definition le_m {A} (m m' : M A) : Prop := forall s, le_out (m s) (m' s).

(** What a recursive call of [make] is assumed to do, and is then shown
    to do. *)
Definition sound_mk (mk : OpCode -> list ptr -> Z -> float -> M ptr) : Prop :=
  forall opcode ins iv fv s r s',
    wf s -> mk opcode ins iv fv s = Ok r s' ->
    wf s' /\ ext s s' /\ valid s' r.

(** The calls a client can issue. *)
Inductive step : Store -> Store -> Prop :=
  | step_make_float v s r s' :
      make_float v s = Ok r s' -> step s s'
  | step_make_int v s r s' :
      make_int v s = Ok r s' -> step s s'
  | step_make fuel opcode ins iv fv s r s' :
      make fuel opcode ins iv fv s = Ok r s' -> step s s'
  | step_as fuel t p s r s' :
      as_ fuel t p s = Ok r s' -> step s s'
  | step_rebalanceSum fuel p s r s' :
      rebalanceSum fuel p s = Ok r s' -> step s s'
  | step_substitute fuel p var val s r s' :
      substitute fuel p var val s = Ok r s' -> step s s'
  | step_bind fuel p x y t c s r s' :
      bind fuel p x y t c s = Ok r s' -> step s s'.

Definition reachable (s : Store) : Prop := rtc step empty_store s.

(** ** What every node of a store looks like *)

(** The number of inputs that the [switch] of [make] asserts for an
    opcode; [Divide] and [ATan2] have no such assertion. *)
Definition arity_of (o : OpCode) : option nat :=
  match o with
  | Const | Divide | ATan2 => None
  | VarX | VarY | VarT | VarC | UnboundVar => Some 0%nat
  | Plus | Minus | Times | Power | Mod
  | LT | GT | LTE | GTE | EQ | NEQ | And | Nand | Or => Some 2%nat
  | _ => Some 1%nat
  end.

(** The types that a node with opcode [o] can have. *)
Definition type_ok (o : OpCode) (t : IRType) : bool :=
  match o with
  | NoOp => false
  | VarX | VarY | VarT | VarC | UnboundVar | FloatToInt | PlusImm
  | TimesImm => type_eqb t Int
  | Const | Plus | Minus | Times | Power | Mod | Abs => negb (type_eqb t Bool)
  | Divide | ATan2 | Sin | Cos | Tan | ASin | ACos | ATan | Exp | Log
  | Floor | Ceil | Round | IntToFloat | LoadImm | Load => type_eqb t Float
  | LT | GT | LTE | GTE | EQ | NEQ => type_eqb t Bool
  | And | Nand | Or => true
  end.

(** The numbers of inputs that a node with opcode [o] can have. *)
Definition arity_ok (o : OpCode) (k : nat) : bool :=
  match arity_of o with
  | Some a => (k =? a)%nat
  | None => if op_eqb o Const then (k =? 0)%nat else (2 <=? k)%nat
  end.

(** The constructions by which a store grows: a constant, a variable or
    an unbound variable, a node over inputs that fits its opcode and that
    the search for a common subexpression did not find, and the entry of
    a variable in its table. *)
Inductive prim : Store -> Store -> Prop :=
  | prim_int v s r s' : make_int v s = Ok r s' -> prim s s'
  | prim_float v s r s' : make_float v s = Ok r s' -> prim s s'
  | prim_leaf opcode s r s' :
      is_var opcode || op_eqb opcode UnboundVar = true ->
      new_node Int opcode [] 0 fzero s = Ok r s' -> prim s s'
  | prim_node t opcode ins iv fv s r s' :
      opcode <> Const ->
      is_var opcode || op_eqb opcode UnboundVar = false ->
      type_ok opcode t = true -> arity_ok opcode (length ins) = true ->
      cse opcode t ins iv fv s = Ok None s ->
      new_node t opcode ins iv fv s = Ok r s' -> prim s s'
  | prim_register opcode p s u s' :
      register_var opcode p s = Ok u s' -> prim s s'.

(** What a recursive call of [make] is assumed to do, and is then shown
    to do: it changes the store by such constructions only. *)
Definition prims_mk (mk : OpCode -> list ptr -> Z -> float -> M ptr) : Prop :=
  forall opcode ins iv fv s r s',
    mk opcode ins iv fv s = Ok r s' -> rtc prim s s'.

(** The dependence mask that the constructor computes: the flag of the
    opcode, or'ed with the masks of the inputs. *)
Definition deps_of (s : Store) (opcode : OpCode) (ins : list ptr) : Z :=
  foldl (fun d i => Z.lor d (deps_at s i)) (self_dep opcode) ins.

(** Node [q] has node [p] among its inputs. *)
Definition consumes (s : Store) (q p : ptr) : Prop :=
  exists nq, allNodes s !! q = Some nq /\ p ∈ inputs nq.

(** Node [d] is [p] or is reached from [p] through inputs. *)
Definition descendant (s : Store) : relation nat := rtc (consumes s).

(** What the constructors establish for every node, and what the search
    for a common subexpression adds to it. *)
Record shape (s : Store) : Prop := mkShape {
  sh_inputs : forall p n, allNodes s !! p = Some n ->
    Forall (fun i => (i < p)%nat) (inputs n);
  sh_deps : forall p n, allNodes s !! p = Some n ->
    deps n = deps_of s (op n) (inputs n);
  sh_level : forall p n, allNodes s !! p = Some n ->
    level n = level_of_deps (deps n);
  sh_outputs : forall p n q, allNodes s !! p = Some n ->
    q ∈ outputs n <-> consumes s q p;
  sh_const : forall p n, allNodes s !! p = Some n -> op n = Const ->
    inputs n = [] /\ (type n = Int \/ type n = Float);
  sh_leaf : forall p n, allNodes s !! p = Some n ->
    is_var (op n) || op_eqb (op n) UnboundVar = true -> inputs n = [];
  sh_kind : forall p n, allNodes s !! p = Some n ->
    type_ok (op n) (type n) = true
    /\ arity_ok (op n) (length (inputs n)) = true;
  sh_unique : forall p q np nq,
    allNodes s !! p = Some np -> allNodes s !! q = Some nq -> (p < q)%nat ->
    inputs nq <> [] ->
    same_node np (op nq) (type nq) (inputs nq) (ival nq) (fval nq) = false
}.

(** ** Garbage collection *)

(** The node [n] with [marked = b]. *)
Definition set_marked (b : bool) (n : IRNode) : IRNode :=
  mkNode (type n) (op n) (inputs n) (outputs n) (ival n) (fval n) (deps n)
         (level n) (reg n) (width n) b.

(** [marked = newMark;] on the node [this] *)
Definition mark (this : ptr) (newMark : bool) : M unit :=
  fun s =>
    match allNodes s !! this with
    | Some n =>
        Ok tt (mkStore (<[this := set_marked newMark n]> (allNodes s))
                       (floatInstances s) (intInstances s) (varInstances s))
    | None => Undef
    end.

(** A [for] loop over a vector, for its effect. *)
Fixpoint forM {A} (f : A -> M unit) (l : list A) : M unit :=
  match l with
  | [] => pure tt
  | a :: rest => let* _ := f a in forM f rest
  end.

(** [IRNode::markDescendents] *)
Fixpoint markDescendents (fuel : nat) (this : ptr) (newMark : bool) : M unit :=
  match fuel with
  | O => timeout
  | S fuel =>
      let* n := get this in
      if eqb (marked n) newMark then pure tt
      else
        let* _ := forM (fun i => markDescendents fuel i newMark) (inputs n) in
        mark this newMark
  end.

(** The first loop of [IRNode::collectGarbage]:
    [allNodes[i]->marked = true] for every [i]. *)
Definition mark_all (newMark : bool) : M unit :=
  fun s => Ok tt (mkStore (set_marked newMark <$> allNodes s)
                          (floatInstances s) (intInstances s)
                          (varInstances s)).

(** The four structures that [collectGarbage] fills and then swaps with
    the static ones; a node is named by the pointer it has. *)
Record Swept := mkSwept {
  newAllNodes : list ptr;
  newFloatInstances : list (float * ptr);
  newIntInstances : gmap Z ptr;
  newVarInstances : list (OpCode * ptr)
}.

(** The four structures as they are declared, empty. *)
Definition empty_swept : Swept := mkSwept [] [] ∅ [].

(** [m[k] = v] on a [std::map<OpCode, IRNode *>] *)
Fixpoint vmap_set (k : OpCode) (v : ptr) (m : list (OpCode * ptr))
  : list (OpCode * ptr) :=
  match m with
  | [] => [(k, v)]
  | (k', v') :: m' =>
      if op_eqb k' k then (k', v) :: m' else (k', v') :: vmap_set k v m'
  end.

(** The body of the loop that saves the unmarked nodes, for the node [n]
    at [allNodes[i]], whose pointer is [p]. *)
Definition save_node (p : ptr) (n : IRNode) (acc : Swept) : Swept :=
  if marked n then acc
  else
    let nodes := newAllNodes acc ++ [p] in
    if op_eqb (op n) Const then
      if type_eqb (type n) Float then
        mkSwept nodes (fmap_insert (fval n) p (newFloatInstances acc))
                (newIntInstances acc) (newVarInstances acc)
      else
        mkSwept nodes (newFloatInstances acc)
                (<[ival n := p]> (newIntInstances acc)) (newVarInstances acc)
    else if is_var (op n) then
      mkSwept nodes (newFloatInstances acc) (newIntInstances acc)
              (vmap_set (op n) p (newVarInstances acc))
    else
      mkSwept nodes (newFloatInstances acc) (newIntInstances acc)
              (newVarInstances acc).

(** The loop over [allNodes], from position [p] on. *)
Fixpoint save_from (p : ptr) (ns : list IRNode) (acc : Swept) : Swept :=
  match ns with
  | [] => acc
  | n :: rest => save_from (S p) rest (save_node p n acc)
  end.

(** [IRNode::collectGarbage], up to the point where the marked nodes are
    deleted and the new structures are swapped in: the result is what the
    four static structures hold afterwards. *)
Definition collectGarbage (fuel : nat) (saved : list ptr) : M Swept :=
  let* _ := mark_all true in
  let* _ := forM (fun p => markDescendents fuel p false) saved in
  fun s => Ok (save_from 0 (allNodes s) empty_swept) s.

(** The node [p] is not marked. *)
Definition unmarked (s : Store) (p : ptr) : Prop :=
  exists n, allNodes s !! p = Some n /\ marked n = false.

(** Two stores that differ in the marks only. *)
Definition same_but_marks (s s' : Store) : Prop :=
  set_marked false <$> allNodes s' = set_marked false <$> allNodes s.

(** The unmarked nodes are closed under inputs. *)
Definition closed (s : Store) : Prop :=
  forall q i, unmarked s q -> consumes s q i -> unmarked s i.

(** A node that the loop of [collectGarbage] enters into the table of the
    [int] constants. *)
Definition int_entry (n : IRNode) : bool :=
  negb (marked n) && op_eqb (op n) Const && negb (type_eqb (type n) Float).

(** Node [p] is there and does not have the flag [f] in its dependence
    mask. *)
Definition free (f : Z) (s : Store) (p : ptr) : Prop :=
  valid s p /\ has (deps_at s p) f = false.

(** The two invariants of a store together. *)
Definition good (s : Store) : Prop := wf s /\ shape s.

(** What a recursive call of [make] is assumed to do with a flag that
    neither the opcode nor an input has. *)
Definition frees_mk (f : Z) (mk : OpCode -> list ptr -> Z -> float -> M ptr)
  : Prop :=
  forall opcode ins iv fv s r s',
    good s -> has (self_dep opcode) f = false -> Forall (free f s) ins ->
    mk opcode ins iv fv s = Ok r s' ->
    good s' /\ ext s s' /\ free f s' r.

(** [0: UnboundVar], [1: 2], [2: Plus(0, 1)]: a sum over an unbound
    variable. *)
Definition unbound_sum : list call :=
  [call_make 1 UnboundVar [] 0 fzero; call_make_int 2;
   call_make 1 Plus [0; 1]%nat 0 fzero].

(** [0: 1.0f], [1: 7]: a guard that is true and a value. *)
Definition float_guard : list call :=
  [call_make_float fone; call_make_int 7].

(** A node that is no sum. *)
Definition atom (s : Store) (p : ptr) : Prop :=
  exists n, allNodes s !! p = Some n /\ is_sum (op n) = false.

(** A sum over nodes of type [Int] in the form in which the loop of
    [rebalanceSum] builds it: a node of type [Int] that is no sum, or a
    [Plus] or [Minus] of type [Int] over two such sums. *)
Inductive int_tree (s : Store) : ptr -> Prop :=
  | int_leaf p n :
      allNodes s !! p = Some n -> type n = Int -> is_sum (op n) = false ->
      int_tree s p
  | int_node p n a b :
      allNodes s !! p = Some n -> type n = Int ->
      op n = Plus \/ op n = Minus -> inputs n = [a; b] ->
      int_tree s a -> int_tree s b -> int_tree s p.

(** The node depends on something. *)
Definition dep (s : Store) (p : ptr) : Prop := deps_at s p <> 0.

(** The call [F] returns [a] and leaves the store [s'], under every
    recursion bound from some bound on. *)
Definition returns {A} (F : nat -> M A) (s : Store) (a : A) (s' : Store)
  : Prop :=
  exists N, forall n, (N <= n)%nat -> F n s = Ok a s'.

(** A node that the loop of [rebalanceSum] can add to a sum: when its type
    is [Int], it is a sum over nodes of type [Int]. *)
Definition summand (s : Store) (p : ptr) : Prop :=
  exists n, allNodes s !! p = Some n /\ (type n = Int -> int_tree s p).


(** The opcode with which the loop of [rebalanceSum] puts a term on a
    sum that is positive. *)
Definition term_op (tm : term) : OpCode := if snd tm then Plus else Minus.

(** The node [r] is the sum that the loop of [rebalanceSum] builds from
    the positive node [t] and the terms [rest], each added to or
    subtracted from the sum so far: [Minus(.. Plus(Plus(t, t1), t2) .., tk)]. *)
Fixpoint sum_chain (s : Store) (t : ptr) (rest : list term) (r : ptr) : Prop :=
  match rest with
  | [] => r = t
  | next :: rest =>
      exists q nq,
        allNodes s !! q = Some nq
        /\ same_node nq (term_op next) Int [t; fst next] 0 fzero = true
        /\ sum_chain s q rest r
  end.

(** The terms with the levels of their nodes, as the sort sees them. *)
Definition leveled (s : Store) (terms : list term) : list (Z * term) :=
  map (fun tm => (default 0 (level_at s (fst tm)), tm)) terms.

(** No element is of a lower level than the one before it. *)
Fixpoint ordered (l : list (Z * term)) : Prop :=
  match l with
  | [] => True
  | x :: rest => Forall (fun y => fst x <= fst y) rest /\ ordered rest
  end.

(** A term whose node has type [Int], is no sum and depends on
    something. *)
Definition int_term (s : Store) (tm : term) : Prop :=
  exists n, allNodes s !! fst tm = Some n /\ type n = Int
            /\ is_sum (op n) = false /\ deps n <> 0.

(** A sum of type [Int] over nodes of type [Int]: a node of type [Int]
    that is no sum and is a constant or depends on something, a [Plus] or
    [Minus] of type [Int] over two such sums, or a [PlusImm] over one. *)
Inductive sum_tree (s : Store) : ptr -> Prop :=
  | sum_leaf p n :
      allNodes s !! p = Some n -> type n = Int -> is_sum (op n) = false ->
      op n = Const \/ deps n <> 0 -> sum_tree s p
  | sum_node p n a b :
      allNodes s !! p = Some n -> type n = Int ->
      op n = Plus \/ op n = Minus ->
      inputs n = [a; b] -> sum_tree s a -> sum_tree s b -> sum_tree s p
  | sum_imm p n a :
      allNodes s !! p = Some n -> op n = PlusImm -> inputs n = [a] ->
      sum_tree s a -> sum_tree s p.

(** Such a sum in which nothing is subtracted. *)
Inductive plus_tree (s : Store) : ptr -> Prop :=
  | plus_atom p n :
      allNodes s !! p = Some n -> type n = Int -> is_sum (op n) = false ->
      op n = Const \/ deps n <> 0 -> plus_tree s p
  | plus_plus p n a b :
      allNodes s !! p = Some n -> type n = Int -> op n = Plus ->
      inputs n = [a; b] -> plus_tree s a -> plus_tree s b -> plus_tree s p
  | plus_imm p n a :
      allNodes s !! p = Some n -> op n = PlusImm -> inputs n = [a] ->
      plus_tree s a -> plus_tree s p.

(** What [rebalanceSum] returns on such a sum when the first of the
    sorted terms is added: the terms that are no constants, in the order
    of their levels, put on the sum from left to right, and around that
    sum the constant, if it is not 0. *)
Definition canonical (s : Store) (r : ptr) : Prop :=
  exists t rest acc,
    Forall (int_term s) (t :: rest) /\ snd t = true
    /\ ordered (leveled s (t :: rest))
    /\ sum_chain s (fst t) rest acc
    /\ (r = acc
        \/ exists nr c,
             allNodes s !! r = Some nr
             /\ same_node nr PlusImm Int [acc] c fzero = true
             /\ c <> 0 /\ wrap c = c).

(** [0: VarT], [1: VarX], [2: Minus(VarT, VarX)]: a difference in which
    the term of the lowest level is added. *)
Definition t_minus_x : list call :=
  [call_make 1 VarT [] 0 fzero; call_make 1 VarX [] 0 fzero;
   call_make 1 Minus [0; 1]%nat 0 fzero].

(** ** The order of the float keys *)

Ltac float_cases :=
  simpl; try discriminate; try reflexivity;
  repeat match goal with
         | s : bool |- _ => destruct s; simpl; try discriminate
         end;
  try reflexivity;
  repeat match goal with
         | |- context [Z.compare ?a ?b] =>
             destruct (Z.compare_spec a b)
         | |- context [Pos.compare_cont Eq ?a ?b] =>
             fold (Pos.compare a b); destruct (Pos.compare_spec a b)
         end;
  simpl; try discriminate; try reflexivity; try lia.

Lemma fltb_irrefl x : fltb x x = false.
Proof.
  unfold fltb, SFltb.
  destruct x as [s|s| |s m e]; simpl; try reflexivity; destruct s;
    try reflexivity;
    rewrite Z.compare_refl, Pos.compare_cont_refl; reflexivity.
Qed.

Lemma fltb_trans x y z : fltb x y = true -> fltb y z = true -> fltb x z = true.
Proof.
  unfold fltb, SFltb.
  destruct x as [?|?| |? m1 e1], y as [?|?| |? m2 e2], z as [?|?| |? m3 e3];
    float_cases.
Qed.

(** Keys that are not NaN and not below one another are interchangeable. *)
Lemma fltb_equiv_r c k k' :
  is_nan k = false -> fltb k k' = false -> fltb k' k = false ->
  fltb c k' = true -> fltb c k = true.
Proof.
  unfold fltb, SFltb.
  destruct c as [?|?| |? m1 e1], k as [?|?| |? m2 e2], k' as [?|?| |? m3 e3];
    float_cases.
Qed.

Lemma feqb_fltb_l v w k : feqb v w = true -> fltb v k = fltb w k.
Proof.
  unfold feqb, SFeqb, fltb, SFltb.
  destruct v as [?|?| |? m1 e1], w as [?|?| |? m2 e2], k as [?|?| |? m3 e3];
    float_cases.
Qed.

Lemma feqb_fltb_r v w k : feqb v w = true -> fltb k v = fltb k w.
Proof.
  unfold feqb, SFeqb, fltb, SFltb.
  destruct v as [?|?| |? m1 e1], w as [?|?| |? m2 e2], k as [?|?| |? m3 e3];
    float_cases.
Qed.

Lemma feqb_not_nan v w : feqb v w = true -> is_nan v = false.
Proof. destruct v, w; simpl; try discriminate; reflexivity. Qed.

(** ** The uniquing tables *)

Lemma fmap_find_insert_same k v m :
  fmap_find k m = None -> fmap_find k (fmap_insert k v m) = Some v.
Proof.
  induction m as [|[k' v'] m IH]; simpl.
  - rewrite fltb_irrefl. reflexivity.
  - destruct (fltb k' k) eqn:E1; simpl.
    + rewrite E1. exact IH.
    + destruct (fltb k k') eqn:E2; [|discriminate].
      intros _. simpl. rewrite fltb_irrefl. reflexivity.
Qed.

Lemma fmap_find_insert_other k p k2 v m :
  is_nan k = false -> fmap_find k m = Some p -> fmap_find k2 m = None ->
  fmap_find k (fmap_insert k2 v m) = Some p.
Proof.
  intros Hk. induction m as [|[k' v'] m IH]; simpl; [discriminate|].
  destruct (fltb k' k2) eqn:E2; simpl.
  - destruct (fltb k' k) eqn:E1; [exact IH|].
    destruct (fltb k k'); [discriminate|]. intros; assumption.
  - destruct (fltb k2 k') eqn:E3; [|discriminate].
    intros Hf _. simpl.
    assert (fltb k2 k = true) as ->; [|exact Hf].
    destruct (fltb k' k) eqn:E1.
    + eapply fltb_trans; eassumption.
    + destruct (fltb k k') eqn:E4; [discriminate|].
      eapply fltb_equiv_r; eassumption.
Qed.

Lemma fmap_find_elem k p m : fmap_find k m = Some p -> exists k', (k', p) ∈ m.
Proof.
  induction m as [|[k' v'] m IH]; simpl; [discriminate|].
  destruct (fltb k' k).
  - intros H. destruct (IH H) as [k'' ?]. exists k''. by right.
  - destruct (fltb k k'); [discriminate|].
    intros [= ->]. exists k'. by left.
Qed.

Lemma fmap_insert_elem k' p k v m :
  (k', p) ∈ fmap_insert k v m -> p = v \/ (k', p) ∈ m.
Proof.
  induction m as [|[k0 v0] m IH]; simpl.
  - intros [= -> ->]%list_elem_of_singleton. by left.
  - destruct (fltb k0 k).
    + intros [E|E]%elem_of_cons.
      * right. rewrite E. by left.
      * destruct (IH E) as [?|?]; [by left|]. right. by right.
    + destruct (fltb k k0).
      * intros [E|E]%elem_of_cons; [left; congruence|by right].
      * intros [E|E]%elem_of_cons; [left; congruence|]. right. by right.
Qed.

Lemma vmap_find_app k p m m' :
  vmap_find k m = Some p -> vmap_find k (m ++ m') = Some p.
Proof.
  induction m as [|[k' v'] m IH]; simpl; [discriminate|].
  destruct (op_eqb k' k); auto.
Qed.

Lemma op_eqb_eq a b : op_eqb a b = true <-> a = b.
Proof.
  unfold op_eqb. split.
  - destruct a, b; simpl; intros H; try reflexivity; discriminate H.
  - intros ->. apply Z.eqb_refl.
Qed.

Lemma vmap_find_elem k p m : vmap_find k m = Some p -> (k, p) ∈ m.
Proof.
  induction m as [|[k' v'] m IH]; simpl; [discriminate|].
  destruct (op_eqb k' k) eqn:E.
  - apply op_eqb_eq in E as ->. intros [= ->]. by left.
  - intros H. right. auto.
Qed.

(** ** Stores that grow *)

Lemma strip_fields n n' :
  strip n = strip n' ->
  type n = type n' /\ op n = op n' /\ inputs n = inputs n' /\ ival n = ival n'
  /\ fval n = fval n' /\ deps n = deps n' /\ level n = level n'.
Proof. unfold strip. intros [= -> -> -> -> -> -> ->]. repeat split. Qed.

Lemma valid_lookup s p n : allNodes s !! p = Some n -> valid s p.
Proof. intros H. unfold valid. eapply lookup_lt_Some. exact H. Qed.

Lemma valid_is_Some s p : valid s p -> exists n, allNodes s !! p = Some n.
Proof. intros H. apply lookup_lt_is_Some in H. destruct H as [n ?]. eauto. Qed.

Lemma cores_lookup s p n :
  allNodes s !! p = Some n -> cores s !! p = Some (strip n).
Proof. intros H. unfold cores. rewrite list_lookup_fmap, H. reflexivity. Qed.

Lemma cores_lookup_inv s p c :
  cores s !! p = Some c -> exists n, allNodes s !! p = Some n /\ c = strip n.
Proof.
  unfold cores. rewrite list_lookup_fmap.
  destruct (allNodes s !! p) as [n|]; simpl; [|discriminate].
  intros [= <-]. eauto.
Qed.

Lemma cores_length s : length (cores s) = length (allNodes s).
Proof. unfold cores. apply length_fmap. Qed.

Lemma ext_refl s : ext s s.
Proof. split; auto. Qed.

Lemma ext_trans s1 s2 s3 : ext s1 s2 -> ext s2 s3 -> ext s1 s3.
Proof.
  intros [A1 B1 C1 D1] [A2 B2 C2 D2]. split; eauto.
  etrans; eassumption.
Qed.

Lemma ext_lookup s s' p n :
  ext s s' -> allNodes s !! p = Some n ->
  exists n', allNodes s' !! p = Some n' /\ strip n' = strip n.
Proof.
  intros [A _ _ _] H. apply cores_lookup in H.
  eapply prefix_lookup_Some in H; [|exact A].
  apply cores_lookup_inv in H as (n' & ? & ?). eauto.
Qed.

Lemma ext_valid s s' p : ext s s' -> valid s p -> valid s' p.
Proof.
  intros E (n & H)%valid_is_Some.
  destruct (ext_lookup _ _ _ _ E H) as (n' & H' & _).
  eapply valid_lookup, H'.
Qed.

Lemma ext_deps_at s s' p : ext s s' -> valid s p -> deps_at s' p = deps_at s p.
Proof.
  intros E (n & H)%valid_is_Some. unfold deps_at.
  destruct (ext_lookup _ _ _ _ E H) as (n' & -> & F). rewrite H.
  apply strip_fields in F. tauto.
Qed.

Lemma ext_length s s' :
  ext s s' -> (length (allNodes s) <= length (allNodes s'))%nat.
Proof.
  intros [A _ _ _]. apply prefix_length in A.
  rewrite !cores_length in A. exact A.
Qed.

(** A node is appended to the store, and maybe entered in a table. *)
Lemma grow_lookup s s' new p n :
  cores s' = cores s ++ [strip new] -> allNodes s' !! p = Some n ->
  (exists n0, allNodes s !! p = Some n0 /\ strip n = strip n0)
  \/ (p = length (allNodes s) /\ strip n = strip new).
Proof.
  intros Hc H. apply cores_lookup in H. rewrite Hc in H.
  apply lookup_app_Some in H as [H|[Hl H]].
  - left. apply cores_lookup_inv in H as (n0 & ? & ?). eauto.
  - right. rewrite cores_length in Hl, H.
    destruct (p - length (allNodes s))%nat as [|k] eqn:E; simpl in H;
      [|discriminate].
    split; [lia|congruence].
Qed.

Lemma grow_old s s' new p n :
  cores s' = cores s ++ [strip new] -> allNodes s !! p = Some n ->
  exists n', allNodes s' !! p = Some n' /\ strip n' = strip n.
Proof.
  intros Hc H. apply cores_lookup in H.
  assert (cores s' !! p = Some (strip n)) as H'.
  { rewrite Hc. apply lookup_app_l_Some. exact H. }
  apply cores_lookup_inv in H' as (n' & ? & ?). eauto.
Qed.

Lemma grow_new s s' new :
  cores s' = cores s ++ [strip new] ->
  exists n', allNodes s' !! length (allNodes s) = Some n'
             /\ strip n' = strip new.
Proof.
  intros Hc.
  assert (cores s' !! length (allNodes s) = Some (strip new)) as H'.
  { rewrite Hc, <- cores_length. apply list_lookup_middle. reflexivity. }
  apply cores_lookup_inv in H' as (n' & ? & ?). eauto.
Qed.

Lemma grow_deps_at s s' new i :
  cores s' = cores s ++ [strip new] -> valid s i -> deps_at s' i = deps_at s i.
Proof.
  intros Hc (n & H)%valid_is_Some. unfold deps_at.
  destruct (grow_old _ _ _ _ _ Hc H) as (n' & -> & F). rewrite H.
  apply strip_fields in F. tauto.
Qed.

Lemma wf_grow s s' new :
  wf s ->
  cores s' = cores s ++ [strip new] ->
  Forall (fun i => (i < length (allNodes s))%nat) (inputs new) ->
  (op new = Const -> deps new = 0) ->
  (is_sum (op new) = true ->
   length (inputs new) = sum_arity (op new)
   /\ Exists (fun i => deps_at s i <> 0) (inputs new)) ->
  (forall k p, (k, p) ∈ floatInstances s' ->
     (k, p) ∈ floatInstances s
     \/ (p = length (allNodes s) /\ type new = Float /\ op new = Const)) ->
  (forall k p, intInstances s' !! k = Some p ->
     intInstances s !! k = Some p
     \/ (p = length (allNodes s) /\ type new = Int /\ op new = Const
         /\ ival new = k)) ->
  (forall k p, intInstances s !! k = Some p -> intInstances s' !! k = Some p) ->
  (op new = Const -> type new = Int ->
   intInstances s' !! ival new = Some (length (allNodes s))) ->
  (forall k p, (k, p) ∈ varInstances s' -> (k, p) ∈ varInstances s) ->
  (forall k p, is_nan k = false ->
     fmap_find k (floatInstances s) = Some p ->
     fmap_find k (floatInstances s') = Some p) ->
  (op new = Const -> type new = Float -> is_nan (fval new) = false ->
   fmap_find (fval new) (floatInstances s') = Some (length (allNodes s))) ->
  wf s'.
Proof.
  intros W Hc Hin Hconst Hsum Hf Hi Hi' Hinew Hv Hf' Hfnew.
  assert (forall i, (i < length (allNodes s))%nat -> valid s i) as Hval by auto.
  split.
  - intros p n H. destruct (grow_lookup _ _ _ _ _ Hc H) as [(n0 & H0 & F)|[-> F]];
      apply strip_fields in F; destruct F as (_ & _ & -> & _).
    + eapply wf_inputs; eassumption.
    + exact Hin.
  - intros p n H. destruct (grow_lookup _ _ _ _ _ Hc H) as [(n0 & H0 & F)|[-> F]];
      apply strip_fields in F; destruct F as (_ & -> & _ & _ & _ & -> & _).
    + eapply wf_const; eassumption.
    + exact Hconst.
  - intros p n H. destruct (grow_lookup _ _ _ _ _ Hc H) as [(n0 & H0 & F)|[-> F]];
      apply strip_fields in F; destruct F as (_ & -> & -> & _).
    + intros S. destruct (wf_sum _ W _ _ H0 S) as [A B]. split; [exact A|].
      pose proof (wf_inputs _ W _ _ H0) as I.
      rewrite Exists_exists in B. destruct B as (i & Hi1 & Hi2).
      rewrite Exists_exists. exists i. split; [exact Hi1|].
      rewrite (grow_deps_at _ _ _ _ Hc); [exact Hi2|].
      rewrite Forall_forall in I. apply I in Hi1.
      apply valid_lookup in H0. unfold valid in *. lia.
    + intros S. destruct (Hsum S) as [A B]. split; [exact A|].
      rewrite Exists_exists in B. destruct B as (i & Hi1 & Hi2).
      rewrite Exists_exists. exists i. split; [exact Hi1|].
      rewrite (grow_deps_at _ _ _ _ Hc); [exact Hi2|].
      rewrite Forall_forall in Hin. apply Hin in Hi1. exact Hi1.
  - intros k p H. destruct (Hf _ _ H) as [H0|(-> & T & O)].
    + destruct (wf_float _ W _ _ H0) as (n0 & L & T & O).
      destruct (grow_old _ _ _ _ _ Hc L) as (n' & L' & F).
      apply strip_fields in F. exists n'. intuition congruence.
    + destruct (grow_new _ _ _ Hc) as (n' & L' & F).
      apply strip_fields in F. exists n'. intuition congruence.
  - intros k p H. destruct (Hi _ _ H) as [H0|(-> & T & O & V)].
    + destruct (wf_int _ W _ _ H0) as (n0 & L & T & O & V).
      destruct (grow_old _ _ _ _ _ Hc L) as (n' & L' & F).
      apply strip_fields in F. exists n'. intuition congruence.
    + destruct (grow_new _ _ _ Hc) as (n' & L' & F).
      apply strip_fields in F. exists n'. intuition congruence.
  - intros p n H O T.
    destruct (grow_lookup _ _ _ _ _ Hc H) as [(n0 & H0 & F)|[-> F]];
      apply strip_fields in F; destruct F as (Ft & Fo & _ & -> & _);
      rewrite Ft in T; rewrite Fo in O.
    + apply Hi'. eapply wf_int_all; eassumption.
    + auto.
  - intros k p H. apply Hv in H.
    destruct (wf_var _ W _ _ H) as (n0 & L & O & T).
    destruct (grow_old _ _ _ _ _ Hc L) as (n' & L' & F).
    apply strip_fields in F. exists n'. intuition congruence.
  - intros p n H O T N.
    destruct (grow_lookup _ _ _ _ _ Hc H) as [(n0 & H0 & F)|[-> F]];
      apply strip_fields in F; destruct F as (Ft & Fo & _ & _ & Fv & _);
      rewrite Ft in T; rewrite Fo in O; rewrite Fv in N |- *.
    + apply Hf'; [exact N|]. eapply wf_float_all; eassumption.
    + auto.
Qed.

(** ** The primitive operations *)

Lemma bind_inv {A B} (m : M A) (k : A -> M B) s b s' :
  and_then m k s = Ok b s' ->
  exists a s1, m s = Ok a s1 /\ k a s1 = Ok b s'.
Proof. unfold and_then. destruct (m s); try discriminate. eauto. Qed.

Lemma pure_inv {A} (a b : A) s s' : pure a s = Ok b s' -> b = a /\ s' = s.
Proof. unfold pure. intros [= -> ->]. auto. Qed.

Lemma get_inv p s n s' :
  get p s = Ok n s' -> s' = s /\ allNodes s !! p = Some n.
Proof.
  unfold get. destruct (allNodes s !! p); [|discriminate].
  intros [= -> ->]. auto.
Qed.

Lemma at_inv {A} i (v : list A) s a s' :
  at_ i v s = Ok a s' -> s' = s /\ v !! i = Some a.
Proof.
  unfold at_. destruct (v !! i); [|discriminate].
  intros [= -> ->]. auto.
Qed.

Lemma assert_inv c s u s' : assert c s = Ok u s' -> s' = s /\ c = true.
Proof. unfold assert. destruct c; [|discriminate]. intros [= _ ->]. auto. Qed.

Lemma find_var_inv o s r s' :
  find_var o s = Ok r s' -> s' = s /\ r = vmap_find o (varInstances s).
Proof. unfold find_var. intros [= -> ->]. auto. Qed.

(** The symbolic run of a computation that returned: [H : m s = Ok a s']
    is taken apart along the structure of [m]. *)
Ltac mrun H :=
  lazymatch type of H with
  | and_then _ _ _ = Ok _ _ =>
      let a := fresh "a" in
      let s1 := fresh "s" in
      let H1 := fresh "H" in
      apply bind_inv in H as (a & s1 & H1 & H); mrun H1; mrun H
  | chain _ _ _ = Ok _ _ => unfold chain in H; mrun H
  | pure _ _ = Ok _ _ => apply pure_inv in H as [? ?]; subst
  | get _ _ = Ok _ _ =>
      let E := fresh "E" in apply get_inv in H as [E H]; subst
  | at_ _ _ _ = Ok _ _ =>
      let E := fresh "E" in apply at_inv in H as [E H]; subst
  | assert _ _ = Ok _ _ =>
      let E := fresh "E" in apply assert_inv in H as [E H]; subst
  | arity _ _ _ = Ok _ _ => unfold arity in H; mrun H
  | node_at _ _ _ = Ok _ _ => unfold node_at in H; mrun H
  | type_of _ _ = Ok _ _ => unfold type_of in H; mrun H
  | find_var _ _ = Ok _ _ =>
      let E := fresh "E" in apply find_var_inv in H as [E H]; subst
  | fatal _ = Ok _ _ => discriminate H
  | undef _ = Ok _ _ => discriminate H
  | timeout _ = Ok _ _ => discriminate H
  | (if ?b then _ else _) _ = Ok _ _ =>
      let E := fresh "E" in destruct b eqn:E; mrun H
  | (match ?x with _ => _ end) _ = Ok _ _ =>
      let E := fresh "E" in destruct x eqn:E; mrun H
  | (let '(_, _) := ?x in _) _ = Ok _ _ =>
      let E := fresh "E" in destruct x eqn:E; mrun H
  | (fun _ => _) _ _ = Ok _ _ => cbv beta in H; mrun H
  | _ => idtac
  end.

(** The later store extends the earlier one along the chain of calls. *)
Ltac ext_tac :=
  repeat first [ assumption | apply ext_refl
               | eapply ext_trans; [eassumption|] ].

Ltac valid_tac :=
  match goal with
  | H : valid ?s ?r |- valid ?s' ?r =>
      apply (ext_valid s s'); [solve [ext_tac]|exact H]
  | H : allNodes ?s !! ?r = Some _ |- valid ?s' ?r =>
      apply (ext_valid s s'); [solve [ext_tac]|exact (valid_lookup _ _ _ H)]
  end.

Ltac done_tac := split; [assumption|split; [ext_tac|valid_tac]].

Lemma link_inputs_ok this ins d ns d' ns' :
  link_inputs this ins d ns = Some (d', ns') ->
  strip <$> ns' = strip <$> ns
  /\ Forall (fun i => (i < length ns)%nat) ins.
Proof.
  revert d ns. induction ins as [|i ins IH]; simpl; intros d ns.
  - intros [= _ ->]. auto.
  - destruct (ns !! i) as [n|] eqn:E; [|discriminate].
    intros H. apply IH in H as [H1 H2].
    rewrite length_insert in H2. split.
    + rewrite H1, list_fmap_insert. apply list_insert_id.
      rewrite list_lookup_fmap, E. reflexivity.
    + constructor; [|exact H2]. eapply lookup_lt_Some, E.
Qed.

Lemma new_node_ok t opcode ins iv fv s r s' :
  wf s -> opcode <> Const ->
  (is_sum opcode = true ->
   length ins = sum_arity opcode /\ Exists (fun i => deps_at s i <> 0) ins) ->
  new_node t opcode ins iv fv s = Ok r s' ->
  wf s' /\ ext s s' /\ valid s' r /\ r = length (allNodes s)
  /\ floatInstances s' = floatInstances s
  /\ intInstances s' = intInstances s
  /\ varInstances s' = varInstances s
  /\ exists n, allNodes s' !! r = Some n /\ type n = t /\ op n = opcode
               /\ inputs n = ins /\ ival n = iv /\ fval n = fv.
Proof.
  intros W Hop Hsum. unfold new_node.
  destruct (link_inputs _ _ _ _) as [[d ns]|] eqn:L; [|discriminate].
  intros [= <- <-]. apply link_inputs_ok in L as [L1 L2].
  set (new := mkNode t opcode ins [] iv fv d (level_of_deps d) (-1) 1 false).
  set (s' := mkStore _ _ _ _).
  assert (cores s' = cores s ++ [strip new]) as Hc.
  { unfold cores, s'. simpl. rewrite fmap_app, L1. reflexivity. }
  assert (length ns = length (allNodes s)) as Hl.
  { rewrite <- (length_fmap strip ns), L1. apply length_fmap. }
  assert (wf s') as W'.
  { apply (wf_grow s s' new W Hc); simpl; auto; intros; contradiction. }
  split; [exact W'|]. split.
  { split; simpl; auto. rewrite Hc. apply prefix_app_r. reflexivity. }
  split.
  { unfold valid, s'. simpl. rewrite length_app, Hl. simpl. lia. }
  repeat (split; [reflexivity|]).
  exists new. split; [|repeat split].
  unfold s'. simpl. rewrite <- Hl. apply list_lookup_middle. reflexivity.
Qed.

Lemma make_int_ok v s r s' :
  wf s -> make_int v s = Ok r s' ->
  wf s' /\ ext s s' /\ valid s' r /\ intInstances s' !! v = Some r
  /\ exists n, allNodes s' !! r = Some n /\ type n = Int /\ op n = Const
               /\ ival n = v.
Proof.
  intros W. unfold make_int.
  destruct (intInstances s !! v) as [p|] eqn:E.
  - intros [= <- <-]. destruct (wf_int _ W _ _ E) as (n & L & ?).
    split; [exact W|]. split; [apply ext_refl|].
    split; [eapply valid_lookup, L|]. split; [exact E|]. eauto.
  - intros [= <- <-]. set (s' := mkStore _ _ _ _).
    assert (cores s' = cores s ++ [strip (const_int v)]) as Hc.
    { unfold cores, s'. simpl. rewrite fmap_app. reflexivity. }
    assert (wf s') as W'.
    { apply (wf_grow s s' (const_int v) W Hc); simpl; auto.
      - discriminate.
      - intros k p [[-> ->]|[? ?]]%lookup_insert_Some; auto.
      - intros k p H. rewrite lookup_insert_ne; [exact H|congruence].
      - intros _ _. apply lookup_insert_eq.
      - discriminate. }
    split; [exact W'|]. split.
    { split; simpl; auto.
      - rewrite Hc. apply prefix_app_r. reflexivity.
      - intros k p H. rewrite lookup_insert_ne; [exact H|congruence]. }
    split.
    { unfold valid, s'. simpl. rewrite length_app. simpl. lia. }
    split; [apply lookup_insert_eq|].
    exists (const_int v). split; [|repeat split].
    unfold s'. simpl. apply list_lookup_middle. reflexivity.
Qed.

Lemma make_float_ok v s r s' :
  wf s -> make_float v s = Ok r s' ->
  wf s' /\ ext s s' /\ valid s' r
  /\ fmap_find v (floatInstances s') = Some r
  /\ exists n, allNodes s' !! r = Some n /\ type n = Float /\ op n = Const.
Proof.
  intros W. unfold make_float.
  destruct (fmap_find v (floatInstances s)) as [p|] eqn:E.
  - intros [= <- <-]. destruct (fmap_find_elem _ _ _ E) as [k Hk].
    destruct (wf_float _ W _ _ Hk) as (n & L & ?).
    split; [exact W|]. split; [apply ext_refl|].
    split; [eapply valid_lookup, L|]. split; [exact E|]. eauto.
  - intros [= <- <-]. set (s' := mkStore _ _ _ _).
    assert (cores s' = cores s ++ [strip (const_float v)]) as Hc.
    { unfold cores, s'. simpl. rewrite fmap_app. reflexivity. }
    assert (wf s') as W'.
    { apply (wf_grow s s' (const_float v) W Hc); simpl; auto.
      - discriminate.
      - intros k p [->|?]%fmap_insert_elem; auto.
      - discriminate.
      - intros k p Hk H. apply fmap_find_insert_other; assumption.
      - intros _ _ _. apply fmap_find_insert_same, E. }
    split; [exact W'|]. split.
    { split; simpl; auto.
      - rewrite Hc. apply prefix_app_r. reflexivity.
      - intros k p Hk H. apply fmap_find_insert_other; assumption. }
    split.
    { unfold valid, s'. simpl. rewrite length_app. simpl. lia. }
    split; [apply fmap_find_insert_same, E|].
    exists (const_float v). split; [|repeat split].
    unfold s'. simpl. apply list_lookup_middle. reflexivity.
Qed.

Lemma register_var_ok opcode p s (u : unit) s' n :
  wf s -> allNodes s !! p = Some n -> op n = opcode -> type n = Int ->
  vmap_find opcode (varInstances s) = None ->
  register_var opcode p s = Ok u s' ->
  wf s' /\ ext s s' /\ allNodes s' = allNodes s.
Proof.
  intros W L O T F. unfold register_var. intros [= <- <-].
  split; [|split; [|reflexivity]].
  all: unfold vmap_insert.
  - destruct W as [W1 W2 W3 W4 W5 W6 W7 W8]. split; simpl; auto.
    intros k q [H|H]%elem_of_app; [eauto|].
    apply list_elem_of_singleton in H. injection H as -> ->.
    exists n. auto.
  - split; simpl; auto. intros k q H. apply vmap_find_app. exact H.
Qed.

(** ** The factory keeps the invariant *)

Ltac split_all H :=
  repeat match type of H with
         | _ /\ _ => let H' := fresh "P" in destruct H as [H' H]
         | exists _, _ => let x := fresh "x" in destruct H as [x H]
         end.

(** The known effect of a call, used on [H : f .. s = Ok _ _] under
    [W : wf s]; it grows with the lemmas below. *)
Ltac apply_spec H W :=
  first [ eapply make_int_ok in H; [|exact W]
        | eapply make_float_ok in H; [|exact W]
        | match goal with
          | Hmk : sound_mk ?mk |- _ =>
              match type of H with
              | mk _ _ _ _ _ = Ok _ _ => eapply Hmk in H; [|exact W]
              end
          end ].

Ltac use :=
  repeat match goal with
         | W : wf ?s, H : _ ?s = Ok _ _ |- _ => apply_spec H W; split_all H
         end.

Lemma exists_deps_ext s s' ins :
  ext s s' -> Exists (fun i => deps_at s i <> 0) ins ->
  Exists (fun i => deps_at s' i <> 0) ins.
Proof.
  intros E. rewrite !Exists_exists. intros (i & Hi & Hd). exists i.
  split; [exact Hi|]. rewrite (ext_deps_at _ _ _ E); [exact Hd|].
  unfold deps_at in Hd. destruct (allNodes s !! i) eqn:L; [|congruence].
  eapply valid_lookup, L.
Qed.

Lemma mapM_ok {A} (f : A -> M ptr) l :
  (forall a s r s', wf s -> f a s = Ok r s' ->
     wf s' /\ ext s s' /\ valid s' r) ->
  forall s rs s', wf s -> mapM f l s = Ok rs s' ->
    wf s' /\ ext s s' /\ Forall (valid s') rs.
Proof.
  intros Hf. induction l as [|a l IH]; simpl; intros s rs s' W H.
  - mrun H. split; [assumption|]. split; [apply ext_refl|constructor].
  - mrun H. apply (Hf _ _ _ _ W) in H0 as (W1 & E1 & V1).
    apply (IH _ _ _ W1) in H1 as (W2 & E2 & V2).
    split; [assumption|]. split; [ext_tac|].
    constructor; [valid_tac|assumption].
Qed.

Lemma mapM_length {A B} (f : A -> M B) l s rs s' :
  mapM f l s = Ok rs s' -> length rs = length l.
Proof.
  revert s rs. induction l as [|a l IH]; simpl; intros s rs H; mrun H.
  - reflexivity.
  - simpl. f_equal. eapply IH, H1.
Qed.

Section Soundness.

Variable mk : OpCode -> list ptr -> Z -> float -> M ptr.
Variable fuel : nat.
Hypothesis Hmk : sound_mk mk.

Lemma as_body_ok t p s r s' :
  wf s -> as_body mk t p s = Ok r s' -> wf s' /\ ext s s' /\ valid s' r.
Proof.
  intros W H. unfold as_body in H. mrun H; use; done_tac.
Qed.

Lemma coerce_ok t i ins s ins' s' :
  wf s -> coerce mk t i ins s = Ok ins' s' ->
  wf s' /\ ext s s' /\ length ins' = length ins
  /\ (forall p, ins' !! i = Some p -> valid s' p).
Proof.
  intros W H. unfold coerce in H. mrun H.
  apply (as_body_ok _ _ _ _ _ W) in H1 as (W1 & E1 & V1).
  split; [assumption|]. split; [assumption|].
  split; [apply length_insert|].
  intros p. rewrite list_lookup_insert_eq; [congruence|].
  eapply lookup_lt_Some; eassumption.
Qed.

Ltac use1 :=
  repeat match goal with
         | W : wf ?s, H : coerce _ _ _ _ ?s = Ok _ _ |- _ =>
             eapply coerce_ok in H; [|exact W]; split_all H
         | W : wf ?s, H : as_body _ _ _ ?s = Ok _ _ |- _ =>
             eapply as_body_ok in H; [|exact W]; split_all H
         | W : wf ?s, H : _ ?s = Ok _ _ |- _ => apply_spec H W; split_all H
         end.

Lemma either_float_inv ins s b s' : either_float ins s = Ok b s' -> s' = s.
Proof. intros H. unfold either_float in H. mrun H; reflexivity. Qed.

Lemma infer_ok opcode ins s f s' :
  wf s -> infer mk opcode ins s = Ok f s' ->
  wf s' /\ ext s s' /\ opcode <> Const
  /\ match f with
     | Return p => valid s' p
     | Continue ti =>
         (opcode = NoOp -> exists p, snd ti !! 0%nat = Some p /\ valid s' p)
         /\ (is_sum opcode = true -> length (snd ti) = sum_arity opcode)
         /\ (is_var opcode || op_eqb opcode UnboundVar = true
             -> fst ti = Int)
     end.
Proof.
  intros W H.
  destruct opcode; simpl in H; mrun H;
    repeat match goal with
           | H : either_float _ _ = Ok _ _ |- _ =>
               apply either_float_inv in H; subst
           end;
    use1;
    (split; [assumption|]); (split; [ext_tac|]); (split; [discriminate|]);
    simpl; try valid_tac;
    repeat split; try discriminate; try reflexivity; eauto using valid_lookup.
  all: intros _;
    match goal with
    | H : (length _ =? _)%nat = true |- _ => apply Nat.eqb_eq in H
    end; congruence.
Qed.

Lemma all_const_inv ins s b s' :
  all_const ins s = Ok b s' ->
  s' = s /\ (b = false -> Exists (fun i => deps_at s i <> 0) ins).
Proof.
  revert b. induction ins as [|p ins IH]; simpl; intros b H; mrun H.
  - split; [reflexivity|discriminate].
  - apply IH in H as [-> H]. split; [reflexivity|].
    intros Hb. right. auto.
  - split; [reflexivity|]. intros _. left.
    unfold deps_at. rewrite H0. apply Z.eqb_neq. assumption.
Qed.

Lemma fold_ok opcode t ins iv s f s' :
  wf s -> fold opcode t ins iv s = Ok f s' ->
  wf s' /\ ext s s'
  /\ match f with
     | Return p => valid s' p
     | Continue _ =>
         s' = s
         /\ (is_sum opcode = true -> ins <> [] ->
             Exists (fun i => deps_at s i <> 0) ins)
     end.
Proof.
  intros W H. unfold fold in H.
  apply bind_inv in H as (c & s1 & Hc & H).
  apply all_const_inv in Hc as [-> Hc].
  destruct (c && negb (length ins =? 0)%nat) eqn:E.
  - destruct opcode; unfold ret_float, ret_int in H; mrun H; use1;
      (split; [assumption|]); (split; [ext_tac|]);
      simpl; try valid_tac; split; try reflexivity; discriminate.
  - mrun H. split; [assumption|]. split; [apply ext_refl|].
    split; [reflexivity|]. intros _ Hne. apply Hc.
    destruct c; [|reflexivity]. destruct ins; [congruence|discriminate].
Qed.

Lemma worth_inv xab s w s' :
  worth xab s = Ok w s' ->
  s' = s /\ forall x a b, w = Some (x, a, b) ->
              valid s x /\ valid s a /\ valid s b.
Proof.
  intros H. unfold worth in H. destruct xab as [[x a] b].
  mrun H; (split; [reflexivity|]); intros x' a' b' [= <- <- <-].
  destruct (level _ <? level _) in E; injection E as <- <- <- <-;
    eauto 6 using valid_lookup.
Qed.

Lemma pick_inv inner i j ins s xab s' :
  pick inner i j ins s = Ok xab s' -> s' = s.
Proof. intros H. unfold pick in H. mrun H; reflexivity. Qed.

Ltac flow_tac :=
  (split; [assumption|]); (split; [ext_tac|]); simpl;
  first [valid_tac | reflexivity | exact I].

Lemma hoist_divide_ok ins s f s' :
  wf s -> hoist_divide mk ins s = Ok f s' ->
  wf s' /\ ext s s'
  /\ match f with Return p => valid s' p | Continue _ => s' = s end.
Proof.
  intros W H. unfold hoist_divide in H. mrun H; use1; flow_tac.
Qed.

Lemma distribute_ok ins s f s' :
  wf s -> distribute mk ins s = Ok f s' ->
  wf s' /\ ext s s'
  /\ match f with Return p => valid s' p | Continue _ => s' = s end.
Proof.
  intros W H. unfold distribute in H. mrun H;
    repeat match goal with
           | H : pick _ _ _ _ _ = Ok _ _ |- _ => apply pick_inv in H; subst
           | H : worth _ _ = Ok _ _ |- _ => apply worth_inv in H as [-> _]
           end;
    use1; flow_tac.
Qed.

Lemma times_plusimm_ok ins s f s' :
  wf s -> times_plusimm mk ins s = Ok f s' ->
  wf s' /\ ext s s'
  /\ match f with Return p => valid s' p | Continue _ => s' = s end.
Proof.
  intros W H. unfold times_plusimm in H. mrun H; use1; flow_tac.
Qed.

Lemma reassociate_ok ins s f s' :
  wf s -> reassociate mk ins s = Ok f s' ->
  wf s' /\ ext s s'
  /\ match f with Return p => valid s' p | Continue _ => s' = s end.
Proof.
  intros W H. unfold reassociate in H. mrun H;
    repeat match goal with
           | H : pick _ _ _ _ _ = Ok _ _ |- _ => apply pick_inv in H; subst
           | H : worth _ _ = Ok _ _ |- _ => apply worth_inv in H as [-> _]
           end;
    use1; flow_tac.
Qed.

Lemma reduce_ok opcode ins s f s' :
  wf s ->
  (opcode = NoOp -> exists p, ins !! 0%nat = Some p /\ valid s p) ->
  reduce mk opcode ins s = Ok f s' ->
  wf s' /\ ext s s'
  /\ match f with Return p => valid s' p | Continue _ => s' = s end.
Proof.
  intros W Hn H. destruct opcode; simpl in H;
    try (mrun H; split; [assumption|]; split; [apply ext_refl|reflexivity]).
  - mrun H. destruct (Hn eq_refl) as (p & Hp & V).
    split; [assumption|]. split; [apply ext_refl|]. simpl. congruence.
  - mrun H;
      repeat match goal with
             | W : wf ?s, H : distribute _ _ ?s = Ok _ _ |- _ =>
                 eapply distribute_ok in H; [|exact W]; split_all H
             | W : wf ?s, H : times_plusimm _ _ ?s = Ok _ _ |- _ =>
                 eapply times_plusimm_ok in H; [|exact W]; split_all H
             | W : wf ?s, H : reassociate _ _ ?s = Ok _ _ |- _ =>
                 eapply reassociate_ok in H; [|exact W]; split_all H
             end; simpl in *; subst;
      (split; [assumption|]); (split; [ext_tac|]); assumption.
  - eapply hoist_divide_ok; eassumption.
Qed.

Lemma collectSum_ok n p pos terms s terms' s' :
  wf s -> collectSum n p pos terms s = Ok terms' s' ->
  wf s' /\ ext s s'
  /\ exists new, terms' = terms ++ new
                 /\ Forall (fun tm => valid s' (fst tm)) new.
Proof.
  revert p pos terms s terms' s'.
  induction n as [|n IH]; simpl; intros p pos terms s terms' s' W H;
    [discriminate|].
  apply bind_inv in H as (nd & s0 & Hg & H). mrun Hg.
  destruct (op nd) eqn:Eop; mrun H;
    try (split; [assumption|]; split; [apply ext_refl|];
         exists [(p, pos)]; split; [reflexivity|];
         repeat constructor; simpl; eapply valid_lookup; eassumption).
  - apply (IH _ _ _ _ _ _ W) in H1 as (W1 & E1 & l1 & -> & F1).
    apply (IH _ _ _ _ _ _ W1) in H as (W2 & E2 & l2 & -> & F2).
    split; [assumption|]. split; [ext_tac|].
    exists (l1 ++ l2). split; [symmetry; apply app_assoc|].
    apply Forall_app. split; [|assumption].
    eapply Forall_impl; [exact F1|]. intros tm V. simpl in V. valid_tac.
  - apply (IH _ _ _ _ _ _ W) in H1 as (W1 & E1 & l1 & -> & F1).
    apply (IH _ _ _ _ _ _ W1) in H as (W2 & E2 & l2 & -> & F2).
    split; [assumption|]. split; [ext_tac|].
    exists (l1 ++ l2). split; [symmetry; apply app_assoc|].
    apply Forall_app. split; [|assumption].
    eapply Forall_impl; [exact F1|]. intros tm V. simpl in V. valid_tac.
  - apply (IH _ _ _ _ _ _ W) in H1 as (W1 & E1 & l1 & -> & F1).
    use1. split; [assumption|]. split; [ext_tac|].
    exists (l1 ++ [(a1, true)]). split; [symmetry; apply app_assoc|].
    apply Forall_app. split.
    + eapply Forall_impl; [exact F1|]. intros tm V. simpl in V. valid_tac.
    + repeat constructor. simpl. assumption.
Qed.

Lemma split_terms_inv terms s cn s' :
  split_terms terms s = Ok cn s' -> s' = s.
Proof.
  revert cn. induction terms as [|tm terms IH]; simpl; intros cn H; mrun H;
    try reflexivity; eapply IH; eassumption.
Qed.

Lemma with_levels_inv terms s lv s' :
  with_levels terms s = Ok lv s' ->
  s' = s /\ Forall (fun x => valid s (fst (snd x))) lv.
Proof.
  revert lv. induction terms as [|tm terms IH]; simpl; intros lv H; mrun H.
  - auto.
  - apply IH in H1 as [-> F]. split; [reflexivity|].
    constructor; [|exact F]. simpl. eapply valid_lookup; eassumption.
Qed.

Lemma sift_Forall (P : Z * term -> Prop) x rest :
  P x -> Forall P rest ->
  P (fst (sift x rest)) /\ Forall P (snd (sift x rest)).
Proof.
  revert x. induction rest as [|y r IH]; simpl; intros x Px F.
  - auto.
  - inversion F as [|? ? Py Fr]; subst.
    destruct (fst y <? fst x).
    + destruct (sift y r) as [m r'] eqn:E.
      specialize (IH y Py Fr). rewrite E in IH. simpl in *.
      destruct IH. auto.
    + destruct (sift x r) as [m r'] eqn:E.
      specialize (IH x Px Fr). rewrite E in IH. simpl in *.
      destruct IH. auto.
Qed.

Lemma swap_sort_Forall (P : Z * term -> Prop) n l :
  Forall P l -> Forall P (swap_sort n l).
Proof.
  revert l. induction n as [|n IH]; intros l F; [destruct l; exact F|].
  destruct l as [|x rest]; [exact F|]. simpl.
  inversion F as [|? ? Px Fr]; subst.
  destruct (sift_Forall P x rest Px Fr) as [A B].
  destruct (sift x rest) as [m r']. simpl in *. auto.
Qed.

Lemma float_sum_inv consts c s r s' : float_sum consts c s = Ok r s' -> s' = s.
Proof.
  revert c. induction consts as [|tm l IH]; simpl; intros c H; mrun H;
    [reflexivity|eapply IH; eassumption].
Qed.

Lemma int_sum_inv consts c s r s' : int_sum consts c s = Ok r s' -> s' = s.
Proof.
  revert c. induction consts as [|tm l IH]; simpl; intros c H; mrun H;
    [reflexivity|eapply IH; eassumption].
Qed.

Lemma rebuild_ok rest t tPos s acc s' :
  wf s -> valid s t -> rebuild mk rest t tPos s = Ok acc s' ->
  wf s' /\ ext s s' /\ valid s' (fst acc).
Proof.
  revert t tPos s. induction rest as [|[nx np] rest IH]; simpl;
    intros t tPos s W V H.
  - mrun H. split; [assumption|]. split; [apply ext_refl|assumption].
  - mrun H; use1;
      match goal with
      | W : wf ?s1, V : valid ?s1 ?t, H : rebuild _ _ ?t _ ?s1 = Ok _ _ |- _ =>
          apply (IH _ _ _ W V) in H as (? & ? & ?)
      end; (split; [assumption|]); (split; [ext_tac|assumption]).
Qed.

Ltac use2 :=
  repeat match goal with
         | H : split_terms _ _ = Ok _ _ |- _ =>
             apply split_terms_inv in H; subst
         | H : float_sum _ _ _ = Ok _ _ |- _ =>
             apply float_sum_inv in H; subst
         | H : int_sum _ _ _ = Ok _ _ |- _ =>
             apply int_sum_inv in H; subst
         | W : wf ?s, H : collectSum _ _ _ _ ?s = Ok _ _ |- _ =>
             eapply collectSum_ok in H; [|exact W]; split_all H
         | W : wf ?s, H : rebuild _ _ ?t _ ?s = Ok _ _ |- _ =>
             eapply rebuild_ok in H; [|exact W|valid_tac]; split_all H
         | W : wf ?s, H : _ ?s = Ok _ _ |- _ => apply_spec H W; split_all H
         end.

Lemma sum_terms_ok p s ct s' :
  wf s -> sum_terms fuel p s = Ok ct s' ->
  wf s' /\ ext s s' /\ Forall (fun tm => valid s' (fst tm)) (snd ct).
Proof.
  intros W H. unfold sum_terms in H.
  apply bind_inv in H as (terms & s1 & Hc & H).
  apply bind_inv in H as (cn & s2 & Hs & H).
  apply bind_inv in H as (lv & s3 & Hl & H).
  apply split_terms_inv in Hs. subst s2.
  apply with_levels_inv in Hl as [-> Fl]. mrun H.
  eapply collectSum_ok in Hc; [|exact W]. destruct Hc as (W1 & E1 & _).
  split; [assumption|]. split; [assumption|]. simpl.
  apply (swap_sort_Forall _ (length lv)) in Fl.
  induction Fl; simpl; constructor; assumption.
Qed.

Lemma rebalanceSum_body_ok p s r s' :
  wf s -> rebalanceSum_body mk fuel p s = Ok r s' ->
  wf s' /\ ext s s' /\ valid s' r.
Proof.
  intros W H. unfold rebalanceSum_body in H.
  apply bind_inv in H as (nd & s0 & Hg & H). mrun Hg.
  destruct (negb (is_sum (op nd))); [mrun H; done_tac|].
  apply bind_inv in H as (ct & s1 & Hc & H).
  apply bind_inv in H as (first & s4 & Hf & H). mrun Hf.
  eapply sum_terms_ok in Hc; [|exact W]. destruct Hc as (W1 & E1 & Fl).
  assert (valid s1 (fst first)) as Vf.
  { rewrite Forall_lookup in Fl. eapply (Fl _ _ Hf). }
  mrun H; use2; done_tac.
Qed.

Lemma rebalance_inputs_ok opcode ins s ins' s' :
  wf s -> rebalance_inputs mk fuel opcode ins s = Ok ins' s' ->
  wf s' /\ ext s s' /\ (is_sum opcode = true -> ins' = ins).
Proof.
  intros W H. unfold rebalance_inputs in H.
  destruct (is_sum opcode); simpl in H.
  - mrun H. split; [assumption|]. split; [apply ext_refl|reflexivity].
  - eapply mapM_ok in H; [|intros; eapply rebalanceSum_body_ok; eassumption
                          |exact W].
    destruct H as (? & ? & ?). split; [assumption|].
    split; [assumption|discriminate].
Qed.

Lemma is_var_not_const opcode :
  is_var opcode || op_eqb opcode UnboundVar = true ->
  opcode <> Const /\ is_sum opcode = false.
Proof. destruct opcode; simpl; intros H; try discriminate H; auto. Qed.

Lemma variables_ok opcode t s f s' :
  wf s ->
  (is_var opcode || op_eqb opcode UnboundVar = true -> t = Int) ->
  variables opcode t s = Ok f s' ->
  wf s' /\ ext s s'
  /\ match f with Return p => valid s' p | Continue _ => s' = s end.
Proof.
  intros W Ht H. unfold variables in H.
  destruct (is_var opcode) eqn:Ev; simpl in Ht.
  - specialize (Ht eq_refl). subst t.
    destruct (is_var_not_const opcode) as [Hc Hs]; [rewrite Ev; reflexivity|].
    mrun H.
    + match goal with
      | E : vmap_find _ _ = Some _ |- _ => apply vmap_find_elem in E;
          destruct (wf_var _ W _ _ E) as (n' & L & _)
      end.
      split; [assumption|]. split; [apply ext_refl|].
      simpl. eapply valid_lookup, L.
    + match goal with
      | Hn : new_node _ _ _ _ _ _ = Ok _ _ |- _ =>
          eapply new_node_ok in Hn;
          [|exact W|exact Hc|rewrite Hs; discriminate];
          destruct Hn as (W1 & E1 & V1 & _ & _ & _ & Hv & n' & L & T & O & _)
      end.
      match goal with
      | Hr : register_var _ _ _ = Ok _ _, E : vmap_find _ _ = None |- _ =>
          eapply register_var_ok in Hr;
          [|exact W1|exact L|exact O|exact T|rewrite Hv; exact E];
          destruct Hr as (W2 & E2 & A2)
      end.
      split; [assumption|]. split; [ext_tac|].
      simpl. unfold valid in *. rewrite A2. exact V1.
  - destruct (op_eqb opcode UnboundVar) eqn:Eu; mrun H.
    + destruct (is_var_not_const opcode) as [Hc Hs];
        [rewrite Ev, Eu; reflexivity|].
      match goal with
      | Hn : new_node _ _ _ _ _ _ = Ok _ _ |- _ =>
          eapply new_node_ok in Hn;
          [|exact W|exact Hc|rewrite Hs; discriminate];
          destruct Hn as (W1 & E1 & V1 & _)
      end.
      split; [assumption|]. split; [assumption|exact V1].
    + split; [assumption|]. split; [apply ext_refl|reflexivity].
Qed.

Lemma fuse_load_ok opcode ins iv s f s' :
  wf s -> fuse_load mk opcode ins iv s = Ok f s' ->
  wf s' /\ ext s s'
  /\ match f with Return p => valid s' p | Continue _ => s' = s end.
Proof.
  intros W H. unfold fuse_load in H. mrun H; use1; flow_tac.
Qed.

Lemma fuse_times_ok opcode t ins s f s' :
  wf s -> fuse_times mk opcode t ins s = Ok f s' ->
  wf s' /\ ext s s'
  /\ match f with Return p => valid s' p | Continue _ => s' = s end.
Proof.
  intros W H. unfold fuse_times in H. mrun H; use1; flow_tac.
Qed.

Lemma scan_inv cands opcode t ins iv fv s c s' :
  scan cands opcode t ins iv fv s = Ok c s' ->
  s' = s
  /\ forall p, c = Some p ->
       exists n, allNodes s !! p = Some n
                 /\ same_node n opcode t ins iv fv = true.
Proof.
  revert c. induction cands as [|q cands IH]; simpl; intros c H; mrun H.
  - split; [reflexivity|discriminate].
  - split; [reflexivity|]. intros p [= <-]. eauto.
  - eapply IH, H.
Qed.

Lemma cse_inv opcode t ins iv fv s c s' :
  cse opcode t ins iv fv s = Ok c s' ->
  s' = s
  /\ forall p, c = Some p ->
       exists n, allNodes s !! p = Some n
                 /\ same_node n opcode t ins iv fv = true.
Proof.
  intros H. unfold cse in H. destruct ins as [|p0 ins]; mrun H.
  - split; [reflexivity|discriminate].
  - eapply scan_inv, H.
Qed.

Lemma make_body_ok : sound_mk (make_body mk fuel).
Proof.
  intros opcode ins iv fv s r s' W H. unfold make_body in H.
  apply bind_inv in H as (f1 & s1 & H1 & H).
  eapply infer_ok in H1 as (W1 & E1 & Hc & P1); [|exact W].
  destruct f1 as [p|[t ins1]]; [mrun H; done_tac|].
  destruct P1 as (Pn & Ps & Pv). simpl in Pn, Ps, Pv. cbv beta iota in H.
  simpl fst in H. simpl snd in H.
  apply bind_inv in H as (f2 & s2 & H2 & H).
  eapply fold_ok in H2 as (W2 & E2 & P2); [|exact W1].
  destruct f2 as [p|[]]; [mrun H; done_tac|].
  destruct P2 as [-> Pd].
  apply bind_inv in H as (f3 & s3 & H3 & H).
  eapply reduce_ok in H3 as (W3 & E3 & P3); [|exact W1|exact Pn].
  destruct f3 as [p|[]]; [mrun H; done_tac|]. subst s3.
  apply bind_inv in H as (ins2 & s4 & H4 & H).
  eapply rebalance_inputs_ok in H4 as (W4 & E4 & P4); [|exact W1].
  apply bind_inv in H as (f5 & s5 & H5 & H).
  eapply variables_ok in H5 as (W5 & E5 & P5); [|exact W4|exact Pv].
  destruct f5 as [p|[]]; [mrun H; done_tac|]. subst s5.
  apply bind_inv in H as (f6 & s6 & H6 & H).
  eapply fuse_load_ok in H6 as (W6 & E6 & P6); [|exact W4].
  destruct f6 as [p|[]]; [mrun H; done_tac|]. subst s6.
  apply bind_inv in H as (f7 & s7 & H7 & H).
  eapply fuse_times_ok in H7 as (W7 & E7 & P7); [|exact W4].
  destruct f7 as [p|[]]; [mrun H; done_tac|]. subst s7.
  apply bind_inv in H as (c & s8 & H8 & H).
  apply cse_inv in H8 as [-> P8].
  destruct c as [p|].
  - mrun H. destruct (P8 _ eq_refl) as (n & L & _). done_tac.
  - eapply new_node_ok in H; [|exact W4|exact Hc|].
    + destruct H as (W9 & E9 & V9 & _). done_tac.
    + intros S. rewrite (P4 S). split; [exact (Ps S)|].
      eapply exists_deps_ext; [exact E4|]. apply (Pd S).
      intros ->. specialize (Ps S). destruct opcode; discriminate.
Qed.

End Soundness.

Lemma make_ok n : sound_mk (make n).
Proof.
  induction n as [|n IH].
  - intros opcode ins iv fv s r s' _ H. discriminate H.
  - simpl. apply make_body_ok. exact IH.
Qed.

Lemma as_ok n t p s r s' :
  wf s -> as_ n t p s = Ok r s' -> wf s' /\ ext s s' /\ valid s' r.
Proof. apply as_body_ok, make_ok. Qed.

Lemma rebalanceSum_ok n p s r s' :
  wf s -> rebalanceSum n p s = Ok r s' -> wf s' /\ ext s s' /\ valid s' r.
Proof. apply rebalanceSum_body_ok, make_ok. Qed.

Ltac use_make :=
  repeat match goal with
         | W : wf ?s, H : make_int _ ?s = Ok _ _ |- _ =>
             eapply make_int_ok in H; [|exact W]; split_all H
         | W : wf ?s, H : make _ _ _ _ _ ?s = Ok _ _ |- _ =>
             eapply make_ok in H; [|exact W]; split_all H
         end.

Lemma substitute_ok n p var val s r s' :
  wf s -> substitute n p var val s = Ok r s' ->
  wf s' /\ ext s s' /\ valid s' r.
Proof.
  revert p s r s'. induction n as [|n IH]; simpl; intros p s r s' W H;
    [discriminate|].
  mrun H;
    try match goal with
        | Hm : mapM _ _ _ = Ok _ _ |- _ =>
            eapply mapM_ok in Hm;
            [|intros ? ? ? ? Wa Ha; exact (IH _ _ _ _ Wa Ha)|exact W];
            destruct Hm as (? & ? & _)
        end;
    use_make; done_tac.
Qed.

Lemma bind_ok n p x y t c s r s' :
  wf s -> bind n p x y t c s = Ok r s' -> wf s' /\ ext s s' /\ valid s' r.
Proof.
  revert p s r s'. induction n as [|n IH]; simpl; intros p s r s' W H;
    [discriminate|].
  mrun H;
    try match goal with
        | Hm : mapM _ _ _ = Ok _ _ |- _ =>
            eapply mapM_ok in Hm;
            [|intros ? ? ? ? Wa Ha; exact (IH _ _ _ _ Wa Ha)|exact W];
            destruct Hm as (? & ? & _)
        end;
    use_make; done_tac.
Qed.

Lemma wf_empty : wf empty_store.
Proof.
  split; simpl; intros *; try (rewrite lookup_nil; discriminate);
    try (intros H; apply not_elem_of_nil in H; contradiction);
    try (rewrite lookup_empty; discriminate).
Qed.

Lemma step_ok s s' : wf s -> step s s' -> wf s' /\ ext s s'.
Proof.
  intros W S. revert W.
  destruct S as [v ? r ? H|v ? r ? H|n o ins iv fv ? r ? H|n t p ? r ? H
                |n p ? r ? H|n p var val ? r ? H|n p x y t c ? r ? H];
    intros W.
  - eapply make_float_ok in H; [|exact W]. tauto.
  - eapply make_int_ok in H; [|exact W]. tauto.
  - eapply make_ok in H; [|exact W]. tauto.
  - eapply as_ok in H; [|exact W]. tauto.
  - eapply rebalanceSum_ok in H; [|exact W]. tauto.
  - eapply substitute_ok in H; [|exact W]. tauto.
  - eapply bind_ok in H; [|exact W]. tauto.
Qed.

Lemma steps_ok s s' : wf s -> rtc step s s' -> wf s' /\ ext s s'.
Proof.
  intros W R. induction R as [|s1 s2 s3 S R IH].
  - split; [assumption|apply ext_refl].
  - destruct (step_ok _ _ W S) as [W2 E2].
    destruct (IH W2) as [W3 E3]. split; [assumption|].
    eapply ext_trans; eassumption.
Qed.

Lemma reachable_wf s : reachable s -> wf s.
Proof. intros R. eapply steps_ok in R; [tauto|apply wf_empty]. Qed.

(** ** The recursion bound *)

Lemma le_m_refl {A} (m : M A) : le_m m m.
Proof. intros s. right. reflexivity. Qed.

Lemma le_m_bind {A B} (m m' : M A) (k k' : A -> M B) :
  le_m m m' -> (forall a, le_m (k a) (k' a)) ->
  le_m (and_then m k) (and_then m' k').
Proof.
  intros Hm Hk s. unfold and_then.
  destruct (Hm s) as [->|<-]; [left; reflexivity|].
  destruct (m s); try (right; reflexivity). apply Hk.
Qed.

Ltac mono :=
  repeat first
    [ apply le_m_refl
    | assumption
    | apply le_m_bind; [|intros ?]
    | progress cbv beta
    | match goal with
      | |- le_m (if ?b then _ else _) (if ?b then _ else _) => destruct b
      | |- le_m (match ?x with _ => _ end) (match ?x with _ => _ end) =>
          destruct x
      | H : forall _, _ |- _ => apply H
      end ].

Lemma mapM_mono {A B} (f f' : A -> M B) l :
  (forall a, le_m (f a) (f' a)) -> le_m (mapM f l) (mapM f' l).
Proof. intros Hf. induction l as [|a l IH]; simpl; mono. Qed.

Lemma collectSum_mono n this positive terms :
  le_m (collectSum n this positive terms)
       (collectSum (S n) this positive terms).
Proof.
  revert this positive terms. induction n as [|n IH]; intros this pos terms.
  - intros s. left. reflexivity.
  - change (collectSum (S (S n)) this pos terms)
      with (let* nd := get this in
            match op nd with
            | Plus =>
                let* i0 := at_ 0 (inputs nd) in
                let* terms := collectSum (S n) i0 pos terms in
                let* i1 := at_ 1 (inputs nd) in
                collectSum (S n) i1 pos terms
            | Minus =>
                let* i0 := at_ 0 (inputs nd) in
                let* terms := collectSum (S n) i0 pos terms in
                let* i1 := at_ 1 (inputs nd) in
                collectSum (S n) i1 (negb pos) terms
            | PlusImm =>
                let* i0 := at_ 0 (inputs nd) in
                let* terms := collectSum (S n) i0 pos terms in
                let* c := make_int (ival nd) in
                pure (terms ++ [(c, true)])
            | _ => pure (terms ++ [(this, pos)])
            end).
    cbn [collectSum]. mono.
Qed.

Section Monotone.

Variables mk mk' : OpCode -> list ptr -> Z -> float -> M ptr.
Variables fuel fuel' : nat.
Hypothesis Hmk : forall o i iv fv, le_m (mk o i iv fv) (mk' o i iv fv).
Hypothesis Hcs : forall p pos terms,
  le_m (collectSum fuel p pos terms) (collectSum fuel' p pos terms).

Lemma as_body_mono t p : le_m (as_body mk t p) (as_body mk' t p).
Proof. unfold as_body. mono. Qed.

Lemma coerce_mono t i ins : le_m (coerce mk t i ins) (coerce mk' t i ins).
Proof. unfold coerce. mono; try apply as_body_mono. Qed.

Lemma infer_mono o ins : le_m (infer mk o ins) (infer mk' o ins).
Proof. destruct o; simpl; mono; try apply coerce_mono. Qed.

Lemma reduce_mono o ins : le_m (reduce mk o ins) (reduce mk' o ins).
Proof.
  destruct o; simpl; try apply le_m_refl;
    unfold chain, hoist_divide, distribute, times_plusimm, reassociate; mono.
Qed.

Lemma rebuild_mono rest t tPos :
  le_m (rebuild mk rest t tPos) (rebuild mk' rest t tPos).
Proof.
  revert t tPos. induction rest as [|[nx np] rest IH]; simpl; intros; mono.
Qed.

Lemma sum_terms_mono p : le_m (sum_terms fuel p) (sum_terms fuel' p).
Proof. unfold sum_terms. mono. Qed.

Lemma rebalanceSum_body_mono p :
  le_m (rebalanceSum_body mk fuel p) (rebalanceSum_body mk' fuel' p).
Proof.
  unfold rebalanceSum_body.
  apply le_m_bind; [apply le_m_refl|intros n].
  destruct (negb (is_sum (op n))); [apply le_m_refl|].
  apply le_m_bind; [apply sum_terms_mono|intros ct].
  apply le_m_bind; [apply le_m_refl|intros first].
  apply le_m_bind; [mono|intros t].
  apply le_m_bind; [apply rebuild_mono|intros acc]. mono.
Qed.

Lemma make_body_mono o ins iv fv :
  le_m (make_body mk fuel o ins iv fv) (make_body mk' fuel' o ins iv fv).
Proof.
  unfold make_body.
  apply le_m_bind; [apply infer_mono|intros [p|ti]]; [apply le_m_refl|].
  apply le_m_bind; [apply le_m_refl|intros [p|?]]; [apply le_m_refl|].
  apply le_m_bind; [apply reduce_mono|intros [p|?]]; [apply le_m_refl|].
  apply le_m_bind.
  { unfold rebalance_inputs. destruct (negb (is_sum o)); [|apply le_m_refl].
    apply mapM_mono. apply rebalanceSum_body_mono. }
  intros ins'.
  apply le_m_bind; [apply le_m_refl|intros [p|?]]; [apply le_m_refl|].
  apply le_m_bind; [unfold fuse_load; mono|intros [p|?]]; [apply le_m_refl|].
  apply le_m_bind; [unfold fuse_times; mono|intros [p|?]]; [apply le_m_refl|].
  apply le_m_refl.
Qed.

End Monotone.

Lemma make_mono n o ins iv fv :
  le_m (make n o ins iv fv) (make (S n) o ins iv fv).
Proof.
  revert o ins iv fv. induction n as [|n IH]; intros o ins iv fv.
  - intros s. left. reflexivity.
  - change (le_m (make_body (make n) n o ins iv fv)
                 (make_body (make (S n)) (S n) o ins iv fv)).
    apply make_body_mono; [exact IH|]. intros. apply collectSum_mono.
Qed.

(** ** The shape of what [make] returns *)

Lemma new_node_inv t opcode ins iv fv s r s' :
  new_node t opcode ins iv fv s = Ok r s' ->
  exists n, allNodes s' !! r = Some n /\ type n = t /\ op n = opcode
            /\ inputs n = ins /\ ival n = iv /\ fval n = fv.
Proof.
  unfold new_node.
  destruct (link_inputs _ _ _ _) as [[d ns]|] eqn:L; [|discriminate].
  intros [= <- <-]. apply link_inputs_ok in L as [L1 _].
  assert (length ns = length (allNodes s)) as Hl.
  { rewrite <- (length_fmap strip ns), L1. apply length_fmap. }
  eexists. split.
  - simpl. rewrite <- Hl. apply list_lookup_middle. reflexivity.
  - repeat split.
Qed.

Lemma ptrs_eqb_eq a b : ptrs_eqb a b = true -> a = b.
Proof.
  unfold ptrs_eqb. revert b. induction a as [|x a IH]; intros [|y b]; simpl;
    try discriminate; try reflexivity.
  intros [Hl [Hx Hr]%andb_prop]%andb_prop.
  apply Nat.eqb_eq in Hx. subst y. f_equal. apply IH.
  rewrite Hr, andb_true_r. exact Hl.
Qed.

Lemma type_eqb_eq a b : type_eqb a b = true <-> a = b.
Proof. destruct a, b; simpl; split; congruence. Qed.

Lemma same_node_inv c opcode t ins iv fv :
  same_node c opcode t ins iv fv = true ->
  ival c = iv /\ op c = opcode /\ type c = t /\ inputs c = ins.
Proof.
  unfold same_node.
  intros [[[[H1 _]%andb_prop H3]%andb_prop H4]%andb_prop H5]%andb_prop.
  apply Z.eqb_eq in H1. apply op_eqb_eq in H3. apply type_eqb_eq in H4.
  apply ptrs_eqb_eq in H5. auto.
Qed.

(** A plain opcode yields what the inference returned early, the folded
    constant, or a node of that opcode over the rebalanced inputs. *)
Lemma make_body_plain mk fuel opcode ins iv fv s r s' :
  plain opcode = true ->
  make_body mk fuel opcode ins iv fv s = Ok r s' ->
  exists t ins1 s1,
    infer mk opcode ins s = Ok (Continue (t, ins1)) s1
    /\ (fold opcode t ins1 iv s1 = Ok (Return r) s'
        \/ (fold opcode t ins1 iv s1 = Ok (Continue tt) s1
            /\ exists ins2 s2 n,
                 rebalance_inputs mk fuel opcode ins1 s1 = Ok ins2 s2
                 /\ allNodes s' !! r = Some n /\ type n = t
                 /\ op n = opcode /\ inputs n = ins2 /\ ival n = iv)).
Proof.
  intros Hp H. unfold make_body in H.
  apply bind_inv in H as (f1 & s1 & H1 & H).
  destruct f1 as [p|[t ins1]].
  { destruct opcode; try discriminate Hp; simpl in H1; mrun H1; congruence. }
  exists t, ins1, s1. split; [exact H1|]. simpl fst in H. simpl snd in H.
  apply bind_inv in H as (f2 & s2 & H2 & H).
  destruct f2 as [p|[]]; [mrun H; left; exact H2|]. right.
  assert (s2 = s1) as ->.
  { unfold fold in H2. apply bind_inv in H2 as (c & s0 & Hc & H2).
    apply all_const_inv in Hc as [-> _].
    destruct (c && _); [|mrun H2; reflexivity].
    destruct opcode; unfold ret_float, ret_int in H2; mrun H2;
      first [reflexivity|congruence]. }
  split; [exact H2|].
  apply bind_inv in H as (f3 & s3 & H3 & H).
  assert (f3 = Continue tt /\ s3 = s1) as [-> ->].
  { destruct opcode; try discriminate Hp; simpl in H3; mrun H3; auto. }
  apply bind_inv in H as (ins2 & s4 & H4 & H).
  exists ins2, s4.
  apply bind_inv in H as (f5 & s5 & H5 & H).
  assert (f5 = Continue tt /\ s5 = s4) as [-> ->].
  { unfold variables in H5.
    destruct opcode; try discriminate Hp; simpl in H5; mrun H5; auto. }
  apply bind_inv in H as (f6 & s6 & H6 & H).
  assert (f6 = Continue tt /\ s6 = s4) as [-> ->].
  { unfold fuse_load in H6.
    destruct opcode; try discriminate Hp; simpl in H6; mrun H6; auto. }
  apply bind_inv in H as (f7 & s7 & H7 & H).
  assert (f7 = Continue tt /\ s7 = s4) as [-> ->].
  { unfold fuse_times in H7.
    destruct opcode; try discriminate Hp; simpl in H7; mrun H7; auto. }
  apply bind_inv in H as (c & s8 & H8 & H).
  apply cse_inv in H8 as [-> P8]. destruct c as [p|].
  - mrun H. destruct (P8 _ eq_refl) as (n & L & Sn).
    apply same_node_inv in Sn as (? & ? & ? & ?).
    exists n. auto 10.
  - apply new_node_inv in H as (n & L & ? & ? & ? & ? & ?).
    exists n. auto 10.
Qed.

Lemma type_at_Some s p t :
  type_at s p = Some t <-> exists n, allNodes s !! p = Some n /\ type n = t.
Proof.
  unfold type_at. destruct (allNodes s !! p) as [n|]; simpl; split.
  - intros [= <-]. eauto.
  - intros (n' & [= <-] & <-). reflexivity.
  - discriminate.
  - intros (n' & [=] & _).
Qed.

Lemma ext_type_at s s' p t :
  ext s s' -> type_at s p = Some t -> type_at s' p = Some t.
Proof.
  intros E (n & L & T)%type_at_Some.
  destruct (ext_lookup _ _ _ _ E L) as (n' & L' & F).
  apply strip_fields in F. apply type_at_Some. exists n'.
  split; [exact L'|]. destruct F as (-> & _). exact T.
Qed.

Lemma fold_return_type opcode t ins iv s r s' :
  wf s -> fold opcode t ins iv s = Ok (Return r) s' ->
  type_at s' r = Some (fold_type opcode t).
Proof.
  intros W H. unfold fold in H.
  apply bind_inv in H as (c & s0 & Hc & H).
  apply all_const_inv in Hc as [-> _].
  destruct (c && _); [|mrun H; congruence].
  destruct opcode; unfold ret_float, ret_int in H; mrun H; try congruence;
    simpl;
    repeat match goal with
           | E : type_eqb _ _ = _ |- _ => rewrite E
           | H : Return _ = Return _ |- _ => injection H as <-
           | W : wf ?s, H : make_float _ ?s = Ok _ _ |- _ =>
               apply (make_float_ok _ _ _ _ W) in H
                 as (_ & _ & _ & _ & n & L & T & _)
           | W : wf ?s, H : make_int _ ?s = Ok _ _ |- _ =>
               apply (make_int_ok _ _ _ _ W) in H
                 as (_ & _ & _ & _ & n & L & T & _)
           end;
    apply type_at_Some; eauto.
Qed.

Lemma make_plain_type n opcode ins iv fv s r s' :
  wf s -> plain opcode = true ->
  make (S n) opcode ins iv fv s = Ok r s' ->
  exists t ins1 s1,
    infer (make n) opcode ins s = Ok (Continue (t, ins1)) s1
    /\ (fold_type opcode t = t -> type_at s' r = Some t).
Proof.
  intros W Hp H. simpl in H.
  apply make_body_plain in H as (t & ins1 & s1 & Hi & H); [|exact Hp].
  exists t, ins1, s1. split; [exact Hi|]. intros Ht.
  eapply infer_ok in Hi as (W1 & _); [|apply make_ok|exact W].
  destruct H as [H|(_ & ins2 & s2 & nd & _ & L & T & _)].
  - rewrite <- Ht. eapply fold_return_type; eassumption.
  - apply type_at_Some. eauto.
Qed.

Lemma infer_cmp_type mk opcode ins s t ins1 s1 :
  is_cmp opcode = true ->
  infer mk opcode ins s = Ok (Continue (t, ins1)) s1 -> t = Bool.
Proof.
  intros Hc H. destruct opcode; try discriminate Hc; simpl in H; mrun H;
    congruence.
Qed.

Lemma infer_conv_type mk opcode ins s t ins1 s1 :
  infer mk opcode ins s = Ok (Continue (t, ins1)) s1 ->
  (opcode = IntToFloat -> t = Float) /\ (opcode = FloatToInt -> t = Int).
Proof.
  intros H. split; intros ->; simpl in H; mrun H; congruence.
Qed.

Lemma infer_and_type mk p o s t ins1 s1 to :
  sound_mk mk -> wf s -> type_at s o = Some to ->
  infer mk And [p; o] s = Ok (Continue (t, ins1)) s1 -> t = to.
Proof.
  intros Hmk W To H. simpl in H. unfold coerce in H. mrun H.
  match goal with
  | Ha : as_body _ _ _ _ = Ok _ _ |- _ =>
      eapply as_body_ok in Ha as (_ & E & _); [|exact Hmk|exact W]
  end.
  eapply ext_type_at in To; [|exact E].
  apply type_at_Some in To as (n & L & T).
  repeat match goal with
         | H : <[_:=_]> _ !! _ = Some _ |- _ => simpl in H; injection H as <-
         | H : Continue _ = Continue _ |- _ => injection H as <- <-
         end.
  congruence.
Qed.

(** [as] returns a node of the requested type. *)
Lemma as_type n t p s r s' :
  wf s -> as_ n t p s = Ok r s' -> type_at s' r = Some t.
Proof.
  intros W H. unfold as_, as_body in H.
  apply bind_inv in H as (nd & s0 & Hg & H). mrun Hg.
  destruct (type_eqb t (type nd)) eqn:E.
  { mrun H. apply type_eqb_eq in E. apply type_at_Some. eauto. }
  destruct n as [|n]; [destruct (type nd), t; mrun H; discriminate|].
  destruct (type nd) eqn:Tn, t; try discriminate E; mrun H;
    repeat match goal with
           | W : wf ?s, H : make_float _ ?s = Ok _ _ |- _ =>
               apply (make_float_ok _ _ _ _ W) in H
                 as (? & ? & _ & _ & ? & ? & ? & _)
           | W : wf ?s, H : make_int _ ?s = Ok _ _ |- _ =>
               apply (make_int_ok _ _ _ _ W) in H
                 as (? & ? & _ & _ & ? & ? & ? & _)
           end;
    match goal with
    | W : wf ?s, H : make _ ?o ?args _ _ ?s = Ok _ _ |- _ =>
        eapply make_plain_type in H; [|exact W|reflexivity];
        destruct H as (t' & ins1 & s1 & Hi & Ht);
        first [ apply infer_cmp_type in Hi as ->; [|reflexivity]
              | match goal with
                | L : allNodes s !! ?a = Some ?x, T : type ?x = ?ta |- _ =>
                    assert (type_at s a = Some ta) as Ta
                      by (apply type_at_Some; eauto);
                    pose proof (infer_and_type _ _ _ _ _ _ _ _
                                  (make_ok _) W Ta Hi) as ->
                end
              | apply infer_conv_type in Hi as [Hf Hi];
                first [ rewrite (Hf eq_refl) in Ht
                      | rewrite (Hi eq_refl) in Ht ] ]
    end;
    apply Ht; reflexivity.
Qed.

(** ** Comparisons *)

Lemma node_at_inv i ins s n s' :
  node_at i ins s = Ok n s' ->
  s' = s /\ exists p, ins !! i = Some p /\ allNodes s !! p = Some n.
Proof. intros H. unfold node_at in H. mrun H. eauto. Qed.

Lemma either_float_spec a b s f s' ta tb :
  type_at s a = Some ta -> type_at s b = Some tb ->
  either_float [a; b] s = Ok f s' ->
  s' = s /\ f = (type_eqb ta Float || type_eqb tb Float).
Proof.
  intros Ta Tb H. unfold either_float in H.
  apply bind_inv in H as (n0 & s0 & H0 & H).
  apply node_at_inv in H0 as (-> & p0 & [= <-] & L0).
  apply type_at_Some in Ta as (n & L & <-).
  assert (n = n0) as -> by congruence.
  destruct (type_eqb (type n0) Float) eqn:E.
  - apply pure_inv in H as [-> ->]. auto.
  - apply bind_inv in H as (n1 & s1 & H1 & H).
    apply node_at_inv in H1 as (-> & p1 & [= <-] & L1).
    apply pure_inv in H as [-> ->]. split; [reflexivity|].
    apply type_at_Some in Tb as (n' & L' & <-).
    assert (n' = n1) as -> by congruence. reflexivity.
Qed.

Lemma coerce_inv n t i ins s ins' s' :
  wf s -> coerce (make n) t i ins s = Ok ins' s' ->
  exists p p', ins !! i = Some p /\ ins' = <[i := p']> ins
               /\ wf s' /\ ext s s' /\ type_at s' p' = Some t.
Proof.
  intros W H. unfold coerce in H.
  apply bind_inv in H as (p & s0 & Hp & H). apply at_inv in Hp as [-> Hp].
  apply bind_inv in H as (p' & s1 & Ha & H). apply pure_inv in H as [-> ->].
  exists p, p'. split; [exact Hp|]. split; [reflexivity|].
  pose proof (as_ok _ _ _ _ _ _ W Ha) as (W1 & E1 & _).
  pose proof (as_type _ _ _ _ _ _ W Ha) as T.
  auto.
Qed.

Lemma infer_cmp_inv n opcode a b s t ins1 s1 ta tb :
  wf s -> is_cmp opcode = true ->
  type_at s a = Some ta -> type_at s b = Some tb ->
  infer (make n) opcode [a; b] s = Ok (Continue (t, ins1)) s1 ->
  exists a' b',
    t = Bool /\ ins1 = [a'; b']
    /\ type_at s1 a' = Some (cmp_operand_type ta tb)
    /\ type_at s1 b' = Some (cmp_operand_type ta tb).
Proof.
  intros W Hc Ta Tb H.
  assert ((let* _ := arity 2 [a; b] in
           let* f := either_float [a; b] in
           let t := if f then Float else Bool in
           let* ins := coerce (make n) t 0 [a; b] in
           let* ins := coerce (make n) t 1 ins in
           pure (Continue (Bool, ins))) s = Ok (Continue (t, ins1)) s1) as H'.
  { destruct opcode; try discriminate Hc; exact H. }
  clear H. rename H' into H.
  apply bind_inv in H as (u & s0 & Hu & H). mrun Hu.
  apply bind_inv in H as (f & s0 & Hf & H).
  apply bind_inv in H as (insa & sa & Ca & H).
  apply bind_inv in H as (insb & sb & Cb & H).
  apply pure_inv in H as [[= <- <-] ->].
  destruct (either_float_spec _ _ _ _ _ _ _ Ta Tb Hf) as [-> ->].
  apply (coerce_inv _ _ _ _ _ _ _ W) in Ca
    as (p & a' & [= <-] & -> & Wa & Ea & Ta').
  apply (coerce_inv _ _ _ _ _ _ _ Wa) in Cb
    as (q & b' & [= <-] & -> & Wb & Eb & Tb').
  exists a', b'. split; [reflexivity|]. split; [reflexivity|].
  split; [|exact Tb']. eapply ext_type_at; eassumption.
Qed.

(** C1, as the code has it: a comparison that returns has coerced both
    operands to one type before it builds the node, [Float] if either
    operand has type [Float] and [Bool] otherwise (not [Int]), and the node
    it returns has type [Bool]. *)
Theorem comparison_types n s opcode a b ta tb iv fv r s' :
  reachable s -> is_cmp opcode = true ->
  type_at s a = Some ta -> type_at s b = Some tb ->
  make (S n) opcode [a; b] iv fv s = Ok r s' ->
  exists a' b' s1,
    infer (make n) opcode [a; b] s = Ok (Continue (Bool, [a'; b'])) s1
    /\ type_at s1 a' = Some (cmp_operand_type ta tb)
    /\ type_at s1 b' = Some (cmp_operand_type ta tb)
    /\ type_at s' r = Some Bool.
Proof.
  intros R Hc Ta Tb H. apply reachable_wf in R.
  eapply make_plain_type in H as (t & ins1 & s1 & Hi & Ht);
    [|exact R|destruct opcode; try discriminate Hc; reflexivity].
  destruct (infer_cmp_inv _ _ _ _ _ _ _ _ _ _ R Hc Ta Tb Hi)
    as (a' & b' & -> & -> & Ta' & Tb').
  exists a', b', s1. split; [exact Hi|]. split; [exact Ta'|].
  split; [exact Tb'|]. apply Ht.
  destruct opcode; try discriminate Hc; reflexivity.
Qed.

Lemma run_call_step c s r s' : run_call c s = Ok r s' -> step s s'.
Proof. destruct c; simpl; intros H; econstructor; exact H. Qed.

Lemma run_calls_steps cs s rs s' :
  mapM run_call cs s = Ok rs s' -> rtc step s s'.
Proof.
  revert s rs. induction cs as [|c cs IH]; simpl; intros s rs H; mrun H.
  - apply rtc_refl.
  - eapply rtc_l; [eapply run_call_step; eassumption|]. eapply IH. eassumption.
Qed.

Lemma store_after_reachable cs : reachable (store_after cs).
Proof.
  unfold store_after, reachable.
  destruct (mapM run_call cs empty_store) eqn:E; try apply rtc_refl.
  eapply run_calls_steps, E.
Qed.

Lemma comparison_types_witness :
  exists a' b' s1,
    infer (make 0) EQ [2; 2]%nat (store_after bool_node)
      = Ok (Continue (Bool, [a'; b'])) s1
    /\ type_at s1 a' = Some Bool /\ type_at s1 b' = Some Bool
    /\ type_at (store_after (bool_node ++ [call_make 1 EQ [2; 2]%nat 0 fzero]))
               3%nat = Some Bool.
Proof.
  apply (comparison_types 0 (store_after bool_node) EQ 2%nat 2%nat Bool Bool
                          0 fzero 3%nat).
  - apply store_after_reachable.
  - reflexivity.
  - vm_compute. reflexivity.
  - vm_compute. reflexivity.
  - vm_compute. reflexivity.
Defined.

(** C1 as stated fails: both operands of this comparison have type [Bool],
    the call returns, and the operands it built the node over are still of
    type [Bool], not [Int]. *)
Lemma comparison_promotes_to_int_counterexample :
  let s := store_after bool_node in
  type_at s 2%nat = Some Bool
  /\ match make 1 EQ [2; 2]%nat 0 fzero s with
     | Ok r s' =>
         infer (make 0) EQ [2; 2]%nat s = Ok (Continue (Bool, [2; 2]%nat)) s
         /\ inputs <$> allNodes s' !! r = Some [2; 2]%nat
         /\ type_at s' 2%nat = Some Bool
         /\ type_at s' 2%nat <> Some Int
     | _ => False
     end.
Proof. vm_compute. repeat split; congruence. Qed.

(** ** Coercion of an [Int] to [Bool] *)

Lemma and_then_ok {A B} (m : M A) (k : A -> M B) s a s1 :
  m s = Ok a s1 -> and_then m k s = k a s1.
Proof. intros H. unfold and_then. rewrite H. reflexivity. Qed.

Lemma and_then_timeout {A B} (m : M A) (k : A -> M B) s :
  m s = Timeout -> and_then m k s = Timeout.
Proof. intros H. unfold and_then. rewrite H. reflexivity. Qed.

Lemma get_ok p s n : allNodes s !! p = Some n -> get p s = Ok n s.
Proof. intros H. unfold get. rewrite H. reflexivity. Qed.

Lemma make_int_returns v s : exists r s', make_int v s = Ok r s'.
Proof. unfold make_int. destruct (intInstances s !! v); eauto. Qed.

Lemma make_float_returns v s : exists r s', make_float v s = Ok r s'.
Proof. unfold make_float. destruct (fmap_find v (floatInstances s)); eauto. Qed.

(** The run of a computation on a store of which enough is known. *)
Ltac mexec :=
  repeat first
    [ progress (unfold and_then, at_, get, pure, node_at, arity, assert; simpl)
    | match goal with
      | H : allNodes ?s !! ?p = Some _ |- context [allNodes ?s !! ?p] =>
          rewrite H
      | H : ?f ?s = Ok _ _ |- context [?f ?s] => rewrite H
      | H : ?f ?s = Timeout |- context [?f ?s] => rewrite H
      | H : type_eqb ?a ?b = _ |- context [type_eqb ?a ?b] => rewrite H
      | H : type _ = _ |- _ => rewrite H
      end ].

Lemma type_neqb a b : a <> b -> type_eqb a b = false.
Proof. destruct a, b; simpl; congruence. Qed.

Lemma either_float_false a b s ta tb :
  type_at s a = Some ta -> type_at s b = Some tb ->
  ta <> Float -> tb <> Float ->
  either_float [a; b] s = Ok false s.
Proof.
  intros (na & La & <-)%type_at_Some (nb & Lb & <-)%type_at_Some
         Ha%type_neqb Hb%type_neqb.
  unfold either_float. mexec. reflexivity.
Qed.

(** The recursion of [as(Bool)] on an [Int]: [make(NEQ, this, make(0))]
    coerces its [Int] operands to [Bool] again. *)
Lemma as_bool_of_int n a s :
  wf s -> type_at s a = Some Int ->
  (forall s1 z, wf s1 -> type_at s1 a = Some Int -> type_at s1 z = Some Int ->
     make n NEQ [a; z] 0 fzero s1 = Timeout) ->
  as_body (make n) Bool a s = Timeout.
Proof.
  intros W (na & La & Ta)%type_at_Some IH. unfold as_body.
  destruct (make_int_returns 0 s) as (z & s1 & Hz).
  destruct (make_int_ok _ _ _ _ W Hz) as (W1 & E1 & _ & _ & nz & Lz & Tz & _).
  assert (make n NEQ [a; z] 0 fzero s1 = Timeout) as Hn.
  { apply IH; [exact W1| |apply type_at_Some; eauto].
    eapply ext_type_at; [exact E1|]. apply type_at_Some. eauto. }
  mexec. reflexivity.
Qed.

Lemma cmp_of_int_never_returns n : forall opcode a b tb iv fv s,
  wf s -> is_cmp opcode = true ->
  type_at s a = Some Int -> type_at s b = Some tb -> tb <> Float ->
  make n opcode [a; b] iv fv s = Timeout.
Proof.
  induction n as [|n IH]; intros opcode a b tb iv fv s W Hc Ta Tb Hb;
    [reflexivity|].
  assert (as_body (make n) Bool a s = Timeout) as Ha.
  { apply as_bool_of_int; [exact W|exact Ta|].
    intros s1 z W1 Ta1 Tz.
    eapply IH; [exact W1|reflexivity|exact Ta1|exact Tz|discriminate]. }
  pose proof (either_float_false _ _ _ _ _ Ta Tb ltac:(discriminate) Hb) as Hf.
  simpl. unfold make_body.
  destruct opcode; try discriminate Hc; unfold infer, coerce; mexec;
    reflexivity.
Qed.

Lemma or_of_bool_int_never_returns n a b iv fv s :
  wf s -> type_at s a = Some Bool -> type_at s b = Some Int ->
  make n Or [a; b] iv fv s = Timeout.
Proof.
  intros W Ta Tb. destruct n as [|n]; [reflexivity|].
  assert (as_body (make n) Bool b s = Timeout) as Hb.
  { apply as_bool_of_int; [exact W|exact Tb|].
    intros s1 z W1 Tb1 Tz.
    eapply cmp_of_int_never_returns;
      [exact W1|reflexivity|exact Tb1|exact Tz|discriminate]. }
  pose proof (either_float_false _ _ _ _ _ Ta Tb ltac:(discriminate)
                ltac:(discriminate)) as Hf.
  apply type_at_Some in Ta as (na & La & Ta).
  simpl. unfold make_body, infer, coerce. mexec.
  unfold as_body at 1. mexec. reflexivity.
Qed.

(** C2, at the failing input: [Or] of a [Bool] node and an [Int] node.  The
    test [inputs[0]->type == Int || inputs[0]->type == Int] never looks at
    the second operand, the inferred type is [Bool], and the coercion of the
    [Int] operand to [Bool] never returns, for any recursion bound. *)
Theorem or_of_bool_and_int :
  let s := store_after bool_and_int in
  type_at s 2%nat = Some Bool /\ type_at s 3%nat = Some Int
  /\ forall n iv fv, make n Or [2; 3]%nat iv fv s = Timeout.
Proof.
  split; [vm_compute; reflexivity|]. split; [vm_compute; reflexivity|].
  intros n iv fv. apply or_of_bool_int_never_returns.
  - apply reachable_wf, store_after_reachable.
  - vm_compute. reflexivity.
  - vm_compute. reflexivity.
Qed.

(** ** More recursion bound, same result *)

Lemma le_m_trans {A} (m1 m2 m3 : M A) : le_m m1 m2 -> le_m m2 m3 -> le_m m1 m3.
Proof.
  intros H1 H2 s. destruct (H1 s) as [E|E]; [left; exact E|].
  rewrite E. apply H2.
Qed.

Lemma mono_le {A} (F : nat -> M A) :
  (forall n, le_m (F n) (F (S n))) ->
  forall n m, (n <= m)%nat -> le_m (F n) (F m).
Proof.
  intros HF n m Hle. induction Hle as [|m Hle IH]; [apply le_m_refl|].
  eapply le_m_trans; [exact IH|apply HF].
Qed.

(** A result obtained under one bound is the result under every bound
    that does not cut the computation off. *)
Lemma mono_cases {A} (F : nat -> M A) n0 s a s' :
  (forall n, le_m (F n) (F (S n))) ->
  F n0 s = Ok a s' ->
  forall n, F n s = Timeout \/ F n s = Ok a s'.
Proof.
  intros HF H n. destruct (Nat.le_ge_cases n n0) as [Hle|Hle].
  - destruct (mono_le F HF _ _ Hle s) as [E|E]; [left; exact E|].
    right. rewrite E. exact H.
  - destruct (mono_le F HF _ _ Hle s) as [E|E]; [congruence|].
    right. rewrite <- E. exact H.
Qed.

Lemma make_fuel n m opcode ins iv fv s r s' :
  (n <= m)%nat -> make n opcode ins iv fv s = Ok r s' ->
  make m opcode ins iv fv s = Ok r s'.
Proof.
  intros Hle H.
  destruct (mono_le (fun k => make k opcode ins iv fv)
              (fun k => make_mono k opcode ins iv fv) _ _ Hle s) as [E|E];
    congruence.
Qed.

Lemma rebalanceSum_mono n p : le_m (rebalanceSum n p) (rebalanceSum (S n) p).
Proof.
  apply rebalanceSum_body_mono; [intros; apply make_mono|].
  intros. apply collectSum_mono.
Qed.

Lemma rebalanceSum_fuel n m p s r s' :
  (n <= m)%nat -> rebalanceSum n p s = Ok r s' -> rebalanceSum m p s = Ok r s'.
Proof.
  intros Hle H.
  destruct (mono_le (fun k => rebalanceSum k p)
              (fun k => rebalanceSum_mono k p) _ _ Hle s) as [E|E];
    congruence.
Qed.

Lemma substitute_S n p var val :
  substitute (S n) p var val
  = (let* nd := get p in
     if op_eqb (op nd) var then make_int val
     else match var_dep var with
          | None => fatal
          | Some dep =>
              if has (deps nd) dep then
                let* newInputs :=
                  mapM (fun i => substitute n i var val) (inputs nd) in
                make n (op nd) newInputs (ival nd) (fval nd)
              else pure p
          end).
Proof. reflexivity. Qed.

Lemma substitute_mono n p var val :
  le_m (substitute n p var val) (substitute (S n) p var val).
Proof.
  revert p. induction n as [|n IH]; intros p.
  - intros s. left. reflexivity.
  - rewrite (substitute_S (S n) p), (substitute_S n p).
    apply le_m_bind; [apply le_m_refl|intros nd].
    destruct (op_eqb (op nd) var); [apply le_m_refl|].
    destruct (var_dep var); [|apply le_m_refl].
    destruct (has (deps nd) z); [|apply le_m_refl].
    apply le_m_bind; [apply mapM_mono; exact IH|intros l].
    apply make_mono.
Qed.

(** ** Multiplication of a sum by a constant *)

(** C3, as the code has it: the product is rewritten to the sum of the two
    products [make(Times, VarX, 3)] and [make(Times, VarY, 3)], in that
    order, by the level test (3 > 2 and 3 > 0); each of the two is the
    fused node [TimesImm(.., 3)], not a [Times] node. *)
Theorem times_of_sum_distributes :
  let s := store_after sum_and_const in
  let s' := store_after times_of_sum in
  (level_at s 0%nat = Some 3 /\ level_at s 1%nat = Some 2
   /\ level_at s 3%nat = Some 0)
  /\ (forall n, (3 <= n)%nat ->
        make n Times [2; 3]%nat 0 fzero s = Ok 6%nat s')
  /\ op_at s' 6%nat = Some Plus /\ inputs_at s' 6%nat = Some [4; 5]%nat
  /\ (forall n, (2 <= n)%nat ->
        make n Times [0; 3]%nat 0 fzero s' = Ok 4%nat s'
        /\ make n Times [1; 3]%nat 0 fzero s' = Ok 5%nat s')
  /\ op_at s' 4%nat = Some TimesImm /\ inputs_at s' 4%nat = Some [0%nat]
  /\ ival_at s' 4%nat = Some 3
  /\ op_at s' 5%nat = Some TimesImm /\ inputs_at s' 5%nat = Some [1%nat]
  /\ ival_at s' 5%nat = Some 3.
Proof.
  split; [vm_compute; auto|]. split.
  { intros n Hn. eapply make_fuel; [exact Hn|]. vm_compute. reflexivity. }
  split; [vm_compute; reflexivity|]. split; [vm_compute; reflexivity|].
  split.
  { intros n Hn. split; (eapply make_fuel; [exact Hn|]);
      vm_compute; reflexivity. }
  vm_compute. auto 10.
Qed.

(** C3 as stated fails: the two inputs of the returned [Plus] node are no
    [Times] nodes. *)
Lemma times_of_sum_counterexample :
  let s' := store_after times_of_sum in
  make 3 Times [2; 3]%nat 0 fzero (store_after sum_and_const) = Ok 6%nat s'
  /\ inputs_at s' 6%nat = Some [4; 5]%nat
  /\ op_at s' 4%nat <> Some Times /\ op_at s' 5%nat <> Some Times.
Proof. vm_compute. repeat split; congruence. Qed.

Lemma times_of_sum_distributes_witness :
  make 3 Times [2; 3]%nat 0 fzero (store_after sum_and_const)
  = Ok 6%nat (store_after times_of_sum).
Proof. apply times_of_sum_distributes. lia. Defined.

(** ** Substitution *)

(** The test [op == var] comes before the test that [var] is a variable. *)
Lemma substitute_own_opcode n p var val s nd :
  allNodes s !! p = Some nd -> op nd = var ->
  substitute (S n) p var val s = make_int val s.
Proof.
  intros L <-. rewrite substitute_S. unfold and_then.
  rewrite (get_ok _ _ _ L).
  destruct (op_eqb (op nd) (op nd)) eqn:E; [reflexivity|].
  assert (op_eqb (op nd) (op nd) = true) by (apply op_eqb_eq; reflexivity).
  congruence.
Qed.

Lemma substitute_not_a_variable n p var val s nd :
  allNodes s !! p = Some nd -> op nd <> var -> is_var var = false ->
  substitute (S n) p var val s = Fatal.
Proof.
  intros L Hne Hv. rewrite substitute_S. unfold and_then.
  rewrite (get_ok _ _ _ L).
  destruct (op_eqb (op nd) var) eqn:E; [apply op_eqb_eq in E; contradiction|].
  destruct var; try discriminate Hv; reflexivity.
Qed.

(** C7, at the failing input: the constant node 7 and the opcode [Const],
    which is no variable.  [substitute(Const, 5)] returns the constant 5
    under every recursion bound that lets it start. *)
Theorem substitute_const_opcode :
  let s := store_after const_seven in
  is_var Const = false /\ op_at s 0%nat = Some Const
  /\ forall n, substitute (S n) 0%nat Const 5 s
               = Ok 1%nat (store_after (const_seven ++ [call_make_int 5])).
Proof.
  split; [reflexivity|]. split; [vm_compute; reflexivity|]. intros n.
  rewrite (substitute_own_opcode n 0%nat Const 5 _ (const_int 7));
    vm_compute; reflexivity.
Qed.

(** ** Uniquing *)

Lemma fmap_find_feqb v w m :
  feqb v w = true -> fmap_find w m = fmap_find v m.
Proof.
  intros E. induction m as [|[k p] m IH]; simpl; [reflexivity|].
  rewrite (feqb_fltb_r _ _ k E), (feqb_fltb_l _ _ k E), IH. reflexivity.
Qed.

Lemma vmap_find_insert_same k v m :
  vmap_find k m = None -> vmap_find k (vmap_insert k v m) = Some v.
Proof.
  unfold vmap_insert. induction m as [|[k' v'] m IH]; simpl.
  - intros _. unfold op_eqb. rewrite Z.eqb_refl. reflexivity.
  - destruct (op_eqb k' k); [discriminate|exact IH].
Qed.

Lemma make_of_var n opcode ins iv fv s r s' :
  wf s -> is_var opcode = true ->
  make n opcode ins iv fv s = Ok r s' ->
  vmap_find opcode (varInstances s') = Some r.
Proof.
  intros W Hv H. destruct n as [|n]; [discriminate|].
  simpl in H. unfold make_body in H.
  apply bind_inv in H as (f1 & s1 & H1 & H).
  assert (f1 = Continue (Int, ins) /\ s1 = s /\ ins = []) as (-> & -> & ->).
  { destruct opcode; try discriminate Hv; simpl in H1; mrun H1;
      destruct ins; simpl in *; try congruence; auto. }
  simpl fst in H. simpl snd in H.
  apply bind_inv in H as (f2 & s2 & H2 & H).
  assert (f2 = Continue tt /\ s2 = s) as (-> & ->).
  { unfold fold, and_then, pure in H2. simpl in H2.
    injection H2 as <- <-. auto. }
  apply bind_inv in H as (f3 & s3 & H3 & H).
  assert (f3 = Continue tt /\ s3 = s) as (-> & ->).
  { destruct opcode; try discriminate Hv; simpl in H3; mrun H3; auto. }
  apply bind_inv in H as (ins2 & s4 & H4 & H).
  assert (s4 = s) as ->.
  { unfold rebalance_inputs in H4.
    destruct opcode; try discriminate Hv; simpl in H4; mrun H4; reflexivity. }
  apply bind_inv in H as (f5 & s5 & H5 & H).
  unfold variables in H5. rewrite Hv in H5.
  apply bind_inv in H5 as (o & s6 & Hf & H5).
  apply find_var_inv in Hf as [-> ->].
  destruct (vmap_find opcode (varInstances s)) as [p|] eqn:E.
  - mrun H5. mrun H. exact E.
  - apply bind_inv in H5 as (p & s7 & Hn & H5).
    apply bind_inv in H5 as (u & s8 & Hr & H5). mrun H5. mrun H.
    eapply new_node_ok in Hn as (_ & _ & _ & _ & _ & _ & Hvar & _);
      [|exact W|destruct opcode; discriminate
       |destruct opcode; discriminate].
    unfold register_var in Hr. injection Hr as <- <-. simpl.
    rewrite Hvar. apply vmap_find_insert_same. exact E.
Qed.

Lemma make_of_unbound n ins iv fv s r s' :
  make n UnboundVar ins iv fv s = Ok r s' ->
  r = length (allNodes s) /\ valid s' r.
Proof.
  intros H. destruct n as [|n]; [discriminate|].
  simpl in H. unfold make_body in H.
  apply bind_inv in H as (f1 & s1 & H1 & H).
  assert (f1 = Continue (Int, ins) /\ s1 = s /\ ins = []) as (-> & -> & ->).
  { simpl in H1; mrun H1; destruct ins; simpl in *; try congruence; auto. }
  simpl fst in H. simpl snd in H.
  apply bind_inv in H as (f2 & s2 & H2 & H).
  assert (f2 = Continue tt /\ s2 = s) as (-> & ->).
  { unfold fold, and_then, pure in H2. simpl in H2.
    injection H2 as <- <-. auto. }
  apply bind_inv in H as (f3 & s3 & H3 & H).
  assert (f3 = Continue tt /\ s3 = s) as (-> & ->).
  { simpl in H3; mrun H3; auto. }
  apply bind_inv in H as (ins2 & s4 & H4 & H).
  assert (s4 = s) as ->.
  { unfold rebalance_inputs in H4. simpl in H4; mrun H4; reflexivity. }
  apply bind_inv in H as (f5 & s5 & H5 & H).
  unfold variables in H5. simpl in H5.
  apply bind_inv in H5 as (p & s7 & Hn & H5). mrun H5. mrun H.
  unfold new_node in Hn. simpl in Hn. injection Hn as <- <-.
  split; [reflexivity|]. unfold valid. simpl. rewrite length_app. simpl. lia.
Qed.

Lemma run_call_ok c s r s' :
  wf s -> run_call c s = Ok r s' -> wf s' /\ ext s s' /\ valid s' r.
Proof.
  intros W H. destruct c; simpl in H.
  - eapply make_float_ok in H; [|exact W]. tauto.
  - eapply make_int_ok in H; [|exact W]. tauto.
  - eapply make_ok; eassumption.
  - eapply as_ok; eassumption.
  - eapply rebalanceSum_ok; eassumption.
  - eapply substitute_ok; eassumption.
  - eapply bind_ok; eassumption.
Qed.

(** C8: constants and the implicit variables are uniqued, whatever the
    client calls in between; an unbound variable is a new node, different
    from every node that a call has returned before. *)
Theorem uniquing s :
  reachable s ->
  (forall v r1 s1 s2 r2 s3,
     make_int v s = Ok r1 s1 -> rtc step s1 s2 ->
     make_int v s2 = Ok r2 s3 -> r2 = r1)
  /\ (forall v w r1 s1 s2 r2 s3,
        feqb v w = true ->
        make_float v s = Ok r1 s1 -> rtc step s1 s2 ->
        make_float w s2 = Ok r2 s3 -> r2 = r1)
  /\ (forall opcode n ins iv fv r1 s1 s2 m ins' iv' fv' r2 s3,
        is_var opcode = true ->
        make n opcode ins iv fv s = Ok r1 s1 -> rtc step s1 s2 ->
        make m opcode ins' iv' fv' s2 = Ok r2 s3 -> r2 = r1)
  /\ (forall cs rs n ins iv fv r s',
        mapM run_call cs empty_store = Ok rs s ->
        make n UnboundVar ins iv fv s = Ok r s' ->
        (r ∉ rs) /\ valid s' r).
Proof.
  intros R. pose proof (reachable_wf _ R) as W. repeat split.
  - intros v r1 s1 s2 r2 s3 H1 S H2.
    destruct (make_int_ok _ _ _ _ W H1) as (W1 & _ & _ & F1 & _).
    destruct (steps_ok _ _ W1 S) as [W2 E2].
    destruct (make_int_ok _ _ _ _ W2 H2) as (_ & E3 & _ & F2 & _).
    apply (ext_int _ _ E2), (ext_int _ _ E3) in F1. congruence.
  - intros v w r1 s1 s2 r2 s3 Hvw H1 S H2.
    destruct (make_float_ok _ _ _ _ W H1) as (W1 & _ & _ & F1 & _).
    destruct (steps_ok _ _ W1 S) as [W2 E2].
    destruct (make_float_ok _ _ _ _ W2 H2) as (_ & E3 & _ & F2 & _).
    pose proof (feqb_not_nan _ _ Hvw) as Hn.
    apply (ext_float _ _ E2 _ _ Hn), (ext_float _ _ E3 _ _ Hn) in F1.
    rewrite (fmap_find_feqb _ _ _ Hvw) in F2. congruence.
  - intros opcode n ins iv fv r1 s1 s2 m ins' iv' fv' r2 s3 Hv H1 S H2.
    pose proof (make_of_var _ _ _ _ _ _ _ _ W Hv H1) as F1.
    destruct (make_ok _ _ _ _ _ _ _ _ W H1) as (W1 & _ & _).
    destruct (steps_ok _ _ W1 S) as [W2 E2].
    pose proof (make_of_var _ _ _ _ _ _ _ _ W2 Hv H2) as F2.
    destruct (make_ok _ _ _ _ _ _ _ _ W2 H2) as (_ & E3 & _).
    apply (ext_var _ _ E2), (ext_var _ _ E3) in F1. congruence.
  - intros Hin.
    apply make_of_unbound in H0 as [-> _].
    eapply mapM_ok in H; [|intros; eapply run_call_ok; eassumption
                          |apply wf_empty].
    destruct H as (_ & _ & F). rewrite Forall_forall in F.
    apply F in Hin. unfold valid in Hin. lia.
  - apply make_of_unbound in H0 as [_ V]. exact V.
Qed.

Lemma uniquing_witness :
  reachable (store_after bool_node)
  /\ (3%nat ∉ [0; 1; 2]%nat)
  /\ valid (store_after (bool_node ++ [call_make 1 UnboundVar [] 0 fzero]))
           3%nat.
Proof.
  split; [apply store_after_reachable|].
  apply (proj2 (proj2 (proj2 (uniquing (store_after bool_node)
                                 (store_after_reachable bool_node))))
           bool_node [0; 1; 2]%nat 1%nat [] 0 fzero 3%nat).
  - vm_compute. reflexivity.
  - vm_compute. reflexivity.
Defined.

(** ** The terms of a sum *)

Lemma sift_length x rest : length (snd (sift x rest)) = length rest.
Proof.
  revert x. induction rest as [|y r IH]; simpl; intros x; [reflexivity|].
  destruct (fst y <? fst x).
  - specialize (IH y). destruct (sift y r). simpl in *. congruence.
  - specialize (IH x). destruct (sift x r). simpl in *. congruence.
Qed.

Lemma swap_sort_length n l : length (swap_sort n l) = length l.
Proof.
  revert l. induction n as [|n IH]; intros [|x rest]; simpl; try reflexivity.
  pose proof (sift_length x rest) as Hs. destruct (sift x rest) as [m r'].
  simpl in *. rewrite IH. congruence.
Qed.

Lemma deps_at_lookup s p :
  deps_at s p <> 0 -> exists nd, allNodes s !! p = Some nd /\ deps nd <> 0.
Proof.
  unfold deps_at. destruct (allNodes s !! p) as [nd|]; [eauto|congruence].
Qed.

Lemma terms_deps_ext s s' (terms : list term) :
  ext s s' ->
  Exists (fun tm => deps_at s (fst tm) <> 0) terms ->
  Exists (fun tm => deps_at s' (fst tm) <> 0) terms.
Proof.
  intros E. rewrite !Exists_exists. intros (tm & Hin & Hd). exists tm.
  split; [exact Hin|]. rewrite (ext_deps_at _ _ _ E); [exact Hd|].
  apply deps_at_lookup in Hd as (nd & L & _). eapply valid_lookup, L.
Qed.

(** The inputs of a sum node, one of which depends on something. *)
Lemma sum_inputs s p nd :
  wf s -> allNodes s !! p = Some nd -> is_sum (op nd) = true ->
  (op nd = PlusImm /\ exists i0, inputs nd = [i0] /\ (i0 < p)%nat
                                 /\ deps_at s i0 <> 0)
  \/ (op nd <> PlusImm
      /\ exists i0 i1, inputs nd = [i0; i1] /\ (i0 < p)%nat /\ (i1 < p)%nat
                       /\ (deps_at s i0 <> 0 \/ deps_at s i1 <> 0)).
Proof.
  intros W L S. destruct (wf_sum _ W _ _ L S) as [Hl He].
  pose proof (wf_inputs _ W _ _ L) as Hi.
  destruct (op nd) eqn:Eop; try discriminate S; simpl in Hl;
    destruct (inputs nd) as [|i0 [|i1 [|i2 l]]]; try discriminate Hl;
    [right|right|left]; (split; [congruence|]).
  - exists i0, i1. inversion Hi as [|? ? H0 Hi']; subst.
    inversion Hi' as [|? ? H1 _]; subst.
    repeat split; try assumption.
    inversion He as [? ? Hd|? ? He']; subst; [left; exact Hd|].
    inversion He' as [? ? Hd|? ? He'']; subst; [right; exact Hd|].
    inversion He''.
  - exists i0, i1. inversion Hi as [|? ? H0 Hi']; subst.
    inversion Hi' as [|? ? H1 _]; subst.
    repeat split; try assumption.
    inversion He as [? ? Hd|? ? He']; subst; [left; exact Hd|].
    inversion He' as [? ? Hd|? ? He'']; subst; [right; exact Hd|].
    inversion He''.
  - exists i0. inversion Hi as [|? ? H0 Hi']; subst.
    repeat split; try assumption.
    inversion He as [? ? Hd|? ? He']; subst; [exact Hd|]. inversion He'.
Qed.

Lemma collectSum_S n this positive terms :
  collectSum (S n) this positive terms
  = (let* nd := get this in
     match op nd with
     | Plus =>
         let* i0 := at_ 0 (inputs nd) in
         let* terms := collectSum n i0 positive terms in
         let* i1 := at_ 1 (inputs nd) in
         collectSum n i1 positive terms
     | Minus =>
         let* i0 := at_ 0 (inputs nd) in
         let* terms := collectSum n i0 positive terms in
         let* i1 := at_ 1 (inputs nd) in
         collectSum n i1 (negb positive) terms
     | PlusImm =>
         let* i0 := at_ 0 (inputs nd) in
         let* terms := collectSum n i0 positive terms in
         let* c := make_int (ival nd) in
         pure (terms ++ [(c, true)])
     | _ => pure (terms ++ [(this, positive)])
     end).
Proof. reflexivity. Qed.

(** The traversal of a sum returns once the bound exceeds the position of
    the node: the inputs of a node come before it. *)
Lemma collectSum_returns n : forall p pos acc s,
  wf s -> valid s p -> (p < n)%nat ->
  exists terms s1, collectSum n p pos acc s = Ok terms s1.
Proof.
  induction n as [|n IH]; intros p pos acc s W V Hn; [lia|].
  destruct (valid_is_Some _ _ V) as [nd L].
  rewrite collectSum_S. unfold and_then at 1. rewrite (get_ok _ _ _ L).
  destruct (is_sum (op nd)) eqn:S.
  - unfold valid in V.
    destruct (sum_inputs _ _ _ W L S)
      as [(Eop & i0 & Ein & H0 & _)|(Hne & i0 & i1 & Ein & H0 & H1 & _)].
    + rewrite Eop, Ein.
      destruct (IH i0 pos acc s W) as (t1 & s1 & C1);
        [unfold valid; lia|lia|].
      destruct (make_int_returns (ival nd) s1) as (c & s2 & Hc).
      mexec. eauto.
    + destruct (IH i0 pos acc s W) as (t1 & s1 & C1);
        [unfold valid; lia|lia|].
      destruct (collectSum_ok _ _ _ _ _ _ _ W C1) as (W1 & E1 & _).
      assert (valid s1 i1) as V1.
      { eapply ext_valid; [exact E1|]. unfold valid. lia. }
      destruct (IH i1 pos t1 s1 W1 V1) as (t2 & s2 & C2); [lia|].
      destruct (IH i1 (negb pos) t1 s1 W1 V1) as (t3 & s3 & C3); [lia|].
      rewrite Ein.
      destruct (op nd); try discriminate S; try congruence; mexec; eauto.
  - destruct (op nd); try discriminate S; unfold pure; eauto.
Qed.

Lemma collectSum_nonconst n : forall p pos acc s terms s1 nd,
  wf s -> allNodes s !! p = Some nd ->
  is_sum (op nd) = true \/ deps nd <> 0 ->
  collectSum n p pos acc s = Ok terms s1 ->
  Exists (fun tm => deps_at s1 (fst tm) <> 0) terms.
Proof.
  induction n as [|n IH]; intros p pos acc s terms s1 nd W L Hd H;
    [discriminate|].
  rewrite collectSum_S in H. unfold and_then at 1 in H.
  rewrite (get_ok _ _ _ L) in H.
  destruct (is_sum (op nd)) eqn:S.
  - clear Hd.
    destruct (sum_inputs _ _ _ W L S)
      as [(Eop & i0 & Ein & H0 & D0)|(Hne & i0 & i1 & Ein & H0 & H1 & D)].
    + rewrite Eop, Ein in H.
      apply bind_inv in H as (? & ? & Ha & H). apply at_inv in Ha as [-> Ha].
      injection Ha as <-.
      apply bind_inv in H as (t1 & s2 & C1 & H).
      apply bind_inv in H as (c & s3 & Hc & H). apply pure_inv in H as [-> ->].
      apply deps_at_lookup in D0 as (n0 & L0 & D0).
      pose proof (IH _ _ _ _ _ _ _ W L0 (or_intror D0) C1) as Ex.
      destruct (collectSum_ok _ _ _ _ _ _ _ W C1) as (W2 & _ & _).
      destruct (make_int_ok _ _ _ _ W2 Hc) as (_ & E3 & _).
      apply Exists_app. left. eapply terms_deps_ext; eassumption.
    + rewrite Ein in H.
      assert (exists sg,
                (let* a := at_ 0 [i0; i1] in
                 let* t1 := collectSum n a pos acc in
                 let* b := at_ 1 [i0; i1] in
                 collectSum n b sg t1) s = Ok terms s1) as [sg H'].
      { destruct (op nd); try discriminate S; try congruence; eauto. }
      clear H. rename H' into H.
      apply bind_inv in H as (? & ? & Ha & H). apply at_inv in Ha as [-> Ha].
      injection Ha as <-.
      apply bind_inv in H as (t1 & s2 & C1 & H).
      apply bind_inv in H as (? & ? & Hb & H). apply at_inv in Hb as [-> Hb].
      injection Hb as <-.
      destruct (collectSum_ok _ _ _ _ _ _ _ W C1) as (W2 & E2 & _).
      destruct (collectSum_ok _ _ _ _ _ _ _ W2 H) as (_ & E3 & new & -> & _).
      destruct D as [D|D]; apply deps_at_lookup in D as (n0 & L0 & D0).
      * pose proof (IH _ _ _ _ _ _ _ W L0 (or_intror D0) C1) as Ex.
        apply Exists_app. left. eapply terms_deps_ext; eassumption.
      * destruct (ext_lookup _ _ _ _ E2 L0) as (n1 & L1 & F).
        apply strip_fields in F. destruct F as (_ & _ & _ & _ & _ & Fd & _).
        rewrite <- Fd in D0.
        exact (IH _ _ _ _ _ _ _ W2 L1 (or_intror D0) H).
  - destruct Hd as [Hd|Hd]; [congruence|].
    assert (terms = acc ++ [(p, pos)] /\ s1 = s) as [-> ->].
    { destruct (op nd); try discriminate S; apply pure_inv in H; tauto. }
    apply Exists_app. right. left. simpl. unfold deps_at. rewrite L. exact Hd.
Qed.

Lemma split_terms_returns terms s :
  Forall (fun tm : term => valid s (fst tm)) terms ->
  exists cn, split_terms terms s = Ok cn s.
Proof.
  induction 1 as [|tm terms V _ IH]; simpl; [unfold pure; eauto|].
  destruct (valid_is_Some _ _ V) as [nd L]. destruct IH as [cn IH].
  mexec. destruct (op_eqb (op nd) Const); eauto.
Qed.

Lemma with_levels_returns terms s :
  Forall (fun tm : term => valid s (fst tm)) terms ->
  exists lv, with_levels terms s = Ok lv s /\ length lv = length terms.
Proof.
  induction 1 as [|tm terms V _ IH]; simpl; [unfold pure; eauto|].
  destruct (valid_is_Some _ _ V) as [nd L]. destruct IH as (lv & IH & Hl).
  mexec. eexists. split; [reflexivity|]. simpl. congruence.
Qed.

Lemma split_terms_spec terms s cn s' :
  wf s -> split_terms terms s = Ok cn s' ->
  Forall (fun tm : term => valid s (fst tm)) (snd cn)
  /\ (Exists (fun tm => deps_at s (fst tm) <> 0) terms -> snd cn <> []).
Proof.
  intros W. revert cn s'.
  induction terms as [|tm terms IH]; simpl; intros cn s' H.
  - apply pure_inv in H as [-> _]. split; [constructor|].
    intros Hx. inversion Hx.
  - apply bind_inv in H as (nd & s0 & Hg & H). apply get_inv in Hg as [-> L].
    apply bind_inv in H as (cn0 & s0 & H0 & H).
    pose proof (split_terms_inv _ _ _ _ H0) as ->.
    destruct (IH _ _ H0) as [F N].
    destruct (op_eqb (op nd) Const) eqn:E; apply pure_inv in H as [-> _];
      simpl.
    + split; [exact F|]. intros Hx.
      inversion Hx as [? ? Hd|? ? Hx']; subst; [|auto].
      exfalso. unfold deps_at in Hd. rewrite L in Hd.
      apply op_eqb_eq in E. exact (Hd (wf_const _ W _ _ L E)).
    + split; [|discriminate].
      constructor; [eapply valid_lookup, L|exact F].
Qed.

(** C9: the terms that [rebalanceSum] collects from a sum node of a store
    the factory has built are found under a recursion bound just above the
    position of the node, and under every bound that finds them the list of
    the non-constant terms is not empty, so that [nonConstTerms[0]] is
    there. *)
Theorem sum_has_nonconstant_term s p nd :
  reachable s -> allNodes s !! p = Some nd -> is_sum (op nd) = true ->
  (exists ct s1, sum_terms (S p) p s = Ok ct s1)
  /\ (forall n ct s1, sum_terms n p s = Ok ct s1 ->
        snd ct <> []
        /\ exists first, at_ 0 (snd ct) s1 = Ok first s1).
Proof.
  intros R L Hsum. pose proof (reachable_wf _ R) as W. split.
  - destruct (collectSum_returns (S p) p true [] s W (valid_lookup _ _ _ L))
      as (terms & s1 & C); [lia|].
    destruct (collectSum_ok _ _ _ _ _ _ _ W C) as (W1 & _ & new & -> & F).
    destruct (split_terms_returns _ _ F) as [cn Hs].
    destruct (split_terms_spec _ _ _ _ W1 Hs) as [Fn _].
    destruct (with_levels_returns _ _ Fn) as (lv & Hl & _).
    unfold sum_terms.
    erewrite and_then_ok; [|exact C]. erewrite and_then_ok; [|exact Hs].
    erewrite and_then_ok; [|exact Hl]. unfold pure. eauto.
  - intros n ct s1 H. unfold sum_terms in H.
    apply bind_inv in H as (terms & s2 & C & H).
    apply bind_inv in H as (cn & s3 & Hs & H).
    apply bind_inv in H as (lv & s4 & Hl & H).
    apply pure_inv in H as [-> ->].
    pose proof (collectSum_nonconst _ _ _ _ _ _ _ _ W L (or_introl Hsum) C) as Ex.
    destruct (collectSum_ok _ _ _ _ _ _ _ W C) as (W2 & _ & _).
    pose proof (split_terms_inv _ _ _ _ Hs) as ->.
    destruct (split_terms_spec _ _ _ _ W2 Hs) as [Fn Hne].
    specialize (Hne Ex).
    destruct (with_levels_returns _ _ Fn) as (lv' & Hl' & Hlen).
    rewrite Hl' in Hl. injection Hl as <- <-. simpl.
    assert (length (map snd (swap_sort (length lv') lv')) <> 0%nat) as Hlen'.
    { rewrite length_map, swap_sort_length, Hlen.
      destruct (snd cn); [congruence|discriminate]. }
    destruct (map snd (swap_sort (length lv') lv')) as [|first rest];
      [exfalso; apply Hlen'; reflexivity|].
    split; [discriminate|]. exists first. reflexivity.
Qed.

Lemma sum_has_nonconstant_term_witness :
  reachable (store_after nested_sum)
  /\ (exists ct s1, sum_terms 5 4%nat (store_after nested_sum) = Ok ct s1).
Proof.
  split; [apply store_after_reachable|].
  eapply (proj1 (sum_has_nonconstant_term (store_after nested_sum) 4%nat _
                   (store_after_reachable nested_sum) _ _)).
  Unshelve.
  - exact (mkNode Int Plus [3; 2]%nat [] 0 fzero 4 3 (-1) 1 false).
  - vm_compute. reflexivity.
  - reflexivity.
Defined.

(** ** A substitution that does not return *)

Lemma substitute_rebuild n p var val s nd dep :
  allNodes s !! p = Some nd -> op_eqb (op nd) var = false ->
  var_dep var = Some dep -> has (deps nd) dep = true ->
  substitute (S n) p var val s
  = (let* newInputs := mapM (fun i => substitute n i var val) (inputs nd) in
     make n (op nd) newInputs (ival nd) (fval nd)) s.
Proof.
  intros L E D H. rewrite substitute_S. unfold and_then at 1.
  rewrite (get_ok _ _ _ L), E, D, H. reflexivity.
Qed.

(** C10, at the failing input: [substitute(VarX, 5)] on node 5 of
    [bool_of_x].  The rebuilt [And] has constant inputs and folds to the
    [Int] constant 0, and the rebuilt [LT] over that [Int] never returns. *)
Theorem substitute_never_returns :
  forall n, substitute n 5%nat VarX 5 (store_after bool_of_x) = Timeout.
Proof.
  intros [|n]; [reflexivity|].
  set (s := store_after bool_of_x).
  set (nd := mkNode Bool LT [4; 4]%nat [] 0 fzero 4 3 (-1) 1 false).
  rewrite (substitute_rebuild n 5%nat VarX 5 s nd DepX);
    [|vm_compute; reflexivity|reflexivity|reflexivity|reflexivity].
  cbn [inputs op ival fval nd].
  set (s9 := store_after (bool_of_x ++ [call_substitute 6 4%nat VarX 5])).
  assert (mapM (fun i => substitute 6 i VarX 5) [4; 4]%nat s
          = Ok [9; 9]%nat s9) as F.
  { vm_compute. reflexivity. }
  destruct (mono_cases (fun k => mapM (fun i => substitute k i VarX 5)
                                      [4; 4]%nat) 6%nat s _ _
              (fun k => mapM_mono _ _ _
                          (fun i => substitute_mono k i VarX 5)) F n)
    as [E|E]; unfold and_then; rewrite E; [reflexivity|].
  eapply cmp_of_int_never_returns.
  - apply reachable_wf, store_after_reachable.
  - reflexivity.
  - vm_compute. reflexivity.
  - vm_compute. reflexivity.
  - discriminate.
Qed.

(** ** Folding of the logical opcodes *)

Lemma fold_logical opcode t g v iv s ng nv :
  is_logical opcode = true ->
  allNodes s !! g = Some ng -> allNodes s !! v = Some nv ->
  deps ng = 0 -> deps nv = 0 ->
  fold opcode t [g; v] iv s
  = (let* r := folded_logical opcode t ng nv in pure (Return r)) s.
Proof.
  intros Hl Lg Lv Dg Dv. unfold fold, folded_logical.
  assert (all_const [g; v] s = Ok true s) as Hc.
  { simpl. unfold and_then. rewrite (get_ok _ _ _ Lg), Dg. simpl.
    rewrite (get_ok _ _ _ Lv), Dv. reflexivity. }
  unfold and_then at 1. rewrite Hc. simpl andb. cbv iota.
  destruct opcode; try discriminate Hl; unfold ret_float, ret_int, node_at;
    mexec; destruct (type_eqb t Float); destruct (ival ng =? 0); reflexivity.
Qed.

(** ** Rebalancing twice *)

Lemma rebalanceSum_twice_differs :
  let s := store_after three_terms in
  let s1 := store_after (three_terms ++ [call_rebalanceSum 5 4%nat]) in
  let s2 := store_after (three_terms ++ [call_rebalanceSum 5 4%nat;
                                         call_rebalanceSum 5 6%nat]) in
  forall n, (5 <= n)%nat ->
    rebalanceSum n 4%nat s = Ok 6%nat s1
    /\ rebalanceSum n 6%nat s1 = Ok 8%nat s2.
Proof.
  intros s s1 s2 n Hn. split.
  - eapply rebalanceSum_fuel; [exact Hn|]. vm_compute. reflexivity.
  - eapply rebalanceSum_fuel; [exact Hn|]. vm_compute. reflexivity.
Qed.

(** C5 as stated fails: on the sum [- x - x + x] the first pass returns
    node 6, [Minus(x, Plus(x, x))], and the second pass over node 6 returns
    node 8, [Minus(Minus(x, x), x)] (and so under every larger recursion
    bound, [rebalanceSum_twice_differs]). *)
Lemma rebalanceSum_twice_counterexample :
  rebalanceSum 5 4%nat (store_after three_terms)
  = Ok 6%nat (store_after (three_terms ++ [call_rebalanceSum 5 4%nat]))
  /\ rebalanceSum 5 6%nat
       (store_after (three_terms ++ [call_rebalanceSum 5 4%nat]))
     = Ok 8%nat (store_after (three_terms ++ [call_rebalanceSum 5 4%nat;
                                              call_rebalanceSum 5 6%nat]))
  /\ 8%nat <> 6%nat
  /\ inputs_at (store_after (three_terms ++ [call_rebalanceSum 5 4%nat;
                                             call_rebalanceSum 5 6%nat]))
               6%nat = Some [0; 5]%nat
  /\ inputs_at (store_after (three_terms ++ [call_rebalanceSum 5 4%nat;
                                             call_rebalanceSum 5 6%nat]))
               8%nat = Some [7; 0]%nat.
Proof. vm_compute. repeat split; congruence. Qed.

(** ** The constant of an [Int] sum *)

Lemma wrap_add_l a b : wrap (wrap a + b) = wrap (a + b).
Proof.
  unfold wrap. f_equal.
  replace ((a + 2147483648) mod 4294967296 - 2147483648 + b + 2147483648)
    with ((a + 2147483648) mod 4294967296 + b) by lia.
  rewrite Zplus_mod_idemp_l. f_equal. lia.
Qed.

Lemma wrap_idem z : wrap (wrap z) = wrap z.
Proof.
  replace (wrap (wrap z)) with (wrap (wrap z + 0)) by (f_equal; lia).
  rewrite wrap_add_l. f_equal. lia.
Qed.

Lemma int_sum_spec consts : forall c0 s c s',
  int_sum consts c0 s = Ok c s' ->
  wrap c = wrap (c0 + signed_total consts s).
Proof.
  induction consts as [|tm rest IH]; simpl; intros c0 s c s' H.
  - apply pure_inv in H as [-> _]. f_equal. lia.
  - apply bind_inv in H as (nd & s0 & Hg & H). apply get_inv in Hg as [-> L].
    rewrite L. apply IH in H. rewrite H. unfold int_add, int_sub.
    destruct (snd tm); rewrite wrap_add_l; f_equal; lia.
Qed.

Lemma int_sum_wrapped consts : forall c0 s c s',
  wrap c0 = c0 -> int_sum consts c0 s = Ok c s' -> wrap c = c.
Proof.
  induction consts as [|tm rest IH]; simpl; intros c0 s c s' H0 H.
  - apply pure_inv in H as [-> _]. exact H0.
  - apply bind_inv in H as (nd & s0 & Hg & H). apply get_inv in Hg as [-> L].
    eapply IH; [|exact H]. unfold int_add, int_sub.
    destruct (snd tm); apply wrap_idem.
Qed.

Lemma int_sum_returns consts : forall c0 s,
  Forall (fun tm : term => valid s (fst tm)) consts ->
  exists c, int_sum consts c0 s = Ok c s.
Proof.
  induction consts as [|tm rest IH]; simpl; intros c0 s F.
  - unfold pure. eauto.
  - inversion F as [|? ? V F']; subst.
    destruct (valid_is_Some _ _ V) as [nd L].
    unfold and_then. rewrite (get_ok _ _ _ L). apply IH. exact F'.
Qed.

Lemma split_terms_valid terms : forall s cn s',
  split_terms terms s = Ok cn s' ->
  Forall (fun tm : term => valid s (fst tm)) (fst cn).
Proof.
  induction terms as [|tm terms IH]; simpl; intros s cn s' H.
  - apply pure_inv in H as [-> _]. constructor.
  - apply bind_inv in H as (nd & s0 & Hg & H). apply get_inv in Hg as [-> L].
    apply bind_inv in H as (cn0 & s0 & H0 & H).
    pose proof (split_terms_inv _ _ _ _ H0) as ->.
    pose proof (IH _ _ _ H0) as F.
    destruct (op_eqb (op nd) Const); apply pure_inv in H as [-> _]; simpl;
      [constructor; [eapply valid_lookup, L|exact F]|exact F].
Qed.

Lemma sum_terms_consts n p s ct s' :
  wf s -> sum_terms n p s = Ok ct s' ->
  Forall (fun tm : term => valid s' (fst tm)) (fst ct).
Proof.
  intros W H. unfold sum_terms in H.
  apply bind_inv in H as (terms & s1 & Hc & H).
  apply bind_inv in H as (cn & s2 & Hs & H).
  apply bind_inv in H as (lv & s3 & Hl & H).
  pose proof (split_terms_inv _ _ _ _ Hs) as ->.
  apply with_levels_inv in Hl as [-> _]. apply pure_inv in H as [-> ->].
  simpl. eapply split_terms_valid, Hs.
Qed.

(** A [PlusImm] over an operand that depends on something is built (or
    found) as such. *)
Lemma make_plusimm n a c fv s r s' :
  deps_at s a <> 0 ->
  make n PlusImm [a] c fv s = Ok r s' ->
  op_at s' r = Some PlusImm /\ inputs_at s' r = Some [a]
  /\ ival_at s' r = Some c /\ type_at s' r = Some Int.
Proof.
  intros Hd H. destruct n as [|n]; [discriminate|]. simpl in H.
  apply make_body_plain in H as (t & ins1 & s1 & Hi & H); [|reflexivity].
  simpl in Hi. mrun Hi.
  match goal with
  | E : Continue _ = Continue _ |- _ => injection E as -> ->
  end.
  apply deps_at_lookup in Hd as (nd & L & Hd).
  destruct H as [H|(_ & ins2 & s2 & nr & Hr & Lr & T & O & I & V)].
  - exfalso. unfold fold in H. simpl in H. unfold and_then in H.
    rewrite (get_ok _ _ _ L) in H.
    apply Z.eqb_neq in Hd. rewrite Hd in H. discriminate H.
  - unfold rebalance_inputs in Hr. simpl in Hr. apply pure_inv in Hr as [-> _].
    unfold op_at, inputs_at, ival_at, type_at. rewrite Lr. simpl.
    repeat split; congruence.
Qed.

Lemma signed_total_ext consts s s' :
  ext s s' -> Forall (fun tm : term => valid s (fst tm)) consts ->
  signed_total consts s' = signed_total consts s.
Proof.
  intros E F. induction F as [|tm rest V F IH]; simpl; [reflexivity|].
  rewrite IH. destruct (valid_is_Some _ _ V) as [nd L].
  destruct (ext_lookup _ _ _ _ E L) as (nd' & L' & Hs).
  rewrite L, L'. apply strip_fields in Hs.
  replace (ival nd') with (ival nd) by intuition congruence. reflexivity.
Qed.

Lemma at_ok {A} i (v : list A) a s : v !! i = Some a -> at_ i v s = Ok a s.
Proof. intros H. unfold at_. rewrite H. reflexivity. Qed.

(** On an [Int] sum, what is left of [rebalanceSum] after the sum over the
    other terms is the constant alone. *)
Lemma rebalanceSum_int_tail n p s nd ct s1 first acc s2 :
  wf s ->
  allNodes s !! p = Some nd -> is_sum (op nd) = true -> type nd = Int ->
  sum_terms n p s = Ok ct s1 ->
  snd ct !! 0%nat = Some first ->
  rebuild (make n) (tail (snd ct)) (fst first) (snd first) s1 = Ok acc s2 ->
  rebalanceSum n p s =
    (if wrap (signed_total (fst ct) s1) =? 0 then Ok (fst acc) s2
     else if snd acc
          then make n PlusImm [fst acc] (wrap (signed_total (fst ct) s1))
                 fzero s2
          else (let* k := make_int (wrap (signed_total (fst ct) s1)) in
                make n Minus [k; fst acc] 0 fzero) s2).
Proof.
  intros W L Hsum Ht Hst Hf Hrb.
  pose proof (sum_terms_consts _ _ _ _ _ W Hst) as Fc.
  destruct (sum_terms_ok _ _ _ _ _ W Hst) as (W1 & E1 & Fn).
  assert (V1 : valid s1 (fst first)).
  { rewrite Forall_lookup in Fn. exact (Fn _ _ Hf). }
  destruct (rebuild_ok (make n) (make_ok n) _ _ _ _ _ _ W1 V1 Hrb)
    as (W2 & E2 & V2).
  assert (Fc2 : Forall (fun tm : term => valid s2 (fst tm)) (fst ct)).
  { eapply Forall_impl; [exact Fc|]. intros tm V. eapply ext_valid; eauto. }
  destruct (int_sum_returns (fst ct) 0 s2 Fc2) as [k Hk].
  assert (Hc : k = wrap (signed_total (fst ct) s1)).
  { rewrite <- (int_sum_wrapped _ _ _ _ _ eq_refl Hk).
    rewrite (int_sum_spec _ _ _ _ _ Hk). simpl.
    rewrite (signed_total_ext _ _ _ E2 Fc). reflexivity. }
  unfold rebalanceSum, rebalanceSum_body.
  rewrite (and_then_ok _ _ _ _ _ (get_ok _ _ _ L)), Hsum. cbn [negb].
  rewrite (and_then_ok _ _ _ _ _ Hst). cbv zeta.
  rewrite (and_then_ok _ _ _ _ _ (at_ok _ _ _ _ Hf)).
  rewrite Ht. cbn [type_eqb].
  erewrite and_then_ok; [|reflexivity].
  rewrite (and_then_ok _ _ _ _ _ Hrb).
  rewrite (and_then_ok _ _ _ _ _ Hk), Hc.
  destruct (_ =? 0); cbn [negb]; [reflexivity|].
  destruct (snd acc); reflexivity.
Qed.

(** ** Every call is a sequence of constructions *)

Ltac same_state :=
  repeat match goal with
         | H : either_float _ _ = Ok _ _ |- _ =>
             apply either_float_inv in H; subst
         | H : all_const _ _ = Ok _ _ |- _ =>
             apply all_const_inv in H as [-> _]
         | H : pick _ _ _ _ _ = Ok _ _ |- _ => apply pick_inv in H; subst
         | H : worth _ _ = Ok _ _ |- _ => apply worth_inv in H as [-> _]
         | H : split_terms _ _ = Ok _ _ |- _ =>
             apply split_terms_inv in H; subst
         | H : with_levels _ _ = Ok _ _ |- _ =>
             apply with_levels_inv in H as [-> _]
         | H : float_sum _ _ _ = Ok _ _ |- _ =>
             apply float_sum_inv in H; subst
         | H : int_sum _ _ _ = Ok _ _ |- _ => apply int_sum_inv in H; subst
         | H : cse _ _ _ _ _ _ = Ok (Some _) _ |- _ =>
             apply cse_inv in H as [-> _]
         end.

Create HintDb prims.

Ltac prims_step :=
  match goal with
  | |- rtc prim ?s ?s => apply rtc_refl
  | H : make_int _ ?s = Ok _ ?s1 |- rtc prim ?s _ =>
      eapply rtc_l; [exact (prim_int _ _ _ _ H)|]; clear H
  | H : make_float _ ?s = Ok _ ?s1 |- rtc prim ?s _ =>
      eapply rtc_l; [exact (prim_float _ _ _ _ H)|]; clear H
  | H : register_var _ _ ?s = Ok _ ?s1 |- rtc prim ?s _ =>
      eapply rtc_l; [exact (prim_register _ _ _ _ _ H)|]; clear H
  | Hp : prims_mk ?mk, H : ?mk _ _ _ _ ?s = Ok _ ?s1 |- rtc prim ?s _ =>
      eapply rtc_trans; [exact (Hp _ _ _ _ _ _ _ H)|]; clear H
  | H : rtc prim ?s ?s1 |- rtc prim ?s _ =>
      eapply rtc_trans; [exact H|]; clear H
  | H : ?f ?s = Ok _ ?s1 |- rtc prim ?s _ =>
      eapply rtc_trans; [solve [eauto 2 with prims nocore]|]; clear H
  end.

Ltac prims := same_state; repeat prims_step.

Lemma mapM_prims {A B} (f : A -> M B) l :
  (forall a s r s', f a s = Ok r s' -> rtc prim s s') ->
  forall s rs s', mapM f l s = Ok rs s' -> rtc prim s s'.
Proof.
  intros Hf. induction l as [|a l IH]; simpl; intros s rs s' H; mrun H.
  - apply rtc_refl.
  - eapply rtc_trans; [eapply Hf; eassumption|eapply IH; eassumption].
Qed.

Lemma collectSum_prims n : forall p pos terms s terms' s',
  collectSum n p pos terms s = Ok terms' s' -> rtc prim s s'.
Proof.
  induction n as [|n IH]; intros p pos terms s terms' s' H; [discriminate|].
  rewrite collectSum_S in H. mrun H;
    repeat match goal with
           | H : collectSum n _ _ _ _ = Ok _ _ |- _ => apply IH in H
           end;
    try apply rtc_refl.
  all: try (eapply rtc_trans; eassumption).
  eapply rtc_trans; [eassumption|]. prims.
Qed.
#[export] Hint Resolve collectSum_prims : prims.

Section Prims.

Variable mk : OpCode -> list ptr -> Z -> float -> M ptr.
Variable fuel : nat.
Hypothesis Hmk : prims_mk mk.

Lemma as_body_prims t p s r s' : as_body mk t p s = Ok r s' -> rtc prim s s'.
Proof. intros H. unfold as_body in H. mrun H; prims. Qed.
Hint Resolve as_body_prims : prims.

Lemma coerce_prims t i ins s ins' s' :
  coerce mk t i ins s = Ok ins' s' -> rtc prim s s'.
Proof. intros H. unfold coerce in H. mrun H. prims. Qed.
Hint Resolve coerce_prims : prims.

Lemma infer_prims opcode ins s f s' :
  infer mk opcode ins s = Ok f s' -> rtc prim s s'.
Proof. intros H. unfold infer in H. mrun H; prims. Qed.
Hint Resolve infer_prims : prims.

Lemma fold_prims opcode t ins iv s f s' :
  fold opcode t ins iv s = Ok f s' -> rtc prim s s'.
Proof.
  intros H. unfold fold, ret_int, ret_float in H. mrun H; prims.
Qed.
Hint Resolve fold_prims : prims.

Lemma reduce_prims opcode ins s f s' :
  reduce mk opcode ins s = Ok f s' -> rtc prim s s'.
Proof.
  intros H.
  unfold reduce, hoist_divide, distribute, times_plusimm, reassociate in H.
  mrun H; prims.
Qed.
Hint Resolve reduce_prims : prims.

Lemma rebuild_prims rest : forall t tPos s acc s',
  rebuild mk rest t tPos s = Ok acc s' -> rtc prim s s'.
Proof.
  induction rest as [|[nx np] rest IH]; simpl; intros t tPos s acc s' H;
    mrun H;
    repeat match goal with
           | H : rebuild mk rest _ _ _ = Ok _ _ |- _ => apply IH in H
           end;
    try apply rtc_refl.
  all: eapply rtc_trans; [eapply Hmk; eassumption|eassumption].
Qed.
Hint Resolve rebuild_prims : prims.

Lemma sum_terms_prims p s ct s' :
  sum_terms fuel p s = Ok ct s' -> rtc prim s s'.
Proof. intros H. unfold sum_terms in H. mrun H. prims. Qed.
Hint Resolve sum_terms_prims : prims.

Lemma rebalanceSum_body_prims p s r s' :
  rebalanceSum_body mk fuel p s = Ok r s' -> rtc prim s s'.
Proof. intros H. unfold rebalanceSum_body in H. mrun H; prims. Qed.
Hint Resolve rebalanceSum_body_prims : prims.

Lemma rebalance_inputs_prims opcode ins s ins' s' :
  rebalance_inputs mk fuel opcode ins s = Ok ins' s' -> rtc prim s s'.
Proof.
  intros H. unfold rebalance_inputs in H. mrun H; [|apply rtc_refl].
  eapply mapM_prims, H. apply rebalanceSum_body_prims.
Qed.
Hint Resolve rebalance_inputs_prims : prims.

Lemma variables_prims opcode t s f s' :
  (is_var opcode || op_eqb opcode UnboundVar = true -> t = Int) ->
  variables opcode t s = Ok f s' -> rtc prim s s'.
Proof.
  intros Ht H. unfold variables in H.
  destruct (is_var opcode) eqn:Ev.
  - rewrite (Ht eq_refl) in H. mrun H; try apply rtc_refl.
    eapply rtc_l; [eapply prim_leaf; [|eassumption]|].
    { rewrite Ev. reflexivity. }
    prims.
  - destruct (op_eqb opcode UnboundVar) eqn:Eu; mrun H; try apply rtc_refl.
    rewrite (Ht eq_refl) in *.
    apply rtc_once. eapply prim_leaf; [|eassumption].
    rewrite Ev, Eu. reflexivity.
Qed.

Lemma fuse_load_prims opcode ins iv s f s' :
  fuse_load mk opcode ins iv s = Ok f s' -> rtc prim s s'.
Proof. intros H. unfold fuse_load in H. mrun H; prims. Qed.
Hint Resolve fuse_load_prims : prims.

Lemma fuse_times_prims opcode t ins s f s' :
  fuse_times mk opcode t ins s = Ok f s' -> rtc prim s s'.
Proof. intros H. unfold fuse_times in H. mrun H; prims. Qed.
Hint Resolve fuse_times_prims : prims.

Lemma infer_not_const opcode ins s f s' :
  infer mk opcode ins s = Ok f s' -> opcode <> Const.
Proof. intros H ->. discriminate H. Qed.

Lemma coerce_length t i ins s ins' s' :
  coerce mk t i ins s = Ok ins' s' ->
  length ins' = length ins /\ (i < length ins)%nat.
Proof.
  intros H. unfold coerce in H. mrun H. rewrite length_insert.
  split; [reflexivity|]. eapply lookup_lt_Some; eassumption.
Qed.

Lemma infer_kind opcode ins s t ins1 s1 :
  infer mk opcode ins s = Ok (Continue (t, ins1)) s1 ->
  (opcode <> NoOp -> type_ok opcode t = true)
  /\ arity_ok opcode (length ins1) = true
  /\ (is_var opcode || op_eqb opcode UnboundVar = true -> t = Int).
Proof.
  intros H. unfold infer in H.
  destruct opcode; mrun H;
    repeat match goal with
           | H : coerce mk _ _ _ _ = Ok _ _ |- _ =>
               apply coerce_length in H as [? ?]
           | E : Continue _ = Continue _ |- _ =>
               injection E as ? ?; subst
           | E : Return _ = Continue _ |- _ => discriminate E
           | H : (length _ =? _)%nat = true |- _ => apply Nat.eqb_eq in H
           end;
    (split; [intros Hn|split; [|try discriminate; reflexivity]]);
    unfold arity_ok; simpl;
    try congruence;
    try (apply Nat.eqb_eq; congruence);
    try (match goal with
         | H : length ?l = _ |- context [length ?l] =>
             destruct (length l) as [|[|?]]; [lia|lia|reflexivity]
         end);
    try reflexivity;
    repeat match goal with
           | |- context [if ?b then _ else _] => destruct b
           | H : type_eqb ?a ?b = _ |- context [type_eqb ?a ?b] => rewrite H
           | H : negb _ = false |- _ => apply negb_false_iff in H
           | H : type_eqb _ _ = true |- _ => apply type_eqb_eq in H; rewrite H
           end; try reflexivity.
Qed.

Lemma reduce_not_noop opcode ins s s' :
  reduce mk opcode ins s = Ok (Continue tt) s' -> opcode <> NoOp.
Proof. intros H ->. simpl in H. mrun H. congruence. Qed.

Lemma rebalance_inputs_length opcode ins s ins' s' :
  rebalance_inputs mk fuel opcode ins s = Ok ins' s' ->
  length ins' = length ins.
Proof.
  intros H. unfold rebalance_inputs in H.
  destruct (negb (is_sum opcode)).
  - eapply mapM_length, H.
  - apply pure_inv in H as [-> _]. reflexivity.
Qed.

Lemma make_body_prims : prims_mk (make_body mk fuel).
Proof.
  intros opcode ins iv fv s r s' H. unfold make_body in H.
  apply bind_inv in H as (f1 & s1 & H1 & H).
  pose proof (infer_not_const _ _ _ _ _ H1) as Hop.
  destruct f1 as [p|[t ins1]]; [mrun H; prims|]. cbv beta iota in H. simpl in H.
  destruct (infer_kind _ _ _ _ _ _ H1) as (Kt & Ka & Kv).
  apply bind_inv in H as (f2 & s2 & H2 & H).
  destruct f2 as [p|[]]; [mrun H; prims|].
  apply bind_inv in H as (f3 & s3 & H3 & H).
  destruct f3 as [p|[]]; [mrun H; prims|].
  pose proof (reduce_not_noop _ _ _ _ H3) as Hno.
  apply bind_inv in H as (ins2 & s4 & H4 & H).
  pose proof (rebalance_inputs_length _ _ _ _ _ H4) as Hlen.
  apply bind_inv in H as (f5 & s5 & H5 & H).
  pose proof (variables_prims _ _ _ _ _ Kv H5) as P5.
  destruct f5 as [p|[]].
  { apply pure_inv in H as [_ ->]. clear H5. prims. }
  assert (is_var opcode || op_eqb opcode UnboundVar = false) as Hv.
  { unfold variables in H5. destruct (is_var opcode).
    { clear - H5. mrun H5; congruence. }
    destruct (op_eqb opcode UnboundVar); [|reflexivity].
    clear - H5. mrun H5; congruence. }
  clear H5.
  apply bind_inv in H as (f6 & s6 & H6 & H).
  destruct f6 as [p|[]]; [mrun H; prims|].
  apply bind_inv in H as (f7 & s7 & H7 & H).
  destruct f7 as [p|[]]; [mrun H; prims|].
  apply bind_inv in H as (c & s8 & H8 & H).
  assert (rtc prim s s7) as R.
  { prims. }
  destruct c as [p|].
  - mrun H. same_state. exact R.
  - pose proof (proj1 (cse_inv _ _ _ _ _ _ _ _ H8)) as ->.
    eapply rtc_trans; [exact R|]. apply rtc_once.
    eapply (prim_node t opcode ins2 iv fv); try eassumption.
    + exact (Kt Hno).
    + rewrite Hlen. exact Ka.
Qed.

End Prims.

Lemma make_prims n : prims_mk (make n).
Proof.
  induction n as [|n IH]; [intros ? ? ? ? ? ? ? H; discriminate H|].
  simpl. apply make_body_prims. exact IH.
Qed.

Lemma substitute_prims n : forall p var val s r s',
  substitute n p var val s = Ok r s' -> rtc prim s s'.
Proof.
  induction n as [|n IH]; intros p var val s r s' H; [discriminate|].
  rewrite substitute_S in H. pose proof (make_prims n) as Hmk.
  mrun H; try apply rtc_refl; [prims|].
  eapply rtc_trans; [eapply mapM_prims; [|eassumption]|prims].
  intros ? ? ? ?. apply IH.
Qed.

Lemma bind_prims n : forall p x y t c s r s',
  bind n p x y t c s = Ok r s' -> rtc prim s s'.
Proof.
  induction n as [|n IH]; intros p x y t c s r s' H; [discriminate|].
  simpl in H. pose proof (make_prims n) as Hmk.
  mrun H; try apply rtc_refl; try solve [prims].
  eapply rtc_trans; [eapply mapM_prims; [|eassumption]|prims].
  intros ? ? ? ?. apply IH.
Qed.

Lemma step_prims s s' : step s s' -> rtc prim s s'.
Proof.
  intros H. destruct H;
    first [ apply rtc_once; eapply prim_int; eassumption
          | apply rtc_once; eapply prim_float; eassumption
          | eapply make_prims; eassumption
          | eapply as_body_prims; [apply make_prims|eassumption]
          | eapply rebalanceSum_body_prims; [apply make_prims|eassumption]
          | eapply substitute_prims; eassumption
          | eapply bind_prims; eassumption ].
Qed.

Lemma reachable_prims s : reachable s -> rtc prim empty_store s.
Proof.
  unfold reachable. generalize empty_store. intros s0 H.
  induction H as [|x y z Hxy Hyz IH]; [apply rtc_refl|].
  eapply rtc_trans; [apply step_prims, Hxy|exact IH].
Qed.

(** ** The shape of the graph *)

Lemma shape_nodes s s' : allNodes s' = allNodes s -> shape s -> shape s'.
Proof.
  intros E [H1 H2 H3 H4 H5 H5' H5k H6].
  split; unfold deps_of, deps_at, consumes in *; rewrite E; assumption.
Qed.

Lemma deps_of_app_l s s' opcode ins :
  (forall i, i ∈ ins -> deps_at s' i = deps_at s i) ->
  deps_of s' opcode ins = deps_of s opcode ins.
Proof.
  unfold deps_of. generalize (self_dep opcode).
  induction ins as [|i ins IH]; simpl; intros d H; [reflexivity|].
  rewrite H by (left). apply IH. intros j Hj. apply H. right. exact Hj.
Qed.

Lemma shape_empty : shape empty_store.
Proof. split; simpl; intros; try rewrite lookup_nil in *; discriminate. Qed.

Lemma same_node_strip c c' opcode t ins iv fv :
  strip c = strip c' ->
  same_node c opcode t ins iv fv = same_node c' opcode t ins iv fv.
Proof.
  intros H. apply strip_fields in H as (H1 & H2 & H3 & H4 & H5 & _).
  unfold same_node. rewrite H1, H2, H3, H4, H5. reflexivity.
Qed.

Lemma shape_grow s s' new ns' :
  shape s ->
  allNodes s' = ns' ++ [new] ->
  length ns' = length (allNodes s) ->
  (forall p n, allNodes s !! p = Some n ->
     exists n', ns' !! p = Some n' /\ strip n' = strip n
       /\ forall q, q ∈ outputs n'
            <-> q ∈ outputs n \/ (q = length (allNodes s) /\ p ∈ inputs new)) ->
  Forall (fun i => (i < length (allNodes s))%nat) (inputs new) ->
  outputs new = [] ->
  deps new = deps_of s (op new) (inputs new) ->
  level new = level_of_deps (deps new) ->
  (op new = Const -> inputs new = [] /\ (type new = Int \/ type new = Float)) ->
  (is_var (op new) || op_eqb (op new) UnboundVar = true -> inputs new = []) ->
  type_ok (op new) (type new) = true
  /\ arity_ok (op new) (length (inputs new)) = true ->
  (inputs new <> [] -> forall p np, allNodes s !! p = Some np ->
     same_node np (op new) (type new) (inputs new) (ival new) (fval new)
     = false) ->
  shape s'.
Proof.
  intros Sh E Hl Hold Hin Hout Hdeps Hlev Hconst Hleaf Hkind Huniq.
  set (L := length (allNodes s)) in *.
  assert (Cases : forall p n, allNodes s' !! p = Some n ->
    ((p < L)%nat /\ exists n0, allNodes s !! p = Some n0 /\ strip n = strip n0
       /\ forall q, q ∈ outputs n
            <-> q ∈ outputs n0 \/ (q = L /\ p ∈ inputs new))
    \/ (p = L /\ n = new)).
  { intros p n Hp. rewrite E in Hp.
    apply lookup_app_Some in Hp as [Hp|[Hge Hp]].
    - left. pose proof (lookup_lt_Some _ _ _ Hp) as Hlt. rewrite Hl in Hlt.
      split; [exact Hlt|].
      destruct (lookup_lt_is_Some_2 (allNodes s) p Hlt) as [n0 H0].
      destruct (Hold _ _ H0) as (n' & Hn' & Hs & Ho).
      rewrite Hp in Hn'. injection Hn' as <-. eauto.
    - right. rewrite Hl in Hge, Hp.
      destruct (p - L)%nat as [|k] eqn:Ek; simpl in Hp; [|discriminate].
      injection Hp as <-. split; [lia|reflexivity]. }
  assert (Old : forall p n0, allNodes s !! p = Some n0 ->
    exists n, allNodes s' !! p = Some n /\ strip n = strip n0).
  { intros p n0 H0. destruct (Hold _ _ H0) as (n' & Hn' & Hs & _).
    exists n'. split; [|exact Hs]. rewrite E. apply lookup_app_l_Some, Hn'. }
  assert (New : allNodes s' !! L = Some new).
  { rewrite E, <- Hl. apply list_lookup_middle. reflexivity. }
  assert (Dat : forall i, (i < L)%nat -> deps_at s' i = deps_at s i).
  { intros i Hi. destruct (lookup_lt_is_Some_2 (allNodes s) i Hi) as [n0 H0].
    destruct (Old _ _ H0) as (n & Hn & Hs). unfold deps_at. rewrite Hn, H0.
    apply strip_fields in Hs. intuition congruence. }
  assert (Cons : forall q p, consumes s' q p
                   <-> consumes s q p \/ (q = L /\ p ∈ inputs new)).
  { intros q p. split.
    - intros (nq & Hq & Hp). destruct (Cases _ _ Hq) as [(_ & n0 & H0 & Hs & _)|[-> ->]].
      + left. exists n0. split; [exact H0|].
        apply strip_fields in Hs. replace (inputs n0) with (inputs nq) by intuition congruence.
        exact Hp.
      + right. auto.
    - intros [(nq0 & H0 & Hp)|[-> Hp]].
      + destruct (Old _ _ H0) as (n & Hn & Hs). exists n. split; [exact Hn|].
        apply strip_fields in Hs. replace (inputs n) with (inputs nq0) by intuition congruence.
        exact Hp.
      + exists new. auto. }
  destruct Sh as [S1 S2 S3 S4 S5 S5' S5k S6]. split.
  - intros p n Hp. destruct (Cases _ _ Hp) as [(_ & n0 & H0 & Hs & _)|[-> ->]].
    + apply strip_fields in Hs. replace (inputs n) with (inputs n0) by intuition congruence.
      eauto.
    + exact Hin.
  - intros p n Hp. destruct (Cases _ _ Hp) as [(Hlt & n0 & H0 & Hs & _)|[-> ->]].
    + apply strip_fields in Hs as (_ & -> & -> & _ & _ & -> & _).
      rewrite (S2 _ _ H0). symmetry. apply deps_of_app_l.
      intros i Hi. apply Dat. specialize (S1 _ _ H0).
      rewrite Forall_forall in S1. specialize (S1 _ Hi). lia.
    + rewrite Hdeps. symmetry. apply deps_of_app_l.
      intros i Hi. apply Dat. rewrite Forall_forall in Hin. auto.
  - intros p n Hp. destruct (Cases _ _ Hp) as [(_ & n0 & H0 & Hs & _)|[-> ->]].
    + apply strip_fields in Hs as (_ & _ & _ & _ & _ & -> & ->). eauto.
    + exact Hlev.
  - intros p n q Hp. rewrite Cons.
    destruct (Cases _ _ Hp) as [(_ & n0 & H0 & Hs & Ho)|[-> ->]].
    + rewrite Ho, (S4 _ _ q H0). reflexivity.
    + rewrite Hout. split; [intros H; inversion H|].
      intros [(nq & Hq & Hi)|[-> Hi]].
      * specialize (S1 _ _ Hq). rewrite Forall_forall in S1.
        specialize (S1 _ Hi). apply lookup_lt_Some in Hq. unfold L in *. lia.
      * rewrite Forall_forall in Hin. specialize (Hin _ Hi). lia.
  - intros p n Hp Hop. destruct (Cases _ _ Hp) as [(_ & n0 & H0 & Hs & _)|[-> ->]].
    + apply strip_fields in Hs as (-> & E2 & -> & _). rewrite E2 in Hop.
      exact (S5 _ _ H0 Hop).
    + exact (Hconst Hop).
  - intros p n Hp Hop. destruct (Cases _ _ Hp) as [(_ & n0 & H0 & Hs & _)|[-> ->]].
    + apply strip_fields in Hs as (_ & E2 & -> & _). rewrite E2 in Hop.
      exact (S5' _ _ H0 Hop).
    + exact (Hleaf Hop).
  - intros p n Hp. destruct (Cases _ _ Hp) as [(_ & n0 & H0 & Hs & _)|[-> ->]].
    + apply strip_fields in Hs as (-> & -> & -> & _). exact (S5k _ _ H0).
    + exact Hkind.
  - intros p q np nq Hp Hq Hlt Hne.
    destruct (Cases _ _ Hq) as [(Hq' & nq0 & Hq0 & Hsq & _)|[-> ->]].
    + destruct (Cases _ _ Hp) as [(_ & np0 & Hp0 & Hsp & _)|[-> ->]]; [|lia].
      rewrite (same_node_strip _ _ _ _ _ _ _ Hsp).
      apply strip_fields in Hsq as (E1 & E2 & E3 & E4 & E5 & _).
      rewrite E1, E2, E3, E4, E5. rewrite E3 in Hne.
      exact (S6 _ _ _ _ Hp0 Hq0 Hlt Hne).
    + destruct (Cases _ _ Hp) as [(_ & np0 & Hp0 & Hsp & _)|[? _]]; [|lia].
      rewrite (same_node_strip _ _ _ _ _ _ _ Hsp).
      exact (Huniq Hne _ _ Hp0).
Qed.

Lemma link_inputs_spec this ins : forall d ns d' ns',
  link_inputs this ins d ns = Some (d', ns') ->
  length ns' = length ns
  /\ d' = foldl (fun d i => Z.lor d (match ns !! i with
                                     | Some n => deps n
                                     | None => 0
                                     end)) d ins
  /\ forall p n, ns !! p = Some n ->
       exists n', ns' !! p = Some n' /\ strip n' = strip n
         /\ forall q, q ∈ outputs n' <-> q ∈ outputs n \/ (q = this /\ p ∈ ins).
Proof.
  induction ins as [|i ins IH]; simpl; intros d ns d' ns' H.
  - injection H as <- <-. split; [reflexivity|]. split; [reflexivity|].
    intros p n Hp. exists n. split; [exact Hp|]. split; [reflexivity|].
    intros q. split; [auto|]. intros [H|[_ H]]; [exact H|inversion H].
  - destruct (ns !! i) as [ni|] eqn:Ei; [|discriminate].
    apply IH in H as (Hl & Hd & Hn). rewrite length_insert in Hl.
    split; [exact Hl|]. split.
    { rewrite Hd. clear - Ei. generalize (Z.lor d (deps ni)).
      induction ins as [|j ins IH]; simpl; intros d0; [reflexivity|].
      rewrite IH. f_equal. f_equal.
      destruct (decide (j = i)) as [->|Hne].
      - rewrite list_lookup_insert_eq by (eapply lookup_lt_Some, Ei).
        rewrite Ei. reflexivity.
      - rewrite list_lookup_insert_ne by congruence. reflexivity. }
    intros p n Hp. destruct (decide (p = i)) as [->|Hne].
    + rewrite Ei in Hp. injection Hp as <-.
      destruct (Hn i (add_output this ni)) as (n' & Hn' & Hs & Ho).
      { apply list_lookup_insert_eq. eapply lookup_lt_Some, Ei. }
      exists n'. split; [exact Hn'|]. split; [rewrite Hs; reflexivity|].
      intros q. rewrite Ho. simpl. rewrite elem_of_app, list_elem_of_singleton.
      rewrite elem_of_cons. intuition.
    + destruct (Hn p n) as (n' & Hn' & Hs & Ho).
      { rewrite list_lookup_insert_ne by congruence. exact Hp. }
      exists n'. split; [exact Hn'|]. split; [exact Hs|].
      intros q. rewrite Ho, elem_of_cons. intuition congruence.
Qed.

Lemma scan_none cands opcode t ins iv fv : forall s s',
  scan cands opcode t ins iv fv s = Ok None s' ->
  forall c n, c ∈ cands -> allNodes s !! c = Some n ->
    same_node n opcode t ins iv fv = false.
Proof.
  induction cands as [|c0 cands IH]; simpl; intros s s' H c n Hc L.
  - inversion Hc.
  - apply bind_inv in H as (n0 & s0 & Hg & H).
    apply get_inv in Hg as [-> L0].
    destruct (same_node n0 opcode t ins iv fv) eqn:E; [discriminate H|].
    apply elem_of_cons in Hc as [->|Hc].
    + rewrite L0 in L. injection L as <-. exact E.
    + eapply IH; eassumption.
Qed.

Lemma shape_leaf s s' new :
  shape s -> allNodes s' = allNodes s ++ [new] ->
  inputs new = [] -> outputs new = [] -> deps new = self_dep (op new) ->
  level new = level_of_deps (deps new) ->
  (op new = Const -> type new = Int \/ type new = Float) ->
  type_ok (op new) (type new) = true
  /\ arity_ok (op new) (length (inputs new)) = true ->
  shape s'.
Proof.
  intros Sh E Hi Ho Hd Hl Hc Hk.
  apply (shape_grow s s' new (allNodes s) Sh E eq_refl).
  - intros p n Hp. exists n. split; [exact Hp|]. split; [reflexivity|].
    intros q. rewrite Hi. split; [auto|].
    intros [H|[_ H]]; [exact H|inversion H].
  - rewrite Hi. constructor.
  - exact Ho.
  - rewrite Hd, Hi. reflexivity.
  - exact Hl.
  - intros H. split; [exact Hi|exact (Hc H)].
  - intros _. exact Hi.
  - exact Hk.
  - intros H. contradiction.
Qed.

Lemma prim_shape s s' : shape s -> prim s s' -> shape s'.
Proof.
  intros Sh P. destruct P as [v s r s' H|v s r s' H|opcode s r s' Hop H
                             |t opcode ins iv fv s r s' Hop Hv Ht Ha Hc H
                             |opcode p s u s' H].
  - unfold make_int in H. destruct (intInstances s !! v).
    + injection H as _ <-. exact Sh.
    + injection H as _ <-.
      eapply (shape_leaf s _ (const_int v)); simpl; auto.
  - unfold make_float in H. destruct (fmap_find v (floatInstances s)).
    + injection H as _ <-. exact Sh.
    + injection H as _ <-.
      eapply (shape_leaf s _ (const_float v)); simpl; auto.
  - unfold new_node in H. simpl in H. injection H as _ <-.
    eapply (shape_leaf s); [exact Sh|reflexivity|..]; simpl; auto.
    destruct opcode; try discriminate Hop; split; reflexivity.
  - unfold new_node in H.
    destruct (link_inputs _ _ _ _) as [[d ns]|] eqn:L; [|discriminate].
    injection H as _ <-.
    pose proof (link_inputs_ok _ _ _ _ _ _ L) as [_ Hin].
    apply link_inputs_spec in L as (Hl & Hd & Hn).
    eapply (shape_grow s _ _ ns Sh); [reflexivity|exact Hl|exact Hn|..]; simpl.
    + exact Hin.
    + reflexivity.
    + exact Hd.
    + reflexivity.
    + intros ->. contradiction.
    + intros H. rewrite H in Hv. discriminate.
    + split; [exact Ht|exact Ha].
    + intros Hne p np Hp. destruct ins as [|p0 ins']; [contradiction|].
      destruct (same_node np opcode t (p0 :: ins') iv fv) eqn:E; [|reflexivity].
      exfalso. unfold cse in Hc.
      apply bind_inv in Hc as (n0 & s0 & Hg & Hc).
      apply get_inv in Hg as [-> L0].
      pose proof (scan_none _ _ _ _ _ _ _ _ Hc p np) as Hs.
      rewrite Hs in E; [discriminate| |exact Hp].
      apply (sh_outputs _ Sh _ _ p L0). exists np. split; [exact Hp|].
      apply same_node_inv in E as (_ & _ & _ & ->). left.
  - eapply shape_nodes; [|exact Sh]. unfold register_var in H.
    injection H as _ <-. reflexivity.
Qed.

Lemma prims_shape s s' : shape s -> rtc prim s s' -> shape s'.
Proof.
  intros Sh H. induction H as [|x y z Hxy Hyz IH]; [exact Sh|].
  apply IH. eapply prim_shape; eassumption.
Qed.

Lemma reachable_shape s : reachable s -> shape s.
Proof.
  intros R. eapply prims_shape; [apply shape_empty|apply reachable_prims, R].
Qed.

(** Every node of a store built through the interface has a type and a
    number of inputs that its opcode allows: a variable has no input and
    type [Int], a comparison has two inputs and type [Bool], a
    transcendental has one input and type [Float], and so on. *)
Theorem nodes_fit_their_opcode s p n :
  reachable s -> allNodes s !! p = Some n ->
  type_ok (op n) (type n) = true
  /\ arity_ok (op n) (length (inputs n)) = true.
Proof.
  intros R H. exact (sh_kind _ (reachable_shape _ R) _ _ H).
Qed.

(** ** Dependence masks and levels *)

Lemma has_lor d e f : has (Z.lor d e) f = has d f || has e f.
Proof.
  unfold has. rewrite Z.land_lor_distr_l.
  destruct (Z.land d f =? 0) eqn:E1, (Z.land e f =? 0) eqn:E2; simpl;
    rewrite ?negb_true_iff, ?negb_false_iff.
  - apply Z.eqb_eq in E1, E2. apply Z.eqb_eq. rewrite E1, E2. reflexivity.
  - apply Z.eqb_neq. intros H. apply Z.lor_eq_0_iff in H as [_ H].
    apply Z.eqb_neq in E2. contradiction.
  - apply Z.eqb_neq. intros H. apply Z.lor_eq_0_iff in H as [H _].
    apply Z.eqb_neq in E1. contradiction.
  - apply Z.eqb_neq. intros H. apply Z.lor_eq_0_iff in H as [H _].
    apply Z.eqb_neq in E1. contradiction.
Qed.

Lemma has_deps_of s opcode ins f :
  has (deps_of s opcode ins) f
  = has (self_dep opcode) f || existsb (fun i => has (deps_at s i) f) ins.
Proof.
  unfold deps_of. generalize (self_dep opcode).
  induction ins as [|i ins IH]; simpl; intros d.
  - rewrite orb_false_r. reflexivity.
  - rewrite IH, has_lor, orb_assoc. reflexivity.
Qed.

Lemma has_zero f : has 0 f = false.
Proof. reflexivity. Qed.

Lemma level_of_deps_mono d e :
  (forall f, has d f = true -> has e f = true) ->
  level_of_deps d <= level_of_deps e.
Proof.
  intros H. unfold level_of_deps.
  pose proof (H DepUnbound). pose proof (H DepC). pose proof (H DepMem).
  pose proof (H DepX). pose proof (H DepY). pose proof (H DepT).
  destruct (has d DepUnbound), (has d DepC), (has d DepMem), (has d DepX),
    (has d DepY), (has d DepT);
    repeat match goal with
           | H : true = true -> _ |- _ => rewrite (H eq_refl)
           end; simpl;
    destruct (has e DepUnbound), (has e DepC), (has e DepMem), (has e DepX),
      (has e DepY), (has e DepT); simpl; lia.
Qed.

Lemma self_dep_flag o o' :
  self_dep o <> 0 -> (has (self_dep o') (self_dep o) = true <-> o' = o).
Proof.
  intros H. destruct o; try (exfalso; apply H; reflexivity);
    destruct o'; vm_compute; split; congruence.
Qed.

Lemma deps_at_valid s p f : has (deps_at s p) f = true -> valid s p.
Proof.
  unfold deps_at. destruct (allNodes s !! p) eqn:E; [|discriminate].
  intros _. eapply valid_lookup, E.
Qed.

(** The dependence mask of a node has a flag exactly when the node's own
    opcode sets that flag or the mask of one of its inputs has it. *)
Theorem deps_is_union s p n f :
  reachable s -> allNodes s !! p = Some n ->
  has (deps n) f
  = has (self_dep (op n)) f || existsb (fun i => has (deps_at s i) f) (inputs n).
Proof.
  intros R L. rewrite (sh_deps _ (reachable_shape _ R) _ _ L).
  apply has_deps_of.
Qed.

Lemma flag_from_descendant s p d nd f :
  shape s -> descendant s p d -> allNodes s !! d = Some nd ->
  has (self_dep (op nd)) f = true -> has (deps_at s p) f = true.
Proof.
  intros Sh H. induction H as [p|p i d (np & Lp & Hi) Hd IH]; intros Ld Hf.
  - unfold deps_at. rewrite Ld, (sh_deps _ Sh _ _ Ld), has_deps_of, Hf.
    reflexivity.
  - specialize (IH Ld Hf). unfold deps_at at 1.
    rewrite Lp, (sh_deps _ Sh _ _ Lp), has_deps_of.
    apply orb_true_iff. right. apply existsb_exists. exists i.
    split; [apply list_elem_of_In, Hi|exact IH].
Qed.

Lemma descendant_from_flag s f : shape s ->
  forall p, has (deps_at s p) f = true ->
  exists d nd, descendant s p d /\ allNodes s !! d = Some nd
               /\ has (self_dep (op nd)) f = true.
Proof.
  intros Sh p. induction p as [p IH] using lt_wf_ind. intros Hf.
  unfold deps_at in Hf. destruct (allNodes s !! p) as [n|] eqn:L;
    [|discriminate].
  rewrite (sh_deps _ Sh _ _ L), has_deps_of in Hf.
  apply orb_true_iff in Hf as [Hf|Hf].
  - exists p, n. split; [apply rtc_refl|auto].
  - apply existsb_exists in Hf as (i & Hi & Hf). apply list_elem_of_In in Hi.
    pose proof (sh_inputs _ Sh _ _ L) as Hlt. rewrite Forall_forall in Hlt.
    destruct (IH i (Hlt _ Hi) Hf) as (d & nd & Hd & Ld & Hs).
    exists d, nd. split; [|auto].
    eapply rtc_l; [|exact Hd]. exists n. auto.
Qed.

Lemma flag_exact s p o :
  shape s -> self_dep o <> 0 ->
  has (deps_at s p) (self_dep o) = true
  <-> exists d nd, descendant s p d /\ allNodes s !! d = Some nd /\ op nd = o.
Proof.
  intros Sh Ho. split.
  - intros H. destruct (descendant_from_flag _ _ Sh _ H) as (d & nd & Hd & L & F).
    exists d, nd. split; [exact Hd|]. split; [exact L|].
    apply (self_dep_flag o (op nd) Ho), F.
  - intros (d & nd & Hd & L & <-).
    eapply flag_from_descendant; [exact Sh|exact Hd|exact L|].
    apply self_dep_flag; auto.
Qed.

(** The masks are exact: a node has the flag of a variable, of [Load] or
    of [UnboundVar] exactly when a node with that opcode is the node
    itself or is reached from it through inputs. *)
Theorem dependence_flags_are_exact s p o :
  reachable s -> self_dep o <> 0 ->
  has (deps_at s p) (self_dep o) = true
  <-> exists d nd, descendant s p d /\ allNodes s !! d = Some nd /\ op nd = o.
Proof. intros R. apply flag_exact, reachable_shape, R. Qed.

(** The level of every node is the one that its mask gives, and no input
    of a node has a higher level than the node. *)
Theorem level_is_monotone s p n :
  reachable s -> allNodes s !! p = Some n ->
  level n = level_of_deps (deps n)
  /\ forall i ni, i ∈ inputs n -> allNodes s !! i = Some ni ->
       level ni <= level n.
Proof.
  intros R L. pose proof (reachable_shape _ R) as Sh.
  split; [exact (sh_level _ Sh _ _ L)|]. intros i ni Hi Li.
  rewrite (sh_level _ Sh _ _ L), (sh_level _ Sh _ _ Li).
  apply level_of_deps_mono. intros f Hf.
  rewrite (sh_deps _ Sh _ _ L), has_deps_of. apply orb_true_iff. right.
  apply existsb_exists. exists i. split; [apply list_elem_of_In, Hi|].
  unfold deps_at. rewrite Li. exact Hf.
Qed.

(** The [outputs] of a node are exactly the nodes that have it among their
    [inputs]. *)
Theorem outputs_are_the_consumers s p n q :
  reachable s -> allNodes s !! p = Some n ->
  q ∈ outputs n
  <-> exists nq, allNodes s !! q = Some nq /\ p ∈ inputs nq.
Proof.
  intros R L. exact (sh_outputs _ (reachable_shape _ R) _ _ q L).
Qed.

Lemma feqb_sym a b : feqb a b = feqb b a.
Proof.
  unfold feqb, SFeqb.
  destruct a as [sa|sa| |sa ma ea], b as [sb|sb| |sb mb eb]; simpl;
    try reflexivity;
    repeat match goal with
           | s : bool |- _ => destruct s
           end; simpl; try reflexivity.
  all: rewrite (Z.compare_antisym ea eb); destruct (ea ?= eb)%Z; simpl;
    try reflexivity;
    change (Pos.compare_cont Eq ma mb)
      with (Pos.compare_cont (CompOpp Eq) ma mb);
    rewrite <- Pos.compare_cont_antisym;
    destruct (Pos.compare_cont Eq mb ma); reflexivity.
Qed.

Lemma ptrs_eqb_refl a : ptrs_eqb a a = true.
Proof.
  unfold ptrs_eqb. rewrite Nat.eqb_refl. simpl.
  induction a as [|x a IH]; simpl; [reflexivity|].
  rewrite Nat.eqb_refl. exact IH.
Qed.

(** No node with inputs is there twice: two nodes that have inputs and
    agree in opcode, type, inputs, [ival] and [fval] are the same node. *)
Theorem no_duplicate_nodes s p q np nq :
  reachable s ->
  allNodes s !! p = Some np -> allNodes s !! q = Some nq ->
  inputs np <> [] ->
  op np = op nq -> type np = type nq -> inputs np = inputs nq ->
  ival np = ival nq -> feqb (fval np) (fval nq) = true ->
  p = q.
Proof.
  intros R Lp Lq Hne Ho Ht Hi Hv Hf. pose proof (reachable_shape _ R) as Sh.
  assert (forall a b, same_node a (op b) (type b) (inputs b) (ival b) (fval b)
            = (ival a =? ival b) && feqb (fval a) (fval b)
              && op_eqb (op a) (op b) && type_eqb (type a) (type b)
              && ptrs_eqb (inputs a) (inputs b)) as Same by reflexivity.
  destruct (lt_eq_lt_dec p q) as [[Hlt|Heq]|Hlt]; [|exact Heq|]; exfalso.
  - pose proof (sh_unique _ Sh _ _ _ _ Lp Lq Hlt) as U.
    rewrite <- Hi in U. specialize (U Hne). rewrite Hi in U.
    rewrite Same, Hv, Hf, Ho, Ht, Hi, Z.eqb_refl, ptrs_eqb_refl in U.
    rewrite (proj2 (op_eqb_eq _ _) eq_refl) in U.
    rewrite (proj2 (type_eqb_eq _ _) eq_refl) in U. discriminate.
  - pose proof (sh_unique _ Sh _ _ _ _ Lq Lp Hlt Hne) as U.
    rewrite Same, Hv, feqb_sym, Hf, Ho, Ht, Hi, Z.eqb_refl, ptrs_eqb_refl in U.
    rewrite (proj2 (op_eqb_eq _ _) eq_refl) in U.
    rewrite (proj2 (type_eqb_eq _ _) eq_refl) in U. discriminate.
Qed.

Lemma var_dep_self var : is_var var = true -> var_dep var = Some (self_dep var).
Proof. destruct var; try discriminate; reflexivity. Qed.

(** [substitute] on an expression in which the variable does not occur
    returns the expression itself and builds no node. *)
Theorem substitute_without_the_variable n p var val s :
  reachable s -> valid s p -> is_var var = true ->
  (forall d nd, descendant s p d -> allNodes s !! d = Some nd -> op nd <> var) ->
  substitute (S n) p var val s = Ok p s.
Proof.
  intros R V Hv Hno. destruct (valid_is_Some _ _ V) as [nd L].
  rewrite substitute_S, (and_then_ok _ _ _ _ _ (get_ok _ _ _ L)).
  assert (op_eqb (op nd) var = false) as ->.
  { destruct (op_eqb (op nd) var) eqn:E; [|reflexivity].
    apply op_eqb_eq in E. exfalso. exact (Hno p nd (rtc_refl _ _) L E). }
  rewrite (var_dep_self _ Hv).
  assert (has (deps nd) (self_dep var) = false) as ->; [|reflexivity].
  destruct (has (deps nd) (self_dep var)) eqn:E; [|reflexivity]. exfalso.
  assert (self_dep var <> 0) as Hs by (destruct var; discriminate).
  assert (has (deps_at s p) (self_dep var) = true) as E'.
  { unfold deps_at. rewrite L. exact E. }
  apply (flag_exact s p var (reachable_shape _ R) Hs) in E'
    as (d & nd' & Hd & L' & Ho).
  exact (Hno d nd' Hd L' Ho).
Qed.

(** [bind] on an expression in which no unbound variable occurs returns
    the expression itself and builds no node. *)
Theorem bind_without_unbound n p x y t c s :
  reachable s -> valid s p ->
  (forall d nd, descendant s p d -> allNodes s !! d = Some nd ->
     op nd <> UnboundVar) ->
  bind (S n) p x y t c s = Ok p s.
Proof.
  intros R V Hno. destruct (valid_is_Some _ _ V) as [nd L].
  simpl. rewrite (and_then_ok _ _ _ _ _ (get_ok _ _ _ L)).
  assert (has (deps nd) DepUnbound = false) as ->; [|reflexivity].
  destruct (has (deps nd) DepUnbound) eqn:E; [|reflexivity]. exfalso.
  assert (has (deps_at s p) (self_dep UnboundVar) = true) as E'.
  { unfold deps_at. rewrite L. exact E. }
  apply (flag_exact s p UnboundVar (reachable_shape _ R)) in E'
    as (d & nd' & Hd & L' & Ho); [|discriminate].
  exact (Hno d nd' Hd L' Ho).
Qed.

(** ** Errors, shortcuts and folding *)

(** The inputs of a node were built before the node, so the graph has no
    cycle, and every input is a node of the store. *)
Theorem inputs_are_earlier s p n i :
  reachable s -> allNodes s !! p = Some n -> i ∈ inputs n ->
  (i < p)%nat /\ valid s i.
Proof.
  intros R L Hi. pose proof (wf_inputs _ (reachable_wf _ R) _ _ L) as F.
  rewrite Forall_forall in F. specialize (F _ Hi). split; [exact F|].
  apply valid_lookup in L. unfold valid in *. lia.
Qed.

(** A call of the interface returns a node of the store, and it changes
    neither the type, the opcode, the inputs, [ival], [fval], the mask nor
    the level of a node that was there before. *)
Theorem calls_keep_nodes c s r s' p n :
  reachable s -> run_call c s = Ok r s' -> allNodes s !! p = Some n ->
  valid s' r
  /\ exists n', allNodes s' !! p = Some n'
       /\ type n' = type n /\ op n' = op n /\ inputs n' = inputs n
       /\ ival n' = ival n /\ fval n' = fval n /\ deps n' = deps n
       /\ level n' = level n.
Proof.
  intros R H L.
  destruct (run_call_ok _ _ _ _ (reachable_wf _ R) H) as (_ & E & V).
  split; [exact V|].
  destruct (ext_lookup _ _ _ _ E L) as (n' & L' & Hs).
  exists n'. split; [exact L'|]. apply strip_fields in Hs. exact Hs.
Qed.

(** [make] with a number of inputs other than the one that its [switch]
    asserts for the opcode stops the program, whatever the inputs are. *)
Theorem wrong_arity_is_fatal n opcode k ins iv fv s :
  arity_of opcode = Some k -> length ins <> k ->
  make (S n) opcode ins iv fv s = Fatal.
Proof.
  intros Ha Hl. apply Nat.eqb_neq in Hl.
  destruct opcode; simpl in Ha; try discriminate; injection Ha as <-;
    simpl; unfold make_body, infer, arity, assert, and_then;
    rewrite Hl; reflexivity.
Qed.

Lemma node_at_ok i ins p s n :
  ins !! i = Some p -> allNodes s !! p = Some n -> node_at i ins s = Ok n s.
Proof.
  intros Hi L. unfold node_at. rewrite (and_then_ok _ _ _ _ _ (at_ok _ _ _ _ Hi)).
  apply get_ok, L.
Qed.

(** [make] stops the program on [IntToFloat] of a node that is not an
    [Int] and on [FloatToInt] of a node that is not a [Float]. *)
Theorem conversion_checks_operand n a s t :
  type_at s a = Some t ->
  (t <> Int -> forall iv fv, make (S n) IntToFloat [a] iv fv s = Fatal)
  /\ (t <> Float -> forall iv fv, make (S n) FloatToInt [a] iv fv s = Fatal).
Proof.
  intros T. apply type_at_Some in T as (nd & L & <-).
  split; intros Ht%type_neqb iv fv; simpl; unfold make_body, infer; mexec;
    reflexivity.
Qed.

(** [make] returns its operand, and builds nothing, for [NoOp], for [Abs]
    of a [Bool] and for [Floor], [Ceil] and [Round] of a node that is not
    a [Float]. *)
Theorem make_returns_operand n a s nd iv fv :
  allNodes s !! a = Some nd ->
  make (S n) NoOp [a] iv fv s = Ok a s
  /\ (type nd = Bool -> make (S n) Abs [a] iv fv s = Ok a s)
  /\ (type nd <> Float ->
      make (S n) Floor [a] iv fv s = Ok a s
      /\ make (S n) Ceil [a] iv fv s = Ok a s
      /\ make (S n) Round [a] iv fv s = Ok a s).
Proof.
  intros L. split; [|split].
  - simpl. unfold make_body, infer, fold, all_const, reduce. mexec.
    destruct (deps nd =? 0); mexec; reflexivity.
  - intros T. simpl. unfold make_body, infer. mexec. reflexivity.
  - intros T%type_neqb. repeat split; simpl; unfold make_body, infer; mexec;
      reflexivity.
Qed.

Ltac mexec_deps :=
  mexec;
  repeat (progress (repeat match goal with
                           | H : deps _ = _ |- _ => rewrite H
                           end); mexec).

(** On operands with an empty dependence mask [make] builds no operation:
    it returns the constant of the computed value, for the arithmetic
    opcodes, the immediate forms and the two conversions. *)
Theorem constant_folding n a b s na nb iv fv :
  allNodes s !! a = Some na -> allNodes s !! b = Some nb ->
  deps na = 0 -> deps nb = 0 ->
  (type na = Int -> type nb = Int ->
     make (S n) Plus [a; b] iv fv s = make_int (int_add (ival na) (ival nb)) s
     /\ make (S n) Minus [a; b] iv fv s
        = make_int (int_sub (ival na) (ival nb)) s
     /\ make (S n) Times [a; b] iv fv s
        = make_int (int_mul (ival na) (ival nb)) s)
  /\ (type na = Float -> type nb = Float ->
        make (S n) Plus [a; b] iv fv s
        = make_float (fadd (fval na) (fval nb)) s
        /\ make (S n) Minus [a; b] iv fv s
           = make_float (fsub (fval na) (fval nb)) s
        /\ make (S n) Times [a; b] iv fv s
           = make_float (fmul (fval na) (fval nb)) s
        /\ make (S n) Divide [a; b] iv fv s
           = make_float (fdiv (fval na) (fval nb)) s)
  /\ make (S n) PlusImm [a] iv fv s = make_int (int_add (ival na) iv) s
  /\ make (S n) TimesImm [a] iv fv s = make_int (int_mul (ival na) iv) s
  /\ (type na = Int ->
      make (S n) IntToFloat [a] iv fv s
      = make_float (float_of_int (ival na)) s)
  /\ (type na = Float ->
      make (S n) FloatToInt [a] iv fv s
      = make_int (int_of_float (fval na)) s).
Proof.
  intros La Lb Da Db.
  split; [|split; [|split; [|split; [|split]]]].
  - intros Ta Tb.
    repeat split; simpl; unfold make_body, infer, either_float, coerce, as_body,
      fold, all_const, ret_int; mexec_deps;
      destruct (make_int _ s); reflexivity.
  - intros Ta Tb.
    repeat split; simpl; unfold make_body, infer, either_float, coerce, as_body,
      fold, all_const, ret_float; mexec_deps;
      destruct (make_float _ s); reflexivity.
  - simpl; unfold make_body, infer, fold, all_const, ret_int; mexec_deps;
      destruct (make_int _ s); reflexivity.
  - simpl; unfold make_body, infer, fold, all_const, ret_int; mexec_deps;
      destruct (make_int _ s); reflexivity.
  - intros Ta. simpl; unfold make_body, infer, fold, all_const, ret_float;
      mexec_deps; destruct (make_float _ s); reflexivity.
  - intros Ta. simpl; unfold make_body, infer, fold, all_const, ret_int;
      mexec_deps; destruct (make_int _ s); reflexivity.
Qed.

(** The node that [as] returns has the requested type, and [as] with that
    type on it returns it unchanged, with any recursion bound. *)
Theorem as_is_idempotent n m t p s r s' :
  reachable s -> as_ n t p s = Ok r s' ->
  type_at s' r = Some t /\ as_ m t r s' = Ok r s'.
Proof.
  intros R H. pose proof (as_type _ _ _ _ _ _ (reachable_wf _ R) H) as T.
  split; [exact T|]. apply type_at_Some in T as (nr & L & T).
  unfold as_, as_body. rewrite (and_then_ok _ _ _ _ _ (get_ok _ _ _ L)).
  rewrite T. destruct t; reflexivity.
Qed.

(** [as(Bool)] on a node of type [Int] does not return: it asks [make]
    for an [NEQ] whose coercion of the same node to [Bool] asks for it
    again, so every recursion bound is used up. *)
Theorem as_bool_of_int_never_returns n a s :
  reachable s -> type_at s a = Some Int -> as_ n Bool a s = Timeout.
Proof.
  intros R T. apply as_bool_of_int; [exact (reachable_wf _ R)|exact T|].
  intros s1 z W1 Ta Tz.
  eapply cmp_of_int_never_returns;
    [exact W1|reflexivity|exact Ta|exact Tz|discriminate].
Qed.

(** There is one node for each constant: two [Int] constants with the
    same value are the same node, and so are two [Float] constants with
    equal values. *)
Theorem constants_are_unique s p q np nq :
  reachable s ->
  allNodes s !! p = Some np -> allNodes s !! q = Some nq ->
  op np = Const -> op nq = Const ->
  (type np = Int -> type nq = Int -> ival np = ival nq -> p = q)
  /\ (type np = Float -> type nq = Float -> feqb (fval np) (fval nq) = true ->
      p = q).
Proof.
  intros R Lp Lq Op Oq. pose proof (reachable_wf _ R) as W. split.
  - intros Tp Tq E.
    pose proof (wf_int_all _ W _ _ Lp Op Tp) as Hp.
    pose proof (wf_int_all _ W _ _ Lq Oq Tq) as Hq.
    rewrite E in Hp. congruence.
  - intros Tp Tq E.
    pose proof (feqb_not_nan _ _ E) as Np.
    assert (is_nan (fval nq) = false) as Nq.
    { destruct (fval np), (fval nq); try discriminate; reflexivity. }
    pose proof (wf_float_all _ W _ _ Lp Op Tp Np) as Hp.
    pose proof (wf_float_all _ W _ _ Lq Oq Tq Nq) as Hq.
    rewrite (fmap_find_feqb _ _ _ E) in Hq. congruence.
Qed.

Lemma collectSum_atom n p pos terms s nd :
  allNodes s !! p = Some nd -> is_sum (op nd) = false ->
  collectSum (S n) p pos terms s = Ok (terms ++ [(p, pos)]) s.
Proof.
  intros L Hs. rewrite collectSum_S, (and_then_ok _ _ _ _ _ (get_ok _ _ _ L)).
  destruct (op nd); try discriminate Hs; reflexivity.
Qed.

(** [rebalanceSum] on [0 - x], where [x] is neither a sum nor a constant,
    returns [x]: the sign of the only term is lost when the constants add
    up to zero. *)
Theorem rebalanceSum_drops_the_sign n p z x s np nz nx :
  allNodes s !! p = Some np -> op np = Minus -> inputs np = [z; x] ->
  allNodes s !! z = Some nz -> op nz = Const ->
  allNodes s !! x = Some nx -> is_sum (op nx) = false -> op nx <> Const ->
  (type np = Int -> ival nz = 0 -> rebalanceSum (S (S n)) p s = Ok x s)
  /\ (type np = Float -> fval nz = fzero ->
      rebalanceSum (S (S n)) p s = Ok x s).
Proof.
  intros Lp Op Ip Lz Oz Lx Sx Cx.
  assert (collectSum (S (S n)) p true [] s = Ok [(z, true); (x, false)] s)
    as Hc.
  { rewrite collectSum_S.
    rewrite (and_then_ok _ _ _ _ _ (get_ok _ _ _ Lp)), Op, Ip.
    rewrite (and_then_ok _ _ _ _ _ (at_ok 0 [z; x] z s eq_refl)).
    erewrite and_then_ok; [|eapply collectSum_atom; [exact Lz|]].
    2:{ rewrite Oz. reflexivity. }
    rewrite (and_then_ok _ _ _ _ _ (at_ok 1 [z; x] x s eq_refl)).
    eapply collectSum_atom; [exact Lx|exact Sx]. }
  assert (sum_terms (S (S n)) p s = Ok ([(z, true)], [(x, false)]) s) as Hs.
  { unfold sum_terms. rewrite (and_then_ok _ _ _ _ _ Hc).
    simpl. unfold and_then, get, pure. rewrite Lz, Lx, Oz. simpl.
    assert (op_eqb (op nx) Const = false) as ->.
    { destruct (op_eqb (op nx) Const) eqn:E; [|reflexivity].
      apply op_eqb_eq in E. contradiction. }
    simpl. unfold and_then, get, pure. rewrite Lx. reflexivity. }
  split; intros Tp Hz; unfold rebalanceSum, rebalanceSum_body;
    rewrite (and_then_ok _ _ _ _ _ (get_ok _ _ _ Lp)), Op; cbn [is_sum negb];
    rewrite (and_then_ok _ _ _ _ _ Hs); cbv zeta; rewrite Tp;
    simpl; unfold and_then, at_, get, pure; simpl;
    rewrite Lz, Hz; reflexivity.
Qed.

Lemma and_then_pure_flow (m : M nat) s :
  (let* r := (let* r := m in pure (Return (A:=unit) r)) in
   match r with
   | Return p => pure p
   | Continue _ => pure 0%nat
   end) s = m s.
Proof. unfold and_then, pure. destruct (m s); reflexivity. Qed.

Ltac mexec_all :=
  repeat first
    [ progress (unfold and_then, at_, get, pure, node_at, arity, assert; simpl)
    | match goal with
      | H : allNodes ?s !! ?p = Some _ |- context [allNodes ?s !! ?p] =>
          rewrite H
      | H : type _ = _ |- _ => rewrite H
      | H : op _ = _ |- _ => rewrite H
      | H : deps _ = _ |- _ => rewrite H
      | H : (deps _ =? 0) = _ |- _ => rewrite H
      | H : op_eqb _ _ = _ |- _ => rewrite H
      | H : is_sum _ = _ |- _ => rewrite H
      end ].

Lemma make_timesimm n a c fv s r s' na :
  allNodes s !! a = Some na -> deps na <> 0 -> is_sum (op na) = false ->
  make n TimesImm [a] c fv s = Ok r s' ->
  op_at s' r = Some TimesImm /\ inputs_at s' r = Some [a]
  /\ ival_at s' r = Some c /\ type_at s' r = Some Int.
Proof.
  intros L Hd Hs H. destruct n as [|n]; [discriminate|]. simpl in H.
  apply make_body_plain in H as (t & ins1 & s1 & Hi & H); [|reflexivity].
  simpl in Hi. mrun Hi.
  match goal with
  | E : Continue _ = Continue _ |- _ => injection E as -> ->
  end.
  destruct H as [H|(_ & ins2 & s2 & nr & Hr & Lr & T & O & I & V)].
  - exfalso. unfold fold in H. simpl in H. unfold and_then in H.
    rewrite (get_ok _ _ _ L) in H.
    apply Z.eqb_neq in Hd. rewrite Hd in H. discriminate H.
  - unfold rebalance_inputs, rebalanceSum_body in Hr. simpl in Hr.
    unfold and_then in Hr. rewrite (get_ok _ _ _ L), Hs in Hr. simpl in Hr.
    injection Hr as <- <-.
    unfold op_at, inputs_at, ival_at, type_at. rewrite Lr. simpl.
    repeat split; congruence.
Qed.

(** [make(Times)] of an [Int] node that depends on something, and is
    neither a sum nor a product, with an [Int] constant, in either order,
    is [make(TimesImm)] of the node with the constant's value; what that
    returns is a [TimesImm] node of type [Int] over the node. *)
Theorem times_by_a_constant n x c s nx nc iv fv :
  reachable s ->
  allNodes s !! x = Some nx -> allNodes s !! c = Some nc ->
  type nx = Int -> deps nx <> 0 -> is_sum (op nx) = false -> op nx <> Times ->
  op nc = Const -> type nc = Int ->
  make (S n) Times [x; c] iv fv s = make n TimesImm [x] (ival nc) fzero s
  /\ make (S n) Times [c; x] iv fv s = make n TimesImm [x] (ival nc) fzero s
  /\ forall r s', make n TimesImm [x] (ival nc) fzero s = Ok r s' ->
       op_at s' r = Some TimesImm /\ inputs_at s' r = Some [x]
       /\ ival_at s' r = Some (ival nc) /\ type_at s' r = Some Int.
Proof.
  intros R Lx Lc Tx Dx Sx Mx Oc Tc.
  assert (forall r s', make n TimesImm [x] (ival nc) fzero s = Ok r s' ->
       op_at s' r = Some TimesImm /\ inputs_at s' r = Some [x]
       /\ ival_at s' r = Some (ival nc) /\ type_at s' r = Some Int) as Shape.
  { intros r s'. apply (make_timesimm _ _ _ _ _ _ _ nx Lx Dx Sx). }
  pose proof (wf_const _ (reachable_wf _ R) _ _ Lc Oc) as Dc.
  assert (op nx <> Const) as Cx.
  { intros Ox. apply Dx. exact (wf_const _ (reachable_wf _ R) _ _ Lx Ox). }
  apply Z.eqb_neq in Dx.
  assert (forall o, op nx <> o -> op_eqb (op nx) o = false) as Ne.
  { intros o Ho. destruct (op_eqb (op nx) o) eqn:E; [|reflexivity].
    apply op_eqb_eq in E. contradiction. }
  assert (op_eqb (op nx) Plus = false) as E1.
  { apply Ne. intros E. rewrite E in Sx. discriminate. }
  assert (op_eqb (op nx) PlusImm = false) as E2.
  { apply Ne. intros E. rewrite E in Sx. discriminate. }
  pose proof (Ne _ Mx) as E3. pose proof (Ne _ Cx) as E4.
  clear Ne Mx Cx.
  split; [|split; [|exact Shape]]; simpl;
    unfold make_body, infer, either_float, coerce, as_body, fold, all_const,
      reduce, chain, distribute, times_plusimm, reassociate, pick,
      rebalance_inputs, rebalanceSum_body, variables, fuse_load, fuse_times;
    mexec_all;
    destruct (make n TimesImm [x] (ival nc) fzero s); reflexivity.
Qed.

(** ** Marking and sweeping *)

Lemma set_marked_fields b n :
  type (set_marked b n) = type n /\ op (set_marked b n) = op n
  /\ inputs (set_marked b n) = inputs n /\ outputs (set_marked b n) = outputs n
  /\ ival (set_marked b n) = ival n /\ marked (set_marked b n) = b.
Proof. repeat split. Qed.

Lemma set_marked_eq n n' :
  set_marked false n' = set_marked false n ->
  type n' = type n /\ op n' = op n /\ inputs n' = inputs n
  /\ outputs n' = outputs n /\ ival n' = ival n /\ fval n' = fval n
  /\ strip n' = strip n.
Proof.
  destruct n, n'. unfold set_marked, strip. simpl. intros [= -> -> -> -> -> -> -> -> -> ->].
  repeat split.
Qed.

Lemma same_but_marks_refl s : same_but_marks s s.
Proof. reflexivity. Qed.

Lemma same_but_marks_trans s1 s2 s3 :
  same_but_marks s1 s2 -> same_but_marks s2 s3 -> same_but_marks s1 s3.
Proof. unfold same_but_marks. congruence. Qed.

Lemma same_but_marks_sym s1 s2 : same_but_marks s1 s2 -> same_but_marks s2 s1.
Proof. unfold same_but_marks. congruence. Qed.

Lemma same_but_marks_lookup s s' p n :
  same_but_marks s s' -> allNodes s !! p = Some n ->
  exists n', allNodes s' !! p = Some n'
             /\ set_marked false n' = set_marked false n.
Proof.
  intros E L. assert ((set_marked false <$> allNodes s') !! p
                      = Some (set_marked false n)) as H.
  { rewrite E, list_lookup_fmap, L. reflexivity. }
  rewrite list_lookup_fmap in H.
  destruct (allNodes s' !! p) as [n'|]; [|discriminate].
  simpl in H. apply (inj Some) in H. exists n'. split; [reflexivity|exact H].
Qed.

Lemma same_but_marks_length s s' :
  same_but_marks s s' -> length (allNodes s') = length (allNodes s).
Proof.
  intros E. rewrite <- (length_fmap (set_marked false) (allNodes s')), E.
  apply length_fmap.
Qed.

Lemma same_but_marks_consumes s s' q p :
  same_but_marks s s' -> consumes s q p -> consumes s' q p.
Proof.
  intros E (nq & L & Hi).
  destruct (same_but_marks_lookup _ _ _ _ E L) as (n' & L' & Hn).
  exists n'. split; [exact L'|]. apply set_marked_eq in Hn as (_ & _ & -> & _).
  exact Hi.
Qed.

Lemma same_but_marks_descendant s s' p q :
  same_but_marks s s' -> descendant s p q -> descendant s' p q.
Proof.
  intros E H. induction H as [|x y z Hxy _ IH]; [apply rtc_refl|].
  eapply rtc_l; [|exact IH]. eapply same_but_marks_consumes; eassumption.
Qed.

Lemma closed_descendant s p q :
  closed s -> unmarked s p -> descendant s p q -> unmarked s q.
Proof.
  intros C U H. induction H as [|x y z Hxy _ IH]; [exact U|].
  apply IH. eapply C; eassumption.
Qed.

Lemma closed_same s0 s : same_but_marks s0 s ->
  (forall q i, unmarked s q -> consumes s0 q i -> unmarked s i) -> closed s.
Proof.
  intros E H q i U C. apply (H q i U).
  eapply same_but_marks_consumes; [apply same_but_marks_sym, E|exact C].
Qed.

Lemma forM_unmarks (f : nat -> M unit) s0 ins :
  (forall i s, i ∈ ins -> same_but_marks s0 s -> closed s ->
     exists s', f i s = Ok tt s' /\ same_but_marks s0 s' /\ closed s'
       /\ forall q, unmarked s' q <-> unmarked s q \/ descendant s0 i q) ->
  forall s1, same_but_marks s0 s1 -> closed s1 ->
    exists s2, forM f ins s1 = Ok tt s2 /\ same_but_marks s0 s2 /\ closed s2
      /\ forall q, unmarked s2 q
           <-> unmarked s1 q \/ exists i, i ∈ ins /\ descendant s0 i q.
Proof.
  induction ins as [|i ins IH]; intros Hf s1 E1 C1; simpl.
  - exists s1. split; [reflexivity|]. split; [exact E1|]. split; [exact C1|].
    intros q. split; [auto|]. intros [H|(i & Hi & _)]; [exact H|inversion Hi].
  - destruct (Hf i s1 ltac:(left) E1 C1) as (s' & Hr & E' & C' & U').
    destruct (IH (fun j s Hj => Hf j s ltac:(right; exact Hj)) s' E' C')
      as (s2 & Hr2 & E2 & C2 & U2).
    exists s2. split.
    { rewrite (and_then_ok _ _ _ _ _ Hr). exact Hr2. }
    split; [exact E2|]. split; [exact C2|].
    intros q. rewrite U2, U'. split.
    + intros [[H|H]|(j & Hj & H)]; [auto| |].
      * right. exists i. split; [left|exact H].
      * right. exists j. split; [right; exact Hj|exact H].
    + intros [H|(j & Hj & H)]; [auto|].
      apply elem_of_cons in Hj as [->|Hj]; [auto|].
      right. exists j. auto.
Qed.

Lemma mark_unmarks p s n :
  allNodes s !! p = Some n ->
  exists s', mark p false s = Ok tt s' /\ same_but_marks s s'
    /\ forall q, unmarked s' q <-> unmarked s q \/ q = p.
Proof.
  intros L. unfold mark. rewrite L. eexists. split; [reflexivity|].
  pose proof (lookup_lt_Some _ _ _ L) as Hlt. split.
  - unfold same_but_marks. simpl. rewrite list_fmap_insert.
    apply list_insert_id. rewrite list_lookup_fmap, L. reflexivity.
  - intros q. unfold unmarked. simpl. destruct (decide (q = p)) as [->|Hne].
    + rewrite list_lookup_insert_eq by exact Hlt. split; [auto|].
      intros _. eexists. split; reflexivity.
    + rewrite list_lookup_insert_ne by congruence. split; [auto|].
      intros [H|H]; [exact H|contradiction].
Qed.

Lemma markDescendents_unmarks s0 :
  (forall p n, allNodes s0 !! p = Some n ->
     Forall (fun i => (i < p)%nat) (inputs n)) ->
  forall fuel p s, valid s0 p -> (p < fuel)%nat ->
    same_but_marks s0 s -> closed s ->
    exists s', markDescendents fuel p false s = Ok tt s'
      /\ same_but_marks s0 s' /\ closed s'
      /\ forall q, unmarked s' q <-> unmarked s q \/ descendant s0 p q.
Proof.
  intros Hin. induction fuel as [|fuel IH]; intros p s V Hp E C; [lia|].
  destruct (valid_is_Some _ _ V) as [n0 L0].
  destruct (same_but_marks_lookup _ _ _ _ E L0) as (n & L & Hn).
  apply set_marked_eq in Hn as (_ & _ & Hi & _).
  simpl. rewrite (and_then_ok _ _ _ _ _ (get_ok _ _ _ L)).
  destruct (marked n) eqn:Em; simpl.
  - pose proof (Hin _ _ L0) as Hlt. rewrite Forall_forall in Hlt.
    destruct (forM_unmarks (fun i => markDescendents fuel i false) s0 (inputs n))
      with (s1 := s) as (s2 & Hr & E2 & C2 & U2); [|exact E|exact C|].
    { intros i s1 Hi1 E1 C1. rewrite Hi in Hi1. specialize (Hlt _ Hi1).
      apply IH; [|lia|exact E1|exact C1].
      apply valid_lookup in L0. unfold valid in *. lia. }
    rewrite (and_then_ok _ _ _ _ _ Hr).
    destruct (same_but_marks_lookup _ _ _ _ E2 L0) as (n2 & L2 & Hn2).
    destruct (mark_unmarks _ _ _ L2) as (s' & Hm & E' & U').
    exists s'. split; [exact Hm|].
    assert (same_but_marks s0 s') as E0'.
    { eapply same_but_marks_trans; eassumption. }
    split; [exact E0'|].
    assert (forall q, unmarked s' q <-> unmarked s q \/ descendant s0 p q) as U.
    { intros q. rewrite U', U2. split.
      - intros [[H|(i & Hi1 & H)]| ->]; [auto| |right; apply rtc_refl].
        right. eapply rtc_l; [|exact H]. exists n0. split; [exact L0|].
        rewrite <- Hi. exact Hi1.
      - intros [H|H]; [auto|]. apply rtc_inv in H as [->|(y & (ny & Ly & Hy) & H)].
        + right. reflexivity.
        + left. right. exists y. split; [|exact H].
          rewrite Ly in L0. injection L0 as ->. rewrite Hi. exact Hy. }
    split; [|exact U].
    apply (closed_same s0 s' E0'). intros q i Hq Hc.
    apply U. apply U in Hq as [Hq|Hq].
    + left. apply (C q i Hq).
      eapply same_but_marks_consumes; [exact E|exact Hc].
    + right. eapply rtc_r; [exact Hq|exact Hc].
  - exists s. split; [reflexivity|]. split; [exact E|]. split; [exact C|].
    intros q. split; [auto|]. intros [H|H]; [exact H|].
    apply (closed_descendant s p q); [exact C| |].
    + exists n. split; assumption.
    + eapply same_but_marks_descendant; eassumption.
Qed.

Lemma save_node_nodes p n acc :
  newAllNodes (save_node p n acc)
  = if marked n then newAllNodes acc else newAllNodes acc ++ [p].
Proof.
  unfold save_node. destruct (marked n); [reflexivity|].
  destruct (op_eqb (op n) Const); [destruct (type_eqb (type n) Float)|
                                   destruct (is_var (op n))]; reflexivity.
Qed.

Lemma save_from_nodes ns : forall p0 acc q,
  q ∈ newAllNodes (save_from p0 ns acc)
  <-> q ∈ newAllNodes acc
      \/ exists i n, q = (p0 + i)%nat /\ ns !! i = Some n /\ marked n = false.
Proof.
  induction ns as [|n ns IH]; intros p0 acc q; simpl.
  - split; [auto|]. intros [H|(i & n & _ & H & _)]; [exact H|].
    rewrite lookup_nil in H. discriminate.
  - rewrite IH, save_node_nodes. split.
    + intros [H|(i & n' & -> & L & Hm)].
      * destruct (marked n) eqn:Em; [auto|].
        apply elem_of_app in H as [H|H]; [auto|].
        apply list_elem_of_singleton in H as ->. right.
        exists 0%nat, n. split; [lia|]. split; [reflexivity|exact Em].
      * right. exists (S i), n'. split; [lia|]. split; assumption.
    + intros [H|(i & n' & -> & L & Hm)].
      * left. destruct (marked n); [exact H|]. apply elem_of_app. auto.
      * destruct i as [|i]; simpl in L.
        -- injection L as <-. left. rewrite Hm. apply elem_of_app. right.
           apply list_elem_of_singleton. lia.
        -- right. exists i, n'. split; [lia|]. split; assumption.
Qed.

Lemma kept_unmarked s q :
  q ∈ newAllNodes (save_from 0 (allNodes s) empty_swept) <-> unmarked s q.
Proof.
  rewrite save_from_nodes. simpl. split.
  - intros [H|(i & n & -> & L & Hm)]; [inversion H|].
    exists n. split; assumption.
  - intros (n & L & Hm). right. exists q, n. split; [reflexivity|].
    split; assumption.
Qed.

Lemma collectGarbage_run fuel saved s :
  wf s -> Forall (valid s) saved -> (length (allNodes s) <= fuel)%nat ->
  exists s',
    collectGarbage fuel saved s
    = Ok (save_from 0 (allNodes s') empty_swept) s'
    /\ same_but_marks s s'
    /\ forall q, unmarked s' q <-> exists r, r ∈ saved /\ descendant s r q.
Proof.
  intros W V Hf. unfold collectGarbage.
  set (sA := mkStore (set_marked true <$> allNodes s) (floatInstances s)
                     (intInstances s) (varInstances s)).
  assert (mark_all true s = Ok tt sA) as HA by reflexivity.
  assert (same_but_marks s sA) as EA.
  { unfold same_but_marks, sA. simpl. rewrite <- list_fmap_compose.
    reflexivity. }
  assert (forall q, ~ unmarked sA q) as NA.
  { intros q (n & L & Hm). unfold sA in L. simpl in L.
    rewrite list_lookup_fmap in L.
    destruct (allNodes s !! q); [|discriminate]. simpl in L.
    injection L as <-. discriminate Hm. }
  assert (closed sA) as CA.
  { intros q i U _. exfalso. exact (NA _ U). }
  destruct (forM_unmarks (fun p => markDescendents fuel p false) s saved)
    with (s1 := sA) as (s2 & Hr & E2 & C2 & U2); [|exact EA|exact CA|].
  { intros i s1 Hi E1 C1. rewrite Forall_forall in V.
    apply markDescendents_unmarks; [exact (wf_inputs _ W)|exact (V _ Hi)| |
                                    exact E1|exact C1].
    specialize (V _ Hi). unfold valid in V. lia. }
  exists s2. rewrite (and_then_ok _ _ _ _ _ HA), (and_then_ok _ _ _ _ _ Hr).
  split; [reflexivity|]. split; [exact E2|].
  intros q. rewrite U2. split; [|auto].
  intros [H|H]; [exfalso; exact (NA _ H)|exact H].
Qed.

(** [collectGarbage] returns when the recursion bound is the number of
    nodes, and it keeps exactly the nodes reached from a saved node
    through inputs; every input of a kept node is kept. *)
Theorem collectGarbage_keeps_reachable fuel saved s :
  reachable s -> Forall (valid s) saved -> (length (allNodes s) <= fuel)%nat ->
  exists sw s',
    collectGarbage fuel saved s = Ok sw s'
    /\ (forall q, q ∈ newAllNodes sw
          <-> exists r, r ∈ saved /\ descendant s r q)
    /\ (forall q i, q ∈ newAllNodes sw -> consumes s q i ->
          i ∈ newAllNodes sw).
Proof.
  intros R V Hf.
  destruct (collectGarbage_run fuel saved s (reachable_wf _ R) V Hf)
    as (s' & Hr & E & U).
  eexists _, s'. split; [exact Hr|].
  assert (forall q, q ∈ newAllNodes (save_from 0 (allNodes s') empty_swept)
            <-> exists r, r ∈ saved /\ descendant s r q) as K.
  { intros q. rewrite kept_unmarked. apply U. }
  split; [exact K|].
  intros q i Hq Hc. apply K. apply K in Hq as (r & Hr' & Hd).
  exists r. split; [exact Hr'|]. eapply rtc_r; eassumption.
Qed.

(** ** The tables after the collection *)

Lemma forM_same (f : nat -> M unit) l :
  (forall i s u s', f i s = Ok u s' -> same_but_marks s s') ->
  forall s u s', forM f l s = Ok u s' -> same_but_marks s s'.
Proof.
  intros Hf. induction l as [|i l IH]; simpl; intros s u s' H.
  - apply pure_inv in H as [_ ->]. apply same_but_marks_refl.
  - apply bind_inv in H as (u1 & s1 & H1 & H).
    eapply same_but_marks_trans; [eapply Hf, H1|eapply IH, H].
Qed.

Lemma mark_same p b s u s' : mark p b s = Ok u s' -> same_but_marks s s'.
Proof.
  unfold mark. destruct (allNodes s !! p) as [n|] eqn:L; [|discriminate].
  intros [= _ <-]. unfold same_but_marks. simpl. rewrite list_fmap_insert.
  apply list_insert_id. rewrite list_lookup_fmap, L. reflexivity.
Qed.

Lemma markDescendents_same fuel : forall p b s u s',
  markDescendents fuel p b s = Ok u s' -> same_but_marks s s'.
Proof.
  induction fuel as [|fuel IH]; intros p b s u s' H; [discriminate|].
  simpl in H. apply bind_inv in H as (n & s1 & Hg & H).
  apply get_inv in Hg as [-> L].
  destruct (eqb (marked n) b).
  - apply pure_inv in H as [_ ->]. apply same_but_marks_refl.
  - apply bind_inv in H as (u1 & s1 & H1 & H).
    eapply same_but_marks_trans; [|eapply mark_same, H].
    eapply forM_same, H1. intros i s2 u2 s2'. apply IH.
Qed.

Lemma collectGarbage_inv fuel saved s sw s' :
  collectGarbage fuel saved s = Ok sw s' ->
  same_but_marks s s' /\ sw = save_from 0 (allNodes s') empty_swept.
Proof.
  unfold collectGarbage. intros H.
  apply bind_inv in H as (u1 & s1 & H1 & H).
  apply bind_inv in H as (u2 & s2 & H2 & H). injection H as <- <-.
  split; [|reflexivity].
  eapply same_but_marks_trans; [|eapply forM_same, H2].
  - unfold mark_all in H1. injection H1 as _ <-.
    unfold same_but_marks. simpl. rewrite <- list_fmap_compose. reflexivity.
  - intros i s3 u3 s3'. apply markDescendents_same.
Qed.

Lemma save_node_int p n acc :
  newIntInstances (save_node p n acc)
  = if int_entry n then <[ival n := p]> (newIntInstances acc)
    else newIntInstances acc.
Proof.
  unfold save_node, int_entry. destruct (marked n); [reflexivity|].
  destruct (op_eqb (op n) Const); simpl;
    [destruct (type_eqb (type n) Float)|destruct (is_var (op n))]; reflexivity.
Qed.

Lemma save_from_int_sound ns : forall p0 acc k q,
  newIntInstances (save_from p0 ns acc) !! k = Some q ->
  newIntInstances acc !! k = Some q
  \/ exists i n, q = (p0 + i)%nat /\ ns !! i = Some n /\ int_entry n = true
                 /\ ival n = k.
Proof.
  induction ns as [|n ns IH]; intros p0 acc k q H; simpl in H; [auto|].
  apply IH in H as [H|(i & n' & -> & L & He & Hk)].
  - rewrite save_node_int in H. destruct (int_entry n) eqn:E; [|auto].
    apply lookup_insert_Some in H as [[<- <-]|[_ H]]; [|auto].
    right. exists 0%nat, n. split; [lia|]. split; [reflexivity|]. auto.
  - right. exists (S i), n'. split; [lia|]. auto.
Qed.

Lemma save_from_int_other ns : forall p0 acc k,
  (forall i n, ns !! i = Some n -> int_entry n = true -> ival n <> k) ->
  newIntInstances (save_from p0 ns acc) !! k = newIntInstances acc !! k.
Proof.
  induction ns as [|n ns IH]; intros p0 acc k H; simpl; [reflexivity|].
  rewrite IH by (intros i n' L; apply (H (S i) n' L)).
  rewrite save_node_int. destruct (int_entry n) eqn:E; [|reflexivity].
  apply lookup_insert_ne. apply (H 0%nat n eq_refl E).
Qed.

Lemma save_from_int_complete ns : forall p0 acc i n,
  ns !! i = Some n -> int_entry n = true ->
  (forall j nj, ns !! j = Some nj -> int_entry nj = true ->
     ival nj = ival n -> j = i) ->
  newIntInstances (save_from p0 ns acc) !! ival n = Some (p0 + i)%nat.
Proof.
  induction ns as [|n0 ns IH]; intros p0 acc i n L E U;
    [rewrite lookup_nil in L; discriminate|].
  simpl. destruct i as [|i]; simpl in L.
  - injection L as ->. rewrite save_from_int_other.
    + rewrite save_node_int, E, lookup_insert_eq. f_equal. lia.
    + intros j nj Lj Ej Hk. specialize (U (S j) nj Lj Ej Hk). discriminate.
  - rewrite (IH (S p0) _ i n L E).
    + f_equal. lia.
    + intros j nj Lj Ej Hk. specialize (U (S j) nj Lj Ej Hk). lia.
Qed.

Lemma vmap_set_elem k v m k' p :
  (k', p) ∈ vmap_set k v m -> (k', p) ∈ m \/ (k' = k /\ p = v).
Proof.
  induction m as [|[k0 v0] m IH]; simpl.
  - intros H. apply list_elem_of_singleton in H. injection H as -> ->. auto.
  - destruct (op_eqb k0 k) eqn:E.
    + apply op_eqb_eq in E as ->.
      intros [H|H]%elem_of_cons; [injection H as -> ->; auto|].
      left. right. exact H.
    + intros [H|H]%elem_of_cons; [rewrite H; left; left|].
      apply IH in H as [H|H]; [left; right; exact H|auto].
Qed.

Lemma save_from_var_sound ns : forall p0 acc o q,
  (o, q) ∈ newVarInstances (save_from p0 ns acc) ->
  (o, q) ∈ newVarInstances acc
  \/ exists i n, q = (p0 + i)%nat /\ ns !! i = Some n /\ marked n = false
                 /\ op n = o /\ is_var o = true.
Proof.
  induction ns as [|n ns IH]; intros p0 acc o q H; simpl in H; [auto|].
  apply IH in H as [H|(i & n' & -> & L & He)].
  - unfold save_node in H. destruct (marked n) eqn:Em; [auto|].
    destruct (op_eqb (op n) Const); simpl in H;
      [destruct (type_eqb (type n) Float); auto|].
    destruct (is_var (op n)) eqn:Ev; simpl in H; [|auto].
    apply vmap_set_elem in H as [H|[-> ->]]; [auto|].
    right. exists 0%nat, n. split; [lia|]. split; [reflexivity|]. auto.
  - right. exists (S i), n'. split; [lia|]. auto.
Qed.

Lemma save_from_float_sound ns : forall p0 acc k q,
  (k, q) ∈ newFloatInstances (save_from p0 ns acc) ->
  (exists k', (k', q) ∈ newFloatInstances acc)
  \/ exists i n, q = (p0 + i)%nat /\ ns !! i = Some n /\ marked n = false
                 /\ op n = Const /\ type n = Float.
Proof.
  induction ns as [|n ns IH]; intros p0 acc k q H; simpl in H; [eauto|].
  apply IH in H as [(k' & H)|(i & n' & -> & L & He)].
  - unfold save_node in H. destruct (marked n) eqn:Em; [eauto|].
    destruct (op_eqb (op n) Const) eqn:Eo; simpl in H.
    + destruct (type_eqb (type n) Float) eqn:Et; simpl in H; [|eauto].
      apply fmap_insert_elem in H as [->|H]; [|eauto].
      right. exists 0%nat, n. split; [lia|]. split; [reflexivity|].
      split; [exact Em|]. split; [apply op_eqb_eq, Eo|apply type_eqb_eq, Et].
    + destruct (is_var (op n)); simpl in H; eauto.
  - right. exists (S i), n'. split; [lia|]. auto.
Qed.

Lemma same_but_marks_node s s' q n' :
  same_but_marks s s' -> allNodes s' !! q = Some n' ->
  exists n, allNodes s !! q = Some n /\ type n = type n' /\ op n = op n'
            /\ inputs n = inputs n' /\ outputs n = outputs n'
            /\ ival n = ival n'.
Proof.
  intros E L.
  destruct (same_but_marks_lookup _ _ _ _ (same_but_marks_sym _ _ E) L)
    as (n & Ln & Hn).
  exists n. split; [exact Ln|].
  apply set_marked_eq in Hn. intuition.
Qed.

(** After [collectGarbage] the tables of instances name kept nodes only:
    the table of [int] constants has exactly the kept [Int] constants,
    each under its value, every entry of the table of [float] constants
    is a kept [Float] constant, and every entry of the table of variables
    is a kept node with that variable as its opcode. *)
Theorem collectGarbage_tables fuel saved s sw s' :
  reachable s -> collectGarbage fuel saved s = Ok sw s' ->
  (forall k q, newIntInstances sw !! k = Some q
     <-> q ∈ newAllNodes sw
         /\ exists n, allNodes s !! q = Some n /\ op n = Const
                      /\ type n = Int /\ ival n = k)
  /\ (forall k q, (k, q) ∈ newFloatInstances sw ->
        q ∈ newAllNodes sw
        /\ exists n, allNodes s !! q = Some n /\ op n = Const
                     /\ type n = Float)
  /\ (forall o q, (o, q) ∈ newVarInstances sw ->
        q ∈ newAllNodes sw /\ is_var o = true
        /\ exists n, allNodes s !! q = Some n /\ op n = o).
Proof.
  intros R H. apply collectGarbage_inv in H as [E ->].
  pose proof (reachable_wf _ R) as W. pose proof (reachable_shape _ R) as Sh.
  assert (Int_entry : forall q n', allNodes s' !! q = Some n' ->
    int_entry n' = true ->
    unmarked s' q
    /\ exists n, allNodes s !! q = Some n /\ op n = Const /\ type n = Int
                 /\ ival n = ival n').
  { intros q n' L He. unfold int_entry in He.
    apply andb_true_iff in He as [He Ht]. apply andb_true_iff in He as [Hm Ho].
    apply negb_true_iff in Hm, Ht. apply op_eqb_eq in Ho.
    split; [exists n'; auto|].
    destruct (same_but_marks_node _ _ _ _ E L) as (n & Ln & T & O & _ & _ & I).
    exists n. split; [exact Ln|]. rewrite O, I. split; [exact Ho|].
    split; [|reflexivity].
    destruct (sh_const _ Sh _ _ Ln ltac:(congruence)) as [_ [Hi|Hf]];
      [exact Hi|].
    rewrite <- T, Hf in Ht. discriminate. }
  split; [|split].
  - intros k q. rewrite kept_unmarked. split.
    + intros Hk. apply save_from_int_sound in Hk as [Hk|(i & n' & -> & L & He & <-)].
      { simpl in Hk. rewrite lookup_empty in Hk. discriminate. }
      exact (Int_entry _ _ L He).
    + intros ((n' & L' & Hm) & n & L & Ho & Ht & <-).
      destruct (same_but_marks_node _ _ _ _ E L') as (n0 & L0 & T & O & _ & _ & I).
      rewrite L in L0. injection L0 as <-.
      assert (int_entry n' = true) as He.
      { unfold int_entry. rewrite Hm, <- O, Ho, <- T, Ht. reflexivity. }
      rewrite I.
      rewrite (save_from_int_complete (allNodes s') 0 empty_swept q n' L' He);
        [reflexivity|].
      intros j nj Lj Ej Hj.
      destruct (Int_entry _ _ Lj Ej) as (_ & n1 & L1 & O1 & T1 & I1).
      pose proof (wf_int_all _ W _ _ L1 O1 T1) as A.
      pose proof (wf_int_all _ W _ _ L Ho Ht) as B.
      rewrite I1, Hj, <- I, B in A. congruence.
  - intros k q Hk. rewrite kept_unmarked.
    apply save_from_float_sound in Hk as [(k' & Hk)|(i & n' & -> & L & Hm & Ho & Ht)].
    { simpl in Hk. inversion Hk. }
    split; [exists n'; auto|].
    destruct (same_but_marks_node _ _ _ _ E L) as (n & Ln & T & O & _).
    exists n. split; [exact Ln|]. split; congruence.
  - intros o q Hk. rewrite kept_unmarked.
    apply save_from_var_sound in Hk as [Hk|(i & n' & -> & L & Hm & Ho & Hv)].
    { simpl in Hk. inversion Hk. }
    split; [exists n'; auto|]. split; [exact Hv|].
    destruct (same_but_marks_node _ _ _ _ E L) as (n & Ln & T & O & _).
    exists n. split; [exact Ln|]. congruence.
Qed.

(** [collectGarbage] does not prune the [outputs] of the nodes it keeps:
    a kept node still lists each consumer that was not kept. *)
Theorem collectGarbage_leaves_outputs fuel saved s p q :
  reachable s -> Forall (valid s) saved -> (length (allNodes s) <= fuel)%nat ->
  (exists r, r ∈ saved /\ descendant s r p) ->
  consumes s q p ->
  ~ (exists r, r ∈ saved /\ descendant s r q) ->
  exists sw s' n',
    collectGarbage fuel saved s = Ok sw s'
    /\ p ∈ newAllNodes sw /\ (q ∉ newAllNodes sw)
    /\ allNodes s' !! p = Some n' /\ q ∈ outputs n'.
Proof.
  intros R V Hf Hp Hc Hq.
  destruct (collectGarbage_run fuel saved s (reachable_wf _ R) V Hf)
    as (s' & Hr & E & U).
  assert (exists n, allNodes s !! p = Some n /\ q ∈ outputs n) as (n & L & Ho).
  { destruct Hp as (r & _ & Hd).
    assert (valid s p) as Vp.
    { destruct Hc as (nq & Lq & Hi).
      pose proof (wf_inputs _ (reachable_wf _ R) _ _ Lq) as F.
      rewrite Forall_forall in F. specialize (F _ Hi).
      apply valid_lookup in Lq. unfold valid in *. lia. }
    destruct (valid_is_Some _ _ Vp) as [n L]. exists n. split; [exact L|].
    apply (sh_outputs _ (reachable_shape _ R) _ _ q L). exact Hc. }
  destruct (same_but_marks_lookup _ _ _ _ E L) as (n' & L' & Hn).
  eexists _, s', n'. split; [exact Hr|].
  split; [apply kept_unmarked, U, Hp|].
  split; [intros H; apply kept_unmarked, U in H; exact (Hq H)|].
  split; [exact L'|].
  apply set_marked_eq in Hn as (_ & _ & _ & -> & _). exact Ho.
Qed.

(** ** Rewriting adds no dependence *)

Lemma good_reachable s : reachable s -> good s.
Proof. intros R. split; [apply reachable_wf, R|apply reachable_shape, R]. Qed.

Lemma free_ext f s s' p : ext s s' -> free f s p -> free f s' p.
Proof.
  intros E [V H]. split; [eapply ext_valid; eassumption|].
  rewrite (ext_deps_at _ _ _ E V). exact H.
Qed.

Lemma free_input f s p n i :
  good s -> free f s p -> allNodes s !! p = Some n -> i ∈ inputs n ->
  free f s i.
Proof.
  intros [W Sh] [V H] L Hi. split.
  - pose proof (wf_inputs _ W _ _ L) as F. rewrite Forall_forall in F.
    specialize (F _ Hi). unfold valid in *. lia.
  - unfold deps_at in H. rewrite L, (sh_deps _ Sh _ _ L), has_deps_of in H.
    apply orb_false_iff in H as [_ H].
    destruct (has (deps_at s i) f) eqn:E; [|reflexivity].
    assert (existsb (fun i => has (deps_at s i) f) (inputs n) = true) as C.
    { apply existsb_exists. exists i. split; [apply list_elem_of_In, Hi|exact E]. }
    congruence.
Qed.

Lemma free_const f s p n :
  good s -> allNodes s !! p = Some n -> op n = Const -> free f s p.
Proof.
  intros [W _] L Ho. split; [eapply valid_lookup, L|].
  unfold deps_at. rewrite L, (wf_const _ W _ _ L Ho). reflexivity.
Qed.

Lemma free_node f s p n :
  good s -> allNodes s !! p = Some n -> has (self_dep (op n)) f = false ->
  Forall (free f s) (inputs n) -> free f s p.
Proof.
  intros [W Sh] L Ho F. split; [eapply valid_lookup, L|].
  unfold deps_at. rewrite L, (sh_deps _ Sh _ _ L), has_deps_of, Ho. simpl.
  destruct (existsb _ _) eqn:E; [|reflexivity].
  apply existsb_exists in E as (i & Hi & E). apply list_elem_of_In in Hi.
  rewrite Forall_forall in F. destruct (F _ Hi) as [_ C]. congruence.
Qed.

Lemma prim_good_int v s r s' :
  good s -> make_int v s = Ok r s' ->
  forall f, good s' /\ ext s s' /\ free f s' r.
Proof.
  intros [W Sh] H f.
  destruct (make_int_ok _ _ _ _ W H) as (W' & E & V & _ & n & L & _ & Ho & _).
  assert (good s') as G.
  { split; [exact W'|]. eapply prim_shape; [exact Sh|eapply prim_int, H]. }
  split; [exact G|]. split; [exact E|]. eapply free_const; eassumption.
Qed.

Lemma prim_good_float v s r s' :
  good s -> make_float v s = Ok r s' ->
  forall f, good s' /\ ext s s' /\ free f s' r.
Proof.
  intros [W Sh] H f.
  destruct (make_float_ok _ _ _ _ W H) as (W' & E & V & _ & n & L & _ & Ho).
  assert (good s') as G.
  { split; [exact W'|]. eapply prim_shape; [exact Sh|eapply prim_float, H]. }
  split; [exact G|]. split; [exact E|]. eapply free_const; eassumption.
Qed.

Ltac free_tac :=
  match goal with
  | H : free ?f ?s ?x |- free ?f ?s' ?x =>
      first [ exact H | apply (free_ext f s s'); [solve [ext_tac]|exact H] ]
  end.

Ltac frees_tac := repeat (constructor; [free_tac|]); try constructor.

Ltac fin := split; [assumption|split; [ext_tac|try free_tac]].

Lemma Forall_free_ext f s s' l :
  ext s s' -> Forall (free f s) l -> Forall (free f s') l.
Proof.
  intros E F. eapply Forall_impl; [exact F|]. intros p. apply free_ext, E.
Qed.

Lemma Forall_free_insert f s l i p :
  Forall (free f s) l -> free f s p -> Forall (free f s) (<[i := p]> l).
Proof. intros F H. apply Forall_insert; assumption. Qed.

Lemma Forall_free_lookup f s l i p :
  Forall (free f s) l -> l !! i = Some p -> free f s p.
Proof.
  intros F L. rewrite Forall_forall in F. apply F.
  eapply list_elem_of_lookup_2, L.
Qed.

Ltac frees_from :=
  match goal with
  | H : Forall (free ?f ?s) ?l |- Forall (free ?f ?s') ?l =>
      first [ exact H
            | apply (Forall_free_ext f s s'); [solve [ext_tac]|exact H] ]
  end.

Ltac free_at :=
  match goal with
  | H : Forall (free ?f ?s) ?l, L : ?l !! _ = Some ?p |- free ?f ?s' ?p =>
      first [ exact (Forall_free_lookup _ _ _ _ _ H L)
            | apply (free_ext f s s');
              [solve [ext_tac]|exact (Forall_free_lookup _ _ _ _ _ H L)] ]
  end.

Section Free.

Variable f : Z.
Variable mk : OpCode -> list ptr -> Z -> float -> M ptr.
Variable fuel : nat.
Hypothesis Hfree : frees_mk f mk.

Ltac adv :=
  repeat match goal with
         | G : good ?s, H : make_int _ ?s = Ok _ _ |- _ =>
             let G' := fresh "G" in
             let E := fresh "E" in
             let F := fresh "F" in
             destruct (prim_good_int _ _ _ _ G H f) as (G' & E & F); clear H
         | G : good ?s, H : make_float _ ?s = Ok _ _ |- _ =>
             let G' := fresh "G" in
             let E := fresh "E" in
             let F := fresh "F" in
             destruct (prim_good_float _ _ _ _ G H f) as (G' & E & F); clear H
         | G : good ?s, H : mk ?o ?ins _ _ ?s = Ok _ _ |- _ =>
             let G' := fresh "G" in
             let E := fresh "E" in
             let F := fresh "F" in
             destruct (Hfree o ins _ _ s _ _ G ltac:(reflexivity)
                         ltac:(frees_tac) H) as (G' & E & F); clear H
         end.

Lemma as_body_free t p s r s' :
  good s -> free f s p -> as_body mk t p s = Ok r s' ->
  good s' /\ ext s s' /\ free f s' r.
Proof.
  intros G F H. unfold as_body in H. mrun H; adv; fin.
Qed.

Lemma coerce_free t i ins s ins' s' :
  good s -> Forall (free f s) ins -> coerce mk t i ins s = Ok ins' s' ->
  good s' /\ ext s s' /\ Forall (free f s') ins'.
Proof.
  intros G F H. unfold coerce in H.
  apply bind_inv in H as (p & s1 & H1 & H). apply at_inv in H1 as [-> L].
  apply bind_inv in H as (p' & s1 & H1 & H). apply pure_inv in H as [-> ->].
  assert (free f s p) as Fp.
  { rewrite Forall_forall in F. apply F. eapply list_elem_of_lookup_2, L. }
  destruct (as_body_free _ _ _ _ _ G Fp H1) as (G' & E & F').
  split; [exact G'|]. split; [exact E|].
  apply Forall_free_insert; [eapply Forall_free_ext; eassumption|exact F'].
Qed.


Ltac adv2 :=
  repeat first
    [ progress adv
    | match goal with
      | G : good ?s, H : coerce mk _ _ ?ins ?s = Ok _ _ |- _ =>
          let G' := fresh "G" in
          let E := fresh "E" in
          let F := fresh "F" in
          destruct (coerce_free _ _ ins s _ _ G ltac:(frees_from) H)
            as (G' & E & F); clear H
      end ].

Lemma infer_free opcode ins s fl s' :
  good s -> Forall (free f s) ins -> infer mk opcode ins s = Ok fl s' ->
  good s' /\ ext s s'
  /\ match fl with
     | Return p => free f s' p
     | Continue ti => Forall (free f s') (snd ti)
     end.
Proof.
  intros G F H. unfold infer in H.
  destruct opcode; mrun H; same_state; adv2;
    (split; [assumption|split; [ext_tac|simpl; first [frees_from|free_at]]]).
Qed.


Ltac derive_lookups :=
  repeat match goal with
         | F : Forall (free ?g ?s) ?l, L : ?l !! _ = Some ?p |- _ =>
             lazymatch goal with
             | H : free g s p |- _ => fail
             | _ => pose proof (Forall_free_lookup _ _ _ _ _ F L)
             end
         end.

Lemma fold_free opcode t ins iv s fl s' :
  good s -> fold opcode t ins iv s = Ok fl s' ->
  good s' /\ ext s s'
  /\ match fl with Return p => free f s' p | Continue _ => True end.
Proof.
  intros G H. unfold fold, ret_int, ret_float in H.
  mrun H; same_state; adv;
    (split; [assumption|split; [ext_tac|first [free_tac|exact I]]]).
Qed.

Lemma pick_free inner i j ins s x a b s' :
  good s -> Forall (free f s) ins ->
  pick inner i j ins s = Ok (Some (x, a, b)) s' ->
  free f s x /\ free f s a /\ free f s b.
Proof.
  intros G F H. unfold pick in H. mrun H; derive_lookups;
    match goal with
    | E : Some _ = Some _ |- _ => injection E as <- <- <-
    | E : Some _ = None |- _ => discriminate E
    | E : None = Some _ |- _ => discriminate E
    end;
    (split; [|split]); try assumption;
    match goal with
    | L : allNodes s !! ?p = Some ?n, Hp : free f s ?p,
      Li : inputs ?n !! _ = Some ?y |- free f s ?y =>
        apply (free_input f s p n y G Hp L);
        eapply list_elem_of_lookup_2, Li
    end.
Qed.

Lemma worth_free x a b s x' a' b' s' :
  free f s x -> free f s a -> free f s b ->
  worth (x, a, b) s = Ok (Some (x', a', b')) s' ->
  s' = s /\ free f s x' /\ free f s a' /\ free f s b'.
Proof.
  intros Fx Fa Fb H. unfold worth in H. mrun H;
    repeat match goal with
           | E : (_, _, _, _) = (_, _, _, _) |- _ => injection E as <- <- <- <-
           | E : Some _ = Some _ |- _ => injection E as <- <- <-
           | E : Some _ = None |- _ => discriminate E
           | E : None = Some _ |- _ => discriminate E
           | E : (if ?c then _ else _) = _ |- _ =>
               destruct c; injection E as <- <- <- <-
           end; (split; [reflexivity|split; [|split]]); assumption.
Qed.


Ltac adv3 := derive_lookups; adv2.

Ltac fin_flow :=
  split; [assumption|split; [ext_tac|first [free_tac|free_at|exact I]]].

Lemma hoist_divide_free ins s fl s' :
  good s -> Forall (free f s) ins -> hoist_divide mk ins s = Ok fl s' ->
  good s' /\ ext s s'
  /\ match fl with Return p => free f s' p | Continue _ => True end.
Proof.
  intros G F H. unfold hoist_divide in H. mrun H; adv3; fin_flow.
Qed.

Lemma picked_free inner i j ins s fl s'
    (k : ptr -> ptr -> ptr -> M (flow unit)) :
  good s -> Forall (free f s) ins ->
  (forall x a b s1 fl1 s1', good s1 -> ext s s1 ->
     free f s1 x -> free f s1 a -> free f s1 b ->
     k x a b s1 = Ok fl1 s1' ->
     good s1' /\ ext s1 s1'
     /\ match fl1 with Return p => free f s1' p | Continue _ => True end) ->
  (let* xab := pick inner i j ins in
   match xab with
   | Some xab =>
       let* w := worth xab in
       match w with
       | Some (x, a, b) => k x a b
       | None => pure (Continue tt)
       end
   | None => pure (Continue tt)
   end) s = Ok fl s' ->
  good s' /\ ext s s'
  /\ match fl with Return p => free f s' p | Continue _ => True end.
Proof.
  intros G F Hk H.
  apply bind_inv in H as (xab & s1 & Hp & H).
  pose proof (pick_inv _ _ _ _ _ _ _ Hp) as ->.
  destruct xab as [[[x a] b]|].
  - destruct (pick_free _ _ _ _ _ _ _ _ _ G F Hp) as (Fx & Fa & Fb).
    apply bind_inv in H as (w & s2 & Hw & H).
    destruct w as [[[x' a'] b']|].
    + destruct (worth_free _ _ _ _ _ _ _ _ Fx Fa Fb Hw) as (-> & Fx' & Fa' & Fb').
      destruct (Hk _ _ _ _ _ _ G (ext_refl _) Fx' Fa' Fb' H) as (G' & E & Hr).
      auto.
    + apply worth_inv in Hw as [-> _]. apply pure_inv in H as [-> ->].
      split; [exact G|]. split; [apply ext_refl|exact I].
  - apply pure_inv in H as [-> ->].
    split; [exact G|]. split; [apply ext_refl|exact I].
Qed.

Lemma distribute_free ins s fl s' :
  good s -> Forall (free f s) ins -> distribute mk ins s = Ok fl s' ->
  good s' /\ ext s s'
  /\ match fl with Return p => free f s' p | Continue _ => True end.
Proof.
  intros G F H. unfold distribute in H.
  eapply (picked_free Plus 1 0 ins s fl s'
            (fun x a b => let* l := mk Times [x; b] 0 fzero in
                          let* r := mk Times [a; b] 0 fzero in
                          let* s := mk Plus [l; r] 0 fzero in
                          pure (Return s)) G F); [|exact H].
  clear - Hfree. intros x a b s1 fl1 s1' G _ Fx Fa Fb H. mrun H; adv; fin_flow.
Qed.

Lemma reassociate_free ins s fl s' :
  good s -> Forall (free f s) ins -> reassociate mk ins s = Ok fl s' ->
  good s' /\ ext s s'
  /\ match fl with Return p => free f s' p | Continue _ => True end.
Proof.
  intros G F H. unfold reassociate in H.
  eapply (picked_free Times 0 1 ins s fl s'
            (fun x a b => let* r := mk Times [a; b] 0 fzero in
                          let* s := mk Times [x; r] 0 fzero in
                          pure (Return s)) G F); [|exact H].
  clear - Hfree. intros x a b s1 fl1 s1' G _ Fx Fa Fb H. mrun H; adv; fin_flow.
Qed.


Ltac derive_inputs :=
  repeat match goal with
         | G : good ?s, L : allNodes ?s !! ?p = Some ?n, Hp : free ?g ?s ?p,
           Li : inputs ?n !! _ = Some ?y |- _ =>
             lazymatch goal with
             | H : free g s y |- _ => fail
             | _ => pose proof (free_input g s p n y G Hp L
                                  (list_elem_of_lookup_2 _ _ _ Li))
             end
         end.

Ltac adv4 := derive_lookups; derive_inputs; adv2.

Lemma times_plusimm_free ins s fl s' :
  good s -> Forall (free f s) ins -> times_plusimm mk ins s = Ok fl s' ->
  good s' /\ ext s s'
  /\ match fl with Return p => free f s' p | Continue _ => True end.
Proof.
  intros G F H. unfold times_plusimm in H. mrun H; adv4; fin_flow.
Qed.

Lemma reduce_free opcode ins s fl s' :
  good s -> Forall (free f s) ins -> reduce mk opcode ins s = Ok fl s' ->
  good s' /\ ext s s'
  /\ match fl with Return p => free f s' p | Continue _ => True end.
Proof.
  intros G F H. unfold reduce in H.
  destruct opcode;
    try (apply pure_inv in H as [-> ->];
         split; [exact G|split; [apply ext_refl|exact I]]).
  - mrun H. adv4. fin_flow.
  - unfold chain in H.
    apply bind_inv in H as (r1 & s1 & H1 & H).
    destruct (distribute_free _ _ _ _ G F H1) as (G1 & E1 & R1).
    destruct r1 as [p|[]]; [apply pure_inv in H as [-> ->]; auto|].
    apply bind_inv in H as (r2 & s2 & H2 & H).
    destruct (times_plusimm_free _ _ _ _ G1
                (Forall_free_ext _ _ _ _ E1 F) H2) as (G2 & E2 & R2).
    destruct r2 as [p|[]].
    { apply pure_inv in H as [-> ->]. split; [exact G2|].
      split; [ext_tac|exact R2]. }
    destruct (reassociate_free _ _ _ _ G2
                (Forall_free_ext _ _ _ _ (ext_trans _ _ _ E1 E2) F) H)
      as (G3 & E3 & R3).
    split; [exact G3|]. split; [ext_tac|exact R3].
  - apply (hoist_divide_free _ _ _ _ G F H).
Qed.


Lemma Forall_terms_ext s s' (l : list term) :
  ext s s' -> Forall (fun tm => free f s (fst tm)) l ->
  Forall (fun tm => free f s' (fst tm)) l.
Proof.
  intros E F. eapply Forall_impl; [exact F|]. intros tm. apply free_ext, E.
Qed.

Lemma collectSum_free n : forall p pos terms s terms' s',
  good s -> free f s p -> Forall (fun tm : term => free f s (fst tm)) terms ->
  collectSum n p pos terms s = Ok terms' s' ->
  good s' /\ ext s s' /\ Forall (fun tm : term => free f s' (fst tm)) terms'.
Proof.
  induction n as [|n IH]; intros p pos terms s terms' s' G Fp Ft H;
    [discriminate|].
  rewrite collectSum_S in H.
  apply bind_inv in H as (nd & s0 & Hg & H). apply get_inv in Hg as [-> L].
  assert (Hin : forall i y, inputs nd !! i = Some y -> free f s y).
  { intros i y Li. apply (free_input f s p nd y G Fp L).
    eapply list_elem_of_lookup_2, Li. }
  assert (Leaf : forall t0 s0, pure (terms ++ [(p, pos)]) s = Ok t0 s0 ->
    good s0 /\ ext s s0 /\ Forall (fun tm : term => free f s0 (fst tm)) t0).
  { intros t0 s0 H0. apply pure_inv in H0 as [-> ->]. split; [exact G|].
    split; [apply ext_refl|]. apply Forall_app. split; [exact Ft|].
    constructor; [exact Fp|constructor]. }
  destruct (op nd); try (apply Leaf; exact H).
  - apply bind_inv in H as (i0 & s0 & H0 & H). apply at_inv in H0 as [-> L0].
    apply bind_inv in H as (t1 & s1 & H1 & H).
    destruct (IH _ _ _ _ _ _ G (Hin _ _ L0) Ft H1) as (G1 & E1 & F1).
    apply bind_inv in H as (i1 & s2 & H2 & H). apply at_inv in H2 as [-> L1].
    destruct (IH _ _ _ _ _ _ G1 (free_ext _ _ _ _ E1 (Hin _ _ L1)) F1 H)
      as (G2 & E2 & F2).
    split; [exact G2|]. split; [ext_tac|exact F2].
  - apply bind_inv in H as (i0 & s0 & H0 & H). apply at_inv in H0 as [-> L0].
    apply bind_inv in H as (t1 & s1 & H1 & H).
    destruct (IH _ _ _ _ _ _ G (Hin _ _ L0) Ft H1) as (G1 & E1 & F1).
    apply bind_inv in H as (i1 & s2 & H2 & H). apply at_inv in H2 as [-> L1].
    destruct (IH _ _ _ _ _ _ G1 (free_ext _ _ _ _ E1 (Hin _ _ L1)) F1 H)
      as (G2 & E2 & F2).
    split; [exact G2|]. split; [ext_tac|exact F2].
  - apply bind_inv in H as (i0 & s0 & H0 & H). apply at_inv in H0 as [-> L0].
    apply bind_inv in H as (t1 & s1 & H1 & H).
    destruct (IH _ _ _ _ _ _ G (Hin _ _ L0) Ft H1) as (G1 & E1 & F1).
    apply bind_inv in H as (c & s2 & H2 & H). apply pure_inv in H as [-> ->].
    destruct (prim_good_int _ _ _ _ G1 H2 f) as (G2 & E2 & F2).
    split; [exact G2|]. split; [ext_tac|].
    apply Forall_app. split; [eapply Forall_terms_ext; eassumption|].
    constructor; [exact F2|constructor].
Qed.

Lemma split_terms_free terms : forall s cn s',
  Forall (fun tm : term => free f s (fst tm)) terms ->
  split_terms terms s = Ok cn s' ->
  Forall (fun tm : term => free f s (fst tm)) (fst cn)
  /\ Forall (fun tm : term => free f s (fst tm)) (snd cn).
Proof.
  induction terms as [|tm terms IH]; simpl; intros s cn s' F H.
  - apply pure_inv in H as [-> _]. split; constructor.
  - apply bind_inv in H as (nd & s0 & Hg & H). apply get_inv in Hg as [-> L].
    apply bind_inv in H as (cn0 & s0 & H0 & H).
    pose proof (split_terms_inv _ _ _ _ H0) as ->.
    inversion F as [|? ? Ftm F']; subst.
    destruct (IH _ _ _ F' H0) as [F1 F2].
    destruct (op_eqb (op nd) Const); apply pure_inv in H as [-> _]; simpl;
      split; try assumption; constructor; assumption.
Qed.

Lemma with_levels_free terms : forall s lv s',
  Forall (fun tm : term => free f s (fst tm)) terms ->
  with_levels terms s = Ok lv s' ->
  Forall (fun x : Z * term => free f s (fst (snd x))) lv.
Proof.
  induction terms as [|tm terms IH]; simpl; intros s lv s' F H.
  - apply pure_inv in H as [-> _]. constructor.
  - apply bind_inv in H as (nd & s0 & Hg & H). apply get_inv in Hg as [-> L].
    apply bind_inv in H as (r & s0 & H0 & H).
    pose proof (proj1 (with_levels_inv _ _ _ _ H0)) as ->.
    apply pure_inv in H as [-> _].
    inversion F as [|? ? Ftm F']; subst.
    constructor; [exact Ftm|]. eapply IH; eassumption.
Qed.

Lemma sum_terms_free p s ct s' :
  good s -> free f s p -> sum_terms fuel p s = Ok ct s' ->
  good s' /\ ext s s'
  /\ Forall (fun tm : term => free f s' (fst tm)) (fst ct)
  /\ Forall (fun tm : term => free f s' (fst tm)) (snd ct).
Proof.
  intros G Fp H. unfold sum_terms in H.
  apply bind_inv in H as (terms & s1 & Hc & H).
  destruct (collectSum_free _ _ _ _ _ _ _ G Fp (Forall_nil_2 _) Hc)
    as (G1 & E1 & F1).
  apply bind_inv in H as (cn & s2 & Hs & H).
  pose proof (split_terms_inv _ _ _ _ Hs) as ->.
  destruct (split_terms_free _ _ _ _ F1 Hs) as [Fc Fn].
  apply bind_inv in H as (lv & s3 & Hl & H).
  pose proof (proj1 (with_levels_inv _ _ _ _ Hl)) as ->.
  pose proof (with_levels_free _ _ _ _ Fn Hl) as Fl.
  apply pure_inv in H as [-> ->]. split; [exact G1|]. split; [exact E1|].
  split; [exact Fc|]. simpl.
  apply Forall_map. apply swap_sort_Forall. exact Fl.
Qed.


Lemma rebuild_free rest : forall t tPos s acc s',
  good s -> free f s t -> Forall (fun tm : term => free f s (fst tm)) rest ->
  rebuild mk rest t tPos s = Ok acc s' ->
  good s' /\ ext s s' /\ free f s' (fst acc).
Proof.
  induction rest as [|[nx np] rest IH]; simpl; intros t tPos s acc s' G Ft Fr H.
  - apply pure_inv in H as [-> ->]. split; [exact G|].
    split; [apply ext_refl|exact Ft].
  - inversion Fr as [|? ? Fn Fr']; subst. simpl in Fn.
    destruct (eqb tPos np); [|destruct tPos];
      apply bind_inv in H as (t1 & s1 & H1 & H);
      adv;
      match goal with
      | G1 : good s1, E1 : ext s s1, F1 : free f s1 t1 |- _ =>
          destruct (IH _ _ _ _ _ G1 F1 (Forall_terms_ext _ _ _ E1 Fr') H)
            as (G2 & E2 & F2)
      end;
      (split; [exact G2|split; [ext_tac|exact F2]]).
Qed.

Lemma rebalanceSum_body_free p s r s' :
  good s -> free f s p -> rebalanceSum_body mk fuel p s = Ok r s' ->
  good s' /\ ext s s' /\ free f s' r.
Proof.
  intros G Fp H. unfold rebalanceSum_body in H.
  apply bind_inv in H as (n & s0 & Hg & H). apply get_inv in Hg as [-> L].
  destruct (negb (is_sum (op n))).
  { apply pure_inv in H as [-> ->]. split; [exact G|].
    split; [apply ext_refl|exact Fp]. }
  apply bind_inv in H as (ct & s1 & Hs & H). cbv zeta in H.
  destruct (sum_terms_free _ _ _ _ G Fp Hs) as (G1 & E1 & Fc & Fn).
  apply bind_inv in H as (first & s2 & Ha & H). apply at_inv in Ha as [-> La].
  assert (free f s1 (fst first)) as Ff.
  { rewrite Forall_forall in Fn. apply (Fn first).
    eapply list_elem_of_lookup_2, La. }
  assert (Forall (fun tm : term => free f s1 (fst tm)) (tail (snd ct))) as Ftl.
  { destruct (snd ct) as [|x l]; [constructor|].
    inversion Fn; assumption. }
  apply bind_inv in H as (t & s2 & Ht & H).
  assert (good s2 /\ ext s1 s2 /\ free f s2 t) as (G2 & E2 & F2).
  { destruct (type_eqb (type n) Float).
    - apply bind_inv in Ht as (c & s3 & Hc & Ht).
      apply float_sum_inv in Hc as ->.
      destruct (negb (feqb c fzero)).
      + apply bind_inv in Ht as (k & s3 & Hk & Ht).
        destruct (snd first); adv; fin.
      + apply pure_inv in Ht as [-> ->]. split; [exact G1|].
        split; [apply ext_refl|exact Ff].
    - apply pure_inv in Ht as [-> ->]. split; [exact G1|].
      split; [apply ext_refl|exact Ff]. }
  apply bind_inv in H as (acc & s3 & Hr & H).
  destruct (rebuild_free _ _ _ _ _ _ G2 F2
              (Forall_terms_ext _ _ _ E2 Ftl) Hr) as (G3 & E3 & F3).
  destruct (type_eqb (type n) Int).
  - apply bind_inv in H as (c & s4 & Hc & H).
    apply int_sum_inv in Hc as ->.
    destruct (negb (c =? 0)).
    + destruct (snd acc).
      * adv. fin.
      * apply bind_inv in H as (k & s4 & Hk & H). adv. fin.
    + apply pure_inv in H as [-> ->]. split; [exact G3|].
      split; [ext_tac|exact F3].
  - apply pure_inv in H as [-> ->]. split; [exact G3|].
    split; [ext_tac|exact F3].
Qed.

Lemma mapM_free {A} (g : A -> M ptr) (P : Store -> A -> Prop) l :
  (forall a s s', ext s s' -> P s a -> P s' a) ->
  (forall a s r s', good s -> P s a -> g a s = Ok r s' ->
     good s' /\ ext s s' /\ free f s' r) ->
  forall s rs s', good s -> Forall (P s) l -> mapM g l s = Ok rs s' ->
    good s' /\ ext s s' /\ Forall (free f s') rs.
Proof.
  intros HP Hg. induction l as [|a l IH]; simpl; intros s rs s' G F H.
  - apply pure_inv in H as [-> ->]. split; [exact G|].
    split; [apply ext_refl|constructor].
  - inversion F as [|? ? Fa F']; subst.
    apply bind_inv in H as (b & s1 & H1 & H).
    destruct (Hg _ _ _ _ G Fa H1) as (G1 & E1 & F1).
    apply bind_inv in H as (bs & s2 & H2 & H). apply pure_inv in H as [-> ->].
    destruct (IH _ _ _ G1 (Forall_impl _ _ _ F' (fun a => HP a _ _ E1)) H2)
      as (G2 & E2 & F2).
    split; [exact G2|]. split; [ext_tac|].
    constructor; [eapply free_ext; eassumption|exact F2].
Qed.

Lemma rebalance_inputs_free opcode ins s ins' s' :
  good s -> Forall (free f s) ins ->
  rebalance_inputs mk fuel opcode ins s = Ok ins' s' ->
  good s' /\ ext s s' /\ Forall (free f s') ins'.
Proof.
  intros G F H. unfold rebalance_inputs in H.
  destruct (negb (is_sum opcode)).
  - eapply (mapM_free _ (free f)); [|exact rebalanceSum_body_free|exact G|
                                   exact F|exact H].
    intros a s0 s0' E. apply free_ext, E.
  - apply pure_inv in H as [-> ->]. split; [exact G|].
    split; [apply ext_refl|exact F].
Qed.


Lemma variables_free opcode t s fl s' :
  good s -> has (self_dep opcode) f = false ->
  (is_var opcode || op_eqb opcode UnboundVar = true -> t = Int) ->
  variables opcode t s = Ok fl s' ->
  good s' /\ ext s s'
  /\ match fl with Return p => free f s' p | Continue _ => True end.
Proof.
  intros [W Sh] Hf Ht H.
  destruct (variables_ok _ _ _ _ _ W Ht H) as (W' & E & V).
  assert (good s') as G'.
  { split; [exact W'|]. eapply prims_shape; [exact Sh|].
    eapply variables_prims; [exact Ht|exact H]. }
  split; [exact G'|]. split; [exact E|].
  destruct fl as [p|]; [|exact I].
  assert (exists n, allNodes s' !! p = Some n /\ op n = opcode
                    /\ inputs n = []) as (n & L & Ho & Hi).
  { unfold variables in H. destruct (is_var opcode) eqn:Ev.
    - assert (vmap_find opcode (varInstances s') = Some p) as Hv.
      { mrun H.
        - match goal with E : Return _ = Return _ |- _ => injection E as <- end.
          assumption.
        - match goal with E : Return _ = Return _ |- _ => injection E as <- end.
          match goal with
          | H : register_var _ _ _ = Ok _ _ |- _ =>
              unfold register_var in H; injection H as ?; subst
          end.
          simpl. apply vmap_find_insert_same.
          match goal with
          | H : new_node _ _ _ _ _ _ = Ok _ _ |- _ =>
              unfold new_node in H; simpl in H; injection H as ? ?; subst
          end.
          simpl. assumption. }
      apply vmap_find_elem in Hv.
      destruct (wf_var _ W' _ _ Hv) as (n & L & Ho & _).
      exists n. split; [exact L|]. split; [exact Ho|].
      apply (sh_leaf _ (proj2 G') _ _ L). rewrite Ho, Ev. reflexivity.
    - destruct (op_eqb opcode UnboundVar) eqn:Eu; [|mrun H; congruence].
      apply bind_inv in H as (q & s1 & Hn & H). apply pure_inv in H as [H ->].
      injection H as ->.
      apply new_node_inv in Hn as (n & L & _ & Ho & Hi & _). eauto. }
  eapply free_node; [exact G'|exact L|rewrite Ho; exact Hf|].
  rewrite Hi. constructor.
Qed.

Lemma fuse_load_free opcode ins iv s fl s' :
  good s -> Forall (free f s) ins -> fuse_load mk opcode ins iv s = Ok fl s' ->
  good s' /\ ext s s'
  /\ match fl with Return p => free f s' p | Continue _ => True end.
Proof.
  intros G F H. unfold fuse_load in H. mrun H; adv4; fin_flow.
Qed.

Lemma fuse_times_free opcode t ins s fl s' :
  good s -> Forall (free f s) ins -> fuse_times mk opcode t ins s = Ok fl s' ->
  good s' /\ ext s s'
  /\ match fl with Return p => free f s' p | Continue _ => True end.
Proof.
  intros G F H. unfold fuse_times in H. mrun H; adv4; fin_flow.
Qed.

Lemma cse_free opcode t ins iv fv s p s' :
  good s -> has (self_dep opcode) f = false -> Forall (free f s) ins ->
  cse opcode t ins iv fv s = Ok (Some p) s' ->
  s' = s /\ free f s p.
Proof.
  intros G Hf F H. apply cse_inv in H as [-> H]. split; [reflexivity|].
  destruct (H p eq_refl) as (n & L & Hs).
  apply same_node_inv in Hs as (_ & Ho & _ & Hi).
  eapply free_node; [exact G|exact L|rewrite Ho; exact Hf|rewrite Hi; exact F].
Qed.


Hypothesis Hsound : sound_mk mk.
Hypothesis Hprims : prims_mk mk.

Lemma make_body_free : frees_mk f (make_body mk fuel).
Proof.
  intros opcode ins iv fv s r s' G Hf F H.
  assert (good s' /\ ext s s') as [G' E'].
  { destruct (make_body_ok mk fuel Hsound _ _ _ _ _ _ _ (proj1 G) H)
      as (W' & E' & _).
    split; [|exact E']. split; [exact W'|].
    eapply prims_shape; [exact (proj2 G)|].
    eapply make_body_prims; eassumption. }
  split; [exact G'|]. split; [exact E'|].
  unfold make_body in H.
  apply bind_inv in H as (f1 & s1 & H1 & H).
  destruct (infer_ok mk Hsound _ _ _ _ _ (proj1 G) H1) as (_ & _ & _ & Inf).
  destruct (infer_free _ _ _ _ _ G F H1) as (G1 & E1 & R1).
  destruct f1 as [p|[t ins1]].
  { apply pure_inv in H as [-> ->]. exact R1. }
  destruct Inf as (_ & _ & Ht). simpl in R1, Ht. cbv beta iota in H.
  simpl in H.
  apply bind_inv in H as (f2 & s2 & H2 & H).
  destruct (fold_free _ _ _ _ _ _ _ G1 H2) as (G2 & E2 & R2).
  destruct f2 as [p|[]]; [apply pure_inv in H as [-> ->]; exact R2|].
  apply bind_inv in H as (f3 & s3 & H3 & H).
  assert (Forall (free f s2) ins1) as F2 by frees_from.
  destruct (reduce_free _ _ _ _ _ G2 F2 H3) as (G3 & E3 & R3).
  destruct f3 as [p|[]]; [apply pure_inv in H as [-> ->]; exact R3|].
  apply bind_inv in H as (ins2 & s4 & H4 & H).
  assert (Forall (free f s3) ins1) as F3 by frees_from.
  destruct (rebalance_inputs_free _ _ _ _ _ G3 F3 H4) as (G4 & E4 & F4).
  apply bind_inv in H as (f5 & s5 & H5 & H).
  destruct (variables_free _ _ _ _ _ G4 Hf Ht H5) as (G5 & E5 & R5).
  destruct f5 as [p|[]]; [apply pure_inv in H as [-> ->]; exact R5|].
  apply bind_inv in H as (f6 & s6 & H6 & H).
  assert (Forall (free f s5) ins2) as F5 by frees_from.
  destruct (fuse_load_free _ _ _ _ _ _ G5 F5 H6) as (G6 & E6 & R6).
  destruct f6 as [p|[]]; [apply pure_inv in H as [-> ->]; exact R6|].
  apply bind_inv in H as (f7 & s7 & H7 & H).
  assert (Forall (free f s6) ins2) as F6 by frees_from.
  destruct (fuse_times_free _ _ _ _ _ _ G6 F6 H7) as (G7 & E7 & R7).
  destruct f7 as [p|[]]; [apply pure_inv in H as [-> ->]; exact R7|].
  apply bind_inv in H as (c & s8 & H8 & H).
  assert (Forall (free f s7) ins2) as F7 by frees_from.
  destruct c as [p|].
  - apply pure_inv in H as [-> ->].
    destruct (cse_free _ _ _ _ _ _ _ _ G7 Hf F7 H8) as [-> Fp]. exact Fp.
  - pose proof (proj1 (cse_inv _ _ _ _ _ _ _ _ H8)) as ->.
    destruct (new_node_inv _ _ _ _ _ _ _ _ H) as (n & L & _ & Ho & Hi & _).
    eapply free_node; [exact G'|exact L|rewrite Ho; exact Hf|].
    rewrite Hi.
    assert (ext s7 s') as E8.
    { unfold new_node in H.
      destruct (link_inputs _ _ _ _) as [[d ns]|] eqn:Lk; [|discriminate].
      injection H as _ <-. apply link_inputs_ok in Lk as [L1 _].
      split; simpl; auto. unfold cores. simpl. rewrite fmap_app, L1.
      apply prefix_app_r. reflexivity. }
    eapply Forall_free_ext; eassumption.
Qed.

End Free.

Lemma make_free f n : frees_mk f (make n).
Proof.
  induction n as [|n IH]; [intros ? ? ? ? ? ? ? _ _ _ H; discriminate H|].
  simpl. apply make_body_free; [exact IH|apply make_ok|apply make_prims].
Qed.

Lemma substitute_free n : forall p var val s r s',
  good s -> is_var var = true ->
  substitute n p var val s = Ok r s' ->
  good s' /\ ext s s' /\ free (self_dep var) s' r.
Proof.
  induction n as [|n IH]; intros p var val s r s' G Hv H; [discriminate|].
  rewrite substitute_S in H.
  apply bind_inv in H as (nd & s0 & Hg & H). apply get_inv in Hg as [-> L].
  destruct (op_eqb (op nd) var) eqn:Eo.
  { exact (prim_good_int _ _ _ _ G H _). }
  rewrite (var_dep_self _ Hv) in H.
  destruct (has (deps nd) (self_dep var)) eqn:Ed.
  - apply bind_inv in H as (newInputs & s1 & Hm & H).
    assert (Forall (valid s) (inputs nd)) as Vi.
    { pose proof (wf_inputs _ (proj1 G) _ _ L) as Fi.
      eapply Forall_impl; [exact Fi|]. intros i Hi. simpl in Hi.
      apply valid_lookup in L. unfold valid in *. lia. }
    destruct (mapM_free (self_dep var)
                (fun i => substitute n i var val) valid (inputs nd))
      with (s := s) (rs := newInputs) (s' := s1) as (G1 & E1 & F1);
      [|intros a s2 r2 s2' G2 _ H2; exact (IH _ _ _ _ _ _ G2 Hv H2)
       |exact G|exact Vi|exact Hm|].
    { intros a s2 s2' E. apply ext_valid, E. }
    assert (has (self_dep (op nd)) (self_dep var) = false) as Hs.
    { destruct (has (self_dep (op nd)) (self_dep var)) eqn:Es; [|reflexivity].
      apply self_dep_flag in Es; [|destruct var; discriminate].
      apply op_eqb_eq in Es. congruence. }
    destruct (make_free (self_dep var) n _ _ _ _ _ _ _ G1 Hs F1 H)
      as (G2 & E2 & F2).
    split; [exact G2|]. split; [ext_tac|exact F2].
  - apply pure_inv in H as [-> ->]. split; [exact G|].
    split; [apply ext_refl|]. split; [eapply valid_lookup, L|].
    unfold deps_at. rewrite L. exact Ed.
Qed.

(** In what [substitute] returns the variable occurs no more: the mask
    does not have its flag, and no node reached from the result has the
    variable as its opcode. *)
Theorem substitute_removes_the_variable n p var val s r s' :
  reachable s -> is_var var = true ->
  substitute n p var val s = Ok r s' ->
  has (deps_at s' r) (self_dep var) = false
  /\ forall d nd, descendant s' r d -> allNodes s' !! d = Some nd ->
       op nd <> var.
Proof.
  intros R Hv H.
  destruct (substitute_free _ _ _ _ _ _ _ (good_reachable _ R) Hv H)
    as ([_ Sh] & _ & [_ F]).
  split; [exact F|]. intros d nd Hd L Ho.
  assert (has (deps_at s' r) (self_dep var) = true) as C; [|congruence].
  apply (flag_exact s' r var Sh); [destruct var; discriminate|].
  exists d, nd. auto.
Qed.

Lemma not_free_cases f s opcode ins :
  Forall (valid s) ins ->
  has (self_dep opcode) f = true
  \/ Exists (fun i => has (deps_at s i) f = true) ins
  \/ (has (self_dep opcode) f = false /\ Forall (free f s) ins).
Proof.
  intros V. destruct (has (self_dep opcode) f); [auto|]. right.
  induction V as [|i ins Vi V IH].
  - right. split; [reflexivity|constructor].
  - destruct (has (deps_at s i) f) eqn:E.
    + left. left. exact E.
    + destruct IH as [IH|[_ IH]].
      * left. right. exact IH.
      * right. split; [reflexivity|]. constructor; [|exact IH].
        split; assumption.
Qed.

(** [make], with all its rewriting, invents no dependence: a flag in the
    mask of the node it returns is the flag of the opcode or is in the
    mask of one of the inputs given. *)
Theorem make_adds_no_dependence n opcode ins iv fv s r s' f :
  reachable s -> Forall (valid s) ins ->
  make n opcode ins iv fv s = Ok r s' ->
  has (deps_at s' r) f = true ->
  has (self_dep opcode) f = true
  \/ Exists (fun i => has (deps_at s i) f = true) ins.
Proof.
  intros R V H Hr.
  destruct (not_free_cases f s opcode ins V) as [C|[C|[Hs F]]]; [auto|auto|].
  destruct (make_free f n _ _ _ _ _ _ _ (good_reachable _ R) Hs F H)
    as (_ & _ & [_ C]). congruence.
Qed.

(** [rebalanceSum] and [as] add no dependence: a flag in the mask of the
    node returned is in the mask of the node they were called on. *)
Theorem rewrites_add_no_dependence n p s r s' f :
  reachable s ->
  (rebalanceSum n p s = Ok r s' \/ exists t, as_ n t p s = Ok r s') ->
  has (deps_at s' r) f = true -> has (deps_at s p) f = true.
Proof.
  intros R H Hr. pose proof (good_reachable _ R) as G.
  assert (valid s p) as V.
  { destruct H as [H|[t H]].
    - unfold rebalanceSum, rebalanceSum_body in H.
      apply bind_inv in H as (nd & s0 & Hg & _). apply get_inv in Hg as [_ L].
      eapply valid_lookup, L.
    - unfold as_, as_body in H.
      apply bind_inv in H as (nd & s0 & Hg & _). apply get_inv in Hg as [_ L].
      eapply valid_lookup, L. }
  destruct (has (deps_at s p) f) eqn:E; [reflexivity|].
  assert (free f s p) as F by (split; assumption).
  destruct H as [H|[t H]].
  - destruct (rebalanceSum_body_free f (make n) n (make_free f n) _ _ _ _ G F H)
      as (_ & _ & [_ C]). congruence.
  - destruct (as_body_free f (make n) (make_free f n) _ _ _ _ _ G F H)
      as (_ & _ & [_ C]). congruence.
Qed.

(** ** Binding the unbound variables *)

Lemma is_ptr_false d x : is_ptr d x = false -> Some d <> x.
Proof.
  intros H <-. simpl in H. rewrite Nat.eqb_refl in H. discriminate.
Qed.

Lemma bind_free n x y t c s0 : good s0 -> forall p s r s',
  good s -> ext s0 s -> valid s0 p ->
  (forall d nd, descendant s0 p d -> allNodes s0 !! d = Some nd ->
     op nd = UnboundVar ->
     Some d = x \/ Some d = y \/ Some d = t \/ Some d = c) ->
  bind n p x y t c s = Ok r s' ->
  good s' /\ ext s s' /\ free DepUnbound s' r.
Proof.
  intros G0. induction n as [|n IH]; intros p s r s' G E V B H;
    [discriminate|].
  simpl in H. apply bind_inv in H as (nd & s1 & Hg & H).
  apply get_inv in Hg as [-> L].
  destruct (valid_is_Some _ _ V) as [nd0 L0].
  destruct (ext_lookup _ _ _ _ E L0) as (nd' & L' & St).
  rewrite L in L'. injection L' as <-.
  apply strip_fields in St as (_ & Eop & Ein & _).
  destruct (has (deps nd) DepUnbound) eqn:Ed; simpl in H.
  2: { apply pure_inv in H as [-> ->]. split; [exact G|].
       split; [apply ext_refl|]. split; [eapply valid_lookup, L|].
       unfold deps_at. rewrite L. exact Ed. }
  destruct (is_ptr p x) eqn:Ex.
  { exact (make_free DepUnbound n VarX [] 0 fzero s r s' G eq_refl
             (Forall_nil_2 _) H). }
  destruct (is_ptr p y) eqn:Ey.
  { exact (make_free DepUnbound n VarY [] 0 fzero s r s' G eq_refl
             (Forall_nil_2 _) H). }
  destruct (is_ptr p c) eqn:Ec.
  { exact (make_free DepUnbound n VarC [] 0 fzero s r s' G eq_refl
             (Forall_nil_2 _) H). }
  destruct (is_ptr p t) eqn:Et.
  { exact (make_free DepUnbound n VarT [] 0 fzero s r s' G eq_refl
             (Forall_nil_2 _) H). }
  apply bind_inv in H as (newInputs & s1 & Hm & H).
  destruct (mapM_free DepUnbound (fun i => bind n i x y t c)
              (fun s i => ext s0 s /\ valid s0 i
                 /\ forall d nd, descendant s0 i d ->
                      allNodes s0 !! d = Some nd -> op nd = UnboundVar ->
                      Some d = x \/ Some d = y \/ Some d = t \/ Some d = c)
              (inputs nd))
    with (s := s) (rs := newInputs) (s' := s1) as (G1 & E1 & F1);
    [| |exact G| |exact Hm|].
  - intros a s2 s2' E2 (E3 & Va & Ba).
    split; [eapply ext_trans; eassumption|]. split; assumption.
  - intros a s2 r2 s2' G2 (E3 & Va & Ba) H2.
    exact (IH _ _ _ _ G2 E3 Va Ba H2).
  - rewrite Ein. apply Forall_forall. intros i Hi.
    split; [exact E|].
    pose proof (wf_inputs _ (proj1 G0) _ _ L0) as Fi.
    rewrite Forall_forall in Fi. specialize (Fi _ Hi). simpl in Fi.
    split; [unfold valid in *; lia|].
    intros d nd1 D. apply B. eapply rtc_l; [|exact D].
    exists nd0. split; assumption.
  - assert (has (self_dep (op nd)) DepUnbound = false) as Hs.
    { destruct (op_eqb (op nd) UnboundVar) eqn:Eo.
      - apply op_eqb_eq in Eo. rewrite Eop in Eo.
        apply is_ptr_false in Ex, Ey, Ec, Et.
        destruct (B p nd0 (rtc_refl _ _) L0 Eo) as [C|[C|[C|C]]];
          contradiction.
      - destruct (op nd); try reflexivity. discriminate Eo. }
    destruct (make_free DepUnbound n _ _ _ _ _ _ _ G1 Hs F1 H)
      as (G2 & E2 & F2).
    split; [exact G2|]. split; [ext_tac|exact F2].
Qed.

(** When every unbound variable of an expression is one of the four nodes
    given to [bind], no unbound variable occurs in what [bind] returns:
    the mask does not have the flag, and no node reached from the result
    is an [UnboundVar]. *)
Theorem bind_removes_the_unbound n p x y t c s r s' :
  reachable s ->
  (forall d nd, descendant s p d -> allNodes s !! d = Some nd ->
     op nd = UnboundVar ->
     Some d = x \/ Some d = y \/ Some d = t \/ Some d = c) ->
  bind n p x y t c s = Ok r s' ->
  has (deps_at s' r) DepUnbound = false
  /\ forall d nd, descendant s' r d -> allNodes s' !! d = Some nd ->
       op nd <> UnboundVar.
Proof.
  intros R B H. pose proof (good_reachable _ R) as G.
  assert (valid s p) as V.
  { destruct n as [|n]; [discriminate|]. simpl in H.
    apply bind_inv in H as (nd & s0 & Hg & _). apply get_inv in Hg as [_ L].
    eapply valid_lookup, L. }
  destruct (bind_free n x y t c s G p s r s' G (ext_refl _) V B H)
    as ([_ Sh] & _ & [_ F]).
  split; [exact F|]. intros d nd Hd L Ho.
  assert (has (deps_at s' r) (self_dep UnboundVar) = true) as C;
    [|change (self_dep UnboundVar) with DepUnbound in C; congruence].
  apply (flag_exact s' r UnboundVar Sh); [discriminate|].
  exists d, nd. auto.
Qed.

(** ** Fused loads and hoisted divisions *)

Lemma make_load_fused n opcode p iv fv s np q s1 nq x rest :
  op_eqb opcode Load || op_eqb opcode LoadImm = true ->
  allNodes s !! p = Some np -> type np = Int ->
  rebalanceSum n p s = Ok q s1 ->
  allNodes s1 !! q = Some nq -> op nq = PlusImm -> inputs nq = x :: rest ->
  make (S n) opcode [p] iv fv s
  = make n LoadImm [x] (int_add (ival nq) iv) fzero s1.
Proof.
  intros Ho L T Hr Lq Oq Iq. unfold rebalanceSum in Hr.
  assert (infer (make n) opcode [p] s = Ok (Continue (Float, [p])) s) as Hi.
  { destruct opcode; try discriminate Ho; unfold infer, coerce, as_body;
      mexec_all; reflexivity. }
  assert (exists u, fold opcode Float [p] iv s = Ok (Continue u) s) as [[] Hf].
  { exists tt. unfold fold, all_const.
    destruct opcode; try discriminate Ho; mexec_all;
      destruct (deps np =? 0); reflexivity. }
  assert (reduce (make n) opcode [p] s = Ok (Continue tt) s) as Hd.
  { destruct opcode; try discriminate Ho; reflexivity. }
  assert (rebalance_inputs (make n) n opcode [p] s = Ok [q] s1) as Hb.
  { unfold rebalance_inputs.
    replace (negb (is_sum opcode)) with true
      by (destruct opcode; try discriminate Ho; reflexivity).
    simpl. unfold and_then. rewrite Hr. reflexivity. }
  assert (variables opcode Float s1 = Ok (Continue tt) s1) as Hv.
  { destruct opcode; try discriminate Ho; reflexivity. }
  assert (fuse_load (make n) opcode [q] iv s1
          = (let* r := make n LoadImm [x] (int_add (ival nq) iv) fzero in
             pure (Return r)) s1) as Hl.
  { unfold fuse_load. rewrite Ho. unfold and_then at 1 2, at_, get. simpl.
    rewrite Lq, Oq, Iq. reflexivity. }
  simpl. unfold make_body.
  unfold and_then at 1. rewrite Hi. cbv beta iota. simpl fst. simpl snd.
  unfold and_then at 1. rewrite Hf.
  unfold and_then at 1. rewrite Hd.
  unfold and_then at 1. rewrite Hb.
  unfold and_then at 1. rewrite Hv.
  unfold and_then at 1. rewrite Hl.
  unfold and_then, pure.
  destruct (make n LoadImm [x] (int_add (ival nq) iv) fzero s1); reflexivity.
Qed.

(** A load whose address rebalances to [x + k] is built as a load of [x]
    with the immediate [k] plus the one given, for [Load] and for
    [LoadImm] alike; and if the address does not depend on memory, the
    node returned has no [DepMem] flag, although it is a load. *)
Theorem load_of_an_offset n p iv fv s np q s1 nq x rest :
  reachable s ->
  allNodes s !! p = Some np -> type np = Int ->
  rebalanceSum n p s = Ok q s1 ->
  allNodes s1 !! q = Some nq -> op nq = PlusImm -> inputs nq = x :: rest ->
  make (S n) Load [p] iv fv s
  = make n LoadImm [x] (int_add (ival nq) iv) fzero s1
  /\ make (S n) LoadImm [p] iv fv s
     = make n LoadImm [x] (int_add (ival nq) iv) fzero s1
  /\ forall r s', make (S n) Load [p] iv fv s = Ok r s' ->
       has (deps_at s p) DepMem = false ->
       has (deps_at s' r) DepMem = false.
Proof.
  intros R L T Hr Lq Oq Iq.
  pose proof (make_load_fused n Load p iv fv s np q s1 nq x rest eq_refl
                L T Hr Lq Oq Iq) as E1.
  pose proof (make_load_fused n LoadImm p iv fv s np q s1 nq x rest eq_refl
                L T Hr Lq Oq Iq) as E2.
  split; [exact E1|]. split; [exact E2|].
  intros r s' H Hp. rewrite E1 in H.
  pose proof (good_reachable _ R) as G.
  assert (free DepMem s p) as F.
  { split; [eapply valid_lookup, L|exact Hp]. }
  destruct (rebalanceSum_body_free DepMem (make n) n (make_free DepMem n)
              _ _ _ _ G F Hr) as (G1 & _ & Fq).
  assert (free DepMem s1 x) as Fx.
  { apply (free_input DepMem s1 q nq x G1 Fq Lq). rewrite Iq. left. }
  destruct (make_free DepMem n LoadImm [x] _ _ s1 r s' G1 eq_refl
              ltac:(constructor; [exact Fx|constructor]) H) as (_ & _ & [_ C]).
  exact C.
Qed.

Lemma level_of_deps_zero d : level_of_deps d = 0 \/ 0 < level_of_deps d.
Proof.
  unfold level_of_deps.
  destruct (has d DepUnbound), (has d DepC), (has d DepMem), (has d DepX),
    (has d DepY), (has d DepT); simpl; lia.
Qed.

(** A division of a [Float] by a [Float] of lower level is built as a
    multiplication by the inverse: [x / y] becomes [x * (1.0f / y)]. *)
Theorem divide_by_lower_level n x y iv fv s nx ny :
  reachable s ->
  allNodes s !! x = Some nx -> allNodes s !! y = Some ny ->
  type nx = Float -> type ny = Float -> level ny < level nx ->
  make (S n) Divide [x; y] iv fv s
  = (let* one := make_float fone in
     let* inv := make n Divide [one; y] 0 fzero in
     make n Times [x; inv] 0 fzero) s.
Proof.
  intros R Lx Ly Tx Ty Hl.
  pose proof (reachable_shape _ R) as Sh.
  assert ((deps nx =? 0) = false) as Dx.
  { apply Z.eqb_neq. intros D.
    pose proof (sh_level _ Sh _ _ Lx) as Ex.
    pose proof (sh_level _ Sh _ _ Ly) as Ey.
    rewrite D in Ex. change (level_of_deps 0) with 0 in Ex.
    destruct (level_of_deps_zero (deps ny)); lia. }
  assert (infer (make n) Divide [x; y] s = Ok (Continue (Float, [x; y])) s)
    as Hi.
  { unfold infer, coerce, as_body. mexec_all. reflexivity. }
  assert (fold Divide Float [x; y] iv s = Ok (Continue tt) s) as Hf.
  { unfold fold, all_const. simpl. mexec_all. reflexivity. }
  apply Z.ltb_lt in Hl.
  simpl. unfold make_body.
  unfold and_then at 1. rewrite Hi. cbv beta iota. simpl fst. simpl snd.
  unfold and_then at 1. rewrite Hf.
  unfold reduce, hoist_divide. unfold and_then, at_, get, pure. simpl.
  rewrite Ly. simpl. rewrite Lx. simpl. rewrite Hl.
  destruct (make_float fone s) as [one s1| | |]; try reflexivity.
  destruct (make n Divide [one; y] 0 fzero s1) as [inv s2| | |];
    try reflexivity.
  destruct (make n Times [x; inv] 0 fzero s2); reflexivity.
Qed.

(** ** The properties at the worked examples *)

Lemma descendant_le s p d : shape s -> descendant s p d -> (d <= p)%nat.
Proof.
  intros Sh H. induction H as [p|p i d (np & Lp & Hi) _ IH]; [lia|].
  pose proof (sh_inputs _ Sh _ _ Lp) as F. rewrite Forall_forall in F.
  specialize (F _ Hi). lia.
Qed.

Lemma no_descendant_with s p o :
  reachable s -> has (deps_at s p) (self_dep o) = false ->
  has (self_dep o) (self_dep o) = true ->
  forall d nd, descendant s p d -> allNodes s !! d = Some nd -> op nd <> o.
Proof.
  intros R Hf Ho d nd D L E. rewrite <- E in Ho at 1.
  rewrite (flag_from_descendant _ _ _ _ _ (reachable_shape _ R) D L Ho) in Hf.
  discriminate.
Qed.

Lemma nodes_fit_their_opcode_witness :
  exists n, allNodes (store_after nested_sum) !! 4%nat = Some n
    /\ type_ok (op n) (type n) = true
    /\ arity_ok (op n) (length (inputs n)) = true.
Proof.
  eexists. split; [vm_compute; reflexivity|].
  eapply (nodes_fit_their_opcode (store_after nested_sum) 4%nat).
  - apply store_after_reachable.
  - vm_compute. reflexivity.
Defined.

Lemma deps_is_union_witness :
  exists n, allNodes (store_after nested_sum) !! 4%nat = Some n
    /\ has (deps n) DepX
       = has (self_dep (op n)) DepX
         || existsb (fun i => has (deps_at (store_after nested_sum) i) DepX)
                    (inputs n).
Proof.
  eexists. split; [vm_compute; reflexivity|].
  eapply (deps_is_union (store_after nested_sum) 4%nat).
  - apply store_after_reachable.
  - vm_compute. reflexivity.
Defined.

Lemma dependence_flags_are_exact_witness :
  self_dep VarX <> 0
  /\ has (deps_at (store_after nested_sum) 4%nat) (self_dep VarX) = true
  /\ exists d nd, descendant (store_after nested_sum) 4%nat d
       /\ allNodes (store_after nested_sum) !! d = Some nd /\ op nd = VarX.
Proof.
  split; [discriminate|]. split; [vm_compute; reflexivity|].
  eapply (dependence_flags_are_exact (store_after nested_sum) 4%nat VarX).
  - apply store_after_reachable.
  - discriminate.
  - vm_compute. reflexivity.
Defined.

Lemma level_is_monotone_witness :
  exists n, allNodes (store_after nested_sum) !! 4%nat = Some n
    /\ level n = level_of_deps (deps n)
    /\ forall i ni, i ∈ inputs n ->
         allNodes (store_after nested_sum) !! i = Some ni ->
         level ni <= level n.
Proof.
  eexists. split; [vm_compute; reflexivity|].
  eapply (level_is_monotone (store_after nested_sum) 4%nat).
  - apply store_after_reachable.
  - vm_compute. reflexivity.
Defined.

Lemma outputs_are_the_consumers_witness :
  exists n nq, allNodes (store_after nested_sum) !! 2%nat = Some n
    /\ allNodes (store_after nested_sum) !! 4%nat = Some nq
    /\ 2%nat ∈ inputs nq /\ 4%nat ∈ outputs n.
Proof.
  eexists. eexists. split; [vm_compute; reflexivity|].
  split; [vm_compute; reflexivity|].
  split; [simpl; apply list_elem_of_further, list_elem_of_here|].
  eapply (outputs_are_the_consumers (store_after nested_sum) 2%nat _ 4%nat).
  - apply store_after_reachable.
  - vm_compute. reflexivity.
  - eexists. split; [vm_compute; reflexivity|].
    simpl. apply list_elem_of_further, list_elem_of_here.
Defined.

Lemma no_duplicate_nodes_witness :
  exists n, allNodes (store_after nested_sum) !! 4%nat = Some n
    /\ inputs n <> [] /\ feqb (fval n) (fval n) = true /\ 4%nat = 4%nat.
Proof.
  eexists. split; [vm_compute; reflexivity|].
  split; [discriminate|]. split; [vm_compute; reflexivity|].
  eapply (no_duplicate_nodes (store_after nested_sum) 4%nat 4%nat).
  - apply store_after_reachable.
  - vm_compute. reflexivity.
  - vm_compute. reflexivity.
  - discriminate.
  - reflexivity.
  - reflexivity.
  - reflexivity.
  - reflexivity.
  - vm_compute. reflexivity.
Defined.

Lemma substitute_without_the_variable_witness :
  substitute 1 4%nat VarY 7 (store_after nested_sum)
  = Ok 4%nat (store_after nested_sum).
Proof.
  eapply (substitute_without_the_variable 0 4%nat VarY 7
           (store_after nested_sum)).
  - apply store_after_reachable.
  - unfold valid. vm_compute. lia.
  - reflexivity.
  - apply no_descendant_with.
    + apply store_after_reachable.
    + vm_compute. reflexivity.
    + reflexivity.
Defined.

Lemma bind_without_unbound_witness :
  bind 1 4%nat (Some 0%nat) None None None (store_after nested_sum)
  = Ok 4%nat (store_after nested_sum).
Proof.
  eapply (bind_without_unbound 0 4%nat (Some 0%nat) None None None
           (store_after nested_sum)).
  - apply store_after_reachable.
  - unfold valid. vm_compute. lia.
  - apply no_descendant_with.
    + apply store_after_reachable.
    + vm_compute. reflexivity.
    + reflexivity.
Defined.

Lemma inputs_are_earlier_witness :
  exists n, allNodes (store_after nested_sum) !! 4%nat = Some n
    /\ 3%nat ∈ inputs n
    /\ (3 < 4)%nat /\ valid (store_after nested_sum) 3%nat.
Proof.
  eexists. split; [vm_compute; reflexivity|].
  split; [simpl; apply list_elem_of_here|].
  eapply (inputs_are_earlier (store_after nested_sum) 4%nat _ 3%nat).
  - apply store_after_reachable.
  - vm_compute. reflexivity.
  - simpl. apply list_elem_of_here.
Defined.

Lemma calls_keep_nodes_witness :
  exists r s' n,
    run_call (call_make 1 Plus [0; 3]%nat 0 fzero) (store_after nested_sum)
    = Ok r s'
    /\ allNodes (store_after nested_sum) !! 0%nat = Some n
    /\ valid s' r
    /\ exists n', allNodes s' !! 0%nat = Some n'
         /\ type n' = type n /\ op n' = op n /\ inputs n' = inputs n
         /\ ival n' = ival n /\ fval n' = fval n /\ deps n' = deps n
         /\ level n' = level n.
Proof.
  eexists. eexists. eexists. split; [vm_compute; reflexivity|].
  split; [vm_compute; reflexivity|].
  eapply (calls_keep_nodes (call_make 1 Plus [0; 3]%nat 0 fzero)
           (store_after nested_sum) _ _ 0%nat).
  - apply store_after_reachable.
  - vm_compute. reflexivity.
  - vm_compute. reflexivity.
Defined.

Lemma wrong_arity_is_fatal_witness :
  make 1 Plus [0%nat] 0 fzero (store_after nested_sum) = Fatal.
Proof.
  eapply (wrong_arity_is_fatal 0 Plus 2); [reflexivity|discriminate].
Defined.

Lemma conversion_checks_operand_witness :
  type_at (store_after bool_node) 2%nat = Some Bool
  /\ make 1 IntToFloat [2%nat] 0 fzero (store_after bool_node) = Fatal
  /\ make 1 FloatToInt [2%nat] 0 fzero (store_after bool_node) = Fatal.
Proof.
  split; [vm_compute; reflexivity|].
  destruct (conversion_checks_operand 0 2%nat (store_after bool_node) Bool)
    as [A B]; [vm_compute; reflexivity|].
  split; [apply A; discriminate|apply B; discriminate].
Defined.

Lemma make_returns_operand_witness :
  type_at (store_after bool_node) 2%nat = Some Bool
  /\ make 1 NoOp [2%nat] 0 fzero (store_after bool_node)
     = Ok 2%nat (store_after bool_node)
  /\ make 1 Abs [2%nat] 0 fzero (store_after bool_node)
     = Ok 2%nat (store_after bool_node)
  /\ make 1 Floor [2%nat] 0 fzero (store_after bool_node)
     = Ok 2%nat (store_after bool_node).
Proof.
  split; [vm_compute; reflexivity|].
  eassert (allNodes (store_after bool_node) !! 2%nat = Some _) as L
    by (vm_compute; reflexivity).
  destruct (make_returns_operand 0 2%nat _ _ 0 fzero L) as (A & B & C).
  split; [exact A|]. split; [apply B; reflexivity|].
  apply C. discriminate.
Defined.

Lemma constant_folding_witness :
  make 1 Plus [1; 3]%nat 0 fzero (store_after nested_sum)
  = make_int 3 (store_after nested_sum)
  /\ make 1 Times [1; 3]%nat 0 fzero (store_after nested_sum)
     = make_int 2 (store_after nested_sum).
Proof.
  eassert (allNodes (store_after nested_sum) !! 1%nat = Some _) as La
    by (vm_compute; reflexivity).
  eassert (allNodes (store_after nested_sum) !! 3%nat = Some _) as Lb
    by (vm_compute; reflexivity).
  destruct (constant_folding 0 1%nat 3%nat _ _ _ 0 fzero La Lb eq_refl eq_refl)
    as (A & _).
  destruct (A eq_refl eq_refl) as (P & _ & T). split; [exact P|exact T].
Defined.

Lemma as_is_idempotent_witness :
  exists r s',
    as_ 1 Float 0%nat (store_after nested_sum) = Ok r s'
    /\ type_at s' r = Some Float /\ as_ 1 Float r s' = Ok r s'.
Proof.
  eexists. eexists. split; [vm_compute; reflexivity|].
  eapply (as_is_idempotent 1 1 Float 0%nat (store_after nested_sum)).
  - apply store_after_reachable.
  - vm_compute. reflexivity.
Defined.

Lemma as_bool_of_int_never_returns_witness :
  type_at (store_after bool_and_int) 3%nat = Some Int
  /\ as_ 5 Bool 3%nat (store_after bool_and_int) = Timeout.
Proof.
  split; [vm_compute; reflexivity|].
  eapply (as_bool_of_int_never_returns 5 3%nat (store_after bool_and_int)).
  - apply store_after_reachable.
  - vm_compute. reflexivity.
Defined.

Lemma constants_are_unique_witness :
  exists n, allNodes (store_after nested_sum) !! 1%nat = Some n
    /\ op n = Const /\ type n = Int /\ 1%nat = 1%nat.
Proof.
  eexists. split; [vm_compute; reflexivity|].
  split; [reflexivity|]. split; [reflexivity|].
  eassert (allNodes (store_after nested_sum) !! 1%nat = Some _) as L
    by (vm_compute; reflexivity).
  destruct (constants_are_unique _ 1%nat 1%nat _ _
              (store_after_reachable nested_sum) L L eq_refl eq_refl)
    as [A _].
  apply A; reflexivity.
Defined.

Lemma rebalanceSum_drops_the_sign_witness :
  (exists np nx, allNodes (store_after three_terms) !! 2%nat = Some np
     /\ op np = Minus /\ inputs np = [1; 0]%nat /\ type np = Int
     /\ ival_at (store_after three_terms) 1%nat = Some 0
     /\ allNodes (store_after three_terms) !! 0%nat = Some nx
     /\ op nx = VarX)
  /\ rebalanceSum 2 2%nat (store_after three_terms)
     = Ok 0%nat (store_after three_terms).
Proof.
  split.
  { eexists. eexists. split; [vm_compute; reflexivity|].
    do 4 (split; [reflexivity|]). split; [vm_compute; reflexivity|].
    split; reflexivity. }
  eassert (allNodes (store_after three_terms) !! 2%nat = Some _) as Lp
    by (vm_compute; reflexivity).
  eassert (allNodes (store_after three_terms) !! 1%nat = Some _) as Lz
    by (vm_compute; reflexivity).
  eassert (allNodes (store_after three_terms) !! 0%nat = Some _) as Lx
    by (vm_compute; reflexivity).
  destruct (rebalanceSum_drops_the_sign 0 2%nat 1%nat 0%nat _ _ _ _
              Lp eq_refl eq_refl Lz eq_refl Lx eq_refl ltac:(discriminate))
    as [A _].
  apply A; reflexivity.
Defined.

Lemma times_by_a_constant_witness :
  make 2 Times [0; 3]%nat 0 fzero (store_after sum_and_const)
  = make 1 TimesImm [0%nat] 3 fzero (store_after sum_and_const)
  /\ make 2 Times [3; 0]%nat 0 fzero (store_after sum_and_const)
     = make 1 TimesImm [0%nat] 3 fzero (store_after sum_and_const).
Proof.
  eassert (allNodes (store_after sum_and_const) !! 0%nat = Some _) as Lx
    by (vm_compute; reflexivity).
  eassert (allNodes (store_after sum_and_const) !! 3%nat = Some _) as Lc
    by (vm_compute; reflexivity).
  destruct (times_by_a_constant 1 0%nat 3%nat _ _ _ 0 fzero
              (store_after_reachable sum_and_const) Lx Lc eq_refl
              ltac:(discriminate) eq_refl ltac:(discriminate) eq_refl eq_refl)
    as (A & B & _).
  split; [exact A|exact B].
Defined.

Lemma collectGarbage_keeps_reachable_witness :
  exists sw s',
    collectGarbage 5 [2%nat] (store_after nested_sum) = Ok sw s'
    /\ (forall q, q ∈ newAllNodes sw
          <-> exists r, r ∈ [2%nat]
                /\ descendant (store_after nested_sum) r q)
    /\ (forall q i, q ∈ newAllNodes sw ->
          consumes (store_after nested_sum) q i -> i ∈ newAllNodes sw).
Proof.
  eapply (collectGarbage_keeps_reachable 5 [2%nat] (store_after nested_sum)).
  - apply store_after_reachable.
  - constructor; [|constructor]. unfold valid. vm_compute. lia.
  - vm_compute. lia.
Defined.

Lemma collectGarbage_tables_witness :
  exists sw s',
    collectGarbage 5 [2%nat] (store_after nested_sum) = Ok sw s'
    /\ newAllNodes sw = [0; 1; 2]%nat
    /\ (forall k q, newIntInstances sw !! k = Some q
          <-> q ∈ newAllNodes sw
              /\ exists n, allNodes (store_after nested_sum) !! q = Some n
                   /\ op n = Const /\ type n = Int /\ ival n = k).
Proof.
  eexists. eexists. split; [vm_compute; reflexivity|].
  split; [reflexivity|].
  eapply (collectGarbage_tables 5 [2%nat] (store_after nested_sum)).
  - apply store_after_reachable.
  - vm_compute. reflexivity.
Defined.

Lemma collectGarbage_leaves_outputs_witness :
  exists sw s' n',
    collectGarbage 5 [2%nat] (store_after nested_sum) = Ok sw s'
    /\ 2%nat ∈ newAllNodes sw /\ (4%nat ∉ newAllNodes sw)
    /\ allNodes s' !! 2%nat = Some n' /\ 4%nat ∈ outputs n'.
Proof.
  eapply (collectGarbage_leaves_outputs 5 [2%nat] (store_after nested_sum)).
  - apply store_after_reachable.
  - constructor; [|constructor]. unfold valid. vm_compute. lia.
  - vm_compute. lia.
  - exists 2%nat. split; [apply list_elem_of_here|apply rtc_refl].
  - eexists. split; [vm_compute; reflexivity|].
    simpl. apply list_elem_of_further, list_elem_of_here.
  - intros (r & Hr & D). apply list_elem_of_singleton in Hr as ->.
    apply descendant_le in D;
      [lia|apply reachable_shape, store_after_reachable].
Defined.

Lemma substitute_removes_the_variable_witness :
  exists r s',
    substitute 5 4%nat VarX 7 (store_after nested_sum) = Ok r s'
    /\ has (deps_at s' r) (self_dep VarX) = false
    /\ forall d nd, descendant s' r d -> allNodes s' !! d = Some nd ->
         op nd <> VarX.
Proof.
  eexists. eexists. split; [vm_compute; reflexivity|].
  eapply (substitute_removes_the_variable 5 4%nat VarX 7
           (store_after nested_sum)).
  - apply store_after_reachable.
  - reflexivity.
  - vm_compute. reflexivity.
Defined.

Lemma make_adds_no_dependence_witness :
  exists r s',
    make 1 Plus [0; 3]%nat 0 fzero (store_after nested_sum) = Ok r s'
    /\ has (deps_at s' r) DepX = true
    /\ (has (self_dep Plus) DepX = true
        \/ Exists (fun i => has (deps_at (store_after nested_sum) i) DepX
                            = true) [0; 3]%nat).
Proof.
  eexists. eexists. split; [vm_compute; reflexivity|].
  split; [vm_compute; reflexivity|].
  eapply (make_adds_no_dependence 1 Plus [0; 3]%nat 0 fzero
            (store_after nested_sum)).
  - apply store_after_reachable.
  - repeat constructor; unfold valid; vm_compute; lia.
  - vm_compute. reflexivity.
  - vm_compute. reflexivity.
Defined.

Lemma rewrites_add_no_dependence_witness :
  exists r s',
    rebalanceSum 5 4%nat (store_after nested_sum) = Ok r s'
    /\ has (deps_at s' r) DepX = true
    /\ has (deps_at (store_after nested_sum) 4%nat) DepX = true.
Proof.
  eexists. eexists. split; [vm_compute; reflexivity|].
  split; [vm_compute; reflexivity|].
  eapply (rewrites_add_no_dependence 5 4%nat (store_after nested_sum)).
  - apply store_after_reachable.
  - left. vm_compute. reflexivity.
  - vm_compute. reflexivity.
Defined.

Lemma bind_removes_the_unbound_witness :
  exists r s',
    bind 3 2%nat (Some 0%nat) None None None (store_after unbound_sum)
    = Ok r s'
    /\ has (deps_at (store_after unbound_sum) 2%nat) DepUnbound = true
    /\ has (deps_at s' r) DepUnbound = false
    /\ forall d nd, descendant s' r d -> allNodes s' !! d = Some nd ->
         op nd <> UnboundVar.
Proof.
  eexists. eexists. split; [vm_compute; reflexivity|].
  split; [vm_compute; reflexivity|].
  eapply (bind_removes_the_unbound 3 2%nat (Some 0%nat) None None None
            (store_after unbound_sum)).
  - apply store_after_reachable.
  - intros d nd D L Ho. left.
    apply descendant_le in D;
      [|apply reachable_shape, store_after_reachable].
    destruct d as [|[|[|d]]]; [reflexivity| | |lia];
      vm_compute in L; injection L as <-; discriminate Ho.
  - vm_compute. reflexivity.
Defined.

Lemma load_of_an_offset_witness :
  rebalanceSum 5 2%nat (store_after nested_sum)
  = Ok 5%nat (store_after (nested_sum ++ [call_rebalanceSum 5 2%nat]))
  /\ op_at (store_after (nested_sum ++ [call_rebalanceSum 5 2%nat])) 5%nat
     = Some PlusImm
  /\ make 6 Load [2%nat] 0 fzero (store_after nested_sum)
     = make 5 LoadImm [0%nat] 2 fzero
         (store_after (nested_sum ++ [call_rebalanceSum 5 2%nat])).
Proof.
  split; [vm_compute; reflexivity|]. split; [vm_compute; reflexivity|].
  eassert (allNodes (store_after nested_sum) !! 2%nat = Some _) as L
    by (vm_compute; reflexivity).
  eassert (allNodes (store_after (nested_sum ++ [call_rebalanceSum 5 2%nat]))
             !! 5%nat = Some _) as Lq
    by (vm_compute; reflexivity).
  destruct (load_of_an_offset 5 2%nat 0 fzero _ _ 5%nat _ _ 0%nat []
              (store_after_reachable nested_sum) L eq_refl
              ltac:(vm_compute; reflexivity) Lq eq_refl eq_refl) as (A & _).
  exact A.
Defined.

Lemma divide_by_lower_level_witness :
  make 3 Divide [1; 2]%nat 0 fzero (store_after bool_of_x)
  = (let* one := make_float fone in
     let* inv := make 2 Divide [one; 2%nat] 0 fzero in
     make 2 Times [1%nat; inv] 0 fzero) (store_after bool_of_x).
Proof.
  eassert (allNodes (store_after bool_of_x) !! 1%nat = Some _) as Lx
    by (vm_compute; reflexivity).
  eassert (allNodes (store_after bool_of_x) !! 2%nat = Some _) as Ly
    by (vm_compute; reflexivity).
  exact (divide_by_lower_level 2 1%nat 2%nat 0 fzero _ _ _
           (store_after_reachable bool_of_x) Lx Ly eq_refl eq_refl eq_refl).
Defined.

(** ** Calls of [make] that return *)

Lemma link_inputs_returns this ins : forall d ns,
  Forall (fun i => (i < length ns)%nat) ins ->
  exists d' ns', link_inputs this ins d ns = Some (d', ns').
Proof.
  induction ins as [|i ins IH]; simpl; intros d ns F; [eauto|].
  inversion F as [|? ? Hi F']; subst.
  destruct (lookup_lt_is_Some_2 ns i Hi) as [n L]. rewrite L.
  apply IH. rewrite length_insert. exact F'.
Qed.

Lemma new_node_returns t opcode ins iv fv s :
  Forall (valid s) ins -> exists r s', new_node t opcode ins iv fv s = Ok r s'.
Proof.
  intros F. unfold new_node.
  destruct (link_inputs_returns (length (allNodes s)) ins (self_dep opcode)
              (allNodes s) F) as (d & ns & ->).
  eauto.
Qed.

Lemma new_node_ext t opcode ins iv fv s r s' :
  new_node t opcode ins iv fv s = Ok r s' -> ext s s'.
Proof.
  unfold new_node.
  destruct (link_inputs _ _ _ _) as [[d ns]|] eqn:L; [|discriminate].
  intros [= <- <-]. apply link_inputs_ok in L as [L1 _].
  split; simpl; auto. unfold cores. simpl. rewrite fmap_app, L1.
  apply prefix_app_r. reflexivity.
Qed.

Lemma scan_returns cands opcode t ins iv fv s :
  Forall (valid s) cands -> exists o, scan cands opcode t ins iv fv s = Ok o s.
Proof.
  induction 1 as [|c cands V _ IH]; simpl; [unfold pure; eauto|].
  destruct (valid_is_Some _ _ V) as [n L]. unfold and_then.
  rewrite (get_ok _ _ _ L).
  destruct (same_node n opcode t ins iv fv); [unfold pure; eauto|exact IH].
Qed.

Lemma outputs_valid s p n :
  shape s -> allNodes s !! p = Some n -> Forall (valid s) (outputs n).
Proof.
  intros Sh L. apply Forall_forall. intros q Hq.
  apply (sh_outputs _ Sh _ _ q L) in Hq as (nq & Lq & _).
  eapply valid_lookup, Lq.
Qed.

Lemma cse_returns opcode t ins iv fv s :
  shape s -> Forall (valid s) ins ->
  exists o, cse opcode t ins iv fv s = Ok o s.
Proof.
  intros Sh F. unfold cse. destruct ins as [|p0 ins]; [unfold pure; eauto|].
  inversion F as [|? ? V _]; subst. destruct (valid_is_Some _ _ V) as [n L].
  unfold and_then. rewrite (get_ok _ _ _ L).
  apply scan_returns. eapply outputs_valid; eassumption.
Qed.

(** A call that stage 2 ends returns what stage 2 returns. *)
Lemma make_body_folds mk fuel opcode ins iv fv s t ins1 s1 r s' :
  infer mk opcode ins s = Ok (Continue (t, ins1)) s1 ->
  fold opcode t ins1 iv s1 = Ok (Return r) s' ->
  make_body mk fuel opcode ins iv fv s = Ok r s'.
Proof.
  intros Hi Hf. unfold make_body. unfold and_then at 1. rewrite Hi.
  cbn [fst snd]. unfold and_then at 1. rewrite Hf. reflexivity.
Qed.

(** A call that nothing rewrites returns a node of the opcode over the
    rebalanced inputs: one that is there, or a new one. *)
Lemma make_body_builds mk fuel opcode ins iv fv s t ins1 s1 ins2 s2 :
  plain opcode = true ->
  infer mk opcode ins s = Ok (Continue (t, ins1)) s1 ->
  fold opcode t ins1 iv s1 = Ok (Continue tt) s1 ->
  rebalance_inputs mk fuel opcode ins1 s1 = Ok ins2 s2 ->
  shape s2 -> Forall (valid s2) ins2 ->
  exists r s' n,
    make_body mk fuel opcode ins iv fv s = Ok r s'
    /\ allNodes s' !! r = Some n /\ type n = t /\ op n = opcode
    /\ inputs n = ins2 /\ ival n = iv
    /\ (fval n = fv \/ feqb (fval n) fv = true)
    /\ ext s2 s'.
Proof.
  intros Hp Hi Hf Hr Sh V.
  assert (reduce mk opcode ins1 s1 = Ok (Continue tt) s1) as Hd.
  { destruct opcode; try discriminate Hp; reflexivity. }
  assert (variables opcode t s2 = Ok (Continue tt) s2) as Hv.
  { destruct opcode; try discriminate Hp; reflexivity. }
  assert (fuse_load mk opcode ins2 iv s2 = Ok (Continue tt) s2) as Hl.
  { destruct opcode; try discriminate Hp; reflexivity. }
  assert (fuse_times mk opcode t ins2 s2 = Ok (Continue tt) s2) as Ht.
  { destruct opcode; try discriminate Hp; reflexivity. }
  destruct (cse_returns opcode t ins2 iv fv s2 Sh V) as [o Hc].
  assert (exists r s', (match o with
                        | Some p => pure p
                        | None => new_node t opcode ins2 iv fv
                        end) s2 = Ok r s'
            /\ exists n, allNodes s' !! r = Some n /\ type n = t
                 /\ op n = opcode /\ inputs n = ins2 /\ ival n = iv
                 /\ (fval n = fv \/ feqb (fval n) fv = true)
                 /\ ext s2 s')
    as (r & s' & Ho & n & L & Fn).
  { destruct o as [p|].
    - apply cse_inv in Hc as [_ Hc]. destruct (Hc _ eq_refl) as (n & L & Sn).
      exists p, s2. split; [reflexivity|]. exists n. split; [exact L|].
      pose proof Sn as Sn'. apply same_node_inv in Sn as (? & ? & ? & ?).
      unfold same_node in Sn'. apply andb_true_iff in Sn' as [Sn' _].
      apply andb_true_iff in Sn' as [Sn' _].
      apply andb_true_iff in Sn' as [Sn' _].
      apply andb_true_iff in Sn' as [_ Sn'].
      repeat (split; [assumption|]). split; [right; exact Sn'|].
      apply ext_refl.
    - destruct (new_node_returns t opcode ins2 iv fv s2 V) as (r & s' & Hn).
      exists r, s'. split; [exact Hn|].
      pose proof (new_node_ext _ _ _ _ _ _ _ _ Hn) as E.
      apply new_node_inv in Hn as (n & L & ? & ? & ? & ? & ?).
      exists n. repeat (split; [assumption|]). split; [left; assumption|].
      exact E. }
  exists r, s', n. split; [|exact (conj L Fn)].
  unfold make_body. unfold and_then at 1. rewrite Hi. cbn [fst snd].
  unfold and_then at 1. rewrite Hf.
  unfold and_then at 1. rewrite Hd.
  unfold and_then at 1. rewrite Hr.
  unfold and_then at 1. rewrite Hv.
  unfold and_then at 1. rewrite Hl.
  unfold and_then at 1. rewrite Ht.
  unfold and_then at 1. rewrite Hc. exact Ho.
Qed.

(** ** The guard of [And] and [Nand] *)

Lemma has_self d : d <> 0 -> has d d = true.
Proof.
  intros H. unfold has. rewrite Z.land_diag.
  apply negb_true_iff, Z.eqb_neq, H.
Qed.

(** A sum depends on something. *)
Lemma sum_depends s p n :
  good s -> allNodes s !! p = Some n -> is_sum (op n) = true -> deps n <> 0.
Proof.
  intros [W Sh] L Hs D. destruct (wf_sum _ W _ _ L Hs) as [_ Ex].
  apply Exists_exists in Ex as (i & Hi & Di).
  pose proof (has_deps_of s (op n) (inputs n) (deps_at s i)) as E.
  rewrite <- (sh_deps _ Sh _ _ L), D, has_zero in E.
  symmetry in E. apply orb_false_iff in E as [_ E].
  assert (existsb (fun j => has (deps_at s j) (deps_at s i)) (inputs n) = true)
    as C; [|congruence].
  apply existsb_exists. exists i.
  split; [apply list_elem_of_In, Hi|apply has_self, Di].
Qed.

Lemma rebalance_leaf mk fuel p s n :
  allNodes s !! p = Some n -> is_sum (op n) = false ->
  rebalanceSum_body mk fuel p s = Ok p s.
Proof.
  intros L Hs. unfold rebalanceSum_body, and_then.
  rewrite (get_ok _ _ _ L), Hs. reflexivity.
Qed.

(** The coercion of a [Float] without dependences to [Bool]: a comparison
    with [0.0f] that is not folded, and whose [ival] is the 0 that [as]
    passes to [make]. *)
Lemma as_bool_of_float n g s ng :
  good s -> allNodes s !! g = Some ng -> type ng = Float -> deps ng = 0 ->
  exists r s1 nr,
    as_ (S n) Bool g s = Ok r s1
    /\ allNodes s1 !! r = Some nr /\ ival nr = 0 /\ deps nr = 0.
Proof.
  intros G L T D. pose proof G as [W Sh].
  destruct (make_float_returns fzero s) as (z & s0 & Hz).
  destruct (make_float_ok _ _ _ _ W Hz) as (W0 & E0 & Vz & _ & nz & Lz & Tz & Oz).
  destruct (ext_lookup _ _ _ _ E0 L) as (ng0 & Lg0 & Sg).
  apply strip_fields in Sg as (Tg & Og & _ & _ & _ & Dg & _).
  assert (is_sum (op ng0) = false) as Hs.
  { destruct (is_sum (op ng0)) eqn:Es; [|reflexivity]. exfalso.
    rewrite Og in Es. exact (sum_depends _ _ _ G L Es D). }
  assert (shape s0) as Sh0.
  { eapply prim_shape; [exact Sh|eapply prim_float, Hz]. }
  assert (infer (make n) NEQ [g; z] s0 = Ok (Continue (Bool, [g; z])) s0)
    as Hi.
  { unfold infer, either_float, coerce, as_body. mexec. reflexivity. }
  assert (fold NEQ Bool [g; z] 0 s0 = Ok (Continue tt) s0) as Hf.
  { unfold fold, all_const. mexec. rewrite Dg, D. simpl. mexec.
    rewrite (wf_const _ W0 _ _ Lz Oz). reflexivity. }
  assert (rebalance_inputs (make n) n NEQ [g; z] s0 = Ok [g; z] s0) as Hr.
  { unfold rebalance_inputs. simpl. unfold and_then.
    rewrite (rebalance_leaf _ _ _ _ _ Lg0 Hs).
    rewrite (rebalance_leaf _ _ _ _ nz Lz); [reflexivity|].
    rewrite Oz. reflexivity. }
  destruct (make_body_builds (make n) n NEQ [g; z] 0 fzero s0 Bool [g; z] s0
              [g; z] s0 eq_refl Hi Hf Hr Sh0)
    as (r & s1 & nr & Hm & Lr & _ & Or & Ir & Iv & _).
  { constructor; [eapply valid_lookup, Lg0|]. constructor; [exact Vz|].
    constructor. }
  exists r, s1, nr.
  assert (as_ (S n) Bool g s = Ok r s1) as Ha.
  { unfold as_, as_body. mexec. reflexivity. }
  split; [exact Ha|]. split; [exact Lr|]. split; [exact Iv|].
  assert (shape s1) as Sh1.
  { eapply prims_shape; [exact Sh0|]. eapply (make_prims (S n)). exact Hm. }
  destruct (make_ok (S n) _ _ _ _ _ _ _ W0 Hm) as (_ & E1 & _).
  rewrite (sh_deps _ Sh1 _ _ Lr), Or, Ir. unfold deps_of. simpl.
  rewrite (ext_deps_at _ _ _ E1) by (eapply valid_lookup, Lg0).
  rewrite (ext_deps_at _ _ _ E1) by exact Vz.
  unfold deps_at. rewrite Lg0, Lz, Dg, D, (wf_const _ W0 _ _ Lz Oz).
  reflexivity.
Qed.

(** What [make] returns for a logical opcode over two inputs without
    dependences, after the coercions of stage 1. *)
Lemma make_logical n opcode g v iv fv s t g' v' s1 ng nv :
  is_logical opcode = true ->
  infer (make n) opcode [g; v] s = Ok (Continue (t, [g'; v'])) s1 ->
  allNodes s1 !! g' = Some ng -> allNodes s1 !! v' = Some nv ->
  deps ng = 0 -> deps nv = 0 ->
  make (S n) opcode [g; v] iv fv s = folded_logical opcode t ng nv s1.
Proof.
  intros Hl Hi Lg Lv Dg Dv.
  simpl. unfold make_body. unfold and_then at 1. rewrite Hi.
  cbn [fst snd]. unfold and_then at 1.
  rewrite (fold_logical _ _ _ _ _ _ _ _ Hl Lg Lv Dg Dv).
  unfold and_then, pure. destruct (folded_logical opcode t ng nv s1);
    reflexivity.
Qed.

(** The guard after stage 1 of [And] and [Nand], for a guard that is a
    [Float], or a [Bool] that [make] built with [ival = 0]: a node without
    dependences whose [ival] is 0. *)
Lemma infer_guard n opcode g v s ng nv :
  opcode = And \/ opcode = Nand ->
  good s ->
  allNodes s !! g = Some ng -> deps ng = 0 ->
  type ng = Float \/ (type ng = Bool /\ ival ng = 0) ->
  allNodes s !! v = Some nv ->
  exists g' s1 ng' nv',
    infer (make (S n)) opcode [g; v] s
    = Ok (Continue (type nv, [g'; v])) s1
    /\ wf s1 /\ ext s s1
    /\ allNodes s1 !! g' = Some ng' /\ ival ng' = 0 /\ deps ng' = 0
    /\ allNodes s1 !! v = Some nv' /\ strip nv' = strip nv.
Proof.
  intros Ho G Lg Dg Tg Lv. pose proof G as [W _].
  assert (exists g' s1 ng',
            as_ (S n) Bool g s = Ok g' s1
            /\ allNodes s1 !! g' = Some ng' /\ ival ng' = 0 /\ deps ng' = 0)
    as (g' & s1 & ng' & Ha & Lg' & Ig & Dg').
  { destruct Tg as [Tg|[Tg Ig]].
    - exact (as_bool_of_float n g s ng G Lg Tg Dg).
    - exists g, s, ng. split; [|auto]. unfold as_, as_body. mexec.
      reflexivity. }
  destruct (as_ok _ _ _ _ _ _ W Ha) as (W1 & E1 & _).
  destruct (ext_lookup _ _ _ _ E1 Lv) as (nv' & Lv' & Sv).
  exists g', s1, ng', nv'.
  split; [|auto 10]. unfold as_ in Ha.
  pose proof (strip_fields _ _ Sv) as (Tv & _).
  remember (make (S n)) as mk eqn:Emk. clear Emk.
  destruct Ho as [-> | ->]; unfold infer, coerce; mexec; rewrite ?Tv;
    reflexivity.
Qed.

(** C4 does not hold of the code.  The guard of [And] and [Nand] is read
    from its field [ival], which nothing sets: a [Float] guard is coerced
    to the comparison [NEQ(g, 0.0f)], which is never folded, and a
    comparison that serves as guard is not folded either.  So for a guard
    without dependences that is a [Float] (such as the constant [1.0f]), or
    a [Bool] whose [ival] is the 0 that [make] is called with, and an [Int]
    constant [v]: [And(g, v)] returns the constant 0, which is not [v]
    unless [v] is 0, and [Nand(g, v)] returns [v], whatever the guard
    says. *)
Theorem logical_fold_ignores_the_guard n g v iv fv s ng nv :
  reachable s ->
  allNodes s !! g = Some ng -> deps ng = 0 ->
  type ng = Float \/ (type ng = Bool /\ ival ng = 0) ->
  allNodes s !! v = Some nv -> op nv = Const -> type nv = Int ->
  (exists z s',
     make (S (S n)) And [g; v] iv fv s = Ok z s'
     /\ op_at s' z = Some Const /\ type_at s' z = Some Int
     /\ ival_at s' z = Some 0
     /\ (ival nv <> 0 -> z <> v))
  /\ (exists s', make (S (S n)) Nand [g; v] iv fv s = Ok v s').
Proof.
  intros R Lg Dg Tg Lv Ov Tv. pose proof (good_reachable _ R) as G.
  pose proof G as [W _].
  pose proof (wf_const _ W _ _ Lv Ov) as Dv.
  split.
  - destruct (infer_guard n And g v s ng nv (or_introl eq_refl) G Lg Dg Tg Lv)
      as (g' & s1 & ng' & nv' & Hi & W1 & E1 & Lg' & Ig & Dg' & Lv' & Sv).
    apply strip_fields in Sv as (Tv' & Ov' & _ & Iv' & _ & Dv' & _).
    rewrite (make_logical (S n) And g v iv fv s _ _ _ _ ng' nv' eq_refl Hi
               Lg' Lv' Dg') by congruence.
    unfold folded_logical. rewrite Tv, Ig. simpl.
    destruct (make_int_returns 0 s1) as (z & s' & Hz).
    exists z, s'. split; [exact Hz|].
    destruct (make_int_ok _ _ _ _ W1 Hz) as (_ & E2 & _ & _ & nz & Lz & Tz & Oz & Iz).
    unfold op_at, type_at, ival_at. rewrite Lz. simpl.
    split; [congruence|]. split; [congruence|]. split; [congruence|].
    intros Hne ->. destruct (ext_lookup _ _ _ _ E2 Lv') as (nv2 & L2 & S2).
    apply strip_fields in S2 as (_ & _ & _ & I2 & _).
    rewrite Lz in L2. injection L2 as <-. congruence.
  - destruct (infer_guard n Nand g v s ng nv (or_intror eq_refl) G Lg Dg Tg Lv)
      as (g' & s1 & ng' & nv' & Hi & W1 & E1 & Lg' & Ig & Dg' & Lv' & Sv).
    apply strip_fields in Sv as (Tv' & Ov' & _ & Iv' & _ & Dv' & _).
    rewrite (make_logical (S n) Nand g v iv fv s _ _ _ _ ng' nv' eq_refl Hi
               Lg' Lv' Dg') by congruence.
    unfold folded_logical. rewrite Tv, Ig. simpl.
    exists s1. unfold make_int.
    rewrite (wf_int_all _ W1 _ _ Lv'); [reflexivity|congruence|congruence].
Qed.

Lemma logical_fold_ignores_the_guard_witness :
  (exists z s',
     make 2 And [0; 1]%nat 0 fzero (store_after float_guard) = Ok z s'
     /\ op_at s' z = Some Const /\ type_at s' z = Some Int
     /\ ival_at s' z = Some 0 /\ z <> 1%nat)
  /\ (exists s',
        make 2 Nand [0; 1]%nat 0 fzero (store_after float_guard)
        = Ok 1%nat s').
Proof.
  eassert (allNodes (store_after float_guard) !! 0%nat = Some _) as Lg
    by (vm_compute; reflexivity).
  eassert (allNodes (store_after float_guard) !! 1%nat = Some _) as Lv
    by (vm_compute; reflexivity).
  destruct (logical_fold_ignores_the_guard 0 0%nat 1%nat 0 fzero _ _ _
              (store_after_reachable float_guard) Lg eq_refl
              (or_introl eq_refl) Lv eq_refl eq_refl)
    as [(z & s' & Hm & Ho & Ht & Hv & Hne) Hn].
  split; [|exact Hn].
  exists z, s'. repeat (split; [assumption|]). apply Hne. discriminate.
Defined.

(** ** Sums that are built without coercion *)

Lemma step_good s s' : good s -> step s s' -> good s' /\ ext s s'.
Proof.
  intros [W Sh] H. destruct (step_ok _ _ W H) as [W' E].
  split; [|exact E]. split; [exact W'|].
  eapply prims_shape; [exact Sh|apply step_prims, H].
Qed.

Lemma make_good n opcode ins iv fv s r s' :
  good s -> make n opcode ins iv fv s = Ok r s' ->
  good s' /\ ext s s' /\ valid s' r.
Proof.
  intros G H. destruct (step_good _ _ G (step_make _ _ _ _ _ _ _ _ H)) as [G' E].
  destruct (make_ok n _ _ _ _ _ _ _ (proj1 G) H) as (_ & _ & V). auto.
Qed.

Lemma make_int_good v s r s' :
  good s -> make_int v s = Ok r s' ->
  good s' /\ ext s s'
  /\ exists n, allNodes s' !! r = Some n /\ type n = Int /\ op n = Const
               /\ ival n = v /\ deps n = 0.
Proof.
  intros G H. destruct (step_good _ _ G (step_make_int _ _ _ _ H)) as [G' E].
  destruct (make_int_ok _ _ _ _ (proj1 G) H) as (_ & _ & _ & _ & n & L & T & O & I).
  split; [exact G'|]. split; [exact E|]. exists n.
  repeat (split; [assumption|]). exact (wf_const _ (proj1 G') _ _ L O).
Qed.

Lemma lor_nonzero d e : d <> 0 \/ e <> 0 -> Z.lor d e <> 0.
Proof. intros H E. apply Z.lor_eq_0_iff in E. tauto. Qed.

Lemma foldl_lor_nonzero (g : ptr -> Z) ins : forall d,
  d <> 0 \/ Exists (fun i => g i <> 0) ins ->
  foldl (fun d i => Z.lor d (g i)) d ins <> 0.
Proof.
  induction ins as [|i ins IH]; simpl; intros d H.
  - destruct H as [H|H]; [exact H|inversion H].
  - apply IH. destruct H as [H|H].
    + left. apply lor_nonzero. auto.
    + inversion H; subst; [left; apply lor_nonzero; auto|right; assumption].
Qed.

(** A node depends on what an input depends on. *)
Lemma deps_of_input s p n :
  shape s -> allNodes s !! p = Some n ->
  Exists (fun i => deps_at s i <> 0) (inputs n) -> deps_at s p <> 0.
Proof.
  intros Sh L Ex. unfold deps_at at 1. rewrite L, (sh_deps _ Sh _ _ L).
  apply foldl_lor_nonzero. right. exact Ex.
Qed.

Lemma deps_of_none s p n :
  shape s -> allNodes s !! p = Some n -> self_dep (op n) = 0 ->
  Forall (fun i => deps_at s i = 0) (inputs n) -> deps n = 0.
Proof.
  intros Sh L Hs F. rewrite (sh_deps _ Sh _ _ L). unfold deps_of. rewrite Hs.
  clear L. induction F as [|i ins Hi _ IH]; simpl; [reflexivity|].
  rewrite Hi. exact IH.
Qed.

(** [make] of [Plus] or [Minus] over two nodes of type [Int]: nothing is
    coerced, and the call returns under every bound: a constant when
    neither node depends on anything, and otherwise a node of the opcode
    over the two. *)
Lemma make_int_sum n opcode a b s na nb :
  opcode = Plus \/ opcode = Minus ->
  good s ->
  allNodes s !! a = Some na -> allNodes s !! b = Some nb ->
  type na = Int -> type nb = Int ->
  exists r s' nr,
    make (S n) opcode [a; b] 0 fzero s = Ok r s'
    /\ good s' /\ ext s s'
    /\ allNodes s' !! r = Some nr /\ type nr = Int
    /\ ((deps na = 0 /\ deps nb = 0 /\ op nr = Const)
        \/ ((deps na <> 0 \/ deps nb <> 0)
            /\ op nr = opcode /\ inputs nr = [a; b] /\ ival nr = 0
            /\ feqb (fval nr) fzero = true /\ deps nr <> 0)).
Proof.
  intros Ho G La Lb Ta Tb. pose proof G as [W Sh].
  assert (infer (make n) opcode [a; b] s = Ok (Continue (Int, [a; b])) s)
    as Hi.
  { destruct Ho as [-> | ->]; unfold infer, either_float, coerce, as_body;
      mexec; reflexivity. }
  assert (plain opcode = true) as Hp by (destruct Ho as [-> | ->]; reflexivity).
  assert (is_sum opcode = true) as Hs by (destruct Ho as [-> | ->]; reflexivity).
  destruct (Z.eq_dec (deps na) 0) as [Da|Da];
    [destruct (Z.eq_dec (deps nb) 0) as [Db|Db]|].
  - destruct (make_int_returns
                (if op_eqb opcode Plus then int_add (ival na) (ival nb)
                 else int_sub (ival na) (ival nb)) s) as (r & s' & Hr).
    assert (fold opcode Int [a; b] 0 s = Ok (Return r) s') as Hf.
    { unfold fold, all_const.
      destruct Ho as [-> | ->]; unfold ret_int; simpl in Hr; mexec_all;
        rewrite Hr; reflexivity. }
    pose proof (make_body_folds (make n) n _ _ 0 fzero _ _ _ _ _ _ Hi Hf) as Hm.
    destruct (make_int_good _ _ _ _ G Hr) as (G' & E & nr & Lr & Tr & Or & _).
    exists r, s', nr. split; [exact Hm|]. auto 10.
  - assert (fold opcode Int [a; b] 0 s = Ok (Continue tt) s) as Hf.
    { pose proof (proj2 (Z.eqb_neq _ _) Db) as Db'.
      unfold fold, all_const. mexec_all. reflexivity. }
    assert (rebalance_inputs (make n) n opcode [a; b] s = Ok [a; b] s) as Hr.
    { unfold rebalance_inputs. rewrite Hs. reflexivity. }
    destruct (make_body_builds (make n) n opcode [a; b] 0 fzero s Int _ s _ s
                Hp Hi Hf Hr Sh)
      as (r & s' & nr & Hm & Lr & Tr & Or & Ir & Iv & Fv & _).
    { repeat constructor; eapply valid_lookup; eassumption. }
    change (make (S n) opcode [a; b] 0 fzero s = Ok r s') in Hm.
    destruct (make_good _ _ _ _ _ _ _ _ G Hm) as (G' & E & _).
    exists r, s', nr. repeat (split; [assumption|]). right.
    split; [auto|]. repeat (split; [assumption|]). split.
    { destruct Fv as [->|Fv]; [reflexivity|exact Fv]. }
    pose proof (deps_of_input s' r nr (proj2 G') Lr) as Hd.
    unfold deps_at in Hd at 2. rewrite Lr in Hd. apply Hd. rewrite Ir.
    right. left. rewrite (ext_deps_at _ _ _ E) by (eapply valid_lookup, Lb).
    unfold deps_at. rewrite Lb. exact Db.
  - assert (fold opcode Int [a; b] 0 s = Ok (Continue tt) s) as Hf.
    { pose proof (proj2 (Z.eqb_neq _ _) Da) as Da'.
      unfold fold, all_const. mexec_all. reflexivity. }
    assert (rebalance_inputs (make n) n opcode [a; b] s = Ok [a; b] s) as Hr.
    { unfold rebalance_inputs. rewrite Hs. reflexivity. }
    destruct (make_body_builds (make n) n opcode [a; b] 0 fzero s Int _ s _ s
                Hp Hi Hf Hr Sh)
      as (r & s' & nr & Hm & Lr & Tr & Or & Ir & Iv & Fv & _).
    { repeat constructor; eapply valid_lookup; eassumption. }
    change (make (S n) opcode [a; b] 0 fzero s = Ok r s') in Hm.
    destruct (make_good _ _ _ _ _ _ _ _ G Hm) as (G' & E & _).
    exists r, s', nr. repeat (split; [assumption|]). right.
    split; [auto|]. repeat (split; [assumption|]). split.
    { destruct Fv as [->|Fv]; [reflexivity|exact Fv]. }
    pose proof (deps_of_input s' r nr (proj2 G') Lr) as Hd.
    unfold deps_at in Hd at 2. rewrite Lr in Hd. apply Hd. rewrite Ir.
    left. rewrite (ext_deps_at _ _ _ E) by (eapply valid_lookup, La).
    unfold deps_at. rewrite La. exact Da.
Qed.

(** [make] of [PlusImm] over a node that depends on something returns,
    under every bound, a [PlusImm] over the node with the immediate. *)
Lemma make_plusimm_returns n a c s na :
  good s -> allNodes s !! a = Some na -> deps na <> 0 ->
  exists r s' nr,
    make (S n) PlusImm [a] c fzero s = Ok r s'
    /\ good s' /\ ext s s'
    /\ allNodes s' !! r = Some nr /\ type nr = Int /\ op nr = PlusImm
    /\ inputs nr = [a] /\ ival nr = c /\ feqb (fval nr) fzero = true.
Proof.
  intros G La Da. pose proof G as [W Sh].
  assert (infer (make n) PlusImm [a] s = Ok (Continue (Int, [a])) s) as Hi.
  { unfold infer. mexec. reflexivity. }
  assert (fold PlusImm Int [a] c s = Ok (Continue tt) s) as Hf.
  { pose proof (proj2 (Z.eqb_neq _ _) Da) as Da'.
    unfold fold, all_const. mexec_all. reflexivity. }
  assert (rebalance_inputs (make n) n PlusImm [a] s = Ok [a] s) as Hr
    by reflexivity.
  destruct (make_body_builds (make n) n PlusImm [a] c fzero s Int _ s _ s
              eq_refl Hi Hf Hr Sh)
    as (r & s' & nr & Hm & Lr & Tr & Or & Ir & Iv & Fv & _).
  { repeat constructor; eapply valid_lookup; eassumption. }
  change (make (S n) PlusImm [a] c fzero s = Ok r s') in Hm.
  destruct (make_good _ _ _ _ _ _ _ _ G Hm) as (G' & E & _).
  exists r, s', nr. repeat (split; [assumption|]).
  destruct Fv as [->|Fv]; [reflexivity|exact Fv].
Qed.

(** ** The terms of a sum, again *)

Lemma atom_ext s s' p : ext s s' -> atom s p -> atom s' p.
Proof.
  intros E (n & L & H). destruct (ext_lookup _ _ _ _ E L) as (n' & L' & S).
  exists n'. split; [exact L'|]. apply strip_fields in S as (_ & -> & _).
  exact H.
Qed.





(** The terms of any sum are nodes that are no sums. *)
Lemma collectSum_atoms n : forall p pos acc s terms s1,
  wf s -> collectSum n p pos acc s = Ok terms s1 ->
  exists new, terms = acc ++ new /\ Forall (fun tm : term => atom s1 (fst tm)) new.
Proof.
  induction n as [|n IH]; intros p pos acc s terms s1 W H; [discriminate|].
  rewrite collectSum_S in H.
  apply bind_inv in H as (nd & s0 & Hg & H). apply get_inv in Hg as [-> L].
  destruct (is_sum (op nd)) eqn:Hs.
  - destruct (op nd) eqn:Eo; try discriminate Hs.
    + apply bind_inv in H as (i0 & ? & Ha & H). apply at_inv in Ha as [-> _].
      apply bind_inv in H as (t1 & s2 & C1 & H).
      apply bind_inv in H as (i1 & ? & Hb & H). apply at_inv in Hb as [-> _].
      destruct (IH _ _ _ _ _ _ W C1) as (new1 & -> & F1).
      destruct (collectSum_ok _ _ _ _ _ _ _ W C1) as (W2 & _ & _).
      destruct (IH _ _ _ _ _ _ W2 H) as (new2 & -> & F2).
      destruct (collectSum_ok _ _ _ _ _ _ _ W2 H) as (_ & E3 & _).
      exists (new1 ++ new2). split; [rewrite app_assoc; reflexivity|].
      apply Forall_app. split; [|exact F2].
      eapply Forall_impl; [exact F1|]. intros tm. apply atom_ext, E3.
    + apply bind_inv in H as (i0 & ? & Ha & H). apply at_inv in Ha as [-> _].
      apply bind_inv in H as (t1 & s2 & C1 & H).
      apply bind_inv in H as (i1 & ? & Hb & H). apply at_inv in Hb as [-> _].
      destruct (IH _ _ _ _ _ _ W C1) as (new1 & -> & F1).
      destruct (collectSum_ok _ _ _ _ _ _ _ W C1) as (W2 & _ & _).
      destruct (IH _ _ _ _ _ _ W2 H) as (new2 & -> & F2).
      destruct (collectSum_ok _ _ _ _ _ _ _ W2 H) as (_ & E3 & _).
      exists (new1 ++ new2). split; [rewrite app_assoc; reflexivity|].
      apply Forall_app. split; [|exact F2].
      eapply Forall_impl; [exact F1|]. intros tm. apply atom_ext, E3.
    + apply bind_inv in H as (i0 & ? & Ha & H). apply at_inv in Ha as [-> _].
      apply bind_inv in H as (t1 & s2 & C1 & H).
      apply bind_inv in H as (c & s3 & Hc & H). apply pure_inv in H as [-> ->].
      destruct (IH _ _ _ _ _ _ W C1) as (new1 & -> & F1).
      destruct (collectSum_ok _ _ _ _ _ _ _ W C1) as (W2 & _ & _).
      destruct (make_int_ok _ _ _ _ W2 Hc) as (_ & E3 & _ & _ & nc & Lc & _ & Oc & _).
      exists (new1 ++ [(c, true)]). split; [rewrite app_assoc; reflexivity|].
      apply Forall_app. split.
      * eapply Forall_impl; [exact F1|]. intros tm. apply atom_ext, E3.
      * constructor; [|constructor]. exists nc. split; [exact Lc|].
        rewrite Oc. reflexivity.
  - assert (terms = acc ++ [(p, pos)] /\ s1 = s) as [-> ->].
    { destruct (op nd); try discriminate Hs; apply pure_inv in H; tauto. }
    exists [(p, pos)]. split; [reflexivity|].
    constructor; [|constructor]. exists nd. auto.
Qed.

Lemma split_terms_Forall (P : term -> Prop) terms : forall s cn s',
  split_terms terms s = Ok cn s' -> Forall P terms ->
  Forall P (fst cn) /\ Forall P (snd cn).
Proof.
  induction terms as [|tm terms IH]; simpl; intros s cn s' H F.
  - apply pure_inv in H as [-> _]. split; constructor.
  - inversion F as [|? ? Ptm F']; subst.
    apply bind_inv in H as (nd & s0 & Hg & H). apply get_inv in Hg as [-> L].
    apply bind_inv in H as (cn0 & s0 & H0 & H).
    destruct (IH _ _ _ H0 F') as [Fc Fn].
    destruct (op_eqb (op nd) Const); apply pure_inv in H as [-> _]; simpl;
      split; try assumption; constructor; assumption.
Qed.

(** A term that depends on something is no constant. *)
Lemma split_terms_dep terms : forall s cn s',
  wf s -> split_terms terms s = Ok cn s' ->
  Exists (fun tm => dep s (fst tm)) terms ->
  Exists (fun tm => dep s (fst tm)) (snd cn).
Proof.
  induction terms as [|tm terms IH]; simpl; intros s cn s' W H Ex.
  - inversion Ex.
  - apply bind_inv in H as (nd & s0 & Hg & H). apply get_inv in Hg as [-> L].
    apply bind_inv in H as (cn0 & s0 & H0 & H).
    pose proof (split_terms_inv _ _ _ _ H0) as ->.
    destruct (op_eqb (op nd) Const) eqn:E; apply pure_inv in H as [-> _];
      simpl.
    + inversion Ex as [? ? Hd|? ? Ex']; subst; [|eapply IH; eassumption].
      exfalso. unfold dep, deps_at in Hd. rewrite L in Hd.
      apply op_eqb_eq in E. exact (Hd (wf_const _ W _ _ L E)).
    + inversion Ex as [? ? Hd|? ? Ex']; subst; [left; exact Hd|].
      right. eapply IH; eassumption.
Qed.

Lemma with_levels_snd terms : forall s lv s',
  with_levels terms s = Ok lv s' -> map snd lv = terms.
Proof.
  induction terms as [|tm terms IH]; simpl; intros s lv s' H.
  - apply pure_inv in H as [-> _]. reflexivity.
  - apply bind_inv in H as (nd & s0 & Hg & H). apply get_inv in Hg as [-> L].
    apply bind_inv in H as (r & s0 & H0 & H). apply pure_inv in H as [-> _].
    simpl. f_equal. eapply IH, H0.
Qed.

Lemma sift_perm x rest :
  fst (sift x rest) :: snd (sift x rest) ≡ₚ x :: rest.
Proof.
  revert x. induction rest as [|y r IH]; simpl; intros x; [reflexivity|].
  destruct (fst y <? fst x).
  - specialize (IH y). destruct (sift y r) as [m r']. simpl in *.
    etransitivity; [apply perm_swap|]. apply perm_skip, IH.
  - specialize (IH x). destruct (sift x r) as [m r']. simpl in *.
    etransitivity; [apply perm_swap|].
    etransitivity; [apply perm_skip, IH|]. apply perm_swap.
Qed.

Lemma swap_sort_perm n : forall l, swap_sort n l ≡ₚ l.
Proof.
  induction n as [|n IH]; intros [|x rest]; simpl; try reflexivity.
  pose proof (sift_perm x rest) as Hp. destruct (sift x rest) as [m r'].
  simpl in Hp. rewrite IH. exact Hp.
Qed.

(** The two lists of [rebalanceSum] are taken from the terms collected,
    and the one of the other terms has every term that depends on
    something. *)
Lemma sum_terms_inv n p s ct s1 :
  wf s -> sum_terms n p s = Ok ct s1 ->
  exists terms,
    collectSum n p true [] s = Ok terms s1
    /\ (forall P : term -> Prop,
          Forall P terms -> Forall P (fst ct) /\ Forall P (snd ct))
    /\ (Exists (fun tm => dep s1 (fst tm)) terms ->
        Exists (fun tm => dep s1 (fst tm)) (snd ct)).
Proof.
  intros W H. unfold sum_terms in H.
  apply bind_inv in H as (terms & s2 & C & H).
  apply bind_inv in H as (cn & s3 & Hs & H).
  apply bind_inv in H as (lv & s4 & Hl & H).
  pose proof (split_terms_inv _ _ _ _ Hs) as ->.
  pose proof (with_levels_snd _ _ _ _ Hl) as Hm.
  apply with_levels_inv in Hl as [-> _]. apply pure_inv in H as [-> ->].
  destruct (collectSum_ok _ _ _ _ _ _ _ W C) as (W2 & _ & _).
  exists terms. split; [exact C|]. simpl.
  assert (map snd (swap_sort (length lv) lv) ≡ₚ snd cn) as Hp.
  { rewrite <- Hm. apply fmap_Permutation, swap_sort_perm. }
  split.
  - intros P F. destruct (split_terms_Forall P _ _ _ _ Hs F) as [Fc Fn].
    split; [exact Fc|]. rewrite Hp. exact Fn.
  - intros Ex. apply (split_terms_dep _ _ _ _ W2 Hs) in Ex.
    rewrite Hp. exact Ex.
Qed.

(** The terms of a sum of a store that the factory has built are found
    under every bound above the position of the node; the first of the
    other terms is there, and one of them depends on something. *)
Lemma sum_terms_returns s p nd :
  good s -> allNodes s !! p = Some nd -> is_sum (op nd) = true ->
  exists ct s1 first,
    (forall n, (p < n)%nat -> sum_terms n p s = Ok ct s1)
    /\ good s1 /\ ext s s1
    /\ snd ct !! 0%nat = Some first
    /\ Forall (fun tm : term => atom s1 (fst tm)) (snd ct)
    /\ Exists (fun tm => dep s1 (fst tm)) (snd ct).
Proof.
  intros G L Hs. pose proof G as [W Sh].
  destruct (collectSum_returns (S p) p true [] s W (valid_lookup _ _ _ L))
    as (terms & s1 & C); [lia|].
  destruct (collectSum_ok _ _ _ _ _ _ _ W C) as (W1 & E1 & new & -> & F).
  destruct (split_terms_returns _ _ F) as [cn Hsp].
  destruct (split_terms_spec _ _ _ _ W1 Hsp) as [Fn _].
  destruct (with_levels_returns _ _ Fn) as (lv & Hl & Hlen).
  assert (sum_terms (S p) p s
          = Ok (fst cn, map snd (swap_sort (length lv) lv)) s1) as Hst.
  { unfold sum_terms.
    erewrite and_then_ok; [|exact C]. erewrite and_then_ok; [|exact Hsp].
    erewrite and_then_ok; [|exact Hl]. reflexivity. }
  destruct (sum_terms_inv _ _ _ _ _ W Hst) as (terms & C' & HF & HE).
  rewrite C in C'. injection C' as <-.
  destruct (collectSum_atoms _ _ _ _ _ _ _ W C) as (new' & En & Fa).
  simpl in En. subst new'.
  pose proof (collectSum_nonconst _ _ _ _ _ _ _ _ W L (or_introl Hs) C) as Ex.
  specialize (HE Ex). destruct (HF _ Fa) as [_ Fa'].
  set (ct := (fst cn, map snd (swap_sort (length lv) lv))) in *.
  assert (exists first, snd ct !! 0%nat = Some first) as [first Hf].
  { destruct (snd ct) as [|first rest]; [inversion HE|]. exists first.
    reflexivity. }
  exists ct, s1, first. split.
  { intros n Hn.
    destruct (mono_le (fun k => sum_terms k p)
                (fun k => sum_terms_mono _ _ (collectSum_mono k) p)
                (S p) n ltac:(lia) s) as [E|E]; congruence. }
  split.
  { split; [exact W1|]. eapply prims_shape; [exact Sh|].
    eapply collectSum_prims, C. }
  auto.
Qed.

(** ** Sums of type [Int] are rebalanced under every bound *)

Lemma dep_lookup s p n : allNodes s !! p = Some n -> dep s p <-> deps n <> 0.
Proof. intros L. unfold dep, deps_at. rewrite L. reflexivity. Qed.





(** ** Sums are built and rebalanced under every bound that is large enough *)


Lemma as_mono n t p : le_m (as_ n t p) (as_ (S n) t p).
Proof. apply as_body_mono. intros. apply make_mono. Qed.

Lemma as_fuel n m t p s r s' :
  (n <= m)%nat -> as_ n t p s = Ok r s' -> as_ m t p s = Ok r s'.
Proof.
  intros Hle H.
  destruct (mono_le (fun k => as_ k t p) (fun k => as_mono k t p) _ _ Hle s)
    as [E|E]; congruence.
Qed.

Lemma rebuild_fuel n m rest t tPos s acc s' :
  (n <= m)%nat -> rebuild (make n) rest t tPos s = Ok acc s' ->
  rebuild (make m) rest t tPos s = Ok acc s'.
Proof.
  intros Hle H.
  destruct (mono_le (fun k => rebuild (make k) rest t tPos)
              (fun k => rebuild_mono (make k) (make (S k))
                          (fun o i iv fv => make_mono k o i iv fv) rest t tPos)
              _ _ Hle s) as [E|E]; congruence.
Qed.

Lemma returns_det {A} (F : nat -> M A) s a s' b s'' :
  returns F s a s' -> returns F s b s'' -> a = b /\ s' = s''.
Proof.
  intros [N1 H1] [N2 H2].
  specialize (H1 (Nat.max N1 N2) ltac:(lia)).
  specialize (H2 (Nat.max N1 N2) ltac:(lia)).
  rewrite H1 in H2. injection H2 as -> ->. auto.
Qed.



Lemma summand_lookup s p n :
  summand s p -> allNodes s !! p = Some n -> type n = Int -> int_tree s p.
Proof. intros (n' & L' & H) L T. rewrite L in L'. injection L' as <-. auto. Qed.












(** ** Building a node that is there *)

Lemma feqb_zero a b :
  feqb a fzero = true -> feqb b fzero = true -> feqb a b = true.
Proof.
  unfold feqb, SFeqb, fzero.
  destruct a as [sa|sa| |sa ma ea], b as [sb|sb| |sb mb eb]; simpl;
    try reflexivity; try discriminate;
    try (destruct sa; discriminate); try (destruct sb; discriminate).
Qed.

Lemma same_node_intro c opcode t ins iv fv :
  ival c = iv -> feqb (fval c) fv = true -> op c = opcode -> type c = t ->
  inputs c = ins -> same_node c opcode t ins iv fv = true.
Proof.
  intros <- Hf <- <- <-. unfold same_node.
  rewrite Z.eqb_refl, Hf, ptrs_eqb_refl.
  rewrite (proj2 (op_eqb_eq _ _) eq_refl), (proj2 (type_eqb_eq _ _) eq_refl).
  reflexivity.
Qed.

Lemma same_node_fval c opcode t ins iv fv :
  same_node c opcode t ins iv fv = true -> feqb (fval c) fv = true.
Proof.
  unfold same_node.
  intros [[[[_ H]%andb_prop _]%andb_prop _]%andb_prop _]%andb_prop. exact H.
Qed.

Lemma same_node_ext s s' p n opcode t ins iv fv :
  ext s s' -> allNodes s !! p = Some n ->
  same_node n opcode t ins iv fv = true ->
  exists n', allNodes s' !! p = Some n'
             /\ same_node n' opcode t ins iv fv = true.
Proof.
  intros E L H. destruct (ext_lookup _ _ _ _ E L) as (n' & L' & S).
  exists n'. split; [exact L'|].
  apply strip_fields in S as (T & O & I & Iv & Fv & _).
  unfold same_node in *. rewrite T, O, I, Iv, Fv. exact H.
Qed.

(** Two nodes with inputs, the same opcode, type, inputs and immediate
    and the float 0 are one node. *)
Lemma same_node_unique s p q np nq opcode t ins iv :
  shape s ->
  allNodes s !! p = Some np -> allNodes s !! q = Some nq ->
  same_node np opcode t ins iv fzero = true ->
  same_node nq opcode t ins iv fzero = true ->
  ins <> [] -> p = q.
Proof.
  intros Sh Lp Lq Hp Hq Hi.
  pose proof (same_node_fval _ _ _ _ _ _ Hp) as Fp.
  pose proof (same_node_fval _ _ _ _ _ _ Hq) as Fq.
  apply same_node_inv in Hp as (Ip & Op & Tp & Inp).
  apply same_node_inv in Hq as (Iq & Oq & Tq & Inq).
  destruct (Nat.lt_trichotomy p q) as [Hlt|[Heq|Hlt]]; [|exact Heq|]; exfalso.
  - pose proof (sh_unique _ Sh _ _ _ _ Lp Lq Hlt) as U.
    rewrite same_node_intro in U;
      [specialize (U ltac:(congruence)); discriminate U|congruence
      |apply feqb_zero; assumption|congruence|congruence|congruence].
  - pose proof (sh_unique _ Sh _ _ _ _ Lq Lp Hlt) as U.
    rewrite same_node_intro in U;
      [specialize (U ltac:(congruence)); discriminate U|congruence
      |apply feqb_zero; assumption|congruence|congruence|congruence].
Qed.

Lemma scan_finds cands opcode t ins iv fv s q :
  Forall (valid s) cands -> q ∈ cands ->
  (forall c nc, c ∈ cands -> allNodes s !! c = Some nc ->
     same_node nc opcode t ins iv fv = true -> c = q) ->
  (exists nq, allNodes s !! q = Some nq
              /\ same_node nq opcode t ins iv fv = true) ->
  scan cands opcode t ins iv fv s = Ok (Some q) s.
Proof.
  intros F Hq Hu (nq & Lq & Sq).
  induction F as [|c cands V _ IH]; [inversion Hq|].
  destruct (valid_is_Some _ _ V) as [nc Lc]. simpl. unfold and_then.
  rewrite (get_ok _ _ _ Lc).
  destruct (same_node nc opcode t ins iv fv) eqn:Ec.
  - rewrite (Hu c nc (list_elem_of_here _ _) Lc Ec). reflexivity.
  - apply IH.
    + apply elem_of_cons in Hq as [->|Hq]; [|exact Hq]. congruence.
    + intros c' nc' Hc'. apply Hu. apply list_elem_of_further, Hc'.
Qed.

(** The search for a common subexpression finds the node that is
    there. *)
Lemma cse_finds opcode t ins iv s q nq :
  shape s -> ins <> [] ->
  allNodes s !! q = Some nq ->
  same_node nq opcode t ins iv fzero = true ->
  cse opcode t ins iv fzero s = Ok (Some q) s.
Proof.
  intros Sh Hi Lq Sq. unfold cse. destruct ins as [|p0 ins]; [congruence|].
  pose proof (same_node_inv _ _ _ _ _ _ Sq) as (_ & _ & _ & Iq).
  pose proof (sh_inputs _ Sh _ _ Lq) as Fi. rewrite Iq in Fi.
  inversion Fi as [|? ? H0 _]; subst.
  assert (valid s p0) as V0.
  { unfold valid. apply lookup_lt_Some in Lq. lia. }
  destruct (valid_is_Some _ _ V0) as [n0 L0].
  rewrite (and_then_ok _ _ _ _ _ (get_ok _ _ _ L0)).
  apply scan_finds.
  - eapply outputs_valid; eassumption.
  - apply (sh_outputs _ Sh _ _ q L0). exists nq. split; [exact Lq|].
    rewrite Iq. apply list_elem_of_here.
  - intros c nc _ Lc Sc.
    eapply (same_node_unique s c q); eauto.
  - eauto.
Qed.

Lemma make_body_finds mk fuel opcode ins iv s t ins1 q nq :
  plain opcode = true -> is_sum opcode = true ->
  infer mk opcode ins s = Ok (Continue (t, ins1)) s ->
  fold opcode t ins1 iv s = Ok (Continue tt) s ->
  shape s -> ins1 <> [] ->
  allNodes s !! q = Some nq ->
  same_node nq opcode t ins1 iv fzero = true ->
  make_body mk fuel opcode ins iv fzero s = Ok q s.
Proof.
  intros Hp Hs Hi Hf Sh Hne Lq Sq.
  assert (reduce mk opcode ins1 s = Ok (Continue tt) s) as Hd.
  { destruct opcode; try discriminate Hp; reflexivity. }
  assert (rebalance_inputs mk fuel opcode ins1 s = Ok ins1 s) as Hr.
  { unfold rebalance_inputs. rewrite Hs. reflexivity. }
  assert (variables opcode t s = Ok (Continue tt) s) as Hv.
  { destruct opcode; try discriminate Hp; reflexivity. }
  assert (fuse_load mk opcode ins1 iv s = Ok (Continue tt) s) as Hl.
  { destruct opcode; try discriminate Hp; reflexivity. }
  assert (fuse_times mk opcode t ins1 s = Ok (Continue tt) s) as Ht.
  { destruct opcode; try discriminate Hp; reflexivity. }
  pose proof (cse_finds opcode t ins1 iv s q nq Sh Hne Lq Sq) as Hc.
  unfold make_body. unfold and_then at 1. rewrite Hi. cbn [fst snd].
  unfold and_then at 1. rewrite Hf.
  unfold and_then at 1. rewrite Hd.
  unfold and_then at 1. rewrite Hr.
  unfold and_then at 1. rewrite Hv.
  unfold and_then at 1. rewrite Hl.
  unfold and_then at 1. rewrite Ht.
  unfold and_then at 1. rewrite Hc. reflexivity.
Qed.

(** [make] of a [Plus] or [Minus] that is there returns it and builds
    nothing. *)
Lemma sum_replay n opcode a b s na nb q nq :
  opcode = Plus \/ opcode = Minus -> good s ->
  allNodes s !! a = Some na -> allNodes s !! b = Some nb ->
  type na = Int -> type nb = Int -> deps na <> 0 \/ deps nb <> 0 ->
  allNodes s !! q = Some nq ->
  same_node nq opcode Int [a; b] 0 fzero = true ->
  make (S n) opcode [a; b] 0 fzero s = Ok q s.
Proof.
  intros Ho G La Lb Ta Tb Hd Lq Sq. pose proof G as [W Sh].
  assert (infer (make n) opcode [a; b] s = Ok (Continue (Int, [a; b])) s)
    as Hi.
  { destruct Ho as [-> | ->]; unfold infer, either_float, coerce, as_body;
      mexec; reflexivity. }
  assert (fold opcode Int [a; b] 0 s = Ok (Continue tt) s) as Hf.
  { unfold fold, all_const. destruct (Z.eq_dec (deps na) 0) as [Da|Da].
    - destruct Hd as [Hd|Hd]; [contradiction|].
      pose proof (proj2 (Z.eqb_neq _ _) Hd) as Db'. mexec_all. reflexivity.
    - pose proof (proj2 (Z.eqb_neq _ _) Da) as Da'. mexec_all. reflexivity. }
  simpl. eapply make_body_finds; try eassumption;
    try (destruct Ho as [-> | ->]; reflexivity).
  discriminate.
Qed.

(** [make] of a [PlusImm] that is there returns it and builds nothing. *)
Lemma plusimm_replay n a c s na r nr :
  good s -> allNodes s !! a = Some na -> deps na <> 0 ->
  allNodes s !! r = Some nr ->
  same_node nr PlusImm Int [a] c fzero = true ->
  make (S n) PlusImm [a] c fzero s = Ok r s.
Proof.
  intros G La Da Lr Sr. pose proof G as [W Sh].
  assert (infer (make n) PlusImm [a] s = Ok (Continue (Int, [a])) s) as Hi.
  { unfold infer. mexec. reflexivity. }
  assert (fold PlusImm Int [a] c s = Ok (Continue tt) s) as Hf.
  { pose proof (proj2 (Z.eqb_neq _ _) Da) as Da'.
    unfold fold, all_const. mexec_all. reflexivity. }
  simpl. eapply make_body_finds; try eassumption; try reflexivity.
  discriminate.
Qed.

(** ** The sort *)

Lemma sift_least x rest :
  fst (fst (sift x rest)) <= fst x
  /\ Forall (fun y => fst (fst (sift x rest)) <= fst y) (snd (sift x rest)).
Proof.
  revert x. induction rest as [|y r IH]; simpl; intros x.
  - split; [lia|constructor].
  - destruct (fst y <? fst x) eqn:E.
    + apply Z.ltb_lt in E. specialize (IH y).
      destruct (sift y r) as [m r']. simpl in *. destruct IH as [A B].
      split; [lia|]. constructor; [lia|exact B].
    + apply Z.ltb_ge in E. specialize (IH x).
      destruct (sift x r) as [m r']. simpl in *. destruct IH as [A B].
      split; [lia|]. constructor; [lia|exact B].
Qed.

Lemma swap_sort_ordered n : forall l,
  (length l <= n)%nat -> ordered (swap_sort n l).
Proof.
  induction n as [|n IH]; intros [|x rest] Hl; simpl in *; try exact I;
    try lia.
  pose proof (sift_least x rest) as [_ B].
  pose proof (sift_length x rest) as Hlen.
  destruct (sift x rest) as [m r']. simpl in *. split.
  - rewrite swap_sort_perm. exact B.
  - apply IH. lia.
Qed.

Lemma sift_ordered x rest :
  Forall (fun y => fst x <= fst y) rest -> sift x rest = (x, rest).
Proof.
  induction 1 as [|y r Hy _ IH]; simpl; [reflexivity|].
  apply Z.ltb_ge in Hy. rewrite Hy, IH. reflexivity.
Qed.

Lemma swap_sort_id n : forall l, ordered l -> swap_sort n l = l.
Proof.
  induction n as [|n IH]; intros [|x rest] H; simpl; try reflexivity.
  destruct H as [A B]. rewrite (sift_ordered _ _ A), (IH _ B). reflexivity.
Qed.

Lemma with_levels_leveled terms s :
  Forall (fun tm : term => valid s (fst tm)) terms ->
  with_levels terms s = Ok (leveled s terms) s.
Proof.
  induction 1 as [|tm terms V _ IH]; simpl; [reflexivity|].
  destruct (valid_is_Some _ _ V) as [nd L]. unfold and_then.
  rewrite (get_ok _ _ _ L), IH. unfold level_at. rewrite L. reflexivity.
Qed.

Lemma leveled_ext s s' terms :
  ext s s' -> Forall (fun tm : term => valid s (fst tm)) terms ->
  leveled s' terms = leveled s terms.
Proof.
  intros E F. unfold leveled. apply map_ext_Forall.
  eapply Forall_impl; [exact F|]. intros tm V. simpl in *.
  destruct (valid_is_Some _ _ V) as [n L].
  destruct (ext_lookup _ _ _ _ E L) as (n' & L' & S).
  apply strip_fields in S as (_ & _ & _ & _ & _ & _ & Lv).
  unfold level_at. rewrite L, L'. simpl. rewrite Lv. reflexivity.
Qed.

Lemma leveled_snd s (l : list (Z * term)) :
  Forall (fun x => x = (default 0 (level_at s (fst (snd x))), snd x)) l ->
  leveled s (map snd l) = l.
Proof.
  induction 1 as [|x l Hx _ IH]; [reflexivity|].
  unfold leveled in *. cbn [map]. rewrite IH. f_equal. symmetry. exact Hx.
Qed.

(** The other terms of [rebalanceSum] are in the order of their levels,
    and none of them is a constant. *)
Lemma sum_terms_sorted n p s ct s1 :
  wf s -> sum_terms n p s = Ok ct s1 ->
  ordered (leveled s1 (snd ct))
  /\ Forall (fun tm : term =>
               exists nd, allNodes s1 !! fst tm = Some nd /\ op nd <> Const)
       (snd ct).
Proof.
  intros W H. unfold sum_terms in H.
  apply bind_inv in H as (terms & s2 & C & H).
  apply bind_inv in H as (cn & s3 & Hs & H).
  apply bind_inv in H as (lv & s4 & Hl & H).
  pose proof (split_terms_inv _ _ _ _ Hs) as ->.
  pose proof (with_levels_inv _ _ _ _ Hl) as [-> Fv].
  apply pure_inv in H as [-> ->]. simpl.
  assert (Forall (fun tm : term => valid s2 (fst tm)) (snd cn)) as Fn.
  { pose proof (with_levels_snd _ _ _ _ Hl) as <-.
    apply Forall_map. exact Fv. }
  rewrite (with_levels_leveled _ _ Fn) in Hl. injection Hl as <-.
  split.
  - rewrite leveled_snd.
    + apply swap_sort_ordered. reflexivity.
    + apply swap_sort_Forall. unfold leveled. apply Forall_map.
      apply Forall_forall. intros tm _. reflexivity.
  - assert (Forall (fun tm : term =>
                      exists nd, allNodes s2 !! fst tm = Some nd
                                 /\ op nd <> Const) (snd cn)) as Fc.
    { clear Fn Fv C. revert cn Hs.
      induction terms as [|tm terms IH]; simpl; intros cn Hs.
      - apply pure_inv in Hs as [-> _]. constructor.
      - apply bind_inv in Hs as (nd & s0 & Hg & Hs).
        apply get_inv in Hg as [-> L].
        apply bind_inv in Hs as (cn0 & s0 & H0 & Hs).
        pose proof (split_terms_inv _ _ _ _ H0) as ->.
        specialize (IH _ H0).
        destruct (op_eqb (op nd) Const) eqn:E; apply pure_inv in Hs as [-> _];
          simpl; [exact IH|].
        constructor; [|exact IH]. exists nd. split; [exact L|].
        intros Ho. apply op_eqb_eq in Ho. congruence. }
    rewrite (fmap_Permutation snd _ _ (swap_sort_perm _ _)).
    unfold leveled. rewrite map_map. simpl. rewrite map_id. exact Fc.
Qed.

(** ** A second pass over a rebalanced sum *)

Lemma term_op_sum tm : term_op tm = Plus \/ term_op tm = Minus.
Proof. unfold term_op. destruct (snd tm); auto. Qed.

Lemma sum_chain_ext s s' rest : forall t r,
  ext s s' -> sum_chain s t rest r -> sum_chain s' t rest r.
Proof.
  induction rest as [|next rest IH]; simpl; intros t r E H; [exact H|].
  destruct H as (q & nq & Lq & Sq & H).
  destruct (same_node_ext _ _ _ _ _ _ _ _ _ E Lq Sq) as (nq' & Lq' & Sq').
  exists q, nq'. split; [exact Lq'|]. split; [exact Sq'|]. eapply IH; eauto.
Qed.

Lemma int_term_ext s s' tm : ext s s' -> int_term s tm -> int_term s' tm.
Proof.
  intros E (n & L & T & Hs & D).
  destruct (ext_lookup _ _ _ _ E L) as (n' & L' & S).
  apply strip_fields in S as (Tn & On & _ & _ & _ & Dn & _).
  exists n'. split; [exact L'|]. rewrite Tn, On, Dn. auto.
Qed.

Lemma int_term_atom s tm : int_term s tm -> atom s (fst tm).
Proof. intros (n & L & _ & Hs & _). exists n. auto. Qed.

Lemma int_term_nonconst s tm :
  wf s -> int_term s tm ->
  exists nd, allNodes s !! fst tm = Some nd /\ op nd <> Const.
Proof.
  intros W (n & L & _ & _ & D). exists n. split; [exact L|].
  intros Ho. exact (D (wf_const _ W _ _ L Ho)).
Qed.

Lemma int_terms_valid s (terms : list term) :
  Forall (int_term s) terms -> Forall (fun tm => valid s (fst tm)) terms.
Proof.
  intros F. eapply Forall_impl; [exact F|]. intros tm (n & L & _).
  eapply valid_lookup, L.
Qed.

(** The sum of a chain has type [Int] and depends on something. *)
Lemma sum_chain_top s rest : forall t r nt,
  good s -> allNodes s !! t = Some nt -> type nt = Int -> deps nt <> 0 ->
  sum_chain s t rest r ->
  exists nr, allNodes s !! r = Some nr /\ type nr = Int /\ deps nr <> 0
             /\ (rest <> [] -> is_sum (op nr) = true).
Proof.
  induction rest as [|next rest IH]; simpl; intros t r nt G Lt Tt Dt H.
  - subst r. exists nt. repeat (split; [assumption|]). congruence.
  - destruct H as (q & nq & Lq & Sq & H).
    pose proof (same_node_inv _ _ _ _ _ _ Sq) as (_ & Oq & Tq & Iq).
    assert (deps nq <> 0) as Dq.
    { apply (dep_lookup _ _ _ Lq).
      eapply deps_of_input; [exact (proj2 G)|exact Lq|]. rewrite Iq. left.
      apply (dep_lookup _ _ _ Lt), Dt. }
    destruct (IH q r nq G Lq Tq Dq H) as (nr & Lr & Tr & Dr & Hr).
    exists nr. repeat (split; [assumption|]). intros _.
    destruct rest as [|next' rest]; [|apply Hr; discriminate].
    simpl in H. subst r. rewrite Lq in Lr. injection Lr as <-. rewrite Oq.
    destruct (term_op_sum next) as [-> | ->]; reflexivity.
Qed.

Lemma rebuild_positive mk t next nextPos rest :
  rebuild mk ((next, nextPos) :: rest) t true
  = (let* q := mk (term_op (next, nextPos)) [t; next] 0 fzero in
     rebuild mk rest q true).
Proof. destruct nextPos; reflexivity. Qed.

(** From a positive sum on, the loop of [rebalanceSum] builds the
    chain. *)
Lemma rebuild_chain n rest : forall t s nt,
  good s -> allNodes s !! t = Some nt -> type nt = Int -> deps nt <> 0 ->
  Forall (int_term s) rest ->
  exists r s',
    rebuild (make (S n)) rest t true s = Ok (r, true) s'
    /\ good s' /\ ext s s' /\ sum_chain s' t rest r.
Proof.
  induction rest as [|[nx np] rest IH]; intros t s nt G Lt Tt Dt F.
  - exists t, s. split; [reflexivity|]. split; [exact G|].
    split; [apply ext_refl|reflexivity].
  - apply Forall_cons in F as [(nn & Ln & Tn & _ & Dn) F']. simpl in Ln.
    destruct (make_int_sum n (term_op (nx, np)) t nx s nt nn
                (term_op_sum _) G Lt Ln Tt Tn)
      as (q & s1 & nq & Hm & G1 & E1 & Lq & Tq & H).
    destruct H as [(Da & _)|(_ & Oq & Iq & Ivq & Fq & Dq)]; [contradiction|].
    destruct (IH q s1 nq G1 Lq Tq Dq) as (r & s' & Hrb & G' & E' & Hc).
    { eapply Forall_impl; [exact F'|]. intros tm. apply int_term_ext, E1. }
    exists r, s'. split.
    { rewrite rebuild_positive. unfold and_then. rewrite Hm. exact Hrb. }
    split; [exact G'|]. split; [eapply ext_trans; eassumption|].
    destruct (same_node_ext s1 s' q nq (term_op (nx, np)) Int [t; nx] 0 fzero
                E' Lq)
      as (nq' & Lq' & Sq').
    { apply same_node_intro; assumption. }
    exists q, nq'. auto.
Qed.

(** Over a chain that is there, the loop returns the chain and builds
    nothing. *)
Lemma rebuild_replay n rest : forall t s r nt,
  good s -> allNodes s !! t = Some nt -> type nt = Int -> deps nt <> 0 ->
  Forall (int_term s) rest -> sum_chain s t rest r ->
  rebuild (make (S n)) rest t true s = Ok (r, true) s.
Proof.
  induction rest as [|[nx np] rest IH]; intros t s r nt G Lt Tt Dt F H.
  - simpl in H. subst r. reflexivity.
  - apply Forall_cons in F as [(nn & Ln & Tn & _ & Dn) F']. simpl in Ln.
    destruct H as (q & nq & Lq & Sq & H). cbn [fst] in Sq.
    pose proof (sum_replay n _ t nx s nt nn q nq (term_op_sum _) G Lt Ln Tt
                  Tn (or_introl Dt) Lq Sq) as Hm.
    pose proof (same_node_inv _ _ _ _ _ _ Sq) as (_ & Oq & Tq & Iq).
    assert (deps nq <> 0) as Dq.
    { apply (dep_lookup _ _ _ Lq).
      eapply deps_of_input; [exact (proj2 G)|exact Lq|]. rewrite Iq. left.
      apply (dep_lookup _ _ _ Lt), Dt. }
    rewrite rebuild_positive. unfold and_then. rewrite Hm.
    eapply IH; eassumption.
Qed.

(** The terms of a chain are the terms it was built from, with their
    signs. *)
Lemma collectSum_chain s rest : forall t r front,
  good s -> sum_chain s t rest r ->
  Forall (fun tm : term => atom s (fst tm)) rest ->
  (forall fuel acc, (t < fuel)%nat ->
     collectSum fuel t true acc s = Ok (acc ++ front) s) ->
  forall fuel acc, (r < fuel)%nat ->
    collectSum fuel r true acc s = Ok (acc ++ front ++ rest) s.
Proof.
  induction rest as [|[nx np] rest IH]; intros t r front G H F Ht fuel acc Hf.
  - simpl in H. subst r. rewrite app_nil_r. apply Ht, Hf.
  - apply Forall_cons in F as [(na & La & Hs) F']. simpl in La.
    destruct H as (q & nq & Lq & Sq & H). cbn [fst] in Sq.
    pose proof (same_node_inv _ _ _ _ _ _ Sq) as (_ & Oq & Tq & Iq).
    pose proof (sh_inputs _ (proj2 G) _ _ Lq) as Fi. rewrite Iq in Fi.
    inversion Fi as [|? ? Hlt _]; subst.
    assert (forall fuel acc, (q < fuel)%nat ->
              collectSum fuel q true acc s
              = Ok (acc ++ front ++ [(nx, np)]) s) as Hq.
    { intros fuel' acc' Hq. destruct fuel' as [|f]; [lia|].
      assert (collectSum f t true acc' s = Ok (acc' ++ front) s) as C1
        by (apply Ht; lia).
      assert (forall pos', collectSum f nx pos' (acc' ++ front) s
                           = Ok ((acc' ++ front) ++ [(nx, pos')]) s) as C2.
      { intros pos'. destruct f as [|f]; [lia|].
        eapply collectSum_atom; eassumption. }
      rewrite collectSum_S, (and_then_ok _ _ _ _ _ (get_ok _ _ _ Lq)), Oq, Iq.
      destruct np; unfold term_op; cbn [snd]; cbv beta iota;
        (erewrite and_then_ok; [|reflexivity]);
        rewrite (and_then_ok _ _ _ _ _ C1);
        (erewrite and_then_ok; [|reflexivity]);
        rewrite C2, <- app_assoc; reflexivity. }
    pose proof (IH q r (front ++ [(nx, np)]) G H F' Hq fuel acc Hf) as R.
    rewrite <- (app_assoc front) in R. exact R.
Qed.

Lemma plus_sum_tree s p : plus_tree s p -> sum_tree s p.
Proof.
  induction 1 as [p n L T Hs Hd|p n a b L T Ho Hi _ IHa _ IHb
                 |p n a L Ho Hi _ IHa].
  - eapply sum_leaf; eassumption.
  - eapply sum_node; [exact L|exact T|left; exact Ho|exact Hi|exact IHa
                     |exact IHb].
  - eapply sum_imm; eassumption.
Qed.

(** The terms of such a sum have type [Int], are no sums, and are
    constants or depend on something. *)
Lemma collectSum_sum_tree s p :
  sum_tree s p ->
  forall s0, ext s s0 -> wf s0 ->
  forall fuel pos acc, (p < fuel)%nat ->
    exists new s',
      collectSum fuel p pos acc s0 = Ok (acc ++ new) s'
      /\ wf s' /\ ext s0 s'
      /\ Forall (fun tm : term =>
                   exists n, allNodes s' !! fst tm = Some n
                             /\ type n = Int /\ is_sum (op n) = false
                             /\ (op n = Const \/ deps n <> 0)) new.
Proof.
  intros H.
  induction H as [p n L T Hs Hd|p n a b L T Ho Hi _ IHa _ IHb
                 |p n a L Ho Hi _ IHa];
    intros s0 E W fuel pos acc Hf; (destruct fuel as [|fuel]; [lia|]);
    destruct (ext_lookup _ _ _ _ E L) as (n' & L' & S);
    apply strip_fields in S as (Tn & On & In & Ivn & _ & Dn & _).
  - exists [(p, pos)], s0. split.
    { eapply collectSum_atom; [exact L'|]. rewrite On. exact Hs. }
    split; [exact W|]. split; [apply ext_refl|].
    constructor; [|constructor]. simpl.
    exists n'. rewrite Tn, On, Dn. auto.
  - pose proof (wf_inputs _ W _ _ L') as Fi. rewrite In, Hi in Fi.
    inversion Fi as [|? ? Ha' Fi']; subst.
    inversion Fi' as [|? ? Hb' _]; subst.
    destruct (IHa s0 E W fuel pos acc) as (new1 & s1 & C1 & W1 & E1 & F1);
      [lia|].
    assert (exists pos' new2 s2,
              collectSum fuel b pos' (acc ++ new1) s1
              = Ok ((acc ++ new1) ++ new2) s2
              /\ wf s2 /\ ext s1 s2
              /\ Forall (fun tm : term =>
                           exists n, allNodes s2 !! fst tm = Some n
                                     /\ type n = Int /\ is_sum (op n) = false
                                     /\ (op n = Const \/ deps n <> 0)) new2
              /\ collectSum (S fuel) p pos acc s0
                 = (let* t1 := collectSum fuel a pos acc in
                    collectSum fuel b pos' t1) s0)
      as (pos' & new2 & s2 & C2 & W2 & E2 & F2 & Eq).
    { destruct Ho as [Ho|Ho].
      - destruct (IHb s1 (ext_trans _ _ _ E E1) W1 fuel pos (acc ++ new1))
          as (new2 & s2 & C2 & W2 & E2 & F2); [lia|].
        exists pos, new2, s2. repeat (split; [assumption|]).
        rewrite collectSum_S, (and_then_ok _ _ _ _ _ (get_ok _ _ _ L')).
        rewrite On, Ho, In, Hi. reflexivity.
      - destruct (IHb s1 (ext_trans _ _ _ E E1) W1 fuel (negb pos)
                    (acc ++ new1))
          as (new2 & s2 & C2 & W2 & E2 & F2); [lia|].
        exists (negb pos), new2, s2. repeat (split; [assumption|]).
        rewrite collectSum_S, (and_then_ok _ _ _ _ _ (get_ok _ _ _ L')).
        rewrite On, Ho, In, Hi. reflexivity. }
    exists (new1 ++ new2), s2. split.
    { rewrite Eq. unfold and_then. rewrite C1, C2, app_assoc. reflexivity. }
    split; [exact W2|]. split; [eapply ext_trans; eassumption|].
    apply Forall_app. split; [|exact F2].
    eapply Forall_impl; [exact F1|]. intros tm (m & Lm & Tm & Sm & Dm).
    destruct (ext_lookup _ _ _ _ E2 Lm) as (m' & Lm' & S).
    apply strip_fields in S as (Tm' & Om' & _ & _ & _ & Dm' & _).
    exists m'. rewrite Tm', Om', Dm'. auto.
  - pose proof (wf_inputs _ W _ _ L') as Fi. rewrite In, Hi in Fi.
    inversion Fi as [|? ? Ha' _]; subst.
    destruct (IHa s0 E W fuel pos acc) as (new1 & s1 & C1 & W1 & E1 & F1);
      [lia|].
    destruct (make_int_returns (ival n') s1) as (k & s2 & Hk).
    destruct (make_int_ok _ _ _ _ W1 Hk)
      as (W2 & E2 & _ & _ & nk & Lk & Tk & Ok' & _).
    exists (new1 ++ [(k, true)]), s2. split.
    { rewrite collectSum_S, (and_then_ok _ _ _ _ _ (get_ok _ _ _ L')).
      rewrite On, Ho, In, Hi. unfold and_then, at_. simpl. rewrite C1.
      rewrite Hk, app_assoc. reflexivity. }
    split; [exact W2|]. split; [eapply ext_trans; eassumption|].
    apply Forall_app. split.
    + eapply Forall_impl; [exact F1|].
      intros tm (m & Lm & Tm & Sm & Dm).
      destruct (ext_lookup _ _ _ _ E2 Lm) as (m' & Lm' & S).
      apply strip_fields in S as (Tm' & Om' & _ & _ & _ & Dm' & _).
      exists m'. rewrite Tm', Om', Dm'. auto.
    + constructor; [|constructor]. simpl.
      exists nk. rewrite Ok'. auto.
Qed.

(** Where nothing is subtracted, every term is added. *)
Lemma collectSum_plus_tree s p :
  plus_tree s p ->
  forall s0, ext s s0 -> wf s0 ->
  forall fuel acc, (p < fuel)%nat ->
    exists new s',
      collectSum fuel p true acc s0 = Ok (acc ++ new) s'
      /\ wf s' /\ ext s0 s'
      /\ Forall (fun tm : term => snd tm = true) new.
Proof.
  intros H.
  induction H as [p n L T Hs Hd|p n a b L T Ho Hi _ IHa _ IHb
                 |p n a L Ho Hi _ IHa];
    intros s0 E W fuel acc Hf; (destruct fuel as [|fuel]; [lia|]);
    destruct (ext_lookup _ _ _ _ E L) as (n' & L' & S);
    apply strip_fields in S as (Tn & On & In & Ivn & _ & Dn & _).
  - exists [(p, true)], s0. split.
    { eapply collectSum_atom; [exact L'|]. rewrite On. exact Hs. }
    split; [exact W|]. split; [apply ext_refl|].
    constructor; [reflexivity|constructor].
  - pose proof (wf_inputs _ W _ _ L') as Fi. rewrite In, Hi in Fi.
    inversion Fi as [|? ? Ha' Fi']; subst.
    inversion Fi' as [|? ? Hb' _]; subst.
    destruct (IHa s0 E W fuel acc) as (new1 & s1 & C1 & W1 & E1 & F1);
      [lia|].
    destruct (IHb s1 (ext_trans _ _ _ E E1) W1 fuel (acc ++ new1))
      as (new2 & s2 & C2 & W2 & E2 & F2); [lia|].
    exists (new1 ++ new2), s2. split.
    { rewrite collectSum_S, (and_then_ok _ _ _ _ _ (get_ok _ _ _ L')).
      rewrite On, Ho, In, Hi. unfold and_then, at_. simpl. rewrite C1.
      rewrite C2, app_assoc. reflexivity. }
    split; [exact W2|]. split; [eapply ext_trans; eassumption|].
    apply Forall_app. auto.
  - pose proof (wf_inputs _ W _ _ L') as Fi. rewrite In, Hi in Fi.
    inversion Fi as [|? ? Ha' _]; subst.
    destruct (IHa s0 E W fuel acc) as (new1 & s1 & C1 & W1 & E1 & F1);
      [lia|].
    destruct (make_int_returns (ival n') s1) as (k & s2 & Hk).
    destruct (make_int_ok _ _ _ _ W1 Hk) as (W2 & E2 & _).
    exists (new1 ++ [(k, true)]), s2. split.
    { rewrite collectSum_S, (and_then_ok _ _ _ _ _ (get_ok _ _ _ L')).
      rewrite On, Ho, In, Hi. unfold and_then, at_. simpl. rewrite C1.
      rewrite Hk, app_assoc. reflexivity. }
    split; [exact W2|]. split; [eapply ext_trans; eassumption|].
    apply Forall_app. split; [exact F1|]. constructor; [reflexivity|].
    constructor.
Qed.

Lemma split_terms_front T C s :
  Forall (fun tm : term =>
            exists nd, allNodes s !! fst tm = Some nd /\ op nd <> Const) T ->
  split_terms C s = Ok (C, []) s ->
  split_terms (T ++ C) s = Ok (C, T) s.
Proof.
  intros F HC. induction F as [|tm T (nd & L & Ho) _ IH]; [exact HC|].
  simpl. unfold and_then. rewrite (get_ok _ _ _ L), IH.
  destruct (op_eqb (op nd) Const) eqn:E; [|reflexivity].
  apply op_eqb_eq in E. contradiction.
Qed.

Lemma leveled_terms s T : map snd (leveled s T) = T.
Proof. unfold leveled. rewrite map_map. simpl. apply map_id. Qed.

(** The two lists of [rebalanceSum] on a sum whose terms are collected in
    the order of their levels, the constants last. *)
Lemma sum_terms_chain n r s T C s' :
  collectSum n r true [] s = Ok (T ++ C) s' ->
  Forall (fun tm : term =>
            exists nd, allNodes s' !! fst tm = Some nd /\ op nd <> Const) T ->
  split_terms C s' = Ok (C, []) s' ->
  ordered (leveled s' T) ->
  sum_terms n r s = Ok (C, T) s'.
Proof.
  intros Hc F HC Ho. unfold sum_terms.
  assert (Forall (fun tm : term => valid s' (fst tm)) T) as V.
  { eapply Forall_impl; [exact F|]. intros tm (nd & L & _).
    eapply valid_lookup, L. }
  rewrite (and_then_ok _ _ _ _ _ Hc).
  rewrite (and_then_ok _ _ _ _ _ (split_terms_front _ _ _ F HC)).
  cbn [fst snd]. rewrite (and_then_ok _ _ _ _ _ (with_levels_leveled T s' V)).
  rewrite (swap_sort_id _ _ Ho), leveled_terms. reflexivity.
Qed.

(** The first pass: where the first of the sorted terms is added,
    [rebalanceSum] returns the canonical sum. *)
Lemma rebalanceSum_sum_tree s p nd ct s1 first :
  good s -> sum_tree s p ->
  allNodes s !! p = Some nd -> is_sum (op nd) = true ->
  sum_terms (S p) p s = Ok ct s1 ->
  snd ct !! 0%nat = Some first -> snd first = true ->
  exists r s2,
    returns (fun n => rebalanceSum n p) s r s2 /\ good s2 /\ canonical s2 r.
Proof.
  intros G Hst L Hs H1 Hf Hp1. pose proof G as [W Sh].
  assert (type nd = Int) as Tn.
  { inversion Hst as [? n L' T Hs' _|? n a b L' T _ _ _ _|? n a L' Ho _ _];
      subst; rewrite L in L'; injection L' as <-.
    - congruence.
    - exact T.
    - destruct (sh_kind _ Sh _ _ L) as [K _]. rewrite Ho in K.
      apply type_eqb_eq in K. exact K. }
  destruct (sum_terms_returns s p nd G L Hs)
    as (ct' & s1' & first' & Hall & G1 & E1 & _ & _ & _).
  pose proof (Hall (S p) ltac:(lia)) as H1'. rewrite H1 in H1'.
  injection H1' as <- <-.
  destruct (sum_terms_inv _ _ _ _ _ W H1) as (terms & C & HF & _).
  destruct (collectSum_sum_tree s p Hst s (ext_refl s) W (S p) true []
              ltac:(lia)) as (new & s' & C' & _ & _ & Fnew).
  rewrite C in C'. injection C' as En Es. simpl in En. subst new s'.
  destruct (HF _ Fnew) as [_ Fn].
  destruct (sum_terms_sorted _ _ _ _ _ W H1) as [Hord Fnc].
  assert (Forall (int_term s1) (snd ct)) as Fa.
  { apply Forall_forall. intros tm Hin.
    rewrite Forall_forall in Fn, Fnc.
    destruct (Fn _ Hin) as (n & Ln & Tm & Sm & Dm).
    destruct (Fnc _ Hin) as (n' & Ln' & On').
    rewrite Ln in Ln'. injection Ln' as <-.
    exists n. repeat (split; [assumption|]).
    destruct Dm as [Dm|Dm]; [contradiction|exact Dm]. }
  destruct (snd ct) as [|f rest] eqn:Ect; [discriminate Hf|].
  injection Hf as ->.
  pose proof Fa as Fa'.
  apply Forall_cons in Fa' as [(nf & Lf & Tf & Sf & Df) Fr].
  destruct (rebuild_chain 0 rest (fst first) s1 nf G1 Lf Tf Df Fr)
    as (acc & s2 & Hrb & G2 & E2 & Hc).
  destruct (ext_lookup _ _ _ _ E2 Lf) as (nf2 & Lf2 & Sf2).
  apply strip_fields in Sf2 as (Tf2 & _ & _ & _ & _ & Df2 & _).
  destruct (sum_chain_top s2 rest (fst first) acc nf2 G2 Lf2
              ltac:(congruence) ltac:(congruence) Hc)
    as (nacc & Lacc & Tacc & Dacc & _).
  set (c := wrap (signed_total (fst ct) s1)).
  assert (forall n, (S p <= n)%nat ->
            rebalanceSum n p s =
              (if c =? 0 then Ok acc s2
               else make n PlusImm [acc] c fzero s2)) as Eq.
  { intros n Hn.
    erewrite rebalanceSum_int_tail;
      [|exact W|exact L|exact Hs|exact Tn|apply Hall; lia
       |rewrite Ect; reflexivity
       |rewrite Ect, Hp1; eapply rebuild_fuel; [|exact Hrb]; lia].
    reflexivity. }
  assert (Forall (int_term s2) (first :: rest)) as Fa2.
  { eapply Forall_impl; [exact Fa|]. intros tm. apply int_term_ext, E2. }
  assert (ordered (leveled s2 (first :: rest))) as Ho2.
  { rewrite (leveled_ext s1 s2 _ E2); [exact Hord|].
    apply int_terms_valid, Fa. }
  destruct (Z.eq_dec c 0) as [Hc0|Hc0].
  - exists acc, s2. split.
    { exists (S p). intros n Hn. rewrite (Eq n Hn), Hc0. reflexivity. }
    split; [exact G2|]. exists first, rest, acc. auto 10.
  - pose proof (proj2 (Z.eqb_neq _ _) Hc0) as Hc'.
    destruct (make_plusimm_returns 0 acc c s2 nacc G2 Lacc Dacc)
      as (r & s3 & nr & Hmk & G3 & E3 & Lr & Tr & Or & Ir & Iv & Fv).
    exists r, s3. split.
    { exists (S p). intros n Hn. rewrite (Eq n Hn), Hc'.
      eapply make_fuel; [|exact Hmk]. lia. }
    split; [exact G3|]. exists first, rest, acc. split.
    { eapply Forall_impl; [exact Fa2|]. intros tm. apply int_term_ext, E3. }
    split; [exact Hp1|]. split.
    { rewrite (leveled_ext s2 s3 _ E3); [exact Ho2|].
      apply int_terms_valid, Fa2. }
    split; [eapply sum_chain_ext; eassumption|]. right. exists nr, c.
    split; [exact Lr|]. split; [apply same_node_intro; assumption|].
    split; [exact Hc0|apply wrap_idem].
Qed.

(** The second pass: on a canonical sum, [rebalanceSum] returns the
    sum. *)
Lemma rebalanceSum_canonical s r :
  good s -> canonical s r ->
  exists s', returns (fun n => rebalanceSum n r) s r s'.
Proof.
  intros G ([tp tb] & rest & acc & Fa & Hp & Ho & Hc & Hr).
  pose proof G as [W Sh]. pose proof Fa as Fa'.
  apply Forall_cons in Fa' as [(nt & Lt & Tt & St & Dt) Fr].
  simpl in Hp, Lt, Hc. subst tb.
  destruct (sum_chain_top s rest tp acc nt G Lt Tt Dt Hc)
    as (nacc & Lacc & Tacc & Dacc & Hsum).
  assert (forall s', ext s s' -> good s' ->
          forall fuel acc0, (acc < fuel)%nat ->
            collectSum fuel acc true acc0 s'
            = Ok (acc0 ++ (tp, true) :: rest) s') as Hcol.
  { intros s' E' G' fuel acc0 Hfuel.
    destruct (ext_lookup _ _ _ _ E' Lt) as (nt' & Lt' & S').
    apply strip_fields in S' as (_ & Ot' & _).
    apply (collectSum_chain s' rest tp acc [(tp, true)] G').
    - eapply sum_chain_ext; eassumption.
    - eapply Forall_impl; [exact Fr|]. intros tm A.
      eapply int_term_atom, int_term_ext; eassumption.
    - intros f a0 Hlt. destruct f as [|f]; [lia|].
      eapply collectSum_atom; [exact Lt'|]. rewrite Ot'. exact St.
    - exact Hfuel. }
  assert (forall s' n, ext s s' -> good s' ->
            rebuild (make (S n)) rest tp true s' = Ok (acc, true) s') as Hrep.
  { intros s' n E' G'.
    destruct (ext_lookup _ _ _ _ E' Lt) as (nt' & Lt' & S').
    apply strip_fields in S' as (Tt' & _ & _ & _ & _ & Dt' & _).
    eapply rebuild_replay; [exact G'|exact Lt'|congruence|congruence| |].
    - eapply Forall_impl; [exact Fr|]. intros tm. apply int_term_ext, E'.
    - eapply sum_chain_ext; eassumption. }
  destruct Hr as [->|(nr & c & Lr & Sr & Hc0 & Hw)].
  - destruct rest as [|next rest].
    + simpl in Hc. subst acc. exists s, 0%nat. intros n _.
      exact (rebalance_leaf _ _ _ _ _ Lt St).
    + specialize (Hsum ltac:(discriminate)).
      exists s, (S acc). intros n Hn.
      assert (sum_terms n acc s = Ok ([], (tp, true) :: next :: rest) s)
        as Hst.
      { apply sum_terms_chain.
        - rewrite app_nil_r.
          apply (Hcol s (ext_refl s) G n []). lia.
        - eapply Forall_impl; [exact Fa|]. intros tm.
          apply int_term_nonconst, W.
        - reflexivity.
        - exact Ho. }
      destruct n as [|n]; [lia|].
      erewrite rebalanceSum_int_tail;
        [|exact W|exact Lacc|exact Hsum|exact Tacc|exact Hst
         |reflexivity|apply (Hrep s n (ext_refl s) G)].
      reflexivity.
  - pose proof (same_node_inv _ _ _ _ _ _ Sr) as (Ivr & Or & Tr & Ir).
    pose proof (sh_inputs _ Sh _ _ Lr) as Fi. rewrite Ir in Fi.
    inversion Fi as [|? ? Hlt _]; subst.
    destruct (make_int_returns (ival nr) s) as (k & s' & Hk).
    destruct (make_int_good _ _ _ _ G Hk)
      as (G' & E' & nk & Lk & Tk & Ok' & Ik & _).
    exists s', (S r). intros n Hn.
    assert (sum_terms n r s = Ok ([(k, true)], (tp, true) :: rest) s')
      as Hst.
    { apply sum_terms_chain.
      - destruct n as [|n]; [lia|].
        rewrite collectSum_S, (and_then_ok _ _ _ _ _ (get_ok _ _ _ Lr)).
        rewrite Or, Ir. unfold and_then, at_. simpl.
        rewrite (Hcol s (ext_refl s) G n []) by lia. rewrite Hk.
        reflexivity.
      - eapply Forall_impl; [exact Fa|]. intros tm A.
        eapply int_term_nonconst; [exact (proj1 G')|].
        eapply int_term_ext; eassumption.
      - simpl. unfold and_then. rewrite (get_ok _ _ _ Lk), Ok'. reflexivity.
      - rewrite (leveled_ext s s' _ E'); [exact Ho|].
        apply int_terms_valid, Fa. }
    destruct n as [|n]; [lia|].
    erewrite rebalanceSum_int_tail;
      [|exact W|exact Lr|rewrite Or; reflexivity|exact Tr|exact Hst
       |reflexivity|apply (Hrep s' n E' G')].
    cbn [fst snd signed_total]. rewrite Lk, Ik, Z.add_0_r, Hw.
    rewrite (proj2 (Z.eqb_neq _ _) Hc0).
    destruct (ext_lookup _ _ _ _ E' Lacc) as (nacc' & Lacc' & S').
    apply strip_fields in S' as (_ & _ & _ & _ & _ & Dacc' & _).
    destruct (same_node_ext _ _ _ _ _ _ _ _ _ E' Lr Sr) as (nr' & Lr' & Sr').
    eapply plusimm_replay; [exact G'|exact Lacc'|congruence|exact Lr'
                           |exact Sr'].
Qed.

(** Where nothing is subtracted, the first of the sorted terms is
    added. *)
Lemma plus_tree_first s p ct s1 first :
  wf s -> plus_tree s p ->
  sum_terms (S p) p s = Ok ct s1 -> snd ct !! 0%nat = Some first ->
  snd first = true.
Proof.
  intros W Hpt H1 Hf.
  destruct (sum_terms_inv _ _ _ _ _ W H1) as (terms & C & HF & _).
  destruct (collectSum_plus_tree s p Hpt s (ext_refl s) W (S p) []
              ltac:(lia)) as (new & s' & C' & _ & _ & Fnew).
  rewrite C in C'. injection C' as En Es. simpl in En. subst new s'.
  destruct (HF _ Fnew) as [_ Fn].
  rewrite Forall_lookup in Fn. exact (Fn _ _ Hf).
Qed.

(** C5 holds of the sums in which the term that comes first in the order
    of the levels is added, among them all sums in which nothing is
    subtracted, and of the nodes that are no sums; it does not hold of
    every node.  For a sum of type [Int] that is built from [Plus],
    [Minus] and [PlusImm] over nodes that are constants or depend on
    something, and in which the first of the sorted terms is added,
    [rebalanceSum] returns, under every recursion bound that is large
    enough, a node on which a second call returns that same node.  That is
    so for every such sum without a [Minus].  And on every node that is no
    sum, the call returns the node and builds nothing. *)
Theorem rebalanceSum_twice :
  (forall s p ct s1 first,
     reachable s -> sum_tree s p ->
     returns (fun n => sum_terms n p) s ct s1 ->
     snd ct !! 0%nat = Some first -> snd first = true ->
     exists r s2 s3,
       returns (fun n => rebalanceSum n p) s r s2
       /\ returns (fun n => rebalanceSum n r) s2 r s3)
  /\ (forall s p,
        reachable s -> plus_tree s p ->
        exists r s2 s3,
          returns (fun n => rebalanceSum n p) s r s2
          /\ returns (fun n => rebalanceSum n r) s2 r s3)
  /\ (forall n s r nr,
        allNodes s !! r = Some nr -> is_sum (op nr) = false ->
        rebalanceSum n r s = Ok r s).
Proof.
  assert (forall s p ct s1 first,
            reachable s -> sum_tree s p ->
            sum_terms (S p) p s = Ok ct s1 ->
            snd ct !! 0%nat = Some first -> snd first = true ->
            exists r s2 s3,
              returns (fun n => rebalanceSum n p) s r s2
              /\ returns (fun n => rebalanceSum n r) s2 r s3) as Hgen.
  { intros s p ct s1 first R Hst H1 Hf Hp. pose proof (good_reachable _ R) as G.
    assert (exists nd, allNodes s !! p = Some nd) as [nd L].
    { inversion Hst; eauto. }
    destruct (is_sum (op nd)) eqn:Hs.
    - destruct (rebalanceSum_sum_tree s p nd ct s1 first G Hst L Hs H1 Hf Hp)
        as (r & s2 & Hr & G2 & Hc).
      destruct (rebalanceSum_canonical s2 r G2 Hc) as [s3 H3].
      exists r, s2, s3. auto.
    - exists p, s, s. split; exists 0%nat; intros n _;
        exact (rebalance_leaf _ _ _ _ _ L Hs). }
  split; [|split].
  - intros s p ct s1 first R Hst [N Hall] Hf Hp.
    pose proof (good_reachable _ R) as G.
    assert (exists nd, allNodes s !! p = Some nd) as [nd L].
    { inversion Hst; eauto. }
    destruct (collectSum_sum_tree s p Hst s (ext_refl s) (proj1 G) (S p)
                true [] ltac:(lia)) as (new & s' & C & W' & _ & F).
    assert (exists ct' s1', sum_terms (S p) p s = Ok ct' s1')
      as (ct' & s1' & H1).
    { destruct (split_terms_returns ([] ++ new) s') as [cn Hsp].
      { eapply Forall_impl; [exact F|]. intros tm (m & Lm & _).
        eapply valid_lookup, Lm. }
      destruct (split_terms_spec _ _ _ _ W' Hsp) as [Fn _].
      destruct (with_levels_returns _ _ Fn) as (lv & Hl & _).
      eexists _, _. unfold sum_terms.
      erewrite and_then_ok; [|exact C]. erewrite and_then_ok; [|exact Hsp].
      erewrite and_then_ok; [|exact Hl]. reflexivity. }
    assert (ct' = ct /\ s1' = s1) as [-> ->].
    { pose proof (Hall (Nat.max N (S p)) ltac:(lia)) as H2.
      destruct (mono_le (fun k => sum_terms k p)
                  (fun k => sum_terms_mono _ _ (collectSum_mono k) p)
                  (S p) (Nat.max N (S p)) ltac:(lia) s) as [E|E].
      - rewrite H1 in E. discriminate E.
      - rewrite H1, H2 in E. injection E as -> ->. auto. }
    eapply Hgen; eassumption.
  - intros s p R Hpt. pose proof (good_reachable _ R) as G.
    assert (exists nd, allNodes s !! p = Some nd) as [nd L].
    { inversion Hpt; eauto. }
    destruct (is_sum (op nd)) eqn:Hs.
    + destruct (sum_terms_returns s p nd G L Hs)
        as (ct & s1 & first & Hall & _ & _ & Hf & _).
      pose proof (Hall (S p) ltac:(lia)) as H1.
      eapply Hgen; [exact R|apply plus_sum_tree, Hpt|exact H1|exact Hf|].
      eapply plus_tree_first; [exact (proj1 G)|exact Hpt|exact H1|exact Hf].
    + exists p, s, s. split; exists 0%nat; intros n _;
        exact (rebalance_leaf _ _ _ _ _ L Hs).
  - intros n s r nr L Hs. exact (rebalance_leaf _ _ _ _ _ L Hs).
Qed.

Lemma rebalanceSum_twice_witness :
  (exists r s2 s3,
     returns (fun n => rebalanceSum n 2%nat) (store_after t_minus_x) r s2
     /\ returns (fun n => rebalanceSum n r) s2 r s3)
  /\ (exists r s2 s3,
        returns (fun n => rebalanceSum n 4%nat) (store_after nested_sum) r s2
        /\ returns (fun n => rebalanceSum n r) s2 r s3).
Proof.
  split.
  - apply (proj1 rebalanceSum_twice (store_after t_minus_x) 2%nat
             ([], [(0%nat, true); (1%nat, false)]) (store_after t_minus_x)
             (0%nat, true) (store_after_reachable t_minus_x)).
    + eapply sum_node;
        [vm_compute; reflexivity|reflexivity|right; reflexivity|reflexivity
        | |];
        (eapply sum_leaf;
         [vm_compute; reflexivity|reflexivity|reflexivity
         |right; vm_compute; discriminate]).
    + exists 3%nat. intros n Hn.
      destruct (mono_le (fun k => sum_terms k 2%nat)
                  (fun k => sum_terms_mono _ _ (collectSum_mono k) 2%nat)
                  3%nat n Hn (store_after t_minus_x)) as [E|E].
      * vm_compute in E. discriminate E.
      * rewrite <- E. vm_compute. reflexivity.
    + reflexivity.
    + reflexivity.
  - apply (proj1 (proj2 rebalanceSum_twice) (store_after nested_sum)
             4%nat (store_after_reachable nested_sum)).
    eapply plus_plus;
      [vm_compute; reflexivity|reflexivity|reflexivity|reflexivity| |].
    + eapply plus_atom;
        [vm_compute; reflexivity|reflexivity|reflexivity|left; reflexivity].
    + eapply plus_plus;
        [vm_compute; reflexivity|reflexivity|reflexivity|reflexivity| |].
      * eapply plus_atom;
          [vm_compute; reflexivity|reflexivity|reflexivity
          |right; vm_compute; discriminate].
      * eapply plus_atom;
          [vm_compute; reflexivity|reflexivity|reflexivity|left; reflexivity].
Defined.
